(** * pubgrub-go: version-set algebra, terms, incompatibilities,
      partial solution and the decision step of the solver

    A shallow embedding of the Go sources.  Each definition carries the
    name of the Go function it embeds and the file it lives in. *)

From Stdlib Require Import ZArith Bool List Lia OrderedTypeEx Sorted.
From stdpp Require Import base gmap strings list.
Import ListNotations.
Open Scope Z_scope.

(** ** Versions (interface [Version])

    The solver is agnostic of the version type: it only uses [Sort] (a
    three-way comparison returning a Go [int]) and [String].  A nil
    interface value is [None] of [option V] wherever the code tests
    [version == nil]. *)

Class Version (V : Type) := {
  Sort : V -> V -> Z;
  VersionString : V -> string;
  Sort_antisym : forall a b, Z.sgn (Sort b a) = - Z.sgn (Sort a b);
  Sort_trans : forall a b c, Sort a b <= 0 -> Sort b c <= 0 -> Sort a c <= 0
}.

(** Package names are interned strings ([unique.Handle[string]]): a
    handle is either the zero value of the type ([None]) or made from a
    string by [unique.Make]; two handles made from strings are equal
    exactly when the strings are. *)
Abbreviation Name := (option string).

Definition MakeName (s : string) : Name := Some s.
Definition EmptyName : Name := Some ""%string.

(** ** simple_version.go: [SimpleVersion], strings compared lexically *)

Definition SimpleVersion := string.

(** [strings.Compare] *)
Definition strings_Compare (a b : string) : Z :=
  match String.compare a b with
  | Lt => -1
  | Eq => 0
  | Gt => 1
  end.

(** [SimpleVersion] implements [Version]: the comparison is a total
    order on strings. *)
#[export] Instance SimpleVersion_Version : Version SimpleVersion.
Proof.
  refine {| Sort := strings_Compare; VersionString := fun v => v |}.
  - intros a b. unfold strings_Compare.
    rewrite (String.compare_antisym b a).
    destruct (String.compare a b); reflexivity.
  - assert (Hle : forall a b,
              strings_Compare a b <= 0 <-> ~ String_as_OT.lt b a).
    { intros a b. unfold strings_Compare.
      destruct (String.compare a b) eqn:E.
      - apply String.compare_eq_iff in E. subst b.
        split; [intros _ Haa | lia].
        exact (String_as_OT.lt_not_eq _ _ Haa eq_refl).
      - apply String_as_OT.cmp_lt in E.
        split; [intros _ Hba | lia].
        exact (String_as_OT.lt_not_eq _ _
                 (String_as_OT.lt_trans _ _ _ E Hba) eq_refl).
      - split; [lia | intros Hn]. exfalso. apply Hn.
        apply String_as_OT.cmp_lt. rewrite String.compare_antisym.
        unfold String_as_OT.cmp. rewrite E. reflexivity. }
    intros a b c. rewrite !Hle. intros Hba Hcb Hca.
    destruct (String_as_OT.compare b c) as [Hbc | Hbc | Hbc].
    + apply Hba. exact (String_as_OT.lt_trans _ _ _ Hbc Hca).
    + red in Hbc. subst c. exact (Hba Hca).
    + exact (Hcb Hbc).
Defined.

(** ** Version bounds and intervals (version_bound.go, version_interval.go) *)

Section VersionAlgebra.
Context {V : Type} `{Version V}.

(** [versionBound]: the struct has the fields [version], [inclusive]
    and the tag [infinite] in {-1, 0, 1}.  Every bound the package
    builds is either infinite with [inclusive = true] and no version, or
    finite with a non-nil version, which is what the three constructors
    below carry. *)
Inductive versionBound : Type :=
  | BoundNegativeInfinity
  | BoundFinite (version : V) (inclusive : bool)
  | BoundPositiveInfinity.

Definition boundNegativeInfinity : Z := -1.
Definition boundFinite : Z := 0.
Definition boundPositiveInfinity : Z := 1.

Definition infinite (b : versionBound) : Z :=
  match b with
  | BoundNegativeInfinity => boundNegativeInfinity
  | BoundFinite _ _ => boundFinite
  | BoundPositiveInfinity => boundPositiveInfinity
  end.

Definition newLowerBound (version : option V) (inclusive : bool) : versionBound :=
  match version with
  | None => BoundNegativeInfinity
  | Some v => BoundFinite v inclusive
  end.

Definition newUpperBound (version : option V) (inclusive : bool) : versionBound :=
  match version with
  | None => BoundPositiveInfinity
  | Some v => BoundFinite v inclusive
  end.

Definition negativeInfinityBound : versionBound := BoundNegativeInfinity.
Definition positiveInfinityBound : versionBound := BoundPositiveInfinity.

Definition isNegInfinity (b : versionBound) : bool := infinite b =? boundNegativeInfinity.
Definition isPosInfinity (b : versionBound) : bool := infinite b =? boundPositiveInfinity.
Definition isFinite (b : versionBound) : bool := infinite b =? boundFinite.

(** [compareLower]: inclusive lower bounds come before exclusive ones. *)
Definition compareLower (a b : versionBound) : Z :=
  match a, b with
  | BoundNegativeInfinity, BoundNegativeInfinity => 0
  | BoundNegativeInfinity, _ => -1
  | _, BoundNegativeInfinity => 1
  | BoundPositiveInfinity, BoundPositiveInfinity => 0
  | BoundPositiveInfinity, _ => 1
  | _, BoundPositiveInfinity => -1
  | BoundFinite va ia, BoundFinite vb ib =>
      let cmp := Sort va vb in
      if negb (cmp =? 0) then cmp
      else if Bool.eqb ia ib then 0
      else if ia then -1 else 1
  end.

(** [compareUpper]: inclusive upper bounds come after exclusive ones. *)
Definition compareUpper (a b : versionBound) : Z :=
  match a, b with
  | BoundPositiveInfinity, BoundPositiveInfinity => 0
  | BoundPositiveInfinity, _ => 1
  | _, BoundPositiveInfinity => -1
  | BoundNegativeInfinity, BoundNegativeInfinity => 0
  | BoundNegativeInfinity, _ => -1
  | _, BoundNegativeInfinity => 1
  | BoundFinite va ia, BoundFinite vb ib =>
      let cmp := Sort va vb in
      if negb (cmp =? 0) then cmp
      else if Bool.eqb ia ib then 0
      else if ia then 1 else -1
  end.

Record versionInterval : Type := mkInterval {
  lower : versionBound;
  upper : versionBound
}.

(** [versionInterval.isEmpty] *)
Definition isEmpty (iv : versionInterval) : bool :=
  if isPosInfinity (lower iv) || isNegInfinity (upper iv) then true
  else if isNegInfinity (lower iv) && isPosInfinity (upper iv) then false
  else if isNegInfinity (lower iv) then false
  else if isPosInfinity (upper iv) then false
  else
    match lower iv, upper iv with
    | BoundFinite vl il, BoundFinite vu iu =>
        let cmp := Sort vl vu in
        if cmp <? 0 then false
        else if cmp >? 0 then true
        else negb il || negb iu
    | _, _ => false
    end.

(** [newInterval]: [None] stands for the [(versionInterval{}, false)] result. *)
Definition newInterval (lo up : versionBound) : option versionInterval :=
  let interval := mkInterval lo up in
  if isEmpty interval then None else Some interval.

(** [versionInterval.contains].  A lower bound [+∞] or an upper bound
    [-∞] occurs only in an empty interval, which no set holds; the Go
    code would compare against a nil version there, the model lets the
    test of that end pass. *)
Definition contains (iv : versionInterval) (version : option V) : bool :=
  match version with
  | None => false
  | Some v =>
      let okLower :=
        match lower iv with
        | BoundFinite vl il =>
            let cmp := Sort v vl in
            if cmp <? 0 then false
            else if (cmp =? 0) && negb il then false
            else true
        | BoundPositiveInfinity => true
        | BoundNegativeInfinity => true
        end in
      let okUpper :=
        match upper iv with
        | BoundFinite vu iu =>
            let cmp := Sort v vu in
            if cmp >? 0 then false
            else if (cmp =? 0) && negb iu then false
            else true
        | BoundNegativeInfinity => true
        | BoundPositiveInfinity => true
        end in
      if negb okLower then false else okUpper
  end.

(** [upperLessThanLower]: "true if upper bound is strictly less than
    lower bound"; with equal versions it answers true as soon as one of
    the two ends is exclusive. *)
Definition upperLessThanLower (up lo : versionBound) : bool :=
  if isNegInfinity up then negb (isNegInfinity lo)
  else if isPosInfinity lo then negb (isPosInfinity up)
  else if isPosInfinity up then false
  else if isNegInfinity lo then false
  else
    match up, lo with
    | BoundFinite vu iu, BoundFinite vl il =>
        let cmp := Sort vu vl in
        if cmp <? 0 then true
        else if cmp >? 0 then false
        else negb iu || negb il
    | _, _ => false
    end.

(** [versionInterval.overlaps] *)
Definition overlaps (iv other : versionInterval) : bool :=
  if upperLessThanLower (upper iv) (lower other) then false
  else if upperLessThanLower (upper other) (lower iv) then false
  else true.

(** [versionInterval.touches] *)
Definition touches (iv other : versionInterval) : bool :=
  negb (upperLessThanLower (upper iv) (lower other)) &&
  negb (upperLessThanLower (upper other) (lower iv)).

(** Generic [min] and [max] with a comparison function. *)
Definition min {T : Type} (a b : T) (compare : T -> T -> Z) : T :=
  if compare a b <=? 0 then a else b.

Definition max {T : Type} (a b : T) (compare : T -> T -> Z) : T :=
  if compare a b >=? 0 then a else b.

(** [versionInterval.merge] *)
Definition merge (iv other : versionInterval) : versionInterval :=
  {| lower := min (lower iv) (lower other) compareLower;
     upper := max (upper iv) (upper other) compareUpper |}.

(** [versionInterval.covers] *)
Definition covers (iv other : versionInterval) : bool :=
  if compareLower (lower iv) (lower other) >? 0 then false
  else if compareUpper (upper iv) (upper other) <? 0 then false
  else true.

(** [complementLowerBound] and [complementUpperBound] *)
Definition complementLowerBound (iv : versionInterval) : versionBound :=
  match upper iv with
  | BoundPositiveInfinity => positiveInfinityBound
  | BoundNegativeInfinity => negativeInfinityBound
  | BoundFinite v i => BoundFinite v (negb i)
  end.

Definition complementUpperBound (iv : versionInterval) : versionBound :=
  match lower iv with
  | BoundNegativeInfinity => negativeInfinityBound
  | BoundPositiveInfinity => positiveInfinityBound
  | BoundFinite v i => BoundFinite v (negb i)
  end.

(** [slices.SortFunc] with the comparison of [normalizeIntervals].  The
    library sort promises only a result ordered by the comparison; this
    is the stable insertion sort, one of its admissible results. *)
Fixpoint insertByLower (x : versionInterval) (l : list versionInterval)
  : list versionInterval :=
  match l with
  | [] => [x]
  | y :: l' =>
      if compareLower (lower x) (lower y) <=? 0 then x :: y :: l'
      else y :: insertByLower x l'
  end.

Definition sortByLower (l : list versionInterval) : list versionInterval :=
  foldr insertByLower [] l.

(** The merging sweep of [normalizeIntervals]: [last] is the interval
    at the end of [merged]. *)
Fixpoint mergeSweep (last : versionInterval) (rest : list versionInterval)
  : list versionInterval :=
  match rest with
  | [] => [last]
  | current :: rest' =>
      if touches last current then mergeSweep (merge last current) rest'
      else last :: mergeSweep current rest'
  end.

(** [normalizeIntervals] *)
Definition normalizeIntervals (intervals : list versionInterval)
  : list versionInterval :=
  let filtered := List.filter (fun iv => negb (isEmpty iv)) intervals in
  match sortByLower filtered with
  | [] => []
  | first :: rest => mergeSweep first rest
  end.

(** ** Version sets (version_interval_set.go)

    [VersionIntervalSet] is a struct with the single field [intervals];
    a nil slice and an empty slice are the same empty list.  A value of
    the interface type [VersionSet] is [option VersionIntervalSet], with
    [None] the nil interface. *)

Definition VersionIntervalSet : Type := list versionInterval.
Definition VersionSet : Type := option VersionIntervalSet.

Definition newVersionIntervalSet (intervals : list versionInterval)
  : VersionIntervalSet :=
  normalizeIntervals intervals.

Definition intervalSetFromBounds (lo up : versionBound) : VersionIntervalSet :=
  match newInterval lo up with
  | Some interval => newVersionIntervalSet [interval]
  | None => []
  end.

Definition cloneIntervals (s : VersionIntervalSet) : list versionInterval := s.

Definition Empty : VersionIntervalSet := [].

Definition Full : VersionIntervalSet :=
  [ {| lower := negativeInfinityBound; upper := positiveInfinityBound |} ].

Definition EmptyVersionSet : VersionIntervalSet := [].
Definition FullVersionSet : VersionIntervalSet :=
  [ {| lower := negativeInfinityBound; upper := positiveInfinityBound |} ].

Definition Singleton (version : option V) : VersionIntervalSet :=
  match version with
  | None => []
  | Some _ =>
      match newInterval (newLowerBound version true) (newUpperBound version true) with
      | Some interval => [interval]
      | None => []
      end
  end.

(** [asIntervalSet]: the nil interface is the empty set. *)
Definition asIntervalSet (set : VersionSet) : VersionIntervalSet :=
  match set with
  | None => []
  | Some iv => iv
  end.

Definition Union (s : VersionIntervalSet) (other : VersionSet) : VersionIntervalSet :=
  let o := asIntervalSet other in
  newVersionIntervalSet (cloneIntervals s ++ o).

Definition intersectInterval (a b : versionInterval) : option versionInterval :=
  newInterval (max (lower a) (lower b) compareLower)
              (min (upper a) (upper b) compareUpper).

(** The two-index sweep of [Intersection]: the index of the interval
    that ends first advances. *)
Fixpoint intersectionSweep (si : list versionInterval)
  : list versionInterval -> list versionInterval :=
  fix sweep (oi : list versionInterval) : list versionInterval :=
    match si, oi with
    | a :: si', b :: oi' =>
        let emitted :=
          match intersectInterval a b with
          | Some interval => [interval]
          | None => []
          end in
        if compareUpper (upper a) (upper b) <? 0
        then emitted ++ intersectionSweep si' oi
        else emitted ++ sweep oi'
    | _, _ => []
    end.

Definition Intersection (s : VersionIntervalSet) (other : VersionSet)
  : VersionIntervalSet :=
  let o := asIntervalSet other in
  match s, o with
  | [], _ => []
  | _, [] => []
  | _, _ => newVersionIntervalSet (intersectionSweep s o)
  end.

(** The loop of [Complement], with the rolling lower bound. *)
Fixpoint complementGaps (currentLower : versionBound)
    (intervals : list versionInterval) : list versionInterval :=
  match intervals with
  | [] =>
      match newInterval currentLower positiveInfinityBound with
      | Some tail => [tail]
      | None => []
      end
  | interval :: rest =>
      let gapUpper := complementUpperBound interval in
      let gaps :=
        match newInterval currentLower gapUpper with
        | Some gap => [gap]
        | None => []
        end in
      gaps ++ complementGaps (complementLowerBound interval) rest
  end.

Definition Complement (s : VersionIntervalSet) : VersionIntervalSet :=
  match s with
  | [] => Full
  | _ => newVersionIntervalSet (complementGaps negativeInfinityBound s)
  end.

Definition Contains (s : VersionIntervalSet) (version : option V) : bool :=
  existsb (fun interval => contains interval version) s.

Definition IsEmpty (s : VersionIntervalSet) : bool :=
  (Z.of_nat (length s) =? 0).

(** The sweep of [IsSubset]. *)
Fixpoint subsetSweep (si : list versionInterval)
  : list versionInterval -> bool :=
  fix sweep (oi : list versionInterval) : bool :=
    match si with
    | [] => true
    | a :: si' =>
        match oi with
        | [] => false
        | b :: oi' =>
            if covers b a then subsetSweep si' oi
            else if upperLessThanLower (upper b) (lower a) then sweep oi'
            else false
        end
    end.

Definition IsSubset (s : VersionIntervalSet) (other : VersionSet) : bool :=
  match s with
  | [] => true
  | _ =>
      let o := asIntervalSet other in
      match o with
      | [] => false
      | _ => subsetSweep s o
      end
  end.

(** The sweep of [IsDisjoint]. *)
Fixpoint disjointSweep (si : list versionInterval)
  : list versionInterval -> bool :=
  fix sweep (oi : list versionInterval) : bool :=
    match si, oi with
    | a :: si', b :: oi' =>
        if overlaps a b then false
        else if compareUpper (upper a) (upper b) <? 0 then disjointSweep si' oi
        else sweep oi'
    | _, _ => true
    end.

Definition IsDisjoint (s : VersionIntervalSet) (other : VersionSet) : bool :=
  match s with
  | [] => true
  | _ =>
      let o := asIntervalSet other in
      match o with
      | [] => true
      | _ => disjointSweep s o
      end
  end.

(** [singletonVersionFromSet] *)
Definition singletonVersionFromSet (set : VersionSet) : option V :=
  match set with
  | Some [interval] =>
      match lower interval, upper interval with
      | BoundFinite vl il, BoundFinite vu iu =>
          if negb (Sort vl vu =? 0) then None
          else if negb il || negb iu then None
          else Some vl
      | _, _ => None
      end
  | _ => None
  end.

(** [NewVersionRangeSet], [NewLowerBoundVersionSet], [NewUpperBoundVersionSet] *)
Definition NewVersionRangeSet (lo : option V) (lowerInclusive : bool)
    (up : option V) (upperInclusive : bool) : VersionIntervalSet :=
  intervalSetFromBounds (newLowerBound lo lowerInclusive)
                        (newUpperBound up upperInclusive).

Definition NewLowerBoundVersionSet (version : option V) (inclusive : bool)
  : VersionIntervalSet :=
  intervalSetFromBounds (newLowerBound version inclusive) positiveInfinityBound.

Definition NewUpperBoundVersionSet (version : option V) (inclusive : bool)
  : VersionIntervalSet :=
  intervalSetFromBounds negativeInfinityBound (newUpperBound version inclusive).

(** [setsEqual] (term_utils.go) *)
Definition setsEqual (a b : VersionSet) : bool :=
  match a, b with
  | Some sa, Some sb => IsSubset sa b && IsSubset sb a
  | None, None => true
  | _, _ => false
  end.

End VersionAlgebra.

Arguments versionBound V : clear implicits.
Arguments versionInterval V : clear implicits.
Arguments VersionIntervalSet V : clear implicits.
Arguments VersionSet V : clear implicits.

(** ** Conditions and terms (condition.go, term.go, term_utils.go) *)

Section Terms.
Context {V : Type} `{Version V}.

(** The dynamic types the type switches of term_utils.go tell apart:
    the value [EqualsCondition], the pointers [*EqualsCondition] and
    [*VersionSetCondition] (each possibly nil, the latter with a
    possibly nil [Set]), and any other implementation of the interface
    [Condition], known by its methods only. *)
Inductive Condition : Type :=
  | EqualsCondition (Version : option V)
  | EqualsConditionPtr (cond : option (option V))
  | VersionSetConditionPtr (cond : option (VersionSet V))
  | CustomCondition (String : string) (Satisfies : V -> bool).

Definition NewVersionSetCondition (set : VersionSet V) : Condition :=
  VersionSetConditionPtr (Some set).

(** [Condition.Satisfies] on a non-nil version.  [None] is a run-time
    panic: [EqualsCondition.Satisfies] calls [String] on its own version
    and a method with a value receiver cannot run on a nil pointer. *)
Definition Satisfies (c : Condition) (ver : V) : option bool :=
  match c with
  | EqualsCondition (Some cv) =>
      Some (String.eqb (VersionString cv) (VersionString ver))
  | EqualsCondition None => None
  | EqualsConditionPtr (Some (Some cv)) =>
      Some (String.eqb (VersionString cv) (VersionString ver))
  | EqualsConditionPtr _ => None
  | VersionSetConditionPtr (Some (Some set)) => Some (Contains set (Some ver))
  | VersionSetConditionPtr _ => Some true
  | CustomCondition _ sat => Some (sat ver)
  end.

Record Term : Type := mkTerm {
  TermName : Name;
  TermCondition : option Condition;
  Positive : bool
}.

Definition NewTerm (name : Name) (condition : option Condition) : Term :=
  {| TermName := name; TermCondition := condition; Positive := true |}.

Definition NewNegativeTerm (name : Name) (condition : option Condition) : Term :=
  {| TermName := name; TermCondition := condition; Positive := false |}.

Definition Negate (t : Term) : Term :=
  {| TermName := TermName t;
     TermCondition := TermCondition t;
     Positive := negb (Positive t) |}.

Definition IsPositive (t : Term) : bool := Positive t.

(** [Term.SatisfiedBy]; [None] only where [Condition.Satisfies] panics. *)
Definition SatisfiedBy (t : Term) (ver : option V) : option bool :=
  match ver with
  | None => Some (negb (Positive t))
  | Some v =>
      match TermCondition t with
      | None => Some (Positive t)
      | Some c =>
          match Satisfies c v with
          | Some satisfied => Some (if Positive t then satisfied else negb satisfied)
          | None => None
          end
      end
  end.

(** The type switch shared by [termAllowedSet] and [termForbiddenSet]. *)
Definition conditionSet (condition : option Condition) : option (VersionIntervalSet V) :=
  match condition with
  | None => Some Full
  | Some (EqualsCondition v) => Some (Singleton v)
  | Some (EqualsConditionPtr None) => Some Full
  | Some (EqualsConditionPtr (Some v)) => Some (Singleton v)
  | Some (VersionSetConditionPtr None) => Some Full
  | Some (VersionSetConditionPtr (Some None)) => Some Full
  | Some (VersionSetConditionPtr (Some (Some set))) => Some set
  | Some (CustomCondition _ _) => None
  end.

(** [termAllowedSet]; [None] is the result [(nil, false)]. *)
Definition termAllowedSet (t : Term) : option (VersionIntervalSet V) :=
  if negb (Positive t) then None else conditionSet (TermCondition t).

(** [termForbiddenSet] *)
Definition termForbiddenSet (t : Term) : option (VersionIntervalSet V) :=
  if Positive t then None else conditionSet (TermCondition t).

(** [termFromAllowedSet] *)
Definition termFromAllowedSet (name : Name) (set : VersionSet V) : Term :=
  let set := match set with None => Some Full | Some _ => set end in
  match singletonVersionFromSet set with
  | Some version =>
      {| TermName := name;
         TermCondition := Some (EqualsCondition (Some version));
         Positive := true |}
  | None =>
      {| TermName := name;
         TermCondition := Some (NewVersionSetCondition set);
         Positive := true |}
  end.

(** [termFromForbiddenSet] *)
Definition termFromForbiddenSet (name : Name) (set : VersionSet V) : Term :=
  let set := match set with None => Some Full | Some _ => set end in
  {| TermName := name;
     TermCondition := Some (NewVersionSetCondition set);
     Positive := false |}.

(** ** Incompatibilities (incompatibility.go) *)

Inductive IncompatibilityKind : Type :=
  | KindNoVersions
  | KindFromDependency
  | KindConflict.

#[warnings="-register-all"]
Inductive Incompatibility : Type := mkIncompatibility {
  Terms : list Term;
  Kind : IncompatibilityKind;
  Cause1 : option Incompatibility;
  Cause2 : option Incompatibility;
  Package : Name;
  IncVersion : option V
}.

Definition NewIncompatibilityNoVersions (t : Term) : Incompatibility :=
  {| Terms := [t]; Kind := KindNoVersions;
     Cause1 := None; Cause2 := None; Package := None; IncVersion := None |}.

Definition NewIncompatibilityFromDependency (pkg : Name) (ver : option V)
    (dependency : Term) : Incompatibility :=
  let base := NewTerm pkg (Some (EqualsCondition ver)) in
  let negatedDep := Negate dependency in
  let terms := [base; negatedDep] in
  {| Terms := terms; Kind := KindFromDependency;
     Cause1 := None; Cause2 := None; Package := pkg; IncVersion := ver |}.

(** The deduplication loop of [NewIncompatibilityConflict]: [seen] is
    the map of the names met so far. *)
Fixpoint dedupTerms (seen : gmap Name Term) (terms : list Term) : list Term :=
  match terms with
  | [] => []
  | t :: rest =>
      match seen !! TermName t with
      | Some _ => dedupTerms seen rest
      | None => t :: dedupTerms (<[TermName t := t]> seen) rest
      end
  end.

Definition NewIncompatibilityConflict (terms : list Term)
    (cause1 cause2 : option Incompatibility) : Incompatibility :=
  let deduped := dedupTerms ∅ terms in
  {| Terms := deduped; Kind := KindConflict;
     Cause1 := cause1; Cause2 := cause2; Package := None; IncVersion := None |}.

(** ** Errors (error.go) *)

Inductive error : Type :=
  | errorString (msg : string)
  | errNoAllowedVersions
  | PackageNotFoundError (pkg : Name)
  | PackageVersionNotFoundError (pkg : Name) (ver : option V)
  | DependencyError (pkg : Name) (ver : option V) (Err : error)
  | VersionError (pkg : Name) (Message : string)
  | NoSolutionError (incomp : option Incompatibility)
  | ErrIterationLimit (Steps : Z)
  | ErrNoSolutionFound (t : Term)
  | wrapError (msg : string) (inner : error).

(** [Unwrap]: [DependencyError] and the errors made by [fmt.Errorf]
    with [%w] expose the error they wrap. *)
Definition Unwrap (e : error) : option error :=
  match e with
  | DependencyError _ _ inner => Some inner
  | wrapError _ inner => Some inner
  | _ => None
  end.

(** [errors.As(err, &pkgErr)] with [pkgErr *PackageNotFoundError] *)
Fixpoint errorsAsPackageNotFound (e : error) : bool :=
  match e with
  | PackageNotFoundError _ => true
  | DependencyError _ _ inner => errorsAsPackageNotFound inner
  | wrapError _ inner => errorsAsPackageNotFound inner
  | _ => false
  end.

(** [errors.As(err, &verErr)] with [verErr *PackageVersionNotFoundError] *)
Fixpoint errorsAsPackageVersionNotFound (e : error) : bool :=
  match e with
  | PackageVersionNotFoundError _ _ => true
  | DependencyError _ _ inner => errorsAsPackageVersionNotFound inner
  | wrapError _ inner => errorsAsPackageVersionNotFound inner
  | _ => false
  end.

(** [errors.Is(err, errNoAllowedVersions)] *)
Fixpoint errorsIsNoAllowedVersions (e : error) : bool :=
  match e with
  | errNoAllowedVersions => true
  | DependencyError _ _ inner => errorsIsNoAllowedVersions inner
  | wrapError _ inner => errorsIsNoAllowedVersions inner
  | _ => false
  end.

(** A Go result pair [(value, error)]. *)
Inductive result (A : Type) : Type :=
  | ok (a : A)
  | err (e : error).
Arguments ok {A} a.
Arguments err {A} e.

(** [applyTermToAllowed] (term_utils.go) *)
Definition applyTermToAllowed (current : VersionSet V) (t : Term)
  : result (VersionIntervalSet V) :=
  let current := match current with None => Full | Some c => c end in
  if Positive t then
    match termAllowedSet t with
    | None => err (errorString "term does not support positive conversion")
    | Some allowed => ok (Intersection current (Some allowed))
    end
  else
    match termForbiddenSet t with
    | None => err (errorString "term does not support negative conversion")
    | Some forbidden => ok (Intersection current (Some (Complement forbidden)))
    end.

End Terms.

Arguments Condition V : clear implicits.
Arguments Term V : clear implicits.
Arguments Incompatibility V : clear implicits.
Arguments error V : clear implicits.
Arguments result V A : clear implicits.
Arguments ok {V A} a.
Arguments err {V A} e.

(** ** Assignments and the partial solution (assignment.go, partial_solution.go) *)

Section PartialSolution.
Context {V : Type} `{Version V}.

Inductive assignmentKind : Type :=
  | assignmentDecision
  | assignmentDerivation.

Record assignment : Type := mkAssignment {
  name : Name;
  term : Term V;
  kind : assignmentKind;
  allowed : VersionSet V;
  forbidden : VersionSet V;
  version : option V;
  cause : option (Incompatibility V);
  decisionLevel : Z;
  index : Z
}.

Definition isDecision (a : assignment) : bool :=
  match kind a with
  | assignmentDecision => true
  | assignmentDerivation => false
  end.

(** [perPackage] is a Go map from names to slices; a missing key reads
    as the nil slice. *)
Record partialSolution : Type := mkPartialSolution {
  assignments : list assignment;
  perPackage : gmap Name (list assignment);
  decisionLvl : Z;
  nextIndex : Z;
  root : Name
}.

Definition newPartialSolution (root : Name) : partialSolution :=
  {| assignments := []; perPackage := ∅;
     decisionLvl := 0; nextIndex := 0; root := root |}.

(** [ps.perPackage[name]] *)
Definition stackOf (ps : partialSolution) (n : Name) : list assignment :=
  default [] (perPackage ps !! n).

Definition newDecisionAssignment (ps : partialSolution) (n : Name)
    (ver : option V) (level : Z) : assignment :=
  {| name := n;
     term := NewTerm n (Some (EqualsCondition ver));
     kind := assignmentDecision;
     allowed := Some (Singleton ver);
     forbidden := None;
     version := ver;
     cause := None;
     decisionLevel := level;
     index := nextIndex ps |}.

(** [partialSolution.append] *)
Definition append (ps : partialSolution) (assign : assignment) : partialSolution :=
  let stack := stackOf ps (name assign) in
  let stack := stack ++ [assign] in
  {| assignments := assignments ps ++ [assign];
     perPackage := <[name assign := stack]> (perPackage ps);
     decisionLvl := decisionLvl ps;
     nextIndex := nextIndex ps + 1;
     root := root ps |}.

(** [partialSolution.latest] *)
Definition latest (ps : partialSolution) (n : Name) : option assignment :=
  List.last (List.map Some (stackOf ps n)) None.

(** One iteration of the loop of [allowedSet]. *)
Definition allowedStep (current : VersionIntervalSet V) (assign : assignment)
  : VersionIntervalSet V :=
  if Positive (term assign) then
    match allowed assign with
    | Some a => Intersection current (Some a)
    | None => current
    end
  else
    match forbidden assign with
    | Some f => Intersection current (Some (Complement f))
    | None => current
    end.

(** [partialSolution.allowedSet] *)
Definition allowedSet (ps : partialSolution) (n : Name) : VersionIntervalSet V :=
  let stack := stackOf ps n in
  let full := FullVersionSet in
  match stack with
  | [] => full
  | _ => fold_left allowedStep stack full
  end.

(** [partialSolution.hasAssignments] *)
Definition hasAssignments (ps : partialSolution) (n : Name) : bool :=
  (Z.of_nat (length (stackOf ps n)) >? 0).

(** [partialSolution.addDecision] *)
Definition addDecision (ps : partialSolution) (n : Name) (ver : option V)
  : partialSolution * assignment :=
  let ps := {| assignments := assignments ps; perPackage := perPackage ps;
               decisionLvl := decisionLvl ps + 1;
               nextIndex := nextIndex ps; root := root ps |} in
  let assign := newDecisionAssignment ps n ver (decisionLvl ps) in
  (append ps assign, assign).

(** [partialSolution.seedRoot] *)
Definition seedRoot (ps : partialSolution) (n : Name) (ver : option V)
  : partialSolution * assignment :=
  let assign := newDecisionAssignment ps n ver 0 in
  (append ps assign, assign).

(** [partialSolution.addDerivation]: the new state together with the
    Go result [(assignment, changed, error)]. *)
Definition addDerivation (ps : partialSolution) (t : Term V)
    (c : option (Incompatibility V))
  : partialSolution * result V (assignment * bool) :=
  let currentAllowed := allowedSet ps (TermName t) in
  match applyTermToAllowed (Some currentAllowed) t with
  | err e => (ps, err e)
  | ok newAllowed =>
      if IsEmpty newAllowed then (ps, err errNoAllowedVersions)
      else
        let assign :=
          {| name := TermName t; term := t; kind := assignmentDerivation;
             allowed := None; forbidden := None; version := None;
             cause := c; decisionLevel := decisionLvl ps;
             index := nextIndex ps |} in
        let assignOrErr :=
          if Positive t then
            ok {| name := name assign; term := term assign; kind := kind assign;
                  allowed := Some newAllowed; forbidden := forbidden assign;
                  version := version assign; cause := cause assign;
                  decisionLevel := decisionLevel assign; index := index assign |}
          else
            match termForbiddenSet t with
            | None => err (errorString "unable to compute forbidden set for term")
            | Some f =>
                ok {| name := name assign; term := term assign; kind := kind assign;
                      allowed := allowed assign; forbidden := Some f;
                      version := version assign; cause := cause assign;
                      decisionLevel := decisionLevel assign; index := index assign |}
            end in
        match assignOrErr with
        | err e => (ps, err e)
        | ok assign =>
            let changed := negb (setsEqual (Some currentAllowed) (Some newAllowed)) in
            let ps := append ps assign in
            if changed && Positive t then (ps, ok (assign, true))
            else if changed && negb (Positive t) then
              let tightening :=
                {| name := TermName t;
                   term := termFromAllowedSet (TermName t) (Some newAllowed);
                   kind := assignmentDerivation;
                   allowed := Some newAllowed; forbidden := None; version := None;
                   cause := c; decisionLevel := decisionLvl ps;
                   index := nextIndex ps |} in
              (append ps tightening, ok (tightening, true))
            else (ps, ok (assign, changed))
        end
  end.

(** Removal of the last assignment inside the loop of [backtrack]:
    the stack of its package loses its last element and the map entry
    is deleted when the stack becomes empty. *)
Definition popStack (pp : gmap Name (list assignment)) (n : Name)
  : gmap Name (list assignment) :=
  let stack := default [] (pp !! n) in
  if (Z.of_nat (length stack) >? 0) then
    let stack := removelast stack in
    if (Z.of_nat (length stack) =? 0) then delete n pp
    else <[n := stack]> pp
  else pp.

(** The loop of [backtrack], over the log read from its tail:
    [revLog] is the chronological log reversed. *)
Fixpoint backtrackLoop (revLog : list assignment)
    (pp : gmap Name (list assignment)) (level : Z)
  : list assignment * gmap Name (list assignment) :=
  match revLog with
  | [] => ([], pp)
  | last :: rest =>
      if decisionLevel last <=? level then (revLog, pp)
      else backtrackLoop rest (popStack pp (name last)) level
  end.

(** [partialSolution.backtrack] *)
Definition backtrack (ps : partialSolution) (level : Z) : partialSolution :=
  let level := if level <? 0 then 0 else level in
  let '(revLog, pp) := backtrackLoop (rev (assignments ps)) (perPackage ps) level in
  {| assignments := rev revLog; perPackage := pp;
     decisionLvl := level; nextIndex := nextIndex ps; root := root ps |}.

(** [partialSolution.hasDecision] *)
Definition hasDecision (ps : partialSolution) (n : Name) : bool :=
  existsb isDecision (stackOf ps n).

(** [partialSolution.isComplete]: the range over the map visits every
    entry; the answer does not depend on the order. *)
Definition isComplete (ps : partialSolution) : bool :=
  forallb (fun '(n, stack) =>
             if bool_decide (n = root ps) then true else existsb isDecision stack)
          (map_to_list (perPackage ps)).

(** The loop of [nextDecisionCandidate] with its [seen] set. *)
Fixpoint nextCandidateLoop (ps : partialSolution) (seen : gset Name)
    (log : list assignment) : option Name :=
  match log with
  | [] => None
  | assign :: rest =>
      let n := name assign in
      if bool_decide (n = root ps) then nextCandidateLoop ps seen rest
      else if bool_decide (n ∈ seen) then nextCandidateLoop ps seen rest
      else if negb (hasDecision ps n) then Some n
      else nextCandidateLoop ps ({[n]} ∪ seen) rest
  end.

(** [partialSolution.nextDecisionCandidate] *)
Definition nextDecisionCandidate (ps : partialSolution) : option Name :=
  nextCandidateLoop ps ∅ (assignments ps).

(** [NameVersion] and [Solution] (solution.go) *)
Record NameVersion : Type := mkNameVersion {
  NVName : Name;
  NVVersion : option V
}.

Definition Solution : Type := list NameVersion.

(** The loop of [buildSolution] with its [seen] set. *)
Fixpoint buildSolutionLoop (seen : gset Name) (log : list assignment) : Solution :=
  match log with
  | [] => []
  | assign :: rest =>
      match kind assign with
      | assignmentDerivation => buildSolutionLoop seen rest
      | assignmentDecision =>
          if bool_decide (name assign ∈ seen) then buildSolutionLoop seen rest
          else {| NVName := name assign; NVVersion := version assign |}
               :: buildSolutionLoop ({[name assign]} ∪ seen) rest
      end
  end.

(** [partialSolution.buildSolution] *)
Definition buildSolution (ps : partialSolution) : Solution :=
  buildSolutionLoop ∅ (assignments ps).

End PartialSolution.

Arguments assignment V : clear implicits.
Arguments partialSolution V : clear implicits.
Arguments NameVersion V : clear implicits.
Arguments Solution V : clear implicits.

(** ** Satisfier queries (partial_solution.go) *)

Section Satisfier.
Context {V : Type} `{Version V}.

(** [termSatisfiedBy] on a non-nil assignment *)
Definition termSatisfiedBy (t : Term V) (assign : assignment V) : bool :=
  if Positive t then
    match termAllowedSet t with
    | None => false
    | Some required =>
        if Positive (term assign) then
          match allowed assign with
          | None => false
          | Some a => IsSubset a (Some required)
          end
        else
          match allowed assign with
          | Some a => IsSubset a (Some required)
          | None => false
          end
    end
  else
    match termForbiddenSet t with
    | None => false
    | Some forb =>
        if Positive (term assign) then
          match allowed assign with
          | None => false
          | Some a => IsDisjoint a (Some forb)
          end
        else
          match forbidden assign with
          | None => false
          | Some f => IsSubset forb (Some f)
          end
    end.

(** The inner loop of [satisfier]: the stack is read from its top and
    the first assignment that satisfies the term is kept. *)
Definition topSatisfying (t : Term V) (stack : list (assignment V))
  : option (assignment V) :=
  List.find (termSatisfiedBy t) (rev stack).

(** [partialSolution.satisfier] *)
Definition satisfier (ps : partialSolution V) (inc : Incompatibility V)
  : option (assignment V) :=
  fst (fold_left
         (fun '(selected, maxIndex) t =>
            match topSatisfying t (stackOf ps (TermName t)) with
            | Some assign =>
                if index assign >? maxIndex then (Some assign, index assign)
                else (selected, maxIndex)
            | None => (selected, maxIndex)
            end)
         (Terms inc) (None, -1)).

(** [partialSolution.previousDecisionLevel].  The test
    [assign == satisfier] compares pointers; every assignment of a
    partial solution has its own [index], which stands for its identity. *)
Definition previousDecisionLevel (ps : partialSolution V)
    (inc : Incompatibility V) (sat : assignment V) : Z :=
  fold_left
    (fun level t =>
       fold_left
         (fun level assign =>
            if index assign =? index sat then level
            else if termSatisfiedBy t assign && (decisionLevel assign >? level)
                 then decisionLevel assign
                 else level)
         (rev (stackOf ps (TermName t))) level)
    (Terms inc) 0.

End Satisfier.

(** ** The solver state (solver_state.go) *)

Section SolverState.
Context {V : Type} `{Version V}.

(** [Source] *)
Record Source : Type := mkSource {
  GetVersions : Name -> result V (list (option V));
  GetDependencies : Name -> option V -> result V (list (Term V))
}.

(** [SolverOptions]; the logger only writes debug output. *)
Record SolverOptions : Type := mkSolverOptions {
  TrackIncompatibilities : bool;
  MaxSteps : Z
}.

Definition defaultMaxSteps : Z := 100000.

Definition defaultSolverOptions : SolverOptions :=
  {| TrackIncompatibilities := false; MaxSteps := defaultMaxSteps |}.

(** [queued] only ever maps a name to [true] or has it deleted: it is
    the set of the names in [queue]. *)
Record solverState : Type := mkSolverState {
  source : Source;
  options : SolverOptions;
  partial : partialSolution V;
  incompatibilities : gmap Name (list (Incompatibility V));
  learned : list (Incompatibility V);
  queue : list Name;
  queued : gset Name
}.

Definition newSolverState (src : Source) (opts : SolverOptions) (rootName : Name)
  : solverState :=
  {| source := src; options := opts; partial := newPartialSolution rootName;
     incompatibilities := ∅; learned := []; queue := []; queued := ∅ |}.

Definition withPartial (st : solverState) (ps : partialSolution V) : solverState :=
  {| source := source st; options := options st; partial := ps;
     incompatibilities := incompatibilities st; learned := learned st;
     queue := queue st; queued := queued st |}.

(** [solverState.enqueue] *)
Definition enqueue (st : solverState) (n : Name) : solverState :=
  if bool_decide (n ∈ queued st) then st
  else
    {| source := source st; options := options st; partial := partial st;
       incompatibilities := incompatibilities st; learned := learned st;
       queue := queue st ++ [n]; queued := {[n]} ∪ queued st |}.

(** [solverState.dequeue] *)
Definition dequeue (st : solverState) : solverState * option Name :=
  match queue st with
  | [] => (st, None)
  | n :: rest =>
      ({| source := source st; options := options st; partial := partial st;
          incompatibilities := incompatibilities st; learned := learned st;
          queue := rest; queued := queued st ∖ {[n]} |}, Some n)
  end.

(** [solverState.addIncompatibility] *)
Definition addIncompatibility (st : solverState) (incomp : Incompatibility V)
  : solverState :=
  let index :=
    fold_left
      (fun (m : gmap Name (list (Incompatibility V))) (t : Term V) =>
         <[TermName t := default [] (m !! TermName t) ++ [incomp]]> m)
      (Terms incomp) (incompatibilities st) in
  {| source := source st; options := options st; partial := partial st;
     incompatibilities := index;
     learned := if TrackIncompatibilities (options st)
                then learned st ++ [incomp] else learned st;
     queue := queue st; queued := queued st |}.

(** [incompatibilityRelation] *)
Inductive incompatibilityRelation : Type :=
  | relationSatisfied
  | relationAlmostSatisfied
  | relationContradicted
  | relationInconclusive.

(** [relationForTerm]; its error result is always nil. *)
Definition relationForTerm (t : Term V) (allowedNow : VersionSet V)
    (hasAssignment : bool) : incompatibilityRelation :=
  let allowedNow := match allowedNow with None => FullVersionSet | Some a => a end in
  if Positive t then
    match termAllowedSet t with
    | None => relationInconclusive
    | Some required =>
        if IsSubset allowedNow (Some required) then
          if hasAssignment then relationSatisfied else relationInconclusive
        else if IsDisjoint allowedNow (Some required) then relationContradicted
        else relationInconclusive
    end
  else
    match termForbiddenSet t with
    | None => relationInconclusive
    | Some forb =>
        if IsDisjoint allowedNow (Some forb) then relationSatisfied
        else if IsSubset allowedNow (Some forb) then
          if hasAssignment then relationContradicted else relationInconclusive
        else relationInconclusive
    end.

(** The loop of [evaluateIncompatibility]; [unsatisfied] is the term
    found inconclusive so far. *)
Fixpoint evaluateTerms (ps : partialSolution V) (unsatisfied : option (Term V))
    (terms : list (Term V)) : incompatibilityRelation * option (Term V) :=
  match terms with
  | [] =>
      match unsatisfied with
      | None => (relationSatisfied, None)
      | Some t => (relationAlmostSatisfied, Some t)
      end
  | t :: rest =>
      let allowedNow := allowedSet ps (TermName t) in
      match relationForTerm t (Some allowedNow) (hasAssignments ps (TermName t)) with
      | relationContradicted => (relationContradicted, None)
      | relationSatisfied => evaluateTerms ps unsatisfied rest
      | relationInconclusive =>
          match unsatisfied with
          | Some _ => (relationInconclusive, None)
          | None => evaluateTerms ps (Some t) rest
          end
      | relationAlmostSatisfied => evaluateTerms ps unsatisfied rest
      end
  end.

(** [solverState.evaluateIncompatibility] *)
Definition evaluateIncompatibility (st : solverState) (inc : Incompatibility V)
  : incompatibilityRelation * option (Term V) :=
  evaluateTerms (partial st) None (Terms inc).

(** [mergeTerms]; [None] is the result [(Term{}, false)]. *)
Definition mergeTerms (a b : Term V) : option (Term V) :=
  if negb (bool_decide (TermName a = TermName b)) then None
  else if Positive a && Positive b then
    match termAllowedSet a, termAllowedSet b with
    | Some setA, Some setB =>
        Some (termFromAllowedSet (TermName a) (Some (Intersection setA (Some setB))))
    | _, _ => None
    end
  else if negb (Positive a) && negb (Positive b) then
    match termForbiddenSet a, termForbiddenSet b with
    | Some forbA, Some forbB =>
        Some (termFromForbiddenSet (TermName a) (Some (Union forbA (Some forbB))))
    | _, _ => None
    end
  else None.

(** The ordered collection at the end of [resolveIncompatibility]:
    each term met takes its entry out of the map. *)
Fixpoint collectTerms (pkg : Name) (terms : gmap Name (Term V))
    (order : list (Term V)) : list (Term V) * gmap Name (Term V) :=
  match order with
  | [] => ([], terms)
  | t :: rest =>
      if bool_decide (TermName t = pkg) then collectTerms pkg terms rest
      else
        match terms !! TermName t with
        | Some t' =>
            let '(out, terms') := collectTerms pkg (delete (TermName t) terms) rest in
            (t' :: out, terms')
        | None => collectTerms pkg terms rest
        end
  end.

(** [resolveIncompatibility] *)
Definition resolveIncompatibility (conflict cause : Incompatibility V) (pkg : Name)
  : Incompatibility V :=
  let terms : gmap Name (Term V) :=
    fold_left
      (fun (m : gmap Name (Term V)) (t : Term V) =>
         if bool_decide (TermName t = pkg) then m else <[TermName t := t]> m)
      (Terms conflict) ∅ in
  let terms :=
    fold_left
      (fun (m : gmap Name (Term V)) (t : Term V) =>
         if bool_decide (TermName t = pkg) then m
         else
           match m !! TermName t with
           | Some existing =>
               match mergeTerms existing t with
               | Some merged => <[TermName t := merged]> m
               | None => <[TermName t := t]> m
               end
           | None => <[TermName t := t]> m
           end)
      (Terms cause) terms in
  let '(fromConflict, terms) := collectTerms pkg terms (Terms conflict) in
  let '(fromCause, _) := collectTerms pkg terms (Terms cause) in
  NewIncompatibilityConflict (fromConflict ++ fromCause) (Some conflict) (Some cause).

(** [solverState.applyConstraint] *)
Definition applyConstraint (st : solverState) (t : Term V)
    (c : option (Incompatibility V))
  : solverState * result V (option (Incompatibility V)) :=
  match addDerivation (partial st) t c with
  | (ps, err e) =>
      if errorsIsNoAllowedVersions e then
        let base := NewIncompatibilityNoVersions t in
        match c with
        | Some causeInc =>
            let terms := Terms causeInc ++ Terms base in
            (withPartial st ps,
             ok (Some (NewIncompatibilityConflict terms (Some base) (Some causeInc))))
        | None => (withPartial st ps, ok (Some base))
        end
      else (withPartial st ps, err e)
  | (ps, ok (assign, _)) =>
      (enqueue (withPartial st ps) (name assign), ok None)
  end.

(** [solverState.registerDependencies] *)
Fixpoint registerDependencies (st : solverState) (pkg : Name) (ver : option V)
    (deps : list (Term V))
  : solverState * result V (option (Incompatibility V)) :=
  match deps with
  | [] => (st, ok None)
  | dep :: rest =>
      let incomp := NewIncompatibilityFromDependency pkg ver dep in
      let st := addIncompatibility st incomp in
      match applyConstraint st dep (Some incomp) with
      | (st, err e) => (st, err e)
      | (st, ok (Some conflict)) => (st, ok (Some conflict))
      | (st, ok None) => registerDependencies st pkg ver rest
      end
  end.

(** [solverState.pickVersion]: the Go result [(version, found, error)];
    [ok None] is [(nil, false, nil)] and [ok (Some ver)] is
    [(ver, true, nil)]. *)
Definition pickVersion (st : solverState) (n : Name) : result V (option (option V)) :=
  let allowedNow := allowedSet (partial st) n in
  if IsEmpty allowedNow then ok None
  else
    match GetVersions (source st) n with
    | err e =>
        if errorsAsPackageNotFound e || errorsAsPackageVersionNotFound e
        then ok None
        else err e
    | ok versions =>
        ok (List.find (fun ver => Contains allowedNow ver) (rev versions))
    end.

(** What one pass over an incompatibility list tells [propagate]:
    go on with the next package, or return. *)
Inductive propagateControl : Type :=
  | propagateNext
  | propagateReturn (r : result V (option (Incompatibility V))).

(** The inner loop of [propagate], over [st.incompatibilities[pkg]]. *)
Fixpoint propagateIncompatibilities (st : solverState)
    (incs : list (Incompatibility V)) : solverState * propagateControl :=
  match incs with
  | [] => (st, propagateNext)
  | inc :: rest =>
      match evaluateIncompatibility st inc with
      | (relationSatisfied, _) => (st, propagateReturn (ok (Some inc)))
      | (relationAlmostSatisfied, None) => propagateIncompatibilities st rest
      | (relationAlmostSatisfied, Some unsatisfied) =>
          let derived := Negate unsatisfied in
          match addDerivation (partial st) derived (Some inc) with
          | (ps, err e) =>
              if errorsIsNoAllowedVersions e
              then (withPartial st ps, propagateReturn (ok (Some inc)))
              else (withPartial st ps, propagateReturn (err e))
          | (ps, ok (assign, changed)) =>
              let st := withPartial st ps in
              let st := if changed then enqueue st (name assign) else st in
              propagateIncompatibilities st rest
          end
      | (_, _) => propagateIncompatibilities st rest
      end
  end.

(** The outer loop of [propagate]; [None] when the fuel runs out. *)
Fixpoint propagateLoop (fuel : nat) (st : solverState)
  : option (solverState * result V (option (Incompatibility V))) :=
  match fuel with
  | O => None
  | S fuel' =>
      match dequeue st with
      | (st, None) => Some (st, ok None)
      | (st, Some pkg) =>
          match propagateIncompatibilities st
                  (default [] (incompatibilities st !! pkg)) with
          | (st, propagateReturn r) => Some (st, r)
          | (st, propagateNext) => propagateLoop fuel' st
          end
      end
  end.

(** [solverState.propagate] *)
Definition propagate (fuel : nat) (st : solverState) (start : Name)
  : option (solverState * result V (option (Incompatibility V))) :=
  let st := if bool_decide (start <> EmptyName) then enqueue st start else st in
  propagateLoop fuel st.

(** [solverState.resolveConflict]: the Go result [(nil, pivot, err)];
    [None] when the fuel runs out. *)
Fixpoint resolveConflict (fuel : nat) (st : solverState)
    (conflict : Incompatibility V) : option (solverState * result V Name) :=
  match fuel with
  | O => None
  | S fuel' =>
      match satisfier (partial st) conflict with
      | None => Some (st, err (NoSolutionError (Some conflict)))
      | Some sat =>
          let prevLevel := previousDecisionLevel (partial st) conflict sat in
          if (decisionLevel sat =? 0) && isDecision sat
          then Some (st, err (NoSolutionError (Some conflict)))
          else if isDecision sat && (prevLevel <? decisionLevel sat) then
            let st := withPartial st (backtrack (partial st) prevLevel) in
            let st := addIncompatibility st conflict in
            Some (st, ok (name sat))
          else
            match cause sat with
            | None => Some (st, err (errorString "derived assignment missing cause"))
            | Some c =>
                resolveConflict fuel' st (resolveIncompatibility conflict c (name sat))
            end
      end
  end.

End SolverState.

Arguments Source V : clear implicits.
Arguments solverState V : clear implicits.

(** ** The solver (solver.go) *)

Section Solver.
Context {V : Type} `{Version V}.

(** [Solver]: the source (all sources combined), the options and the
    learned incompatibilities kept for the reports. *)
Record Solver : Type := mkSolver {
  SolverSource : Source V;
  solverOptions : SolverOptions;
  solverLearned : list (Incompatibility V)
}.

(** [extractDecisionVersion] *)
Definition extractDecisionVersion (rootTerm : Term V) : result V (option V) :=
  if negb (Positive rootTerm) then
    err (VersionError (TermName rootTerm) "root term must be positive")
  else
    match TermCondition rootTerm with
    | Some (EqualsCondition ver) => ok ver
    | Some (EqualsConditionPtr None) =>
        err (VersionError (TermName rootTerm) "root condition missing version")
    | Some (EqualsConditionPtr (Some ver)) => ok ver
    | _ => err (VersionError (TermName rootTerm) "root must pin exact version")
    end.

(** [fallbackTerm] *)
Definition fallbackTerm (incomp : option (Incompatibility V)) : Term V :=
  match incomp with
  | None => NewTerm (MakeName "$$root") None
  | Some inc =>
      match Terms inc with
      | [] => NewTerm (MakeName "$$root") None
      | t :: _ => if negb (Positive t) then Negate t else t
      end
  end.

(** [Solver.fail]: the error returned (the solution is nil). *)
Definition fail (s : Solver) (incomp : option (Incompatibility V)) : error V :=
  if TrackIncompatibilities (solverOptions s) then
    match incomp with
    | None => NoSolutionError (Some (NewIncompatibilityNoVersions (fallbackTerm None)))
    | Some _ => NoSolutionError incomp
    end
  else ErrNoSolutionFound (fallbackTerm incomp).

(** What one iteration of the main loop of [Solve] does: return, or go
    to the next iteration with the (possibly nil) pending [conflict]
    and the [propagateSeed]. *)
Inductive stepResult : Type :=
  | stepReturn (r : result V (Solution V))
  | stepContinue (st : solverState V) (conflict : option (Incompatibility V))
                 (propagateSeed : Name).

(** The decision part of the loop body, from [pickVersion] on, for the
    candidate [nextPkg]. *)
Definition decisionStep (s : Solver) (st : solverState V) (nextPkg : Name) : stepResult :=
  match pickVersion st nextPkg with
  | err e => stepReturn (err e)
  | ok None =>
      let allowedNow := allowedSet (partial st) nextPkg in
      let conflict :=
        NewIncompatibilityNoVersions (termFromAllowedSet nextPkg (Some allowedNow)) in
      let conflict :=
        match latest (partial st) nextPkg with
        | Some support =>
            match cause support with
            | Some c => resolveIncompatibility conflict c nextPkg
            | None => conflict
            end
        | None => conflict
        end in
      let st := addIncompatibility st conflict in
      stepContinue st (Some conflict) EmptyName
  | ok (Some ver) =>
      let '(ps, assign) := addDecision (partial st) nextPkg ver in
      let st := withPartial st ps in
      match GetDependencies (SolverSource s) nextPkg ver with
      | err e => stepReturn (err (DependencyError nextPkg ver e))
      | ok deps =>
          match registerDependencies st nextPkg ver deps with
          | (_, err e) => stepReturn (err (DependencyError nextPkg ver e))
          | (st, ok (Some depConflict)) => stepContinue st (Some depConflict) EmptyName
          | (st, ok None) => stepContinue (enqueue st (name assign)) None EmptyName
          end
      end
  end.

(** One iteration of the main loop, after the test of the step limit.
    [fuel] bounds the inner loops of [resolveConflict] and [propagate];
    [None] when it runs out. *)
Definition solveStep (fuel : nat) (s : Solver) (st : solverState V)
    (conflict : option (Incompatibility V)) (propagateSeed : Name)
  : option stepResult :=
  match conflict with
  | Some c =>
      match resolveConflict fuel st c with
      | None => None
      | Some (st, err (NoSolutionError inc)) => Some (stepReturn (err (fail s inc)))
      | Some (st, err e) => Some (stepReturn (err e))
      | Some (st, ok pivot) =>
          Some (stepContinue st None
                  (if bool_decide (pivot <> EmptyName) then pivot else propagateSeed))
      end
  | None =>
      let seed := propagateSeed in
      match propagate fuel st seed with
      | None => None
      | Some (st, err e) => Some (stepReturn (err e))
      | Some (st, ok (Some propConflict)) =>
          Some (stepContinue st (Some propConflict) EmptyName)
      | Some (st, ok None) =>
          if isComplete (partial st)
          then Some (stepReturn (ok (buildSolution (partial st))))
          else
            match nextDecisionCandidate (partial st) with
            | None => Some (stepReturn (ok (buildSolution (partial st))))
            | Some nextPkg => Some (decisionStep s st nextPkg)
            end
      end
  end.

(** The main loop of [Solve]: [steps] counts the iterations. *)
Fixpoint solveLoop (fuel : nat) (s : Solver) (steps : Z) (st : solverState V)
    (conflict : option (Incompatibility V)) (propagateSeed : Name)
  : option (result V (Solution V)) :=
  match fuel with
  | O => None
  | S fuel' =>
      if (MaxSteps (solverOptions s) >? 0) && (steps >=? MaxSteps (solverOptions s))
      then Some (err (ErrIterationLimit (MaxSteps (solverOptions s))))
      else
        match solveStep fuel' s st conflict propagateSeed with
        | None => None
        | Some (stepReturn r) => Some r
        | Some (stepContinue st conflict propagateSeed) =>
            solveLoop fuel' s (steps + 1) st conflict propagateSeed
        end
  end.

(** [Solver.Solve]; [None] when the fuel runs out.  [propagateSeed]
    starts as the zero value of [Name]. *)
Definition Solve (fuel : nat) (s : Solver) (rootTerm : Term V)
  : option (result V (Solution V)) :=
  let state := newSolverState (SolverSource s) (solverOptions s) (TermName rootTerm) in
  match extractDecisionVersion rootTerm with
  | err e => Some (err e)
  | ok ver =>
      let '(ps, assign) := seedRoot (partial state) (TermName rootTerm) ver in
      let state := withPartial state ps in
      match GetDependencies (SolverSource s) (TermName rootTerm) ver with
      | err e => Some (err (DependencyError (TermName rootTerm) ver e))
      | ok deps =>
          match registerDependencies state (TermName rootTerm) ver deps with
          | (_, err e) => Some (err (DependencyError (TermName rootTerm) ver e))
          | (state, ok conflict) =>
              let state := enqueue state (name assign) in
              solveLoop fuel s 0 state conflict None
          end
      end
  end.

End Solver.

Arguments Solver V : clear implicits.

(** * The order of interval ends

    An end of an interval is a cut of the version order: before every
    version, after every version, or just before or just after a version.
    An inclusive lower bound and an exclusive upper bound at [v] are the
    cut before [v]; an exclusive lower bound and an inclusive upper
    bound at [v] are the cut after [v]. *)

Section Cuts.
Context {V : Type} `{Version V}.

Inductive cut : Type :=
  | CutNegInf
  | CutAt (v : V) (after : bool)
  | CutPosInf.

Definition lowerCut (b : versionBound V) : cut :=
  match b with
  | BoundNegativeInfinity => CutNegInf
  | BoundFinite v inclusive => CutAt v (negb inclusive)
  | BoundPositiveInfinity => CutPosInf
  end.

Definition upperCut (b : versionBound V) : cut :=
  match b with
  | BoundNegativeInfinity => CutNegInf
  | BoundFinite v inclusive => CutAt v inclusive
  | BoundPositiveInfinity => CutPosInf
  end.

Definition cutLe (a b : cut) : Prop :=
  match a, b with
  | CutNegInf, _ => True
  | _, CutPosInf => True
  | CutAt v s, CutAt w t =>
      Sort v w < 0 \/ (Sort v w = 0 /\ Z.b2z s <= Z.b2z t)
  | _, _ => False
  end.

Definition cutLt (a b : cut) : Prop := ~ cutLe b a.

(** The form [normalizeIntervals] gives a sequence: every interval is
    non-empty and every interval ends no later than the ones after it
    begin, so the intervals ascend and no two of them overlap.  (Two
    neighbours may still share their common end: see [touches].) *)
Definition endsBefore (a b : versionInterval V) : Prop :=
  upperLessThanLower (upper a) (lower b) = true.

Definition disjointAscending (s : list (versionInterval V)) : Prop :=
  Forall (fun iv => isEmpty iv = false) s /\ StronglySorted endsBefore s.

(** A cut [c] lies inside an interval when it is at or after the lower
    cut and before the upper cut; a version [v] is in the interval when
    the cut before [v] lies inside. *)
Definition inside (c : cut) (iv : versionInterval V) : Prop :=
  cutLe (lowerCut (lower iv)) c /\ cutLt c (upperCut (upper iv)).

Definition insideSet (c : cut) (s : list (versionInterval V)) : Prop :=
  Exists (inside c) s.

(** The order [normalizeIntervals] sorts by: the lower bound. *)
Definition lowerLe (iv iv' : versionInterval V) : Prop :=
  compareLower (lower iv) (lower iv') <= 0.

End Cuts.

Arguments cut V : clear implicits.

(** * Invariants and reference behaviour used in the statements *)

Section PartialSolutionInvariants.
Context {V : Type} `{Version V}.

(** The map entry that holds a stack: none for the empty stack. *)
Definition stackEntry (stack : list (assignment V)) : option (list (assignment V)) :=
  match stack with
  | [] => None
  | _ => Some stack
  end.

(** The assignments of package [n] in a log, in the order of the log. *)
Definition logStack (log : list (assignment V)) (n : Name) : list (assignment V) :=
  List.filter (fun a => bool_decide (name a = n)) log.

(** Every per-package stack is the part of the chronological log that
    belongs to the package, and no entry holds an empty stack. *)
Definition stacksInLockstep (ps : partialSolution V) : Prop :=
  forall n, perPackage ps !! n = stackEntry (logStack (assignments ps) n).

(** Decision levels never decrease along the log. *)
Definition levelsAscending (log : list (assignment V)) : Prop :=
  StronglySorted (fun a b => decisionLevel a <= decisionLevel b) log.

(** The invariant of the partial solution. *)
Definition wellFormed (ps : partialSolution V) : Prop :=
  stacksInLockstep ps /\
  levelsAscending (assignments ps) /\
  Forall (fun a => decisionLevel a <= decisionLvl ps) (assignments ps).

(** The partial solution in which only the assignments of [log] were
    ever inserted. *)
Definition replay (rootName : Name) (log : list (assignment V)) : partialSolution V :=
  fold_left append log (newPartialSolution rootName).

(** The assignments of a log at decision level [level] or below. *)
Definition upToLevel (level : Z) (log : list (assignment V)) : list (assignment V) :=
  List.filter (fun a => decisionLevel a <=? level) log.

(** The partial solutions a solve goes through: the root is seeded
    first, then decisions (for packages that have none), derivations and
    backtracks follow. *)
Inductive reachable (rootName : Name) (rootVersion : option V)
  : partialSolution V -> Prop :=
  | reachable_seed :
      reachable rootName rootVersion
        (fst (seedRoot (newPartialSolution rootName) rootName rootVersion))
  | reachable_decision ps n ver :
      reachable rootName rootVersion ps ->
      n <> rootName ->
      hasDecision ps n = false ->
      reachable rootName rootVersion (fst (addDecision ps n ver))
  | reachable_derivation ps t c :
      reachable rootName rootVersion ps ->
      reachable rootName rootVersion (fst (addDerivation ps t c))
  | reachable_backtrack ps level :
      reachable rootName rootVersion ps ->
      reachable rootName rootVersion (backtrack ps level).

(** The root decision, seeded first at level 0. *)
Definition rootAssignment (rootName : Name) (rootVersion : option V) : assignment V :=
  newDecisionAssignment (newPartialSolution rootName) rootName rootVersion 0.

(** The pair a decision contributes to the solution. *)
Definition decisionPair (a : assignment V) : NameVersion V :=
  {| NVName := name a; NVVersion := version a |}.

End PartialSolutionInvariants.

Section SolverSpecification.
Context {V : Type} `{Version V}.

(** The version set a term converts to: the allowed set of a positive
    term, the forbidden set of a negative one. *)
Definition termSet (t : Term V) : option (VersionIntervalSet V) :=
  if Positive t then termAllowedSet t else termForbiddenSet t.

(** [a] is not above [b]; a nil version is comparable with nothing. *)
Definition versionLe (a b : option V) : Prop :=
  match a, b with
  | Some x, Some y => Sort x y <= 0
  | _, _ => True
  end.

(** A version list sorted ascending, as [GetVersions] has to return it. *)
Definition ascendingVersions (versions : list (option V)) : Prop :=
  StronglySorted versionLe versions.

End SolverSpecification.

(** * A concrete catalog: the backtracking scenario

    Package [A] 1.1.0 depends on any [B]; [B] has the versions 1.0.0
    and 2.0.0, and [B] 2.0.0 depends on [D] 1.0.0, which the catalog does
    not have.  The root pseudo-package [$$root] 1 depends on [A] 1.1.0.
    This is the source the solver sees: the root source combined with
    the in-memory source. *)

Definition exactly (n : string) (v : SimpleVersion) : Term SimpleVersion :=
  NewTerm (MakeName n) (Some (EqualsCondition (Some v))).

Definition anyVersion (n : string) : Term SimpleVersion :=
  NewTerm (MakeName n) (Some (NewVersionSetCondition (Some Full))).

Definition backtrackingCatalog : Source SimpleVersion :=
  {| GetVersions := fun n =>
       match n with
       | Some "$$root" => ok [Some "1"]
       | Some "A" => ok [Some "1.1.0"]
       | Some "B" => ok [Some "1.0.0"; Some "2.0.0"]
       | _ => err (PackageNotFoundError n)
       end%string;
     GetDependencies := fun n v =>
       match n, v with
       | Some "$$root", Some "1" => ok [exactly "A" "1.1.0"]
       | Some "A", Some "1.1.0" => ok [anyVersion "B"]
       | Some "B", Some "1.0.0" => ok []
       | Some "B", Some "2.0.0" => ok [exactly "D" "1.0.0"]
       | _, _ => err (PackageVersionNotFoundError n v)
       end%string |}.

Definition backtrackingSolver : Solver SimpleVersion :=
  {| SolverSource := backtrackingCatalog;
     solverOptions := defaultSolverOptions;
     solverLearned := [] |}.

Definition pinnedRoot : Term SimpleVersion := exactly "$$root" "1".

(** The state of the solver right after the root was seeded. *)
Definition seededState : solverState SimpleVersion :=
  let st := newSolverState backtrackingCatalog defaultSolverOptions (MakeName "$$root") in
  withPartial st (fst (seedRoot (partial st) (MakeName "$$root") (Some "1"%string))).

(** A partial solution with the root and two decisions. *)
Definition twoDecisions : partialSolution SimpleVersion :=
  let ps := fst (seedRoot (newPartialSolution (MakeName "$$root"))
                          (MakeName "$$root") (Some "1"%string)) in
  let ps := fst (addDecision ps (MakeName "A") (Some "1.1.0"%string)) in
  fst (addDecision ps (MakeName "B") (Some "2.0.0"%string)).

(** * Two adjacent ranges: [[1.0.0, 2.0.0)] and [[2.0.0, 3.0.0]] *)

Definition lowerRange : VersionIntervalSet SimpleVersion :=
  NewVersionRangeSet (Some "1.0.0"%string) true (Some "2.0.0"%string) false.

Definition upperRange : VersionIntervalSet SimpleVersion :=
  NewVersionRangeSet (Some "2.0.0"%string) true (Some "3.0.0"%string) true.

Definition adjacentUnion : VersionIntervalSet SimpleVersion :=
  Union lowerRange (Some upperRange).

(** * More of the code: diagnostics, sources and semantic versions *)

(** ** Diagnostics of the partial solution (partial_solution.go) *)

Section PendingPackages.
Context {V : Type} `{Version V}.

(** The loop of [pendingPackages] with its [seen] set. *)
Fixpoint pendingLoop (ps : partialSolution V) (seen : gset Name)
    (log : list (assignment V)) : list Name :=
  match log with
  | [] => []
  | assign :: rest =>
      let n := name assign in
      if bool_decide (n = root ps) || bool_decide (n ∈ seen)
      then pendingLoop ps seen rest
      else
        let seen := {[n]} ∪ seen in
        if negb (hasDecision ps n) then n :: pendingLoop ps seen rest
        else pendingLoop ps seen rest
  end.

(** [partialSolution.pendingPackages] *)
Definition pendingPackages (ps : partialSolution V) : list Name :=
  pendingLoop ps ∅ (assignments ps).

End PendingPackages.

(** ** The solution (solution.go) *)

Section SolutionQueries.
Context {V : Type} `{Version V}.

(** [Solution.GetVersion]: [Some ver] is the result [(ver, true)],
    [None] the result [(nil, false)]. *)
Fixpoint GetVersion (s : Solution V) (n : Name) : option (option V) :=
  match s with
  | [] => None
  | nv :: rest =>
      if bool_decide (NVName nv = n) then Some (NVVersion nv)
      else GetVersion rest n
  end.

End SolutionQueries.

(** ** Sources (source.go, source_root.go) *)

Section Sources.
Context {V : Type} `{Version V} `{Countable V}.

(** [slices.SortFunc] with the comparison [a.Sort(b)].  The library
    sort promises a result ordered by the comparison; this is the
    stable insertion sort, one of its admissible results. *)
Fixpoint insertVersion (x : V) (l : list V) : list V :=
  match l with
  | [] => [x]
  | y :: l' => if Sort x y <=? 0 then x :: y :: l' else y :: insertVersion x l'
  end.

Definition sortVersions (l : list V) : list V := foldr insertVersion [] l.

(** The versions of a list when none is nil. *)
Fixpoint nonNilVersions (l : list (option V)) : option (list V) :=
  match l with
  | [] => Some []
  | Some v :: l' => option_map (cons v) (nonNilVersions l')
  | None :: _ => None
  end.

(** The sort applied to a slice of the interface type [Version]: a
    slice of fewer than two elements is not compared at all; otherwise
    every element is compared, and [a.Sort(b)] panics on a nil version
    ([None]: the sort does not return). *)
Definition sortVersionList (l : list (option V)) : option (list (option V)) :=
  if Z.of_nat (length l) <? 2 then Some l
  else option_map (fun vs => List.map Some (sortVersions vs)) (nonNilVersions l).

(** [InMemorySource]: the field [Packages], a map from names to maps
    from versions to dependency lists; the nil map is the empty map.
    The keys are the non-nil versions, equal as Go compares the
    interface values. *)
Definition InMemorySource : Type := gmap Name (gmap V (list (Term V))).

(** [InMemorySource.GetVersions]: the keys come out of the map in no
    particular order and are sorted. *)
Definition InMemorySource_GetVersions (s : InMemorySource) (n : Name)
  : result V (list (option V)) :=
  match s !! n with
  | None => err (PackageNotFoundError n)
  | Some versions =>
      ok (List.map Some (sortVersions (List.map fst (map_to_list versions))))
  end.

(** [InMemorySource.GetDependencies] *)
Definition InMemorySource_GetDependencies (s : InMemorySource) (n : Name)
    (version : option V) : result V (list (Term V)) :=
  match s !! n with
  | None => err (PackageNotFoundError n)
  | Some versions =>
      match version with
      | Some v =>
          match versions !! v with
          | Some deps => ok deps
          | None => err (PackageVersionNotFoundError n version)
          end
      | None => err (PackageVersionNotFoundError n version)
      end
  end.

(** [InMemorySource.AddPackage], for a non-nil version *)
Definition InMemorySource_AddPackage (s : InMemorySource) (n : Name) (version : V)
    (deps : list (Term V)) : InMemorySource :=
  let versions := default ∅ (s !! n) in
  <[n := <[version := deps]> versions]> s.

(** An [InMemorySource] as a [Source]. *)
Definition InMemorySource_Source (s : InMemorySource) : Source V :=
  {| GetVersions := InMemorySource_GetVersions s;
     GetDependencies := InMemorySource_GetDependencies s |}.

(** [CombinedSource]: a slice of sources. *)
Definition CombinedSource : Type := list (Source V).

(** The loop of [CombinedSource.GetVersions]: [ret] collects the
    versions; a source that does not know the package is skipped and
    any other error is returned. *)
Fixpoint combinedVersions (s : CombinedSource) (n : Name) (ret : list (option V))
  : result V (list (option V)) :=
  match s with
  | [] => ok ret
  | source :: rest =>
      match GetVersions source n with
      | err e =>
          if errorsAsPackageNotFound e then combinedVersions rest n ret
          else err e
      | ok versions => combinedVersions rest n (ret ++ versions)
      end
  end.

(** [CombinedSource.GetVersions]; [None] when the sort panics. *)
Definition CombinedSource_GetVersions (s : CombinedSource) (n : Name)
  : option (result V (list (option V))) :=
  match combinedVersions s n [] with
  | err e => Some (err e)
  | ok ret =>
      if Z.of_nat (length ret) =? 0 then Some (err (PackageNotFoundError n))
      else option_map ok (sortVersionList ret)
  end.

(** [CombinedSource.GetDependencies] *)
Fixpoint CombinedSource_GetDependencies (s : CombinedSource) (n : Name)
    (version : option V) : result V (list (Term V)) :=
  match s with
  | [] => err (PackageVersionNotFoundError n version)
  | source :: rest =>
      match GetDependencies source n version with
      | err e =>
          if errorsAsPackageNotFound e
          then CombinedSource_GetDependencies rest n version
          else if errorsAsPackageVersionNotFound e
               then CombinedSource_GetDependencies rest n version
               else err e
      | ok deps => ok deps
      end
  end.

End Sources.

(** [RootSource]: the requirements of the virtual package [$$root],
    whose only version is [SimpleVersion("1")]. *)
Definition RootSource : Type := list (Term SimpleVersion).

Definition NewRootSource : RootSource := [].

(** [RootSource.GetVersions] *)
Definition RootSource_GetVersions (s : RootSource) (n : Name)
  : result SimpleVersion (list (option SimpleVersion)) :=
  let rootName := MakeName "$$root" in
  if bool_decide (n <> rootName) then err (PackageNotFoundError n)
  else ok [Some "1"%string].

(** [RootSource.GetDependencies] *)
Definition RootSource_GetDependencies (s : RootSource) (n : Name)
    (version : option SimpleVersion) : result SimpleVersion (list (Term SimpleVersion)) :=
  let rootName := MakeName "$$root" in
  if bool_decide (n <> rootName) then err (PackageNotFoundError n)
  else if bool_decide (version <> Some "1"%string)
       then err (PackageVersionNotFoundError n version)
       else ok s.

(** [RootSource.AddPackage] *)
Definition RootSource_AddPackage (s : RootSource) (n : Name)
    (condition : option (Condition SimpleVersion)) : RootSource :=
  s ++ [NewTerm n condition].

(** [RootSource.Term] *)
Definition RootSource_Term (s : RootSource) : Term SimpleVersion :=
  NewTerm (MakeName "$$root") (Some (EqualsCondition (Some "1"%string))).

(** A [RootSource] as a [Source]. *)
Definition RootSource_Source (s : RootSource) : Source SimpleVersion :=
  {| GetVersions := RootSource_GetVersions s;
     GetDependencies := RootSource_GetDependencies s |}.

(** ** Semantic versions (semantic_version.go) *)

(** [strconv.Atoi] (with the 64-bit [int]): an optional sign followed
    by at least one decimal digit, and a value that fits; [None] when
    it returns an error. *)
Definition isDigit (c : Ascii.ascii) : bool :=
  (48 <=? Z.of_N (Ascii.N_of_ascii c)) && (Z.of_N (Ascii.N_of_ascii c) <=? 57).

Fixpoint digitsValue (acc : Z) (s : string) : option Z :=
  match s with
  | EmptyString => Some acc
  | String c rest =>
      if isDigit c
      then digitsValue (10 * acc + (Z.of_N (Ascii.N_of_ascii c) - 48)) rest
      else None
  end.

(** The bytes ['-'], ['+'] and ['.']. *)
Definition byteMinus : Ascii.ascii := Ascii.ascii_of_N 45.
Definition bytePlus : Ascii.ascii := Ascii.ascii_of_N 43.
Definition byteDot : Ascii.ascii := Ascii.ascii_of_N 46.

Definition strconv_Atoi (s : string) : option Z :=
  let '(negative, digits) :=
    match s with
    | String c rest =>
        if Ascii.eqb c byteMinus then (true, rest)
        else if Ascii.eqb c bytePlus then (false, rest)
        else (false, s)
    | EmptyString => (false, s)
    end in
  match digits with
  | EmptyString => None
  | _ =>
      match digitsValue 0 digits with
      | Some n =>
          let z := if negative then - n else n in
          if (- 2 ^ 63 <=? z) && (z <=? 2 ^ 63 - 1) then Some z else None
      | None => None
      end
  end.

(** [strings.Split(s, ".")] *)
Fixpoint strings_Split_dot (s : string) : list string :=
  match s with
  | EmptyString => [EmptyString]
  | String c rest =>
      if Ascii.eqb c byteDot then EmptyString :: strings_Split_dot rest
      else
        match strings_Split_dot rest with
        | first :: others => String c first :: others
        | [] => [String c EmptyString]
        end
  end.

Record SemanticVersion : Type := mkSemanticVersion {
  Major : Z;
  Minor : Z;
  Patch : Z;
  Prerelease : string;
  Build : string
}.

(** One iteration of the loop of [comparePrereleaseIdentifiers]: the
    value returned, or 0 when the loop goes on. *)
Definition comparePrereleasePart (aPart bPart : string) : Z :=
  match strconv_Atoi aPart, strconv_Atoi bPart with
  | Some aInt, Some bInt =>
      if negb (aInt =? bInt) then (if aInt <? bInt then -1 else 1) else 0
  | Some _, None => -1
  | None, Some _ => 1
  | None, None => strings_Compare aPart bPart
  end.

(** The loop over the common length and the comparison of the lengths
    that follows it. *)
Fixpoint comparePrereleaseParts (aParts bParts : list string) : Z :=
  match aParts, bParts with
  | aPart :: aRest, bPart :: bRest =>
      let cmp := comparePrereleasePart aPart bPart in
      if negb (cmp =? 0) then cmp else comparePrereleaseParts aRest bRest
  | [], [] => 0
  | [], _ :: _ => -1
  | _ :: _, [] => 1
  end.

(** [comparePrereleaseIdentifiers] *)
Definition comparePrereleaseIdentifiers (a b : string) : Z :=
  comparePrereleaseParts (strings_Split_dot a) (strings_Split_dot b).

(** [SemanticVersion.Sort] against another semantic version: the
    branch taken when the type assertion of [other] to
    [*SemanticVersion] succeeds.  (Against a version of another type
    the method compares the two [String()] results instead.) *)
Definition SemanticVersion_Sort (sv otherSV : SemanticVersion) : Z :=
  if negb (Major sv =? Major otherSV) then
    (if Major sv <? Major otherSV then -1 else 1)
  else if negb (Minor sv =? Minor otherSV) then
    (if Minor sv <? Minor otherSV then -1 else 1)
  else if negb (Patch sv =? Patch otherSV) then
    (if Patch sv <? Patch otherSV then -1 else 1)
  else if String.eqb (Prerelease sv) EmptyString &&
          String.eqb (Prerelease otherSV) EmptyString then 0
  else if String.eqb (Prerelease sv) EmptyString &&
          negb (String.eqb (Prerelease otherSV) EmptyString) then 1
  else if negb (String.eqb (Prerelease sv) EmptyString) &&
          String.eqb (Prerelease otherSV) EmptyString then -1
  else comparePrereleaseIdentifiers (Prerelease sv) (Prerelease otherSV).

(** [NewSemanticVersion] and [NewSemanticVersionWithPrerelease] *)
Definition NewSemanticVersion (major minor patch : Z) : SemanticVersion :=
  {| Major := major; Minor := minor; Patch := patch;
     Prerelease := EmptyString; Build := EmptyString |}.

Definition NewSemanticVersionWithPrerelease (major minor patch : Z)
    (prerelease : string) : SemanticVersion :=
  {| Major := major; Minor := minor; Patch := patch;
     Prerelease := prerelease; Build := EmptyString |}.

(** * Invariants of the solver state used in the statements *)

Section SolverStateInvariants.
Context {V : Type} `{Version V}.

(** The propagation queue holds every name once and [queued] is the
    set of the names in it. *)
Definition queueConsistent (st : solverState V) : Prop :=
  NoDup (queue st) /\ forall n, n ∈ queued st <-> In n (queue st).

(** The relation of a term of an incompatibility with the partial
    solution, as [evaluateIncompatibility] computes it. *)
Definition termRelation (ps : partialSolution V) (t : Term V)
  : incompatibilityRelation :=
  relationForTerm t (Some (allowedSet ps (TermName t)))
                  (hasAssignments ps (TermName t)).

End SolverStateInvariants.

(** * The run of a solve and the kinds of catalog errors *)

Section RunOfTheSolver.
Context {V : Type} `{Version V}.

(** An error that is, or wraps, a [PackageNotFoundError]. *)
Inductive isPackageNotFound : error V -> Prop :=
  | isPackageNotFound_here pkg : isPackageNotFound (PackageNotFoundError pkg)
  | isPackageNotFound_dependency pkg ver inner :
      isPackageNotFound inner -> isPackageNotFound (DependencyError pkg ver inner)
  | isPackageNotFound_wrapped msg inner :
      isPackageNotFound inner -> isPackageNotFound (wrapError msg inner).

(** An error that is, or wraps, a [PackageVersionNotFoundError]. *)
Inductive isPackageVersionNotFound : error V -> Prop :=
  | isPackageVersionNotFound_here pkg ver :
      isPackageVersionNotFound (PackageVersionNotFoundError pkg ver)
  | isPackageVersionNotFound_dependency pkg ver inner :
      isPackageVersionNotFound inner ->
      isPackageVersionNotFound (DependencyError pkg ver inner)
  | isPackageVersionNotFound_wrapped msg inner :
      isPackageVersionNotFound inner -> isPackageVersionNotFound (wrapError msg inner).

(** The errors of kind package-not-found or version-not-found. *)
Definition notFoundKind (e : error V) : Prop :=
  isPackageNotFound e \/ isPackageVersionNotFound e.

(** The states at the head of the main loop of [Solve] for the solver
    [s] and the root term: the first one is the state [Solve] enters
    the loop with (the root seeded, its dependencies registered and its
    name queued), and every next one is what an iteration that goes on
    hands over, with the pending conflict and the propagation seed. *)
Inductive loopHead (s : Solver V) (rootTerm : Term V)
  : solverState V -> option (Incompatibility V) -> Name -> Prop :=
  | loopHead_first ver deps state conflict :
      extractDecisionVersion rootTerm = ok ver ->
      GetDependencies (SolverSource s) (TermName rootTerm) ver = ok deps ->
      registerDependencies
        (withPartial
           (newSolverState (SolverSource s) (solverOptions s) (TermName rootTerm))
           (fst (seedRoot (newPartialSolution (TermName rootTerm))
                          (TermName rootTerm) ver)))
        (TermName rootTerm) ver deps
      = (state, ok conflict) ->
      loopHead s rootTerm
        (enqueue state
           (name (snd (seedRoot (newPartialSolution (TermName rootTerm))
                                (TermName rootTerm) ver))))
        conflict None
  | loopHead_next fuel st conflict seed st' conflict' seed' :
      loopHead s rootTerm st conflict seed ->
      solveStep fuel s st conflict seed = Some (stepContinue st' conflict' seed') ->
      loopHead s rootTerm st' conflict' seed'.

(** The partial solutions of a solve in which every decision other
    than the one of the root has a version the catalog lists for its
    package. *)
Definition listedDecisions (s : Solver V) (rootTerm : Term V) (ver : option V)
    (ps : partialSolution V) : Prop :=
  reachable (TermName rootTerm) ver ps /\
  forall a, In a (assignments ps) -> isDecision a = true ->
            name a <> TermName rootTerm ->
            exists versions,
              GetVersions (SolverSource s) (name a) = ok versions /\
              In (version a) versions.

End RunOfTheSolver.

(** * The whole range [[1.0.0, 3.0.0]] against the two adjacent ranges *)

Definition wholeRange : VersionIntervalSet SimpleVersion :=
  NewVersionRangeSet (Some "1.0.0"%string) true (Some "3.0.0"%string) true.

(** The term [B in [1.0.0, 2.0.0) ∪ [2.0.0, 3.0.0]]. *)
Definition withinAdjacentUnion : Term SimpleVersion :=
  NewTerm (MakeName "B") (Some (NewVersionSetCondition (Some adjacentUnion))).

(** The partial solution after the root was seeded and [B] was derived
    to lie in [[1.0.0, 3.0.0]]. *)
Definition rangeDerived : partialSolution SimpleVersion :=
  let ps := fst (seedRoot (newPartialSolution (MakeName "$$root"))
                          (MakeName "$$root") (Some "1"%string)) in
  fst (addDerivation ps
         (NewTerm (MakeName "B") (Some (NewVersionSetCondition (Some wholeRange))))
         None).

(** * A catalog that reports a version as not found

    Like the backtracking catalog, but asked for the versions of [D] it
    answers that the version is not found, and asked for those of [E] it
    fails with another error. *)
Definition versionlessCatalog : Source SimpleVersion :=
  {| GetVersions := fun n =>
       match n with
       | Some "D" => err (PackageVersionNotFoundError n None)
       | Some "E" => err (errorString "catalog unavailable")
       | _ => GetVersions backtrackingCatalog n
       end%string;
     GetDependencies := GetDependencies backtrackingCatalog |}.

Definition versionlessSolver : Solver SimpleVersion :=
  {| SolverSource := versionlessCatalog;
     solverOptions := defaultSolverOptions;
     solverLearned := [] |}.

(** The state of that solver right after the root was seeded. *)
Definition versionlessState : solverState SimpleVersion :=
  let st := newSolverState versionlessCatalog defaultSolverOptions (MakeName "$$root") in
  withPartial st (fst (seedRoot (partial st) (MakeName "$$root") (Some "1"%string))).

(** * Properties *)

(** ** The order of versions and of interval ends *)

Section OrderProperties.
Context {V : Type} `{Version V}.

Lemma Sort_lt_flip (a b : V) : Sort a b < 0 <-> 0 < Sort b a.
Proof.
  pose proof (Sort_antisym a b) as Hs.
  destruct (Sort a b), (Sort b a); cbn in Hs; try discriminate; lia.
Qed.

Lemma Sort_eq_flip (a b : V) : Sort a b = 0 <-> Sort b a = 0.
Proof.
  pose proof (Sort_antisym a b) as Hs.
  destruct (Sort a b), (Sort b a); cbn in Hs; try discriminate; lia.
Qed.

Lemma Sort_refl (v : V) : Sort v v = 0.
Proof.
  pose proof (Sort_antisym v v) as Hs.
  destruct (Sort v v); cbn in Hs; [reflexivity | discriminate | discriminate].
Qed.

End OrderProperties.

(** The facts about [Sort] on two and on three versions, for [lia]. *)
Ltac sort_pair a b :=
  pose proof (Sort_lt_flip a b); pose proof (Sort_lt_flip b a);
  pose proof (Sort_eq_flip a b).

Ltac sort_triple a b c :=
  sort_pair a b; sort_pair b c; sort_pair a c;
  pose proof (Sort_trans a b c); pose proof (Sort_trans a c b);
  pose proof (Sort_trans b a c); pose proof (Sort_trans b c a);
  pose proof (Sort_trans c a b); pose proof (Sort_trans c b a).

Section CutProperties.
Context {V : Type} `{Version V}.

Implicit Types (a b c : cut V) (x y : versionBound V) (iv : versionInterval V).

Lemma cutLe_refl a : cutLe a a.
Proof.
  destruct a as [| v s |]; cbn; [exact I | | exact I].
  right. rewrite Sort_refl. lia.
Qed.

Lemma cutLe_trans a b c : cutLe a b -> cutLe b c -> cutLe a c.
Proof.
  destruct a as [| v s |], b as [| w t |], c as [| x r |]; cbn; try tauto.
  sort_triple v w x. destruct s, t, r; cbn; lia.
Qed.

Lemma cutLe_total a b : cutLe a b \/ cutLe b a.
Proof.
  destruct a as [| v s |], b as [| w t |]; cbn; try tauto.
  sort_pair v w. destruct s, t; cbn; lia.
Qed.

Lemma cutLt_le a b : cutLt a b -> cutLe a b.
Proof. unfold cutLt. destruct (cutLe_total a b); tauto. Qed.

Lemma cutLt_le_trans a b c : cutLt a b -> cutLe b c -> cutLt a c.
Proof. unfold cutLt. intros Hab Hbc Hca. apply Hab. eapply cutLe_trans; eauto. Qed.

Lemma cutLe_lt_trans a b c : cutLe a b -> cutLt b c -> cutLt a c.
Proof. unfold cutLt. intros Hab Hbc Hca. apply Hbc. eapply cutLe_trans; eauto. Qed.

Lemma cutLe_dec a b : cutLe a b \/ cutLt b a.
Proof.
  unfold cutLt.
  destruct a as [| v s |], b as [| w t |]; cbn; try tauto.
  sort_pair v w. destruct s, t; cbn; lia.
Qed.

(** [compareLower] and [compareUpper] compare the cuts of the bounds. *)
Lemma compareLower_le x y : compareLower x y <= 0 <-> cutLe (lowerCut x) (lowerCut y).
Proof.
  destruct x as [| v i |], y as [| w j |]; cbn; try (split; [tauto | lia]);
    try (split; [lia | tauto]).
  sort_pair v w.
  destruct (Z.eqb_spec (Sort v w) 0); cbn; [| lia].
  destruct i, j; cbn; lia.
Qed.

Lemma compareLower_lt x y : compareLower x y < 0 <-> cutLt (lowerCut x) (lowerCut y).
Proof.
  unfold cutLt.
  destruct x as [| v i |], y as [| w j |]; cbn; try (split; [tauto | lia]);
    try (split; [lia | tauto]).
  sort_pair v w.
  destruct (Z.eqb_spec (Sort v w) 0); cbn; [| lia].
  destruct i, j; cbn; lia.
Qed.

Lemma compareUpper_le x y : compareUpper x y <= 0 <-> cutLe (upperCut x) (upperCut y).
Proof.
  destruct x as [| v i |], y as [| w j |]; cbn; try (split; [tauto | lia]);
    try (split; [lia | tauto]).
  sort_pair v w.
  destruct (Z.eqb_spec (Sort v w) 0); cbn; [| lia].
  destruct i, j; cbn; lia.
Qed.

Lemma compareUpper_lt x y : compareUpper x y < 0 <-> cutLt (upperCut x) (upperCut y).
Proof.
  unfold cutLt.
  destruct x as [| v i |], y as [| w j |]; cbn; try (split; [tauto | lia]);
    try (split; [lia | tauto]).
  sort_pair v w.
  destruct (Z.eqb_spec (Sort v w) 0); cbn; [| lia].
  destruct i, j; cbn; lia.
Qed.

(** An interval is non-empty when its lower cut is below its upper cut. *)
Lemma isEmpty_false_iff iv :
  isEmpty iv = false <-> cutLt (lowerCut (lower iv)) (upperCut (upper iv)).
Proof.
  unfold cutLt, isEmpty.
  destruct iv as [[| v i |] [| w j |]]; cbn; try (split; [tauto | reflexivity]);
    try (split; [discriminate | tauto]).
  sort_pair v w.
  destruct (Z.ltb_spec (Sort v w) 0); [split; [lia | reflexivity] |].
  destruct (Z.gtb_spec (Sort v w) 0); [split; [discriminate | lia] |].
  destruct i, j; cbn; split; try discriminate; try reflexivity; lia.
Qed.

(** Between an upper bound that is not [-∞] and a lower bound that is
    not [+∞] (the bounds of non-empty intervals), [upperLessThanLower]
    says that the upper cut is not above the lower cut. *)
Lemma upperLessThanLower_iff x y :
  x <> BoundNegativeInfinity -> y <> BoundPositiveInfinity ->
  upperLessThanLower x y = true <-> cutLe (upperCut x) (lowerCut y).
Proof.
  intros Hx Hy. unfold upperLessThanLower.
  destruct x as [| v i |], y as [| w j |]; cbn; try congruence;
    try (split; [discriminate | tauto]); try (split; [tauto | reflexivity]).
  sort_pair v w.
  destruct (Z.ltb_spec (Sort v w) 0); [split; [lia | reflexivity] |].
  destruct (Z.gtb_spec (Sort v w) 0); [split; [discriminate | lia] |].
  destruct i, j; cbn; split; try discriminate; try reflexivity; lia.
Qed.

Lemma nonEmpty_upper iv : isEmpty iv = false -> upper iv <> BoundNegativeInfinity.
Proof. destruct iv as [[| v i |] [| w j |]]; cbn; congruence. Qed.

Lemma nonEmpty_lower iv : isEmpty iv = false -> lower iv <> BoundPositiveInfinity.
Proof. destruct iv as [[| v i |] [| w j |]]; cbn; congruence. Qed.

Lemma endsBefore_iff (iv iv' : versionInterval V) :
  isEmpty iv = false -> isEmpty iv' = false ->
  endsBefore iv iv' <-> cutLe (upperCut (upper iv)) (lowerCut (lower iv')).
Proof.
  intros Hne Hne'. apply upperLessThanLower_iff;
    [apply nonEmpty_upper, Hne | apply nonEmpty_lower, Hne'].
Qed.

End CutProperties.

(** ** The normal form of [normalizeIntervals] *)

Section NormalForm.
Context {V : Type} `{Version V}.

Implicit Types (iv last current : versionInterval V) (l rest : list (versionInterval V)).



Lemma lowerLe_trans iv1 iv2 iv3 : lowerLe iv1 iv2 -> lowerLe iv2 iv3 -> lowerLe iv1 iv3.
Proof. unfold lowerLe. rewrite !compareLower_le. apply cutLe_trans. Qed.

Lemma lowerLe_total iv1 iv2 : lowerLe iv1 iv2 \/ lowerLe iv2 iv1.
Proof. unfold lowerLe. rewrite !compareLower_le. apply cutLe_total. Qed.

Lemma insertByLower_In x l y : In y (insertByLower x l) <-> y = x \/ In y l.
Proof.
  induction l as [| z l IH]; cbn; [intuition |].
  destruct (compareLower (lower x) (lower z) <=? 0); cbn; [intuition |].
  rewrite IH. intuition.
Qed.

Lemma insertByLower_sorted x l :
  StronglySorted lowerLe l -> StronglySorted lowerLe (insertByLower x l).
Proof.
  induction l as [| z l IH]; cbn; intros Hs; [repeat constructor |].
  apply StronglySorted_inv in Hs. destruct Hs as [Hs Hall].
  destruct (Z.leb_spec (compareLower (lower x) (lower z)) 0) as [Hle | Hgt].
  - constructor; [constructor; assumption |].
    constructor; [exact Hle |].
    eapply Forall_impl; [exact Hall |]. intros w Hw. eapply lowerLe_trans; eauto.
  - constructor; [exact (IH Hs) |].
    rewrite Forall_forall. intros w Hw. rewrite list_elem_of_In in Hw.
    apply insertByLower_In in Hw. destruct Hw as [-> | Hw].
    + destruct (lowerLe_total z x) as [Hzx | Hxz]; [exact Hzx |].
      unfold lowerLe in Hxz. lia.
    + rewrite Forall_forall in Hall. apply Hall. rewrite list_elem_of_In. exact Hw.
Qed.

Lemma sortByLower_In l y : In y (sortByLower l) <-> In y l.
Proof.
  unfold sortByLower. induction l as [| x l IH]; cbn; [tauto |].
  rewrite insertByLower_In, IH. intuition.
Qed.

Lemma sortByLower_sorted l : StronglySorted lowerLe (sortByLower l).
Proof.
  unfold sortByLower. induction l as [| x l IH]; cbn; [constructor |].
  apply insertByLower_sorted, IH.
Qed.

(** Merging keeps the lower bound of the earlier interval and gives a
    non-empty interval. *)
Lemma merge_sorted last current :
  isEmpty last = false -> lowerLe last current ->
  lower (merge last current) = lower last /\
  isEmpty (merge last current) = false.
Proof.
  intros Hne Hle.
  assert (Hlower : lower (merge last current) = lower last).
  { unfold merge, min. cbn. unfold lowerLe in Hle.
    destruct (Z.leb_spec (compareLower (lower last) (lower current)) 0); [reflexivity | lia]. }
  split; [exact Hlower |].
  apply isEmpty_false_iff. rewrite Hlower. apply isEmpty_false_iff in Hne.
  eapply cutLt_le_trans; [exact Hne |].
  unfold merge, max. cbn.
  destruct (Z.geb_spec (compareUpper (upper last) (upper current)) 0) as [Hge | Hlt].
  - apply cutLe_refl.
  - apply cutLt_le, compareUpper_lt. exact Hlt.
Qed.

(** Two non-empty intervals in the order of the sort that do not touch:
    the first ends before the second begins. *)
Lemma not_touching_endsBefore last current :
  isEmpty last = false -> isEmpty current = false -> lowerLe last current ->
  touches last current = false -> endsBefore last current.
Proof.
  intros Hl Hc Hle Htouch. unfold touches in Htouch. unfold endsBefore.
  destruct (upperLessThanLower (upper last) (lower current)) eqn:H1; [reflexivity |].
  destruct (upperLessThanLower (upper current) (lower last)) eqn:H2; [| discriminate].
  exfalso.
  apply (upperLessThanLower_iff _ _ (nonEmpty_upper _ Hc) (nonEmpty_lower _ Hl)) in H2.
  apply isEmpty_false_iff in Hc. apply compareLower_le in Hle.
  apply Hc. eapply cutLe_trans; eassumption.
Qed.

Lemma endsBefore_trans iv1 iv2 iv3 :
  isEmpty iv1 = false -> isEmpty iv2 = false -> isEmpty iv3 = false ->
  endsBefore iv1 iv2 -> endsBefore iv2 iv3 -> endsBefore iv1 iv3.
Proof.
  intros H1 H2 H3 H12 H23.
  apply (endsBefore_iff _ _ H1 H2) in H12. apply (endsBefore_iff _ _ H2 H3) in H23.
  apply (endsBefore_iff _ _ H1 H3). apply isEmpty_false_iff in H2.
  eapply cutLe_trans; [exact H12 |].
  eapply cutLe_trans; [apply cutLt_le; exact H2 | exact H23].
Qed.

(** The merging sweep over a sorted sequence of non-empty intervals. *)
Lemma mergeSweep_disjointAscending rest :
  forall last,
    isEmpty last = false ->
    Forall (fun iv => isEmpty iv = false) rest ->
    StronglySorted lowerLe (last :: rest) ->
    disjointAscending (mergeSweep last rest) /\
    exists hd tl, mergeSweep last rest = hd :: tl /\ lower hd = lower last.
Proof.
  induction rest as [| current rest IH]; intros last Hne Hall Hs; cbn [mergeSweep].
  - split; [| eauto]. split; repeat constructor. exact Hne.
  - apply Forall_cons in Hall. destruct Hall as [Hc Hall].
    apply StronglySorted_inv in Hs. destruct Hs as [Hs Hlast].
    apply Forall_cons in Hlast. destruct Hlast as [Hle Hlast].
    destruct (touches last current) eqn:Htouch.
    + destruct (merge_sorted last current Hne Hle) as [Hlower Hmne].
      destruct (IH (merge last current) Hmne Hall) as [Hnormal (hd & tl & Heq & Hhd)].
      * apply StronglySorted_inv in Hs. destruct Hs as [Hs _].
        constructor; [exact Hs |].
        eapply Forall_impl; [exact Hlast |]. intros w Hw.
        unfold lowerLe in *. rewrite Hlower. exact Hw.
      * split; [exact Hnormal |]. exists hd, tl. rewrite Hhd, Hlower. auto.
    + destruct (IH current Hc Hall Hs) as [[Hnes Hsorted] (hd & tl & Heq & Hhd)].
      split; [| eauto]. split; [constructor; assumption |].
      constructor; [exact Hsorted |].
      pose proof (not_touching_endsBefore last current Hne Hc Hle Htouch) as Hbefore.
      rewrite Heq in Hnes, Hsorted |- *.
      apply Forall_cons in Hnes. destruct Hnes as [Hhdne Htlne].
      apply StronglySorted_inv in Hsorted. destruct Hsorted as [_ Hhdall].
      assert (Hlh : endsBefore last hd).
      { unfold endsBefore in *. rewrite Hhd. exact Hbefore. }
      constructor; [exact Hlh |].
      rewrite Forall_forall in Hhdall, Htlne |- *. intros w Hw.
      eapply endsBefore_trans; [exact Hne | exact Hhdne | | exact Hlh |]; auto.
Qed.

(** [normalizeIntervals] gives, for any sequence of intervals, non-empty
    intervals each of which ends before the later ones begin. *)
Lemma normalizeIntervals_disjointAscending l :
  disjointAscending (normalizeIntervals l).
Proof.
  unfold normalizeIntervals.
  pose proof (sortByLower_sorted (List.filter (fun iv => negb (isEmpty iv)) l)) as Hs.
  assert (Hne : Forall (fun iv => isEmpty iv = false)
                  (sortByLower (List.filter (fun iv => negb (isEmpty iv)) l))).
  { rewrite Forall_forall. intros iv Hiv. rewrite list_elem_of_In in Hiv.
    apply sortByLower_In, List.filter_In in Hiv. destruct Hiv as [_ Hiv].
    destruct (isEmpty iv); [discriminate | reflexivity]. }
  destruct (sortByLower _) as [| first rest]; [split; constructor |].
  apply Forall_cons in Hne. destruct Hne as [Hfirst Hrest].
  apply mergeSweep_disjointAscending; assumption.
Qed.

(** In that form the lower bounds ascend strictly, no two intervals
    overlap and no version lies in two of them. *)
Lemma disjointAscending_pairs l :
  disjointAscending l ->
  StronglySorted
    (fun iv iv' =>
       compareLower (lower iv) (lower iv') < 0 /\
       overlaps iv iv' = false /\
       forall v, contains iv v = true -> contains iv' v = false) l.
Proof.
  intros [Hne Hs]. induction Hs as [| iv l Hs IH Hall]; [constructor |].
  apply Forall_cons in Hne. destruct Hne as [Hiv Hne].
  constructor; [exact (IH Hne) |].
  rewrite Forall_forall in Hall, Hne |- *. intros iv' Hin.
  specialize (Hall _ Hin). specialize (Hne _ Hin). cbn in Hne.
  split; [| split].
  - apply compareLower_lt.
    apply (endsBefore_iff _ _ Hiv Hne) in Hall.
    apply isEmpty_false_iff in Hiv.
    eapply cutLt_le_trans; eassumption.
  - unfold overlaps. unfold endsBefore in Hall. rewrite Hall. reflexivity.
  - intros [v |] Hc; [| reflexivity].
    apply (endsBefore_iff _ _ Hiv Hne) in Hall.
    clear Hin Hs IH.
    destruct iv as [[| w j |] [| vu iu |]], iv' as [[| vl il |] [| vu' iu' |]];
      cbn in *; try contradiction; try discriminate.
    all: sort_triple v vu vl.
    all: repeat match goal with
           | |- context [?x <? 0] => destruct (Z.ltb_spec x 0)
           | |- context [?x >? 0] => destruct (Z.gtb_spec x 0)
           | |- context [?x =? 0] => destruct (Z.eqb_spec x 0)
           | Hc : context [?x <? 0] |- _ => destruct (Z.ltb_spec x 0)
           | Hc : context [?x >? 0] |- _ => destruct (Z.gtb_spec x 0)
           | Hc : context [?x =? 0] |- _ => destruct (Z.eqb_spec x 0)
           end; cbn in *; try discriminate; try reflexivity;
         repeat match goal with b : bool |- _ => destruct b end;
         cbn in *; try discriminate; try reflexivity; exfalso; lia.
Qed.

End NormalForm.

(** ** The set operations keep the normal form *)

Section SetOperations.
Context {V : Type} `{Version V}.

Implicit Types (A B : VersionIntervalSet V) (iv : versionInterval V).

Lemma disjointAscending_nil : disjointAscending (V:=V) [].
Proof. split; constructor. Qed.

Lemma disjointAscending_single iv : isEmpty iv = false -> disjointAscending [iv].
Proof. intros Hne. split; repeat constructor. exact Hne. Qed.

Lemma Full_disjointAscending : disjointAscending (Full (V:=V)).
Proof. apply disjointAscending_single. reflexivity. Qed.

Lemma newInterval_nonEmpty (lo up : versionBound V) iv :
  newInterval lo up = Some iv -> isEmpty iv = false.
Proof.
  unfold newInterval. destruct (isEmpty _) eqn:Hne; [discriminate |].
  intros [= <-]. exact Hne.
Qed.

Lemma Singleton_disjointAscending (v : option V) : disjointAscending (Singleton v).
Proof.
  unfold Singleton. destruct v as [v |]; [| apply disjointAscending_nil].
  destruct (newInterval _ _) as [iv |] eqn:Hiv; [| apply disjointAscending_nil].
  apply disjointAscending_single. exact (newInterval_nonEmpty _ _ _ Hiv).
Qed.

Lemma intervalSetFromBounds_disjointAscending (lo up : versionBound V) :
  disjointAscending (intervalSetFromBounds lo up).
Proof.
  unfold intervalSetFromBounds. destruct (newInterval lo up);
    [apply normalizeIntervals_disjointAscending | apply disjointAscending_nil].
Qed.

Lemma Union_disjointAscending A (B : VersionSet V) : disjointAscending (Union A B).
Proof. apply normalizeIntervals_disjointAscending. Qed.

Lemma Intersection_disjointAscending A (B : VersionSet V) :
  disjointAscending (Intersection A B).
Proof.
  unfold Intersection. destruct A; [apply disjointAscending_nil |].
  destruct (asIntervalSet B); [apply disjointAscending_nil |].
  apply normalizeIntervals_disjointAscending.
Qed.

Lemma Complement_disjointAscending A : disjointAscending (Complement A).
Proof.
  unfold Complement. destruct A; [apply Full_disjointAscending |].
  apply normalizeIntervals_disjointAscending.
Qed.

(** X1: every set the constructors and the operations return has
    non-empty intervals that ascend and do not overlap, whatever the
    arguments. *)
Lemma set_operations_disjointAscending A (B : VersionSet V) :
  disjointAscending (Empty (V:=V)) /\
  disjointAscending (Full (V:=V)) /\
  (forall v, disjointAscending (Singleton v)) /\
  (forall lo li up ui, disjointAscending (NewVersionRangeSet lo li up ui)) /\
  disjointAscending (Union A B) /\
  disjointAscending (Intersection A B) /\
  disjointAscending (Complement A).
Proof.
  split; [apply disjointAscending_nil |].
  split; [apply Full_disjointAscending |].
  split; [apply Singleton_disjointAscending |].
  split; [intros; apply intervalSetFromBounds_disjointAscending |].
  split; [apply Union_disjointAscending |].
  split; [apply Intersection_disjointAscending | apply Complement_disjointAscending].
Qed.

Lemma upperLessThanLower_cutLe (x y : versionBound V) :
  upperLessThanLower x y = true -> cutLe (upperCut x) (lowerCut y).
Proof.
  unfold upperLessThanLower.
  destruct x as [| v i |], y as [| w j |]; cbn; try discriminate; try tauto.
  sort_pair v w.
  destruct (Z.ltb_spec (Sort v w) 0); [lia |].
  destruct (Z.gtb_spec (Sort v w) 0); [discriminate |].
  destruct i, j; cbn; try discriminate; lia.
Qed.

(** An interval that covers a non-empty interval overlaps it. *)
Lemma covers_overlaps (a b : versionInterval V) :
  isEmpty a = false -> covers b a = true -> overlaps a b = true.
Proof.
  intros Hne Hcov. apply isEmpty_false_iff in Hne. unfold covers in Hcov.
  destruct (Z.gtb_spec (compareLower (lower b) (lower a)) 0) as [| Hlo];
    [discriminate |].
  destruct (Z.ltb_spec (compareUpper (upper b) (upper a)) 0) as [| Hup];
    [discriminate |].
  apply compareLower_le in Hlo.
  assert (Hup' : cutLe (upperCut (upper a)) (upperCut (upper b))).
  { destruct (cutLe_dec (upperCut (upper a)) (upperCut (upper b))) as [Hle | Hlt];
      [exact Hle |].
    apply compareUpper_lt in Hlt. lia. }
  unfold overlaps.
  destruct (upperLessThanLower (upper a) (lower b)) eqn:H1.
  - exfalso. apply upperLessThanLower_cutLe in H1. apply Hne.
    eapply cutLe_trans; eassumption.
  - destruct (upperLessThanLower (upper b) (lower a)) eqn:H2; [| reflexivity].
    exfalso. apply upperLessThanLower_cutLe in H2. apply Hne.
    eapply cutLe_trans; eassumption.
Qed.

Lemma endsBefore_not_upper_lt (a b : versionInterval V) :
  isEmpty a = false -> upperLessThanLower (upper b) (lower a) = true ->
  (compareUpper (upper a) (upper b) <? 0) = false.
Proof.
  intros Hne Hb. apply isEmpty_false_iff in Hne.
  apply upperLessThanLower_cutLe in Hb.
  destruct (Z.ltb_spec (compareUpper (upper a) (upper b)) 0) as [Hlt |]; [| reflexivity].
  exfalso. apply compareUpper_lt in Hlt. apply Hlt.
  eapply cutLe_trans; [exact Hb |]. apply cutLt_le. exact Hne.
Qed.

Lemma subsetSweep_not_disjoint (a : versionInterval V) (si oi : list (versionInterval V)) :
  isEmpty a = false ->
  subsetSweep (a :: si) oi = true -> disjointSweep (a :: si) oi = false.
Proof.
  intros Hne. induction oi as [| b oi IH]; cbn; [discriminate |].
  destruct (covers b a) eqn:Hcov.
  - intros _. rewrite (covers_overlaps a b Hne Hcov). reflexivity.
  - destruct (upperLessThanLower (upper b) (lower a)) eqn:Hb; [| discriminate].
    intros Hsub. destruct (overlaps a b); [reflexivity |].
    rewrite (endsBefore_not_upper_lt a b Hne Hb). exact (IH Hsub).
Qed.

(** A non-empty set of non-empty intervals that is inside a set is not
    disjoint from it. *)
Lemma IsSubset_not_IsDisjoint A (R : VersionIntervalSet V) :
  Forall (fun iv => isEmpty iv = false) A -> IsEmpty A = false ->
  IsSubset A (Some R) = true -> IsDisjoint A (Some R) = false.
Proof.
  intros Hne Hnonempty. destruct A as [| a si]; [discriminate |].
  apply Forall_cons in Hne. destruct Hne as [Ha _].
  unfold IsSubset, IsDisjoint. cbn [asIntervalSet].
  destruct R as [| b oi]; [discriminate |].
  apply subsetSweep_not_disjoint. exact Ha.
Qed.

End SetOperations.

(** ** Membership: what the set operations contain *)

Section Membership.
Context {V : Type} `{Version V}.

Implicit Types (c : cut V) (iv a b : versionInterval V)
  (s l : list (versionInterval V)).

Create HintDb cuts.
#[local] Hint Resolve cutLe_refl cutLt_le : cuts.
#[local] Hint Extern 2 (cutLe _ _) => eapply cutLe_trans; [eassumption |] : cuts.
#[local] Hint Extern 2 (cutLe _ _) => eapply cutLe_trans; [| eassumption] : cuts.

(** No cut lies strictly between the cut before and the cut after a
    version. *)
Lemma cut_before_after c (v : V) :
  cutLt c (CutAt v true) <-> cutLe c (CutAt v false).
Proof.
  unfold cutLt. destruct c as [| w t |]; cbn; [tauto | | tauto].
  sort_pair v w. destruct t; cbn; lia.
Qed.

Lemma contains_inside iv (v : V) :
  isEmpty iv = false ->
  contains iv (Some v) = true <-> inside (CutAt v false) iv.
Proof.
  intros Hne. unfold inside, cutLt, contains.
  destruct iv as [[| w j |] [| x i |]]; cbn in *; try discriminate.
  all: try (sort_pair v w); try (sort_pair v x).
  all: repeat match goal with
         | |- context [?z <? 0] => destruct (Z.ltb_spec z 0)
         | |- context [?z >? 0] => destruct (Z.gtb_spec z 0)
         | |- context [?z =? 0] => destruct (Z.eqb_spec z 0)
         end; cbn;
       repeat match goal with b : bool |- _ => destruct b end; cbn;
       split; intros; try discriminate; try reflexivity; try tauto; try lia.
Qed.

Lemma Contains_insideSet s (v : V) :
  Forall (fun iv => isEmpty iv = false) s ->
  Contains s (Some v) = true <-> insideSet (CutAt v false) s.
Proof.
  intros Hne. unfold Contains, insideSet.
  rewrite existsb_exists, Exists_exists. rewrite Forall_forall in Hne.
  split; intros (iv & Hin & Hc); exists iv.
  - rewrite list_elem_of_In. split; [exact Hin |].
    apply contains_inside; [apply Hne; rewrite list_elem_of_In; exact Hin | exact Hc].
  - rewrite list_elem_of_In in Hin. split; [exact Hin |].
    apply contains_inside; [apply Hne; rewrite list_elem_of_In; exact Hin | exact Hc].
Qed.

(** *** Normalisation keeps the members *)

Lemma insideSet_In c s : insideSet c s <-> exists iv, In iv s /\ inside c iv.
Proof.
  unfold insideSet. rewrite Exists_exists.
  split; intros (iv & Hin & Hc); exists iv; rewrite list_elem_of_In in *; auto.
Qed.

Lemma insideSet_cons c iv s : insideSet c (iv :: s) <-> inside c iv \/ insideSet c s.
Proof. unfold insideSet. apply Exists_cons. Qed.

Lemma insideSet_app c s1 s2 : insideSet c (s1 ++ s2) <-> insideSet c s1 \/ insideSet c s2.
Proof. unfold insideSet. apply Exists_app. Qed.

Lemma insideSet_nil c : insideSet c [] <-> False.
Proof. unfold insideSet. split; [intros Hx; inversion Hx | tauto]. Qed.

Lemma insideSet_sortByLower c l : insideSet c (sortByLower l) <-> insideSet c l.
Proof.
  rewrite !insideSet_In.
  split; intros (iv & Hin & Hc); exists iv; (split; [| exact Hc]);
    apply sortByLower_In; exact Hin.
Qed.

Lemma insideSet_filter_nonEmpty c l :
  insideSet c (List.filter (fun iv => negb (isEmpty iv)) l) <-> insideSet c l.
Proof.
  rewrite !insideSet_In.
  split; intros (iv & Hin & Hc); exists iv; (split; [| exact Hc]).
  - apply List.filter_In in Hin. tauto.
  - apply List.filter_In. split; [exact Hin |].
    destruct (isEmpty iv) eqn:Hempty; [| reflexivity]. exfalso.
    destruct Hc as [Hlo Hup].
    assert (Hne : cutLt (lowerCut (lower iv)) (upperCut (upper iv)))
      by (eapply cutLe_lt_trans; eassumption).
    apply isEmpty_false_iff in Hne. congruence.
Qed.

(** The hull of two overlapping intervals has the members of both. *)
Lemma inside_merge c last current :
  isEmpty last = false -> isEmpty current = false ->
  lowerLe last current -> touches last current = true ->
  inside c (merge last current) <-> inside c last \/ inside c current.
Proof.
  intros Hlast Hcurrent Hle Htouch. unfold touches in Htouch.
  apply andb_true_iff in Htouch. destruct Htouch as [Htouch _].
  apply negb_true_iff in Htouch.
  assert (Hover : cutLt (lowerCut (lower current)) (upperCut (upper last))).
  { intros Hc. apply nonEmpty_upper in Hlast. apply nonEmpty_lower in Hcurrent.
    destruct last as [lo up], current as [lo' up']. cbn in *.
    clear Hle. unfold upperLessThanLower in Htouch.
    destruct up as [| v i |], lo' as [| w j |]; cbn in *;
      try discriminate; try contradiction; try congruence.
    sort_pair v w.
    destruct (Z.ltb_spec (Sort v w) 0); [discriminate |].
    destruct (Z.gtb_spec (Sort v w) 0); [lia |].
    destruct i, j; cbn in *; try discriminate; lia. }
  apply compareLower_le in Hle.
  unfold inside, merge, min, max. cbn [lower upper].
  destruct (Z.leb_spec (compareLower (lower last) (lower current)) 0) as [_ | Hgt];
    [| apply compareLower_le in Hle; lia].
  destruct (Z.geb_spec (compareUpper (upper last) (upper current)) 0) as [Hge | Hlt].
  - assert (Hup : cutLe (upperCut (upper current)) (upperCut (upper last))).
    { destruct (cutLe_dec (upperCut (upper current)) (upperCut (upper last)))
        as [Hx | Hx]; [exact Hx |]. apply compareUpper_lt in Hx. lia. }
    split; [tauto |]. intros [Hin | [Hlo Hc]]; [exact Hin |].
    split; [eauto with cuts |]. eapply cutLt_le_trans; eassumption.
  - apply compareUpper_lt in Hlt.
    split.
    + intros [Hlo Hc].
      destruct (cutLe_dec (upperCut (upper last)) c) as [Hx | Hx]; [| left; auto].
      right. split; [| exact Hc].
      apply cutLt_le. eapply cutLt_le_trans; eassumption.
    + intros [[Hlo Hc] | [Hlo Hc]].
      * split; [exact Hlo |]. eapply cutLt_le_trans; [exact Hc |].
        apply cutLt_le. exact Hlt.
      * split; [eauto with cuts | exact Hc].
Qed.

Lemma insideSet_mergeSweep c rest :
  forall last,
    isEmpty last = false ->
    Forall (fun iv => isEmpty iv = false) rest ->
    StronglySorted lowerLe (last :: rest) ->
    insideSet c (mergeSweep last rest) <-> inside c last \/ insideSet c rest.
Proof.
  induction rest as [| current rest IH]; intros last Hne Hall Hs; cbn [mergeSweep].
  - rewrite insideSet_cons. tauto.
  - apply Forall_cons in Hall. destruct Hall as [Hc Hall].
    apply StronglySorted_inv in Hs. destruct Hs as [Hs Hlast].
    apply Forall_cons in Hlast. destruct Hlast as [Hle Hlast].
    destruct (touches last current) eqn:Htouch.
    + destruct (merge_sorted last current Hne Hle) as [Hlower Hmne].
      rewrite IH, (inside_merge c last current Hne Hc Hle Htouch), insideSet_cons;
        [tauto | exact Hmne | exact Hall |].
      apply StronglySorted_inv in Hs. destruct Hs as [Hs _].
      constructor; [exact Hs |].
      eapply Forall_impl; [exact Hlast |]. intros w Hw.
      unfold lowerLe in *. rewrite Hlower. exact Hw.
    + rewrite !insideSet_cons. rewrite IH; [tauto | exact Hc | exact Hall | exact Hs].
Qed.

(** [normalizeIntervals] keeps what a sequence contains. *)
Lemma insideSet_normalizeIntervals c l :
  insideSet c (normalizeIntervals l) <-> insideSet c l.
Proof.
  unfold normalizeIntervals.
  pose proof (sortByLower_sorted (List.filter (fun iv => negb (isEmpty iv)) l)) as Hs.
  assert (Hne : Forall (fun iv => isEmpty iv = false)
                  (sortByLower (List.filter (fun iv => negb (isEmpty iv)) l))).
  { rewrite Forall_forall. intros iv Hiv. rewrite list_elem_of_In in Hiv.
    apply sortByLower_In, List.filter_In in Hiv. destruct Hiv as [_ Hiv].
    destruct (isEmpty iv); [discriminate | reflexivity]. }
  rewrite <- (insideSet_filter_nonEmpty c l).
  rewrite <- (insideSet_sortByLower c (List.filter _ l)).
  revert Hs Hne.
  generalize (sortByLower (List.filter (fun iv => negb (isEmpty iv)) l)).
  intros [| first rest] Hs Hne; [reflexivity |].
  apply Forall_cons in Hne. destruct Hne as [Hfirst Hrest].
  rewrite insideSet_mergeSweep by assumption. rewrite insideSet_cons. reflexivity.
Qed.

(** *** Union *)

Lemma insideSet_Union c (A : VersionIntervalSet V) (B : VersionSet V) :
  insideSet c (Union A B) <-> insideSet c A \/ insideSet c (asIntervalSet B).
Proof.
  unfold Union, newVersionIntervalSet, cloneIntervals.
  rewrite insideSet_normalizeIntervals. apply insideSet_app.
Qed.

(** *** Intersection *)

Lemma compareLower_ge (x y : versionBound V) :
  0 <= compareLower x y <-> cutLe (lowerCut y) (lowerCut x).
Proof.
  pose proof (compareLower_lt x y) as Hlt. unfold cutLt in Hlt. split.
  - intros Hge. destruct (cutLe_dec (lowerCut y) (lowerCut x)) as [Hle | Hgt];
      [exact Hle |].
    exfalso. unfold cutLt in Hgt. apply Hlt in Hgt. lia.
  - intros Hle. destruct (Z.lt_ge_cases (compareLower x y) 0) as [Hx | Hx]; [| lia].
    apply Hlt in Hx. tauto.
Qed.

Lemma compareUpper_ge (x y : versionBound V) :
  0 <= compareUpper x y <-> cutLe (upperCut y) (upperCut x).
Proof.
  pose proof (compareUpper_lt x y) as Hlt. unfold cutLt in Hlt. split.
  - intros Hge. destruct (cutLe_dec (upperCut y) (upperCut x)) as [Hle | Hgt];
      [exact Hle |].
    exfalso. unfold cutLt in Hgt. apply Hlt in Hgt. lia.
  - intros Hle. destruct (Z.lt_ge_cases (compareUpper x y) 0) as [Hx | Hx]; [| lia].
    apply Hlt in Hx. tauto.
Qed.

(** The higher of two lower bounds and the lower of two upper bounds. *)
Lemma max_lower_cut c (x y : versionBound V) :
  cutLe (lowerCut (max x y compareLower)) c
  <-> cutLe (lowerCut x) c /\ cutLe (lowerCut y) c.
Proof.
  unfold max. destruct (Z.geb_spec (compareLower x y) 0) as [Hge | Hlt].
  - apply compareLower_ge in Hge. split; [| tauto].
    intros Hx. split; [exact Hx | eapply cutLe_trans; eassumption].
  - assert (Hle : cutLe (lowerCut x) (lowerCut y))
      by (apply compareLower_le; lia).
    split; [| tauto].
    intros Hy. split; [eapply cutLe_trans; eassumption | exact Hy].
Qed.

Lemma min_upper_cut c (x y : versionBound V) :
  cutLt c (upperCut (min x y compareUpper))
  <-> cutLt c (upperCut x) /\ cutLt c (upperCut y).
Proof.
  unfold min. destruct (Z.leb_spec (compareUpper x y) 0) as [Hle | Hgt].
  - apply compareUpper_le in Hle. split; [| tauto].
    intros Hx. split; [exact Hx | eapply cutLt_le_trans; eassumption].
  - assert (Hle : cutLe (upperCut y) (upperCut x))
      by (apply compareUpper_ge; lia).
    split; [| tauto].
    intros Hy. split; [eapply cutLt_le_trans; eassumption | exact Hy].
Qed.

Lemma inside_intersectInterval c a b :
  match intersectInterval a b with
  | Some iv => inside c iv <-> inside c a /\ inside c b
  | None => ~ (inside c a /\ inside c b)
  end.
Proof.
  unfold intersectInterval, newInterval.
  destruct (isEmpty _) eqn:Hempty.
  - intros [[Hla Hua] [Hlb Hub]].
    assert (Hne : isEmpty {| lower := max (lower a) (lower b) compareLower;
                             upper := min (upper a) (upper b) compareUpper |} = false).
    { apply isEmpty_false_iff. cbn [lower upper].
      eapply cutLe_lt_trans; [apply max_lower_cut | apply min_upper_cut]; eauto. }
    congruence.
  - unfold inside. cbn [lower upper]. rewrite max_lower_cut, min_upper_cut. tauto.
Qed.

Lemma intersectInterval_nonEmpty a b iv :
  intersectInterval a b = Some iv -> isEmpty iv = false.
Proof. apply newInterval_nonEmpty. Qed.

Lemma intersectionSweep_nil_r si : intersectionSweep si [] = [].
Proof. destruct si; reflexivity. Qed.

Lemma intersectionSweep_cons a si b oi :
  intersectionSweep (a :: si) (b :: oi)
  = match intersectInterval a b with
    | Some interval => [interval]
    | None => []
    end
    ++ (if compareUpper (upper a) (upper b) <? 0
        then intersectionSweep si (b :: oi)
        else intersectionSweep (a :: si) oi).
Proof.
  cbn. destruct (compareUpper (upper a) (upper b) <? 0); reflexivity.
Qed.

(** What lies inside a later interval of a normal sequence is not
    before the end of an earlier one. *)
Lemma inside_tail_after c a s :
  disjointAscending (a :: s) -> insideSet c s -> cutLe (upperCut (upper a)) c.
Proof.
  intros [Hne Hs] Hin. apply insideSet_In in Hin. destruct Hin as (x & Hx & [Hlo _]).
  apply Forall_cons in Hne. destruct Hne as [Ha Hne].
  apply StronglySorted_inv in Hs. destruct Hs as [_ Hall].
  rewrite Forall_forall in Hall, Hne.
  rewrite <- list_elem_of_In in Hx.
  specialize (Hall _ Hx). specialize (Hne _ Hx). cbn in Hne.
  apply (endsBefore_iff _ _ Ha Hne) in Hall.
  eapply cutLe_trans; eassumption.
Qed.

Lemma disjointAscending_tail a s : disjointAscending (a :: s) -> disjointAscending s.
Proof.
  intros [Hne Hs]. apply Forall_cons in Hne. apply StronglySorted_inv in Hs.
  split; tauto.
Qed.

Lemma insideSet_intersectionSweep c si :
  forall oi,
    disjointAscending si -> disjointAscending oi ->
    insideSet c (intersectionSweep si oi) <-> insideSet c si /\ insideSet c oi.
Proof.
  induction si as [| a si IHs]; intros oi Hsi Hoi.
  - cbn. destruct oi; rewrite !insideSet_nil; tauto.
  - induction oi as [| b oi IHo].
    + rewrite intersectionSweep_nil_r, !insideSet_nil. tauto.
    + rewrite intersectionSweep_cons, insideSet_app.
      pose proof (inside_intersectInterval c a b) as Hab.
      assert (Hemit : insideSet c match intersectInterval a b with
                                  | Some interval => [interval]
                                  | None => []
                                  end <-> inside c a /\ inside c b).
      { destruct (intersectInterval a b).
        - rewrite insideSet_cons, insideSet_nil. tauto.
        - rewrite insideSet_nil. tauto. }
      rewrite Hemit, !insideSet_cons.
      destruct (Z.ltb_spec (compareUpper (upper a) (upper b)) 0) as [Hlt | Hge].
      * rewrite (IHs (b :: oi) (disjointAscending_tail _ _ Hsi) Hoi), insideSet_cons.
        apply compareUpper_lt in Hlt.
        assert (Hno : inside c a -> insideSet c oi -> False).
        { intros [_ Hca] Hin. apply (inside_tail_after c b oi Hoi) in Hin.
          apply Hlt. eapply cutLe_trans; [exact Hin |]. apply cutLt_le. exact Hca. }
        tauto.
      * rewrite (IHo (disjointAscending_tail _ _ Hoi)), insideSet_cons.
        apply compareUpper_ge in Hge.
        assert (Hno : inside c b -> insideSet c si -> False).
        { intros [_ Hcb] Hin. apply (inside_tail_after c a si Hsi) in Hin.
          apply Hcb. eapply cutLe_trans; eassumption. }
        tauto.
Qed.

Lemma insideSet_Intersection c (A B : VersionIntervalSet V) :
  disjointAscending A -> disjointAscending B ->
  insideSet c (Intersection A (Some B)) <-> insideSet c A /\ insideSet c B.
Proof.
  intros HA HB. unfold Intersection, newVersionIntervalSet. cbn [asIntervalSet].
  destruct A as [| a A]; [rewrite insideSet_nil; tauto |].
  destruct B as [| b B]; [rewrite insideSet_nil; tauto |].
  rewrite insideSet_normalizeIntervals. apply insideSet_intersectionSweep; assumption.
Qed.

(** *** Complement *)

Lemma complementLowerBound_cut iv :
  lowerCut (complementLowerBound iv) = upperCut (upper iv).
Proof.
  unfold complementLowerBound. destruct (upper iv) as [| v i |]; cbn;
    [reflexivity | | reflexivity].
  destruct i; reflexivity.
Qed.

Lemma complementUpperBound_cut iv :
  upperCut (complementUpperBound iv) = lowerCut (lower iv).
Proof.
  unfold complementUpperBound. destruct (lower iv) as [| v i |]; reflexivity.
Qed.

(** The interval between two bounds, when it is not empty. *)
Lemma inside_newInterval c (lo up : versionBound V) :
  insideSet c match newInterval lo up with
              | Some gap => [gap]
              | None => []
              end
  <-> cutLe (lowerCut lo) c /\ cutLt c (upperCut up).
Proof.
  unfold newInterval. destruct (isEmpty _) eqn:Hempty.
  - rewrite insideSet_nil. split; [tauto |]. intros [Hlo Hup].
    assert (Hne : isEmpty {| lower := lo; upper := up |} = false).
    { apply isEmpty_false_iff. cbn. eapply cutLe_lt_trans; eassumption. }
    congruence.
  - rewrite insideSet_cons, insideSet_nil. unfold inside. cbn. tauto.
Qed.

Lemma insideSet_complementGaps c intervals :
  forall currentLower,
    disjointAscending intervals ->
    Forall (fun iv => cutLe (lowerCut currentLower) (lowerCut (lower iv))) intervals ->
    cutLt c CutPosInf ->
    insideSet c (complementGaps currentLower intervals)
    <-> cutLe (lowerCut currentLower) c /\ ~ insideSet c intervals.
Proof.
  induction intervals as [| iv rest IH]; intros currentLower Hnormal Hfrom Hc;
    cbn [complementGaps].
  - rewrite (inside_newInterval c currentLower positiveInfinityBound).
    rewrite insideSet_nil. cbn [upperCut positiveInfinityBound]. tauto.
  - rewrite insideSet_app,
      (inside_newInterval c currentLower (complementUpperBound iv)),
      complementUpperBound_cut.
    apply Forall_cons in Hfrom. destruct Hfrom as [Hiv _].
    assert (Hne : cutLt (lowerCut (lower iv)) (upperCut (upper iv))).
    { apply isEmpty_false_iff. destruct Hnormal as [Hne _].
      apply Forall_cons in Hne. tauto. }
    assert (Hafter : Forall (fun x => cutLe (upperCut (upper iv)) (lowerCut (lower x))) rest).
    { destruct Hnormal as [Hnes Hs]. apply Forall_cons in Hnes. destruct Hnes as [Ha Hnes].
      apply StronglySorted_inv in Hs. destruct Hs as [_ Hall].
      rewrite Forall_forall in Hall, Hnes |- *. intros x Hx.
      apply (endsBefore_iff _ _ Ha (Hnes _ Hx)). exact (Hall _ Hx). }
    rewrite (IH (complementLowerBound iv) (disjointAscending_tail _ _ Hnormal)); cycle 1.
    { rewrite complementLowerBound_cut. exact Hafter. }
    { exact Hc. }
    rewrite complementLowerBound_cut, insideSet_cons. unfold inside.
    assert (Hrest : insideSet c rest -> cutLe (upperCut (upper iv)) c).
    { apply inside_tail_after. exact Hnormal. }
    split.
    + intros [[Hlo Hup] | [Hup Hnot]].
      * split; [exact Hlo |]. intros [[Hin _] | Hin]; [exact (Hup Hin) |].
        apply Hup. eapply cutLe_trans; [apply cutLt_le; exact Hne |]. auto.
      * split.
        -- eapply cutLe_trans; [exact Hiv |].
           eapply cutLe_trans; [apply cutLt_le; exact Hne | exact Hup].
        -- intros [[_ Hin] | Hin]; [exact (Hin Hup) | exact (Hnot Hin)].
    + intros [Hlo Hnot].
      destruct (cutLe_dec (lowerCut (lower iv)) c) as [Hin | Hout].
      * right. split; [| tauto].
        destruct (cutLe_dec (upperCut (upper iv)) c) as [Hup | Hup]; [exact Hup |].
        exfalso. apply Hnot. left. auto.
      * left. auto.
Qed.

Lemma insideSet_Complement c (A : VersionIntervalSet V) :
  disjointAscending A -> cutLt c CutPosInf ->
  insideSet c (Complement A) <-> ~ insideSet c A.
Proof.
  intros HA Hc. unfold Complement, newVersionIntervalSet.
  destruct A as [| a A].
  - unfold Full. rewrite insideSet_cons, !insideSet_nil. unfold inside. cbn.
    tauto.
  - rewrite insideSet_normalizeIntervals, insideSet_complementGaps; [| exact HA | | exact Hc].
    + cbn. tauto.
    + rewrite Forall_forall. intros x _. exact I.
Qed.

(** *** The versions the results contain *)

Lemma Contains_nil_version s : Contains s None = false.
Proof.
  unfold Contains. induction s as [| iv s IH]; [reflexivity |].
  cbn. exact IH.
Qed.

Lemma cut_before_finite (v : V) : cutLt (CutAt v false) CutPosInf.
Proof. unfold cutLt. cbn. tauto. Qed.

Lemma Contains_Union (A B : VersionIntervalSet V) (v : option V) :
  disjointAscending A -> disjointAscending B ->
  Contains (Union A (Some B)) v = Contains A v || Contains B v.
Proof.
  intros [HA _] [HB _]. destruct v as [v |];
    [| rewrite !Contains_nil_version; reflexivity].
  apply eq_true_iff_eq. rewrite orb_true_iff.
  rewrite (Contains_insideSet _ _ (proj1 (Union_disjointAscending A (Some B)))).
  rewrite (Contains_insideSet _ _ HA), (Contains_insideSet _ _ HB).
  apply insideSet_Union.
Qed.

Lemma Contains_Intersection (A B : VersionIntervalSet V) (v : option V) :
  disjointAscending A -> disjointAscending B ->
  Contains (Intersection A (Some B)) v = Contains A v && Contains B v.
Proof.
  intros HA HB. destruct v as [v |];
    [| rewrite !Contains_nil_version; reflexivity].
  apply eq_true_iff_eq. rewrite andb_true_iff.
  rewrite (Contains_insideSet _ _ (proj1 (Intersection_disjointAscending A (Some B)))).
  rewrite (Contains_insideSet _ _ (proj1 HA)), (Contains_insideSet _ _ (proj1 HB)).
  apply insideSet_Intersection; assumption.
Qed.

Lemma Contains_Complement (A : VersionIntervalSet V) (v : V) :
  disjointAscending A ->
  Contains (Complement A) (Some v) = negb (Contains A (Some v)).
Proof.
  intros HA. apply eq_true_iff_eq. rewrite negb_true_iff.
  rewrite (Contains_insideSet _ _ (proj1 (Complement_disjointAscending A))).
  rewrite (insideSet_Complement _ _ HA (cut_before_finite v)).
  rewrite <- (Contains_insideSet _ _ (proj1 HA)).
  destruct (Contains A (Some v)); split; congruence.
Qed.

(** X3: on sets in the normal form the set operations are union,
    intersection and complement of the versions contained, so the laws
    of the algebra hold for membership: De Morgan, idempotence,
    involution, identity and absorption. *)
Lemma set_algebra_laws_on_members (A B : VersionIntervalSet V) (v : V) :
  disjointAscending A -> disjointAscending B ->
  Contains (Complement (Union A (Some B))) (Some v)
  = Contains (Intersection (Complement A) (Some (Complement B))) (Some v) /\
  Contains (Union A (Some A)) (Some v) = Contains A (Some v) /\
  Contains (Intersection A (Some A)) (Some v) = Contains A (Some v) /\
  Contains (Complement (Complement A)) (Some v) = Contains A (Some v) /\
  Contains (Union A (Some Empty)) (Some v) = Contains A (Some v) /\
  Contains (Intersection A (Some Full)) (Some v) = Contains A (Some v) /\
  Contains (Union A (Some (Intersection A (Some B)))) (Some v) = Contains A (Some v) /\
  Contains (Intersection A (Some (Union A (Some B)))) (Some v) = Contains A (Some v).
Proof.
  intros HA HB.
  pose proof (Union_disjointAscending A (Some B)) as HAB.
  pose proof (Intersection_disjointAscending A (Some B)) as HAnB.
  pose proof (Complement_disjointAscending A) as HcA.
  pose proof (Complement_disjointAscending B) as HcB.
  pose proof (disjointAscending_nil (V:=V)) as Hnil.
  pose proof (Full_disjointAscending (V:=V)) as Hfull.
  repeat rewrite ?Contains_Complement, ?Contains_Union, ?Contains_Intersection
    by assumption.
  assert (HE : Contains (Empty (V:=V)) (Some v) = false) by reflexivity.
  assert (HF : Contains (Full (V:=V)) (Some v) = true) by reflexivity.
  rewrite HE, HF.
  destruct (Contains A (Some v)), (Contains B (Some v)); cbn; auto 10.
Qed.

End Membership.


(** ** Terms and incompatibilities *)

Section TermProperties.
Context {V : Type} `{Version V}.

(** C10: for every term [t], [t.SatisfiedBy(nil)] returns, and returns
    true exactly when [t] is negative, whatever the condition of [t] is. *)
Theorem SatisfiedBy_nil_iff_negative (t : Term V) :
  SatisfiedBy t None = Some (negb (Positive t)) /\
  (SatisfiedBy t None = Some true <-> Positive t = false).
Proof.
  split; [reflexivity |].
  cbn. destruct (Positive t); cbn; split; congruence.
Qed.

Lemma dedupTerms_names_fresh (terms : list (Term V)) :
  forall (seen : gmap Name (Term V)) t,
    In t (dedupTerms seen terms) -> seen !! TermName t = None.
Proof.
  induction terms as [| u rest IH]; intros seen t Hin; cbn in Hin; [tauto |].
  destruct (seen !! TermName u) eqn:Hu.
  - exact (IH _ _ Hin).
  - destruct Hin as [-> | Hin]; [exact Hu |].
    specialize (IH _ _ Hin).
    destruct (decide (TermName u = TermName t)) as [Heq | Hne].
    + rewrite Heq, lookup_insert_eq in IH. discriminate.
    + rewrite lookup_insert_ne in IH by exact Hne. exact IH.
Qed.

Lemma dedupTerms_NoDup (terms : list (Term V)) :
  forall seen : gmap Name (Term V),
    NoDup (List.map TermName (dedupTerms seen terms)).
Proof.
  induction terms as [| u rest IH]; intros seen; cbn; [constructor |].
  destruct (seen !! TermName u) eqn:Hu; [apply IH |].
  cbn. constructor; [| apply IH].
  rewrite list_elem_of_In, in_map_iff. intros (t & Hname & Hin).
  apply dedupTerms_names_fresh in Hin.
  rewrite Hname, lookup_insert_eq in Hin. discriminate.
Qed.

(** [dedupTerms] keeps, in their order, exactly the terms that are the
    first of their name and whose name was not seen before. *)
Lemma dedupTerms_first (terms : list (Term V)) :
  forall (seen : gmap Name (Term V)) t,
    In t (dedupTerms seen terms) <->
    exists before after,
      terms = before ++ t :: after /\
      seen !! TermName t = None /\
      Forall (fun u => TermName u <> TermName t) before.
Proof.
  induction terms as [| u rest IH]; intros seen t; cbn.
  - split; [tauto |]. intros (before & after & Heq & _).
    destruct before; discriminate.
  - destruct (seen !! TermName u) eqn:Hu.
    + rewrite IH. split.
      * intros (before & after & -> & Hs & Hb).
        exists (u :: before), after. repeat split; [exact Hs |].
        constructor; [| exact Hb]. intros Heq. rewrite Heq in Hu. congruence.
      * intros (before & after & Heq & Hs & Hb).
        destruct before as [| b before]; cbn in Heq.
        -- injection Heq as -> ->. congruence.
        -- injection Heq as -> ->. inversion Hb; subst.
           exists before, after. auto.
    + cbn. rewrite IH. split.
      * intros [-> | (before & after & -> & Hs & Hb)].
        -- exists [], rest. auto.
        -- exists (u :: before), after.
           destruct (decide (TermName u = TermName t)) as [Heq | Hne].
           ++ rewrite Heq, lookup_insert_eq in Hs. discriminate.
           ++ rewrite lookup_insert_ne in Hs by exact Hne. auto.
      * intros (before & after & Heq & Hs & Hb).
        destruct before as [| b before]; cbn in Heq.
        -- injection Heq as -> ->. now left.
        -- injection Heq as -> ->. inversion Hb; subst. right.
           exists before, after. repeat split; [| assumption].
           rewrite lookup_insert_ne by assumption. exact Hs.
Qed.

Lemma dedupTerms_sublist (terms : list (Term V)) :
  forall seen : gmap Name (Term V), sublist (dedupTerms seen terms) terms.
Proof.
  induction terms as [| u rest IH]; intros seen; cbn; [constructor |].
  destruct (seen !! TermName u).
  - apply sublist_cons, IH.
  - apply sublist_skip, IH.
Qed.

(** C7, as the code has it: the terms of a no-versions incompatibility
    and of a conflict incompatibility have pairwise distinct names, the
    conflict constructor keeping, in their order, the first term of each
    name; a dependency incompatibility always carries the two terms
    [pkg == ver] and the negated dependency, whose names are distinct
    exactly when the dependency names another package. *)
Theorem incompatibility_constructors_names :
  (forall t : Term V,
      NoDup (List.map TermName (Terms (NewIncompatibilityNoVersions t)))) /\
  (forall (terms : list (Term V)) c1 c2,
      let inc := NewIncompatibilityConflict terms c1 c2 in
      NoDup (List.map TermName (Terms inc)) /\
      sublist (Terms inc) terms /\
      forall t, In t (Terms inc) <->
                exists before after,
                  terms = before ++ t :: after /\
                  Forall (fun u => TermName u <> TermName t) before) /\
  (forall pkg ver (dep : Term V),
      let inc := NewIncompatibilityFromDependency pkg ver dep in
      Terms inc = [NewTerm pkg (Some (EqualsCondition ver)); Negate dep] /\
      (NoDup (List.map TermName (Terms inc)) <-> TermName dep <> pkg)).
Proof.
  split; [| split].
  - intros t. cbn. apply NoDup_singleton.
  - intros terms c1 c2. cbn. split; [apply dedupTerms_NoDup |].
    split; [apply dedupTerms_sublist |].
    intros t. rewrite dedupTerms_first. split.
    + intros (b & a & ? & _ & ?). eauto.
    + intros (b & a & ? & ?). exists b, a. rewrite lookup_empty. auto.
  - intros pkg ver dep. cbn. split; [reflexivity |].
    rewrite NoDup_cons, list_elem_of_singleton.
    split; [intros [Hne _] Heq; auto | intros Hne; split; [auto |]].
    apply NoDup_singleton.
Qed.

End TermProperties.

(** ** The partial solution *)

Section PartialSolutionProperties.
Context {V : Type} `{Version V}.

Implicit Types (ps : partialSolution V) (a : assignment V) (n : Name).

Lemma logStack_app (l1 l2 : list (assignment V)) n :
  logStack (l1 ++ l2) n = logStack l1 n ++ logStack l2 n.
Proof. unfold logStack. apply List.filter_app. Qed.

Lemma logStack_snoc_eq (l : list (assignment V)) a :
  logStack (l ++ [a]) (name a) = logStack l (name a) ++ [a].
Proof.
  rewrite logStack_app. cbn. rewrite bool_decide_eq_true_2 by reflexivity.
  reflexivity.
Qed.

Lemma logStack_snoc_ne (l : list (assignment V)) a n :
  name a <> n -> logStack (l ++ [a]) n = logStack l n.
Proof.
  intros Hne. rewrite logStack_app. cbn.
  rewrite bool_decide_eq_false_2 by exact Hne. apply app_nil_r.
Qed.

Lemma stackEntry_default (stack : list (assignment V)) :
  default [] (stackEntry stack) = stack.
Proof. destruct stack; reflexivity. Qed.

Lemma stackOf_lockstep ps n :
  stacksInLockstep ps -> stackOf ps n = logStack (assignments ps) n.
Proof. intros Hl. unfold stackOf. rewrite Hl. apply stackEntry_default. Qed.

Lemma stackEntry_snoc (stack : list (assignment V)) a :
  stackEntry (stack ++ [a]) = Some (stack ++ [a]).
Proof. destruct stack; reflexivity. Qed.

(** [append] keeps the stacks in lockstep with the log. *)
Lemma append_lockstep ps a :
  stacksInLockstep ps -> stacksInLockstep (append ps a).
Proof.
  intros Hl n. unfold append. cbn [assignments perPackage].
  destruct (decide (name a = n)) as [<- | Hne].
  - rewrite lookup_insert_eq, logStack_snoc_eq, stackEntry_snoc.
    rewrite (stackOf_lockstep _ _ Hl). reflexivity.
  - rewrite lookup_insert_ne by exact Hne.
    rewrite logStack_snoc_ne by exact Hne. apply Hl.
Qed.

Lemma levelsAscending_snoc (log : list (assignment V)) a :
  levelsAscending log ->
  Forall (fun b => decisionLevel b <= decisionLevel a) log ->
  levelsAscending (log ++ [a]).
Proof.
  unfold levelsAscending. induction log as [| b log IH]; intros Hs Hb; cbn.
  - repeat constructor.
  - apply StronglySorted_inv in Hs. destruct Hs as [Hs Hall].
    apply Forall_cons in Hb. destruct Hb as [Hba Hb].
    constructor; [apply IH; assumption |].
    apply Forall_app. split; [exact Hall | repeat constructor; exact Hba].
Qed.

Lemma append_wellFormed ps a :
  wellFormed ps -> decisionLevel a = decisionLvl ps -> wellFormed (append ps a).
Proof.
  intros (Hl & Hs & Hb) Hlvl. split; [| split].
  - apply append_lockstep, Hl.
  - cbn. apply levelsAscending_snoc; [exact Hs |].
    rewrite Hlvl. exact Hb.
  - cbn. apply Forall_app. split; [exact Hb |].
    repeat constructor. lia.
Qed.

Lemma newPartialSolution_wellFormed (rootName : Name) :
  wellFormed (newPartialSolution (V:=V) rootName).
Proof.
  split; [| split]; cbn.
  - intros n. apply lookup_empty.
  - constructor.
  - constructor.
Qed.

Lemma raiseLevel_wellFormed ps level :
  wellFormed ps -> decisionLvl ps <= level ->
  wellFormed {| assignments := assignments ps; perPackage := perPackage ps;
                decisionLvl := level; nextIndex := nextIndex ps;
                root := root ps |}.
Proof.
  intros (Hl & Hs & Hb) Hle. split; [| split]; cbn; [exact Hl | exact Hs |].
  eapply Forall_impl; [exact Hb |]. cbn. intros; lia.
Qed.

Lemma addDecision_wellFormed ps n ver :
  wellFormed ps -> wellFormed (fst (addDecision ps n ver)).
Proof.
  intros Hwf. unfold addDecision. cbn [fst].
  apply append_wellFormed; [| reflexivity].
  apply (raiseLevel_wellFormed ps (decisionLvl ps + 1) Hwf). lia.
Qed.

Lemma addDerivation_cases ps (t : Term V) c :
  let r := addDerivation ps t c in
  (fst r = ps /\ exists e, snd r = err e) \/
  (exists a changed,
      r = (append ps a, ok (a, changed)) /\
      decisionLevel a = decisionLvl ps /\ name a = TermName t) \/
  (exists a b,
      r = (append (append ps a) b, ok (b, true)) /\
      decisionLevel a = decisionLvl ps /\ decisionLevel b = decisionLvl ps /\
      name a = TermName t /\ name b = TermName t).
Proof.
  unfold addDerivation.
  destruct (applyTermToAllowed _ t) as [newAllowed | e]; [| left; cbn; eauto].
  destruct (IsEmpty newAllowed); [left; cbn; eauto |].
  destruct (Positive t) eqn:Hpos.
  - cbn beta iota zeta.
    destruct (negb (setsEqual _ _)); cbn [andb negb].
    + right; left. eexists _, _. split; [reflexivity |]. cbn. auto.
    + right; left. eexists _, _. split; [reflexivity |]. cbn. auto.
  - destruct (termForbiddenSet t) as [f |]; [| left; cbn; eauto].
    cbn beta iota zeta.
    destruct (negb (setsEqual _ _)); cbn [andb negb].
    + right; right. eexists _, _. split; [reflexivity |]. cbn. auto.
    + right; left. eexists _, _. split; [reflexivity |]. cbn. auto.
Qed.

Lemma addDerivation_wellFormed ps (t : Term V) c :
  wellFormed ps -> wellFormed (fst (addDerivation ps t c)).
Proof.
  intros Hwf.
  destruct (addDerivation_cases ps t c) as
    [[-> _] | [(a & ch & -> & Hlvl & _) | (a & b & -> & Ha & Hb & _)]]; cbn [fst].
  - exact Hwf.
  - apply append_wellFormed; assumption.
  - apply append_wellFormed; [apply append_wellFormed; assumption | exact Hb].
Qed.

Lemma seedRoot_wellFormed (rootName : Name) (ver : option V) :
  wellFormed (fst (seedRoot (newPartialSolution rootName) rootName ver)).
Proof.
  unfold seedRoot. cbn [fst].
  apply append_wellFormed; [apply newPartialSolution_wellFormed | reflexivity].
Qed.

Lemma levelsAscending_snoc_inv (log : list (assignment V)) a :
  levelsAscending (log ++ [a]) ->
  levelsAscending log /\
  Forall (fun b => decisionLevel b <= decisionLevel a) log.
Proof.
  unfold levelsAscending. induction log as [| b log IH]; cbn; intros Hs.
  - split; constructor.
  - apply StronglySorted_inv in Hs. destruct Hs as [Hs Hall].
    destruct (IH Hs) as [Hs' Hb]. apply Forall_app in Hall.
    destruct Hall as [Hall Hba]. apply Forall_cons in Hba.
    split; [constructor; assumption |].
    constructor; [tauto | exact Hb].
Qed.

Lemma upToLevel_all (level : Z) (log : list (assignment V)) :
  Forall (fun b => decisionLevel b <= level) log -> upToLevel level log = log.
Proof.
  unfold upToLevel. induction log as [| b log IH]; cbn; intros Hb; [reflexivity |].
  apply Forall_cons in Hb. destruct Hb as [Hb Hrest].
  destruct (Z.leb_spec (decisionLevel b) level); [| lia].
  f_equal. exact (IH Hrest).
Qed.

Lemma upToLevel_Forall (level : Z) (log : list (assignment V)) :
  Forall (fun b => decisionLevel b <= level) (upToLevel level log).
Proof.
  unfold upToLevel. induction log as [| b log IH]; cbn; [constructor |].
  destruct (Z.leb_spec (decisionLevel b) level); [constructor; assumption | exact IH].
Qed.

(** Popping the last assignment of the log off its stack keeps the
    stacks in lockstep with the shortened log. *)
Lemma popStack_lockstep (log : list (assignment V)) a
    (pp : gmap Name (list (assignment V))) :
  (forall n, pp !! n = stackEntry (logStack (log ++ [a]) n)) ->
  forall n, popStack pp (name a) !! n = stackEntry (logStack log n).
Proof.
  intros Hl n. unfold popStack.
  rewrite (Hl (name a)), logStack_snoc_eq, stackEntry_snoc. cbn [default from_option id].
  rewrite length_app. cbn [length].
  destruct (Z.gtb_spec (Z.of_nat (length (logStack log (name a)) + 1)) 0); [| lia].
  rewrite removelast_last.
  destruct (decide (name a = n)) as [<- | Hne].
  - destruct (logStack log (name a)) as [| b stack] eqn:Hstack; cbn.
    + apply lookup_delete_eq.
    + destruct (Z.eqb_spec (Z.of_nat (S (length stack))) 0); [lia |].
      rewrite lookup_insert_eq. reflexivity.
  - assert (Hn : pp !! n = stackEntry (logStack log n)).
    { rewrite Hl, logStack_snoc_ne by exact Hne. reflexivity. }
    destruct (Z.of_nat (length (logStack log (name a))) =? 0).
    + rewrite lookup_delete_ne by exact Hne. exact Hn.
    + rewrite lookup_insert_ne by exact Hne. exact Hn.
Qed.

(** The loop of [backtrack] stops with the assignments at level
    [level] or below, the stacks in lockstep with them. *)
Lemma backtrackLoop_spec (revLog : list (assignment V)) :
  forall (pp : gmap Name (list (assignment V))) level,
    (forall n, pp !! n = stackEntry (logStack (rev revLog) n)) ->
    levelsAscending (rev revLog) ->
    rev (fst (backtrackLoop revLog pp level)) = upToLevel level (rev revLog) /\
    (forall n, snd (backtrackLoop revLog pp level) !! n
               = stackEntry (logStack (upToLevel level (rev revLog)) n)) /\
    exists removed,
      rev revLog = upToLevel level (rev revLog) ++ removed /\
      Forall (fun b => level < decisionLevel b) removed.
Proof.
  induction revLog as [| a rest IH]; intros pp level Hl Hs.
  - cbn. split; [reflexivity |]. split; [exact Hl |].
    exists []. split; [reflexivity | constructor].
  - cbn [rev] in *. cbn [backtrackLoop].
    apply levelsAscending_snoc_inv in Hs. destruct Hs as [Hs Hb].
    destruct (Z.leb_spec (decisionLevel a) level) as [Hle | Hgt].
    + assert (Hall : upToLevel level (rev rest ++ [a]) = rev rest ++ [a]).
      { apply upToLevel_all, Forall_app. split.
        - eapply Forall_impl; [exact Hb |]. cbn. intros; lia.
        - repeat constructor. exact Hle. }
      rewrite Hall. cbn [fst snd rev]. split; [reflexivity |].
      split; [exact Hl |].
      exists []. split; [symmetry; apply app_nil_r | constructor].
    + assert (Hcut : upToLevel level (rev rest ++ [a]) = upToLevel level (rev rest)).
      { unfold upToLevel. rewrite List.filter_app. cbn.
        destruct (Z.leb_spec (decisionLevel a) level); [lia |]. apply app_nil_r. }
      rewrite Hcut.
      destruct (IH (popStack pp (name a)) level
                  (popStack_lockstep _ _ _ Hl) Hs) as (Hlog & Hpp & removed & Hsplit & Hrem).
      split; [exact Hlog |]. split; [exact Hpp |].
      exists (removed ++ [a]). split.
      * rewrite app_assoc, <- Hsplit. reflexivity.
      * apply Forall_app. split; [exact Hrem | repeat constructor; exact Hgt].
Qed.

Lemma backtrack_log ps level :
  wellFormed ps -> 0 <= level ->
  assignments (backtrack ps level) = upToLevel level (assignments ps) /\
  stacksInLockstep (backtrack ps level) /\
  decisionLvl (backtrack ps level) = level /\
  nextIndex (backtrack ps level) = nextIndex ps /\
  root (backtrack ps level) = root ps.
Proof.
  intros (Hl & Hs & _) Hge. unfold backtrack.
  destruct (Z.ltb_spec level 0); [lia |].
  pose proof (backtrackLoop_spec (rev (assignments ps)) (perPackage ps) level) as Hspec.
  rewrite rev_involutive in Hspec. specialize (Hspec Hl Hs).
  destruct (backtrackLoop (rev (assignments ps)) (perPackage ps) level)
    as [revLog pp] eqn:Hloop.
  cbn [fst snd] in Hspec. destruct Hspec as (Hlog & Hpp & _).
  cbn. repeat split; try reflexivity; [exact Hlog |].
  intros n. cbn. rewrite Hlog. apply Hpp.
Qed.

Lemma upToLevel_ascending (level : Z) (log : list (assignment V)) :
  levelsAscending log -> levelsAscending (upToLevel level log).
Proof.
  unfold levelsAscending, upToLevel. induction log as [| b log IH]; cbn; intros Hs.
  - constructor.
  - apply StronglySorted_inv in Hs. destruct Hs as [Hs Hall].
    destruct (decisionLevel b <=? level); [| exact (IH Hs)].
    constructor; [exact (IH Hs) |].
    rewrite Forall_forall in Hall |- *. intros x Hx.
    apply Hall. rewrite list_elem_of_In in Hx |- *.
    apply List.filter_In in Hx. tauto.
Qed.

Lemma backtrack_clamped ps level :
  level < 0 -> backtrack ps level = backtrack ps 0.
Proof.
  intros Hlt. unfold backtrack.
  destruct (Z.ltb_spec level 0); [| lia]. reflexivity.
Qed.

Lemma backtrack_wellFormed ps level :
  wellFormed ps -> wellFormed (backtrack ps level).
Proof.
  intros Hwf.
  assert (Hnonneg : forall l, 0 <= l -> wellFormed (backtrack ps l)).
  { intros l Hl. destruct (backtrack_log ps l Hwf Hl) as (Hlog & Hlock & Hlvl & _).
    split; [exact Hlock |]. rewrite Hlog, Hlvl. split.
    - apply upToLevel_ascending, Hwf.
    - apply upToLevel_Forall. }
  destruct (Z.ltb_spec level 0) as [Hlt | Hge].
  - rewrite backtrack_clamped by exact Hlt. apply Hnonneg. lia.
  - apply Hnonneg, Hge.
Qed.

Lemma replay_from (log : list (assignment V)) :
  forall ps,
    stacksInLockstep ps ->
    assignments (fold_left append log ps) = assignments ps ++ log /\
    stacksInLockstep (fold_left append log ps).
Proof.
  induction log as [| a log IH]; intros ps Hl; cbn [fold_left].
  - rewrite app_nil_r. auto.
  - destruct (IH (append ps a) (append_lockstep ps a Hl)) as [Hlog Hlock].
    split; [| exact Hlock]. rewrite Hlog. cbn. rewrite <- app_assoc. reflexivity.
Qed.

Lemma replay_log (rootName : Name) (log : list (assignment V)) :
  assignments (replay rootName log) = log /\
  stacksInLockstep (replay rootName log).
Proof.
  unfold replay.
  destruct (replay_from log (newPartialSolution rootName)) as [Hlog Hlock].
  - intros n. apply lookup_empty.
  - split; [exact Hlog | exact Hlock].
Qed.

Lemma allowedSet_lockstep ps1 ps2 n :
  stacksInLockstep ps1 -> stacksInLockstep ps2 ->
  assignments ps1 = assignments ps2 ->
  allowedSet ps1 n = allowedSet ps2 n.
Proof.
  intros H1 H2 Heq. unfold allowedSet.
  rewrite (stackOf_lockstep _ _ H1), (stackOf_lockstep _ _ H2), Heq. reflexivity.
Qed.

(** C6: on a well-formed partial solution and for a level [L >= 0],
    [backtrack(L)] removes from the tail of the log exactly the
    assignments of level above [L], leaves every per-package stack in
    lockstep with the log (an emptied stack has no map entry; each stack
    loses from its top assignments of level above [L] only), sets the
    decision level to [L], keeps every assignment of level 0, and the
    allowed set of every package is the one of the partial solution in
    which only the assignments of level at most [L] were ever inserted. *)
Theorem backtrack_sound ps (L : Z) :
  wellFormed ps -> 0 <= L ->
  (exists removed,
      assignments ps = assignments (backtrack ps L) ++ removed /\
      Forall (fun a => L < decisionLevel a) removed /\
      Forall (fun a => decisionLevel a <= L) (assignments (backtrack ps L))) /\
  (forall n, perPackage (backtrack ps L) !! n
             = stackEntry (logStack (assignments (backtrack ps L)) n)) /\
  (forall n, exists popped,
      stackOf ps n = stackOf (backtrack ps L) n ++ popped /\
      Forall (fun a => L < decisionLevel a) popped) /\
  decisionLvl (backtrack ps L) = L /\
  (forall a, In a (assignments ps) -> decisionLevel a = 0 ->
             In a (assignments (backtrack ps L))) /\
  (forall n, allowedSet (backtrack ps L) n
             = allowedSet (replay (root ps) (upToLevel L (assignments ps))) n) /\
  perPackage (backtrack ps L)
  = perPackage (replay (root ps) (upToLevel L (assignments ps))).
Proof.
  intros Hwf HL.
  destruct (backtrack_log ps L Hwf HL) as (Hlog & Hlock & Hlvl & _).
  destruct (replay_log (root ps) (upToLevel L (assignments ps))) as [Hrlog Hrlock].
  assert (Htail : exists removed,
             assignments ps = assignments (backtrack ps L) ++ removed /\
             Forall (fun a => L < decisionLevel a) removed).
  { destruct Hwf as (Hl & Hs & _).
    pose proof (backtrackLoop_spec (rev (assignments ps)) (perPackage ps) L) as Hspec.
    rewrite rev_involutive in Hspec.
    destruct (Hspec Hl Hs) as (_ & _ & removed & Hsplit & Hrem).
    exists removed. rewrite Hlog. auto. }
  split; [| split; [| split; [| split; [| split; [| split]]]]].
  - destruct Htail as (removed & Hsplit & Hrem).
    exists removed. split; [exact Hsplit |].
    split; [exact Hrem | rewrite Hlog; apply upToLevel_Forall].
  - exact Hlock.
  - intros n. destruct Htail as (removed & Hsplit & Hrem).
    exists (logStack removed n).
    rewrite (stackOf_lockstep _ _ (proj1 Hwf)), (stackOf_lockstep _ _ Hlock).
    rewrite Hsplit at 1. rewrite logStack_app. split; [reflexivity |].
    rewrite Forall_forall in Hrem |- *. intros a Ha. apply Hrem.
    rewrite list_elem_of_In in Ha |- *. unfold logStack in Ha.
    apply List.filter_In in Ha. tauto.
  - exact Hlvl.
  - intros a Hin H0. rewrite Hlog. unfold upToLevel.
    apply List.filter_In. split; [exact Hin |].
    apply Z.leb_le. lia.
  - intros n. apply allowedSet_lockstep; [exact Hlock | exact Hrlock |].
    rewrite Hlog, Hrlog. reflexivity.
  - apply map_eq. intros n. rewrite Hlock, Hrlock, Hlog, Hrlog. reflexivity.
Qed.

(** The allowed set of a package is always in the normal form. *)
Lemma allowedSet_disjointAscending ps n : disjointAscending (allowedSet ps n).
Proof.
  unfold allowedSet.
  assert (Hfold : forall stack current,
             disjointAscending current ->
             disjointAscending (fold_left allowedStep stack current)).
  { induction stack as [| a stack IH]; intros current Hc; [exact Hc |].
    cbn [fold_left]. apply IH. unfold allowedStep.
    destruct (Positive (term a)).
    - destruct (allowed a); [apply Intersection_disjointAscending | exact Hc].
    - destruct (forbidden a); [apply Intersection_disjointAscending | exact Hc]. }
  destruct (stackOf ps n) as [| a stack]; [apply Full_disjointAscending |].
  apply Hfold, Full_disjointAscending.
Qed.

Lemma reachable_wellFormed (rootName : Name) (rootVersion : option V) ps :
  reachable rootName rootVersion ps -> wellFormed ps.
Proof.
  induction 1.
  - apply seedRoot_wellFormed.
  - apply addDecision_wellFormed. assumption.
  - apply addDerivation_wellFormed. assumption.
  - apply backtrack_wellFormed. assumption.
Qed.

(** C8: for a term that converts to a version set, [addDerivation]
    returns the error [errNoAllowedVersions] exactly when the
    intersection of the current allowed set of the package with the
    allowed set of the term (positive term) or with the complement of
    its forbidden set (negative term) is empty; on that error the
    partial solution is unchanged, and otherwise an assignment is
    returned. *)
Theorem addDerivation_NoAllowedVersions ps (t : Term V) c
    (S : VersionIntervalSet V) :
  termSet t = Some S ->
  let newAllowed :=
    Intersection (allowedSet ps (TermName t))
                 (Some (if Positive t then S else Complement S)) in
  (snd (addDerivation ps t c) = err errNoAllowedVersions
   <-> IsEmpty newAllowed = true) /\
  (snd (addDerivation ps t c) = err errNoAllowedVersions ->
   fst (addDerivation ps t c) = ps /\
   assignments (fst (addDerivation ps t c)) = assignments ps /\
   perPackage (fst (addDerivation ps t c)) = perPackage ps /\
   decisionLvl (fst (addDerivation ps t c)) = decisionLvl ps /\
   nextIndex (fst (addDerivation ps t c)) = nextIndex ps) /\
  (IsEmpty newAllowed = false ->
   exists a changed, snd (addDerivation ps t c) = ok (a, changed)).
Proof.
  intros HS newAllowed.
  assert (Hcases :
    (IsEmpty newAllowed = true /\
     addDerivation ps t c = (ps, err errNoAllowedVersions)) \/
    (IsEmpty newAllowed = false /\
     exists ps' a changed, addDerivation ps t c = (ps', ok (a, changed)))).
  { subst newAllowed. unfold termSet in HS.
    unfold addDerivation, applyTermToAllowed.
    destruct (Positive t) eqn:Hpos.
    - rewrite HS.
      destruct (IsEmpty (Intersection _ _)) eqn:Hempty; [left; auto |].
      right. split; [reflexivity |]. cbn beta iota zeta.
      destruct (negb (setsEqual _ _)); cbn [andb negb]; eauto.
    - rewrite HS.
      destruct (IsEmpty (Intersection _ _)) eqn:Hempty; [left; auto |].
      right. split; [reflexivity |]. cbn beta iota zeta.
      destruct (negb (setsEqual _ _)); cbn [andb negb]; eauto. }
  destruct Hcases as [[Hempty Heq] | [Hempty (ps' & a & changed & Heq)]];
    rewrite Heq, Hempty; cbn [fst snd].
  - repeat split; auto; discriminate.
  - split; [split; discriminate |].
    split; [discriminate | eauto].
Qed.

End PartialSolutionProperties.

(** ** Propagation and the decision step *)

Section SolverProperties.
Context {V : Type} `{Version V}.

Implicit Types (st : solverState V) (ps : partialSolution V) (n : Name).

(** The full interval overlaps every interval. *)
Lemma overlaps_full (b : versionInterval V) :
  overlaps {| lower := negativeInfinityBound; upper := positiveInfinityBound |} b = true.
Proof.
  unfold overlaps, upperLessThanLower. cbn.
  destruct b as [[| vl il |] [| vu iu |]]; reflexivity.
Qed.

(** A package without assignment has the full allowed set, which is
    never both inside and disjoint from a set. *)
Lemma unassigned_subset_disjoint ps n (R : VersionIntervalSet V) :
  hasAssignments ps n = false ->
  IsSubset (allowedSet ps n) (Some R) = true ->
  IsDisjoint (allowedSet ps n) (Some R) = false.
Proof.
  unfold hasAssignments, allowedSet. intros Hh.
  destruct (stackOf ps n) as [| a stack]; [| cbn in Hh; discriminate].
  unfold FullVersionSet, IsSubset, IsDisjoint. cbn [asIntervalSet].
  destruct R as [| b R]; [discriminate |]. intros _.
  cbn. rewrite overlaps_full. reflexivity.
Qed.

Lemma find_rev_last {A : Type} (f : A -> bool) (l : list A) x :
  List.find f (rev l) = Some x ->
  exists l1 l2,
    l = l1 ++ x :: l2 /\ f x = true /\ Forall (fun y => f y = false) l2.
Proof.
  induction l as [| y l IH] using rev_ind; [discriminate |].
  rewrite rev_unit. cbn. destruct (f y) eqn:Hy.
  - intros [= ->]. exists l, []. auto.
  - intros Hfind. destruct (IH Hfind) as (l1 & l2 & -> & Hx & Hl2).
    exists l1, (l2 ++ [y]). rewrite <- app_assoc. split; [reflexivity |].
    split; [exact Hx |]. apply Forall_app. auto.
Qed.

Lemma versionLe_refl (v : option V) : versionLe v v.
Proof. destruct v; cbn; [rewrite Sort_refl; lia | exact I]. Qed.

(** What [pickVersion] returns from a sorted version list. *)
Lemma pickVersion_maximum st n versions ver :
  GetVersions (source st) n = ok versions ->
  ascendingVersions versions ->
  pickVersion st n = ok (Some ver) ->
  Contains (allowedSet (partial st) n) ver = true /\
  In ver versions /\
  (forall w, In w versions -> Contains (allowedSet (partial st) n) w = true ->
             versionLe w ver).
Proof.
  intros Hget Hsorted. unfold pickVersion. rewrite Hget.
  destruct (IsEmpty _); [discriminate |].
  intros [= Hfind]. apply find_rev_last in Hfind.
  destruct Hfind as (l1 & l2 & -> & Hver & Hl2).
  split; [exact Hver |]. split; [apply in_elt |].
  intros w Hin Hw. apply in_app_or in Hin. destruct Hin as [Hin | [<- | Hin]].
  - unfold ascendingVersions in Hsorted. clear Hget.
    induction l1 as [| y l1 IH]; [destruct Hin |].
    cbn in Hsorted. apply StronglySorted_inv in Hsorted.
    destruct Hsorted as [Hs Hall]. destruct Hin as [-> | Hin]; [| exact (IH Hs Hin)].
    rewrite Forall_forall in Hall. apply Hall.
    rewrite list_elem_of_In. apply in_elt.
  - apply versionLe_refl.
  - rewrite Forall_forall in Hl2. rewrite <- list_elem_of_In in Hin.
    specialize (Hl2 _ Hin). congruence.
Qed.

(** *** The partial solution along the steps of a solve *)

Lemma partial_enqueue st n : partial (enqueue st n) = partial st.
Proof. unfold enqueue. destruct (bool_decide _); reflexivity. Qed.

Lemma partial_addIncompatibility st inc :
  partial (addIncompatibility st inc) = partial st.
Proof. reflexivity. Qed.

Lemma partial_dequeue st : partial (fst (dequeue st)) = partial st.
Proof. unfold dequeue. destruct (queue st); reflexivity. Qed.

Lemma applyConstraint_partial st (t : Term V) c :
  partial (fst (applyConstraint st t c)) = fst (addDerivation (partial st) t c).
Proof.
  unfold applyConstraint.
  destruct (addDerivation (partial st) t c) as [ps [[a changed] | e]]; cbn [fst].
  - rewrite partial_enqueue. reflexivity.
  - destruct (errorsIsNoAllowedVersions e); [destruct c |]; reflexivity.
Qed.

(** A property of partial solutions kept by derivations is kept by
    the registration of dependencies. *)
Lemma registerDependencies_invariant (P : partialSolution V -> Prop) :
  (forall ps t c, P ps -> P (fst (addDerivation ps t c))) ->
  forall deps st pkg ver,
    P (partial st) -> P (partial (fst (registerDependencies st pkg ver deps))).
Proof.
  intros Hder. induction deps as [| dep rest IH]; intros st pkg ver HP; [exact HP |].
  cbn [registerDependencies].
  pose proof (applyConstraint_partial
                (addIncompatibility st (NewIncompatibilityFromDependency pkg ver dep))
                dep (Some (NewIncompatibilityFromDependency pkg ver dep))) as Hpart.
  destruct (applyConstraint _ dep _) as [st' [[conflict |] | e]]; cbn [fst] in *.
  - rewrite Hpart. apply Hder. exact HP.
  - apply IH. rewrite Hpart. apply Hder. exact HP.
  - rewrite Hpart. apply Hder. exact HP.
Qed.

Lemma propagateIncompatibilities_invariant (P : partialSolution V -> Prop) :
  (forall ps t c, P ps -> P (fst (addDerivation ps t c))) ->
  forall incs st,
    P (partial st) -> P (partial (fst (propagateIncompatibilities st incs))).
Proof.
  intros Hder. induction incs as [| inc rest IH]; intros st HP; [exact HP |].
  cbn [propagateIncompatibilities].
  destruct (evaluateIncompatibility st inc) as [[| | |] [unsatisfied |]];
    try (apply IH; exact HP); try exact HP.
  pose proof (Hder (partial st) (Negate unsatisfied) (Some inc) HP) as HP'.
  destruct (addDerivation (partial st) (Negate unsatisfied) (Some inc))
    as [ps [[a changed] | e]]; cbn [fst] in *.
  - apply IH. destruct changed; [rewrite partial_enqueue |]; exact HP'.
  - destruct (errorsIsNoAllowedVersions e); exact HP'.
Qed.

Lemma propagateLoop_invariant (P : partialSolution V -> Prop) :
  (forall ps t c, P ps -> P (fst (addDerivation ps t c))) ->
  forall fuel st st' r,
    P (partial st) -> propagateLoop fuel st = Some (st', r) -> P (partial st').
Proof.
  intros Hder. induction fuel as [| fuel IH]; intros st st' r HP; [discriminate |].
  cbn [propagateLoop].
  pose proof (partial_dequeue st) as Hdq.
  destruct (dequeue st) as [st1 [pkg |]]; cbn [fst] in Hdq.
  - pose proof (propagateIncompatibilities_invariant P Hder
                  (default [] (incompatibilities st1 !! pkg)) st1) as Hinc.
    rewrite Hdq in Hinc. specialize (Hinc HP).
    destruct (propagateIncompatibilities st1 _) as [st2 [| r2]]; cbn [fst] in Hinc.
    + apply IH. exact Hinc.
    + intros [= <- <-]. exact Hinc.
  - intros [= <- <-]. rewrite Hdq. exact HP.
Qed.

Lemma propagate_invariant (P : partialSolution V -> Prop) :
  (forall ps t c, P ps -> P (fst (addDerivation ps t c))) ->
  forall fuel st start st' r,
    P (partial st) -> propagate fuel st start = Some (st', r) -> P (partial st').
Proof.
  intros Hder fuel st start st' r HP. unfold propagate.
  apply (propagateLoop_invariant P Hder).
  destruct (bool_decide _); [rewrite partial_enqueue |]; exact HP.
Qed.

Lemma resolveConflict_invariant (P : partialSolution V -> Prop) :
  (forall ps level, P ps -> P (backtrack ps level)) ->
  forall fuel st conflict st' r,
    P (partial st) -> resolveConflict fuel st conflict = Some (st', r) ->
    P (partial st').
Proof.
  intros Hback. induction fuel as [| fuel IH]; intros st conflict st' r HP;
    [discriminate |].
  cbn [resolveConflict].
  destruct (satisfier (partial st) conflict) as [sat |];
    [| intros [= <- <-]; exact HP].
  destruct ((decisionLevel sat =? 0) && isDecision sat);
    [intros [= <- <-]; exact HP |].
  destruct (isDecision sat && _).
  - intros [= <- <-]. cbn. apply Hback. exact HP.
  - destruct (cause sat) as [c |]; [| intros [= <- <-]; exact HP].
    apply IH. exact HP.
Qed.

Lemma nextCandidateLoop_Some ps (log : list (assignment V)) :
  forall (seen : gset Name) n,
    nextCandidateLoop ps seen log = Some n ->
    n <> root ps /\ hasDecision ps n = false.
Proof.
  induction log as [| a log IH]; intros seen n; cbn; [discriminate |].
  destruct (bool_decide (name a = root ps)) eqn:Hroot; [apply IH |].
  destruct (bool_decide (name a ∈ seen)); [apply IH |].
  destruct (hasDecision ps (name a)) eqn:Hdec; cbn [negb]; [apply IH |].
  intros [= <-]. apply bool_decide_eq_false in Hroot. auto.
Qed.

Lemma nextDecisionCandidate_Some ps n :
  nextDecisionCandidate ps = Some n ->
  n <> root ps /\ hasDecision ps n = false.
Proof. apply nextCandidateLoop_Some. Qed.

(** Invariants of the partial solution along [Solve]. *)
Section SolveInvariant.
Variable P : partialSolution V -> Prop.
Hypothesis P_derivation : forall ps t c, P ps -> P (fst (addDerivation ps t c)).
Hypothesis P_backtrack : forall ps level, P ps -> P (backtrack ps level).
Hypothesis P_decision :
  forall ps n ver,
    P ps -> n <> root ps -> hasDecision ps n = false ->
    P (fst (addDecision ps n ver)).

Lemma decisionStep_invariant (s : Solver V) st n st' c seed :
  P (partial st) -> n <> root (partial st) -> hasDecision (partial st) n = false ->
  decisionStep s st n = stepContinue st' c seed -> P (partial st').
Proof.
  intros HP Hroot Hdec. unfold decisionStep.
  destruct (pickVersion st n) as [[ver |] | e]; [| | discriminate].
  - pose proof (P_decision (partial st) n ver HP Hroot Hdec) as HP1.
    destruct (addDecision (partial st) n ver) as [ps1 a]. cbn [fst] in HP1.
    destruct (GetDependencies _ n ver) as [deps | e]; [| discriminate].
    pose proof (registerDependencies_invariant P P_derivation deps
                  (withPartial st ps1) n ver HP1) as HP2.
    destruct (registerDependencies _ n ver deps) as [st2 [[conflict |] | e]];
      cbn [fst] in HP2; [| | discriminate].
    + intros [= <- _ _]. exact HP2.
    + intros [= <- _ _]. rewrite partial_enqueue. exact HP2.
  - intros [= <- _ _]. exact HP.
Qed.

Lemma solveStep_invariant fuel (s : Solver V) st conflict seed :
  P (partial st) ->
  match solveStep fuel s st conflict seed with
  | Some (stepContinue st' _ _) => P (partial st')
  | Some (stepReturn (ok sol)) => exists ps, P ps /\ sol = buildSolution ps
  | _ => True
  end.
Proof.
  intros HP. unfold solveStep. destruct conflict as [c |].
  - pose proof (resolveConflict_invariant P P_backtrack fuel st c) as Hres.
    destruct (resolveConflict fuel st c) as [[st' [pivot | e]] |]; [| | exact I].
    + exact (Hres _ _ HP eq_refl).
    + destruct e; exact I.
  - pose proof (propagate_invariant P P_derivation fuel st seed) as Hprop.
    destruct (propagate fuel st seed) as [[st' [[propConflict |] | e]] |];
      try exact I.
    + exact (Hprop _ _ HP eq_refl).
    + specialize (Hprop _ _ HP eq_refl).
      destruct (isComplete (partial st')); [eauto |].
      destruct (nextDecisionCandidate (partial st')) as [nextPkg |] eqn:Hnext; [| eauto].
      apply nextDecisionCandidate_Some in Hnext. destruct Hnext as [Hroot Hdec].
      pose proof (decisionStep_invariant s st' nextPkg) as Hstep.
      destruct (decisionStep s st' nextPkg) as [[sol | e] | st2 c2 seed2] eqn:Hd.
      * unfold decisionStep in Hd.
        destruct (pickVersion st' nextPkg) as [[ver |] | e]; [| discriminate | discriminate].
        destruct (addDecision _ nextPkg ver) as [ps1 a].
        destruct (GetDependencies _ nextPkg ver); [| discriminate].
        destruct (registerDependencies _ nextPkg ver _) as [st3 [[conflict |] | e]];
          discriminate.
      * exact I.
      * exact (Hstep _ _ _ Hprop Hroot Hdec eq_refl).
Qed.

Lemma solveLoop_invariant (s : Solver V) :
  forall fuel steps st conflict seed sol,
    P (partial st) ->
    solveLoop fuel s steps st conflict seed = Some (ok sol) ->
    exists ps, P ps /\ sol = buildSolution ps.
Proof.
  induction fuel as [| fuel IH]; intros steps st conflict seed sol HP; [discriminate |].
  cbn [solveLoop]. destruct (_ && _); [discriminate |].
  pose proof (solveStep_invariant fuel s st conflict seed HP) as Hstep.
  destruct (solveStep fuel s st conflict seed) as [[[sol' | e] | st' c' seed'] |];
    [| discriminate | | discriminate].
  - intros [= <-]. exact Hstep.
  - apply IH. exact Hstep.
Qed.

Lemma Solve_invariant fuel (s : Solver V) (rootTerm : Term V) sol :
  (forall ver, extractDecisionVersion rootTerm = ok ver ->
               P (fst (seedRoot (newPartialSolution (TermName rootTerm))
                                (TermName rootTerm) ver))) ->
  Solve fuel s rootTerm = Some (ok sol) ->
  exists ps, P ps /\ sol = buildSolution ps.
Proof.
  intros Hseed. unfold Solve.
  destruct (extractDecisionVersion rootTerm) as [ver | e]; [| discriminate].
  specialize (Hseed ver eq_refl). cbn [partial newSolverState].
  destruct (seedRoot _ (TermName rootTerm) ver) as [ps a]. cbn [fst] in Hseed.
  destruct (GetDependencies _ (TermName rootTerm) ver) as [deps | e]; [| discriminate].
  pose proof (registerDependencies_invariant P P_derivation deps
                (withPartial (newSolverState (SolverSource s) (solverOptions s)
                                (TermName rootTerm)) ps)
                (TermName rootTerm) ver Hseed) as Hreg.
  destruct (registerDependencies _ (TermName rootTerm) ver deps)
    as [st [conflict | e]]; cbn [fst] in Hreg; [| discriminate].
  apply solveLoop_invariant. rewrite partial_enqueue. exact Hreg.
Qed.

End SolveInvariant.

(** *** The solution of a solve *)

Lemma addDerivation_log ps (t : Term V) c :
  exists later,
    assignments (fst (addDerivation ps t c)) = assignments ps ++ later /\
    Forall (fun a => isDecision a = false) later /\
    root (fst (addDerivation ps t c)) = root ps.
Proof.
  unfold addDerivation.
  destruct (applyTermToAllowed _ t) as [newAllowed | e];
    [| exists []; cbn; rewrite app_nil_r; auto].
  destruct (IsEmpty newAllowed); [exists []; cbn; rewrite app_nil_r; auto |].
  destruct (Positive t) eqn:Hpos.
  - cbn beta iota zeta.
    destruct (negb (setsEqual _ _)); cbn [andb negb];
      eexists [_]; cbn; repeat split; repeat constructor.
  - destruct (termForbiddenSet t) as [f |];
      [| exists []; cbn; rewrite app_nil_r; auto].
    cbn beta iota zeta.
    destruct (negb (setsEqual _ _)); cbn [andb negb].
    + eexists [_; _]. cbn. rewrite <- app_assoc.
      repeat split; repeat constructor.
    + eexists [_]. cbn. repeat split; repeat constructor.
Qed.

Lemma reachable_root (rootName : Name) (rootVersion : option V) ps :
  reachable rootName rootVersion ps -> root ps = rootName.
Proof.
  induction 1 as [| ps n ver _ IH _ _ | ps t c _ IH | ps level _ IH].
  - reflexivity.
  - exact IH.
  - destruct (addDerivation_log ps t c) as (_ & _ & _ & ->). exact IH.
  - unfold backtrack. destruct (backtrackLoop _ _ _). exact IH.
Qed.



Lemma backtrack_upToLevel ps level :
  wellFormed ps ->
  assignments (backtrack ps level)
  = upToLevel (if level <? 0 then 0 else level) (assignments ps).
Proof.
  intros Hwf. destruct (Z.ltb_spec level 0) as [Hlt | Hge].
  - rewrite backtrack_clamped by exact Hlt. apply backtrack_log; [exact Hwf | lia].
  - apply backtrack_log; assumption.
Qed.

(** The log of a reachable partial solution starts with the root
    decision, and its decisions are for pairwise distinct packages. *)
Lemma reachable_decisions (rootName : Name) (rootVersion : option V) ps :
  reachable rootName rootVersion ps ->
  (exists later, assignments ps = rootAssignment rootName rootVersion :: later) /\
  NoDup (List.map name (List.filter isDecision (assignments ps))).
Proof.
  induction 1 as [| ps n ver Hr IH Hroot Hdec | ps t c Hr IH | ps level Hr IH].
  - split; [exists []; reflexivity |]. cbn. apply NoDup_singleton.
  - destruct IH as [(later & Hlog) Hnd]. cbn [fst addDecision append assignments].
    split; [exists (later ++ [newDecisionAssignment
                               {| assignments := assignments ps;
                                  perPackage := perPackage ps;
                                  decisionLvl := decisionLvl ps + 1;
                                  nextIndex := nextIndex ps; root := root ps |}
                               n ver (decisionLvl ps + 1)]);
            rewrite Hlog; reflexivity |].
    rewrite List.filter_app, List.map_app. cbn.
    apply NoDup_app. split; [exact Hnd |]. split; [| apply NoDup_singleton].
    intros m Hm Hm'. apply list_elem_of_singleton in Hm'. subst m.
    apply list_elem_of_In, in_map_iff in Hm. destruct Hm as (a & Hname & Hin).
    apply List.filter_In in Hin. destruct Hin as [Hin Hisdec].
    apply reachable_wellFormed in Hr. destruct Hr as (Hlock & _).
    unfold hasDecision in Hdec. rewrite (stackOf_lockstep _ _ Hlock) in Hdec.
    assert (Hex : existsb isDecision (logStack (assignments ps) n) = true).
    { apply existsb_exists. exists a. split; [| exact Hisdec].
      unfold logStack. apply List.filter_In. split; [exact Hin |].
      apply bool_decide_eq_true. exact Hname. }
    congruence.
  - destruct IH as [(later & Hlog) Hnd].
    destruct (addDerivation_log ps t c) as (added & Hadd & Hder & _).
    rewrite Hadd. split; [exists (later ++ added); rewrite Hlog; reflexivity |].
    rewrite List.filter_app.
    assert (Hnone : List.filter isDecision added = []).
    { clear Hadd. induction added as [| b added IHa]; [reflexivity |].
      apply Forall_cons in Hder. destruct Hder as [Hb Hder].
      cbn. rewrite Hb. exact (IHa Hder). }
    rewrite Hnone, app_nil_r. exact Hnd.
  - destruct IH as [(later & Hlog) Hnd].
    rewrite (backtrack_upToLevel ps level (reachable_wellFormed _ _ _ Hr)).
    set (L := if level <? 0 then 0 else level).
    assert (HL : 0 <= L) by (subst L; destruct (Z.ltb_spec level 0); lia).
    split.
    + exists (upToLevel L later). rewrite Hlog. unfold upToLevel. cbn.
      destruct (Z.leb_spec 0 L); [reflexivity | lia].
    + clear Hlog. unfold upToLevel.
      induction (assignments ps) as [| a log IHl]; [exact Hnd |].
      cbn in Hnd |- *. destruct (isDecision a) eqn:Hdec.
      * cbn in Hnd. apply NoDup_cons in Hnd. destruct Hnd as [Hnotin Hnd].
        destruct (decisionLevel a <=? L); cbn; [| exact (IHl Hnd)].
        rewrite Hdec. cbn. apply NoDup_cons. split; [| exact (IHl Hnd)].
        intros Hin. apply Hnotin.
        apply list_elem_of_In, in_map_iff in Hin. destruct Hin as (b & Hname & Hin).
        apply list_elem_of_In, in_map_iff. exists b. split; [exact Hname |].
        apply List.filter_In in Hin. destruct Hin as [Hin Hb].
        apply List.filter_In in Hin. destruct Hin as [Hin _].
        apply List.filter_In. auto.
      * destruct (decisionLevel a <=? L); cbn; [rewrite Hdec |]; exact (IHl Hnd).
Qed.

(** With decisions for distinct packages, none of them seen before,
    [buildSolution] lists every decision of the log. *)
Lemma buildSolutionLoop_decisions (log : list (assignment V)) :
  forall seen : gset Name,
    NoDup (List.map name (List.filter isDecision log)) ->
    (forall a, In a (List.filter isDecision log) -> name a ∉ seen) ->
    buildSolutionLoop seen log
    = List.map decisionPair (List.filter isDecision log).
Proof.
  induction log as [| a log IH]; intros seen Hnd Hfresh; [reflexivity |].
  cbn [buildSolutionLoop List.filter] in *.
  destruct (kind a) eqn:Hkind.
  - assert (Hd : isDecision a = true)
      by (unfold isDecision; rewrite Hkind; reflexivity).
    rewrite Hd in *. cbn [List.map] in *.
    apply NoDup_cons in Hnd. destruct Hnd as [Hnotin Hnd].
    rewrite bool_decide_eq_false_2 by (apply Hfresh; now left).
    f_equal. apply IH; [exact Hnd |].
    intros b Hb. rewrite elem_of_union, elem_of_singleton.
    intros [Heq | Hseen].
    + apply Hnotin. rewrite <- Heq.
      apply list_elem_of_In, in_map. exact Hb.
    + exact (Hfresh b (or_intror Hb) Hseen).
  - assert (Hd : isDecision a = false)
      by (unfold isDecision; rewrite Hkind; reflexivity).
    rewrite Hd in *. apply IH; assumption.
Qed.

Lemma Contains_Some (A : VersionIntervalSet V) (ver : option V) :
  Contains A ver = true -> exists v, ver = Some v.
Proof.
  destruct ver as [v |]; [eauto |].
  unfold Contains. intros Hex. apply existsb_exists in Hex.
  destruct Hex as (iv & _ & Hc). discriminate.
Qed.

(** C1: when the decision step decides package [n] and the catalog
    lists the versions of [n] in ascending order, the version of the
    decision is contained in the current allowed set of [n], is a
    version of the list, and no version of the list that the allowed set
    contains is above it; the decision is appended to the log. *)
Theorem decision_is_highest_allowed (s : Solver V) st n versions ver :
  GetVersions (source st) n = ok versions ->
  ascendingVersions versions ->
  pickVersion st n = ok (Some ver) ->
  let A := allowedSet (partial st) n in
  let d := snd (addDecision (partial st) n ver) in
  Contains A ver = true /\
  (exists v, ver = Some v) /\
  In ver versions /\
  (forall w, In w versions -> Contains A w = true -> versionLe w ver) /\
  name d = n /\ version d = ver /\ isDecision d = true /\
  (forall st' c seed,
      decisionStep s st n = stepContinue st' c seed ->
      exists later, assignments (partial st') = assignments (partial st) ++ d :: later).
Proof.
  intros Hget Hsorted Hpick A d.
  destruct (pickVersion_maximum st n versions ver Hget Hsorted Hpick)
    as (Hcontains & Hin & Hmax).
  split; [exact Hcontains |]. split; [exact (Contains_Some _ _ Hcontains) |].
  split; [exact Hin |]. split; [exact Hmax |].
  split; [reflexivity |]. split; [reflexivity |]. split; [reflexivity |].
  intros st' c seed. unfold decisionStep. rewrite Hpick.
  subst d. destruct (addDecision (partial st) n ver) as [ps1 a] eqn:Hdec.
  cbn [snd].
  assert (Hlog1 : assignments ps1 = assignments (partial st) ++ [a]).
  { unfold addDecision in Hdec. injection Hdec as <- <-. reflexivity. }
  destruct (GetDependencies _ n ver) as [deps | e]; [| discriminate].
  pose proof (registerDependencies_invariant
                (fun ps => exists later,
                     assignments ps = assignments (partial st) ++ a :: later)) as Hreg.
  specialize (Hreg) with (deps := deps) (st := withPartial st ps1) (pkg := n) (ver := ver).
  destruct (registerDependencies _ n ver deps) as [st2 [[conflict |] | e]];
    cbn [fst] in Hreg; [| | discriminate].
  - intros [= <- _ _]. apply Hreg.
    + intros ps t0 c0 (later & Hl).
      destruct (addDerivation_log ps t0 c0) as (added & -> & _).
      exists (later ++ added). rewrite Hl, <- app_assoc. reflexivity.
    + exists []. exact Hlog1.
  - intros [= <- _ _]. rewrite partial_enqueue. apply Hreg.
    + intros ps t0 c0 (later & Hl).
      destruct (addDerivation_log ps t0 c0) as (added & -> & _).
      exists (later ++ added). rewrite Hl, <- app_assoc. reflexivity.
    + exists []. exact Hlog1.
Qed.

End SolverProperties.

(** ** The statements at concrete inputs *)

Open Scope string_scope.

(** The solve of the backtracking scenario returns the root pair
    first: the solution is not free of the root pseudo-package. *)
Lemma Solve_solution_contains_root :
  Solve 100 backtrackingSolver pinnedRoot
  = Some (ok [ {| NVName := MakeName "$$root"; NVVersion := Some "1" |};
               {| NVName := MakeName "A"; NVVersion := Some "1.1.0" |};
               {| NVName := MakeName "B"; NVVersion := Some "1.0.0" |} ]) /\
  In {| NVName := TermName pinnedRoot; NVVersion := Some "1" |}
     [ {| NVName := MakeName "$$root"; NVVersion := Some "1" |};
       {| NVName := MakeName "A"; NVVersion := Some "1.1.0" |};
       {| NVName := MakeName "B"; NVVersion := Some "1.0.0" |} ].
Proof.
  split; [vm_compute; reflexivity | left; reflexivity].
Qed.

(** A package that depends on itself gives a dependency
    incompatibility with two terms of one name. *)
Lemma self_dependency_repeats_name :
  List.map TermName
    (Terms (NewIncompatibilityFromDependency (MakeName "a") (Some "1.0.0")
              (exactly "a" "2.0.0")))
  = [MakeName "a"; MakeName "a"] /\
  ~ NoDup (List.map TermName
             (Terms (NewIncompatibilityFromDependency (MakeName "a") (Some "1.0.0")
                       (exactly "a" "2.0.0")))).
Proof.
  split; [reflexivity |]. cbn. intros Hnd.
  apply NoDup_cons in Hnd. destruct Hnd as [Hnotin _].
  apply Hnotin. left.
Qed.

Lemma decision_is_highest_allowed_witness :
  GetVersions (source seededState) (MakeName "B")
  = ok [Some "1.0.0"; Some "2.0.0"] /\
  ascendingVersions [Some "1.0.0"; Some "2.0.0"] /\
  pickVersion seededState (MakeName "B") = ok (Some (Some "2.0.0")) /\
  Contains (allowedSet (partial seededState) (MakeName "B")) (Some "2.0.0") = true /\
  forall w, In w [Some "1.0.0"; Some "2.0.0"] ->
            Contains (allowedSet (partial seededState) (MakeName "B")) w = true ->
            versionLe w (Some "2.0.0").
Proof.
  assert (Hget : GetVersions (source seededState) (MakeName "B")
                 = ok [Some "1.0.0"; Some "2.0.0"]) by reflexivity.
  assert (Hsorted : ascendingVersions [Some "1.0.0"; Some "2.0.0"]).
  { repeat constructor. vm_compute. discriminate. }
  assert (Hpick : pickVersion seededState (MakeName "B") = ok (Some (Some "2.0.0")))
    by (vm_compute; reflexivity).
  pose proof (decision_is_highest_allowed backtrackingSolver seededState
                (MakeName "B") _ _ Hget Hsorted Hpick) as Hthm.
  cbv zeta in Hthm.
  split; [exact Hget |]. split; [exact Hsorted |]. split; [exact Hpick |].
  split; [exact (proj1 Hthm) |].
  exact (proj1 (proj2 (proj2 (proj2 Hthm)))).
Defined.

Lemma twoDecisions_wellFormed : wellFormed twoDecisions.
Proof.
  unfold twoDecisions.
  apply addDecision_wellFormed, addDecision_wellFormed, seedRoot_wellFormed.
Qed.

Lemma backtrack_sound_witness :
  wellFormed twoDecisions /\ 0 <= 1 /\
  decisionLvl (backtrack twoDecisions 1) = 1 /\
  (forall a, In a (assignments twoDecisions) -> decisionLevel a = 0 ->
             In a (assignments (backtrack twoDecisions 1))) /\
  (forall n, allowedSet (backtrack twoDecisions 1) n
             = allowedSet (replay (root twoDecisions)
                             (upToLevel 1 (assignments twoDecisions))) n).
Proof.
  assert (Hlevel : 0 <= 1) by lia.
  pose proof (backtrack_sound twoDecisions 1 twoDecisions_wellFormed Hlevel) as Hthm.
  split; [exact twoDecisions_wellFormed |]. split; [exact Hlevel |].
  destruct Hthm as (_ & _ & _ & Hlvl & Hzero & Hallowed & _).
  split; [exact Hlvl |]. split; [exact Hzero | exact Hallowed].
Defined.

Lemma addDerivation_NoAllowedVersions_witness :
  termSet (exactly "B" "1.0.0") = Some (Singleton (Some "1.0.0")) /\
  IsEmpty (Intersection (allowedSet twoDecisions (MakeName "B"))
             (Some (Singleton (Some "1.0.0")))) = true /\
  snd (addDerivation twoDecisions (exactly "B" "1.0.0") None)
  = err errNoAllowedVersions /\
  fst (addDerivation twoDecisions (exactly "B" "1.0.0") None) = twoDecisions.
Proof.
  assert (Hset : termSet (exactly "B" "1.0.0") = Some (Singleton (Some "1.0.0")))
    by reflexivity.
  assert (Hempty : IsEmpty (Intersection (allowedSet twoDecisions (MakeName "B"))
                              (Some (Singleton (Some "1.0.0")))) = true)
    by (vm_compute; reflexivity).
  pose proof (addDerivation_NoAllowedVersions twoDecisions (exactly "B" "1.0.0")
                None _ Hset) as Hthm.
  cbv zeta in Hthm. destruct Hthm as (Hiff & Hsame & _).
  split; [exact Hset |]. split; [exact Hempty |].
  pose proof (proj2 Hiff Hempty) as Herr.
  split; [exact Herr | exact (proj1 (Hsame Herr))].
Defined.

(** C3, at the adjacent ranges: [touches] answers false for
    [[1.0.0, 2.0.0)] and [[2.0.0, 3.0.0]], and their union keeps the two
    intervals instead of the single interval [[1.0.0, 3.0.0]]. *)
Lemma Union_keeps_adjacent_intervals :
  touches {| lower := BoundFinite "1.0.0" true; upper := BoundFinite "2.0.0" false |}
          {| lower := BoundFinite "2.0.0" true; upper := BoundFinite "3.0.0" true |}
  = false /\
  Union lowerRange (Some upperRange)
  = [ {| lower := BoundFinite "1.0.0" true; upper := BoundFinite "2.0.0" false |};
      {| lower := BoundFinite "2.0.0" true; upper := BoundFinite "3.0.0" true |} ] /\
  Union lowerRange (Some upperRange)
  <> [ {| lower := BoundFinite "1.0.0" true; upper := BoundFinite "3.0.0" true |} ].
Proof.
  split; [vm_compute; reflexivity |].
  split; [vm_compute; reflexivity |].
  vm_compute. discriminate.
Qed.

(** C4, at the union of the adjacent ranges: the complement of its
    complement is the single interval [[1.0.0, 3.0.0]], which is another
    interval sequence than the union itself, and [setsEqual] tells them
    apart too. *)
Lemma Complement_involution_fails :
  adjacentUnion
  = [ {| lower := BoundFinite "1.0.0" true; upper := BoundFinite "2.0.0" false |};
      {| lower := BoundFinite "2.0.0" true; upper := BoundFinite "3.0.0" true |} ] /\
  Complement (Complement adjacentUnion)
  = [ {| lower := BoundFinite "1.0.0" true; upper := BoundFinite "3.0.0" true |} ] /\
  Complement (Complement adjacentUnion) <> adjacentUnion /\
  setsEqual (Some (Complement (Complement adjacentUnion))) (Some adjacentUnion) = false.
Proof.
  split; [vm_compute; reflexivity |].
  split; [vm_compute; reflexivity |].
  split; [vm_compute; discriminate | vm_compute; reflexivity].
Qed.

(** * Properties of the rest of the code *)

Open Scope list_scope.
Open Scope Z_scope.

Section SetRelations.
Context {V : Type} `{Version V}.

Implicit Types a b iv : versionInterval V.
Implicit Types s o : VersionIntervalSet V.

Lemma covers_cuts b a :
  covers b a = true <->
  cutLe (lowerCut (lower b)) (lowerCut (lower a)) /\
  cutLe (upperCut (upper a)) (upperCut (upper b)).
Proof.
  unfold covers. rewrite <- compareLower_le, <- compareUpper_ge.
  destruct (Z.gtb_spec (compareLower (lower b) (lower a)) 0);
    destruct (Z.ltb_spec (compareUpper (upper b) (upper a)) 0);
    split; intros; try discriminate; try lia; reflexivity.
Qed.

Lemma covers_nonEmpty b a :
  isEmpty a = false -> covers b a = true -> isEmpty b = false.
Proof.
  rewrite !isEmpty_false_iff, covers_cuts. intros Ha [Hl Hu].
  eapply cutLe_lt_trans; [exact Hl |].
  eapply cutLt_le_trans; [exact Ha | exact Hu].
Qed.

Lemma covers_contains b a (v : option V) :
  isEmpty a = false -> covers b a = true ->
  contains a v = true -> contains b v = true.
Proof.
  intros Ha Hc. pose proof (covers_nonEmpty _ _ Ha Hc) as Hb.
  destruct v as [v |]; [| discriminate].
  rewrite (contains_inside _ _ Ha), (contains_inside _ _ Hb).
  apply covers_cuts in Hc. destruct Hc as [Hl Hu].
  unfold inside. intros [H1 H2]. split.
  - eapply cutLe_trans; eassumption.
  - eapply cutLt_le_trans; eassumption.
Qed.

Lemma subsetSweep_covered (si : list (versionInterval V)) :
  forall oi,
    subsetSweep si oi = true ->
    Forall (fun a => exists b, In b oi /\ covers b a = true) si.
Proof.
  induction si as [| a si IH]; intros oi; [constructor |].
  induction oi as [| b oi IHo]; cbn; [discriminate |].
  destruct (covers b a) eqn:Hc.
  - intros Hs. constructor.
    + exists b. split; [left; reflexivity | exact Hc].
    + exact (IH (b :: oi) Hs).
  - destruct (upperLessThanLower (upper b) (lower a)); [| discriminate].
    intros Hs. specialize (IHo Hs).
    eapply Forall_impl; [exact IHo |].
    cbn. intros x (y & Hy & Hxy). exists y. split; [right; exact Hy | exact Hxy].
Qed.

Lemma IsSubset_members_gen s o (v : option V) :
  Forall (fun iv => isEmpty iv = false) s ->
  IsSubset s (Some o) = true ->
  Contains s v = true -> Contains o v = true.
Proof.
  intros Hne Hsub. unfold Contains. rewrite !existsb_exists.
  intros (a & Ha & Hav).
  assert (Hcov : Forall (fun a => exists b, In b o /\ covers b a = true) s).
  { unfold IsSubset in Hsub. destruct s as [| a0 s']; [constructor |].
    cbn [asIntervalSet] in Hsub. destruct o as [| b0 o']; [discriminate |].
    apply subsetSweep_covered. exact Hsub. }
  rewrite List.Forall_forall in Hcov, Hne.
  destruct (Hcov a Ha) as (b & Hb & Hc).
  exists b. split; [exact Hb |].
  eapply covers_contains; [apply Hne; exact Ha | exact Hc | exact Hav].
Qed.

Lemma covers_refl a : covers a a = true.
Proof. apply covers_cuts. split; apply cutLe_refl. Qed.

Lemma subsetSweep_skip a s :
  disjointAscending (a :: s) -> subsetSweep s (a :: s) = subsetSweep s s.
Proof.
  intros [Hne Hs]. destruct s as [| a' s']; [reflexivity |].
  inversion Hs as [| ? ? Hs' Hall]; subst.
  inversion Hall as [| ? ? Haa' _]; subst.
  inversion Hne as [| ? ? Ha Hne']; subst.
  inversion Hne' as [| ? ? Ha' _]; subst.
  cbn.
  assert (Hc : covers a a' = false).
  { destruct (covers a a') eqn:Hc; [| reflexivity]. exfalso.
    apply covers_cuts in Hc. destruct Hc as [_ Hu].
    apply (endsBefore_iff _ _ Ha Ha') in Haa'.
    apply isEmpty_false_iff in Ha'.
    apply (cutLt_le_trans _ _ _ Ha') in Hu.
    apply Hu. exact Haa'. }
  rewrite Hc. red in Haa'. rewrite Haa'. reflexivity.
Qed.

Lemma subsetSweep_refl s : disjointAscending s -> subsetSweep s s = true.
Proof.
  induction s as [| a s IH]; intros Hs; [reflexivity |].
  cbn. rewrite covers_refl.
  change (subsetSweep s (a :: s) = true).
  rewrite (subsetSweep_skip _ _ Hs). apply IH.
  eapply disjointAscending_tail. exact Hs.
Qed.

Lemma IsSubset_refl s : disjointAscending s -> IsSubset s (Some s) = true.
Proof.
  intros Hs. unfold IsSubset. destruct s as [| a s']; [reflexivity |].
  cbn [asIntervalSet]. apply subsetSweep_refl. exact Hs.
Qed.

Lemma max_lower_cases (x y : versionBound V) :
  (max x y compareLower = x /\ cutLe (lowerCut y) (lowerCut x)) \/
  (max x y compareLower = y /\ cutLe (lowerCut x) (lowerCut y)).
Proof.
  unfold max. destruct (Z.geb_spec (compareLower x y) 0) as [Hge | Hlt].
  - left. split; [reflexivity |]. apply compareLower_ge. lia.
  - right. split; [reflexivity |]. apply compareLower_le. lia.
Qed.

Lemma overlaps_cuts a b :
  isEmpty a = false -> isEmpty b = false ->
  overlaps a b = true <->
  cutLt (lowerCut (lower b)) (upperCut (upper a)) /\
  cutLt (lowerCut (lower a)) (upperCut (upper b)).
Proof.
  intros Ha Hb. unfold overlaps.
  pose proof (upperLessThanLower_iff (upper a) (lower b)
                (nonEmpty_upper _ Ha) (nonEmpty_lower _ Hb)) as H1.
  pose proof (upperLessThanLower_iff (upper b) (lower a)
                (nonEmpty_upper _ Hb) (nonEmpty_lower _ Ha)) as H2.
  unfold cutLt.
  destruct (upperLessThanLower (upper a) (lower b));
    destruct (upperLessThanLower (upper b) (lower a)).
  - split; [discriminate |]. intros [Hx _]. exfalso. apply Hx, H1. reflexivity.
  - split; [discriminate |]. intros [Hx _]. exfalso. apply Hx, H1. reflexivity.
  - split; [discriminate |]. intros [_ Hy]. exfalso. apply Hy, H2. reflexivity.
  - split; [intros _ | reflexivity].
    split; intros Hc; [apply H1 in Hc | apply H2 in Hc]; discriminate.
Qed.

Lemma intersectInterval_cuts a b :
  isEmpty a = false -> isEmpty b = false ->
  (exists iv, intersectInterval a b = Some iv) <->
  cutLt (lowerCut (lower b)) (upperCut (upper a)) /\
  cutLt (lowerCut (lower a)) (upperCut (upper b)).
Proof.
  intros Ha Hb. unfold intersectInterval, newInterval.
  set (iv := {| lower := max (lower a) (lower b) compareLower;
                upper := min (upper a) (upper b) compareUpper |}).
  assert (Hiv : isEmpty iv = false <->
                cutLt (lowerCut (lower b)) (upperCut (upper a)) /\
                cutLt (lowerCut (lower a)) (upperCut (upper b))).
  { rewrite isEmpty_false_iff. subst iv. cbn [lower upper].
    rewrite min_upper_cut.
    apply isEmpty_false_iff in Ha. apply isEmpty_false_iff in Hb.
    destruct (max_lower_cases (lower a) (lower b)) as [[-> Hle] | [-> Hle]].
    - split.
      + intros [_ H2]. split; [| exact H2].
        eapply cutLe_lt_trans; [exact Hle | exact Ha].
      + intros [_ H2]. split; [exact Ha | exact H2].
    - split.
      + intros [H1 _]. split; [exact H1 |].
        eapply cutLe_lt_trans; [exact Hle | exact Hb].
      + intros [H1 _]. split; [exact H1 | exact Hb]. }
  destruct (isEmpty iv).
  - split; [intros [? ?]; discriminate |].
    intros Hc. apply Hiv in Hc. discriminate.
  - split; [intros _; apply Hiv; reflexivity | intros _; eexists; reflexivity].
Qed.

Lemma overlaps_intersectInterval a b :
  isEmpty a = false -> isEmpty b = false ->
  overlaps a b = false <-> intersectInterval a b = None.
Proof.
  intros Ha Hb.
  pose proof (overlaps_cuts _ _ Ha Hb) as Ho.
  pose proof (intersectInterval_cuts _ _ Ha Hb) as Hi.
  destruct (overlaps a b), (intersectInterval a b) as [iv |]; split;
    try discriminate; try reflexivity; intros _; exfalso.
  - assert (Hx : exists iv : versionInterval V, None = Some iv)
      by (apply Hi, Ho; reflexivity).
    destruct Hx; discriminate.
  - assert (Hx : false = true) by (apply Ho, Hi; eexists; reflexivity).
    discriminate.
Qed.

Lemma disjointSweep_cons a si b oi :
  disjointSweep (a :: si) (b :: oi)
  = if overlaps a b then false
    else if compareUpper (upper a) (upper b) <? 0
         then disjointSweep si (b :: oi)
         else disjointSweep (a :: si) oi.
Proof. reflexivity. Qed.

Lemma disjointSweep_nil_r si : disjointSweep si [] = true.
Proof. destruct si; reflexivity. Qed.

Lemma disjointSweep_intersectionSweep si :
  forall oi,
    Forall (fun iv => isEmpty iv = false) si ->
    Forall (fun iv => isEmpty iv = false) oi ->
    disjointSweep si oi = true <-> intersectionSweep si oi = [].
Proof.
  induction si as [| a si IH]; intros oi Hs Ho;
    [destruct oi; split; reflexivity |].
  induction oi as [| b oi IHo].
  - rewrite disjointSweep_nil_r, intersectionSweep_nil_r. split; reflexivity.
  - rewrite disjointSweep_cons, intersectionSweep_cons.
    inversion Hs as [| ? ? Ha Hs']; subst.
    inversion Ho as [| ? ? Hb Ho']; subst.
    pose proof (overlaps_intersectInterval _ _ Ha Hb) as Hov.
    destruct (overlaps a b).
    + destruct (intersectInterval a b) as [iv |].
      * split; discriminate.
      * exfalso. assert (Hx : true = false) by (apply Hov; reflexivity).
        discriminate.
    + rewrite (proj1 Hov eq_refl). cbn [List.app].
      destruct (compareUpper (upper a) (upper b) <? 0).
      * apply IH; assumption.
      * apply IHo. assumption.
Qed.

Lemma intersectionSweep_nonEmpty si :
  forall oi, Forall (fun iv => isEmpty iv = false) (intersectionSweep si oi).
Proof.
  induction si as [| a si IH]; intros oi; [destruct oi; constructor |].
  induction oi as [| b oi IHo].
  - rewrite intersectionSweep_nil_r. constructor.
  - rewrite intersectionSweep_cons. apply Forall_app. split.
    + destruct (intersectInterval a b) as [iv |] eqn:E; [| constructor].
      constructor; [| constructor].
      eapply intersectInterval_nonEmpty. exact E.
    + destruct (compareUpper (upper a) (upper b) <? 0); [apply IH | exact IHo].
Qed.

Lemma mergeSweep_not_nil (rest : list (versionInterval V)) :
  forall last, mergeSweep last rest <> [].
Proof.
  induction rest as [| current rest IH]; intros last; cbn; [discriminate |].
  destruct (touches last current); [apply IH | discriminate].
Qed.

Lemma normalizeIntervals_nil (l : list (versionInterval V)) :
  Forall (fun iv => isEmpty iv = false) l ->
  normalizeIntervals l = [] <-> l = [].
Proof.
  intros Hl. split; [| intros ->; reflexivity].
  unfold normalizeIntervals.
  destruct (sortByLower (List.filter (fun iv => negb (isEmpty iv)) l))
    as [| first rest] eqn:E.
  - intros _. destruct l as [| x l']; [reflexivity |]. exfalso.
    inversion Hl as [| ? ? Hx _]; subst.
    assert (Hin : In x (sortByLower (List.filter (fun iv => negb (isEmpty iv)) (x :: l')))).
    { apply sortByLower_In. apply List.filter_In. split; [left; reflexivity |].
      rewrite Hx. reflexivity. }
    rewrite E in Hin. destruct Hin.
  - intros Hm. exfalso. exact (mergeSweep_not_nil _ _ Hm).
Qed.

Lemma IsDisjoint_IsEmpty_Intersection s o :
  Forall (fun iv => isEmpty iv = false) s ->
  Forall (fun iv => isEmpty iv = false) o ->
  IsDisjoint s (Some o) = IsEmpty (Intersection s (Some o)).
Proof.
  intros Hs Ho. unfold IsDisjoint, Intersection. cbn [asIntervalSet].
  destruct s as [| a s']; [reflexivity |].
  destruct o as [| b o']; [reflexivity |].
  unfold newVersionIntervalSet, IsEmpty.
  pose proof (disjointSweep_intersectionSweep (a :: s') (b :: o') Hs Ho) as Hd.
  pose proof (normalizeIntervals_nil _
                (intersectionSweep_nonEmpty (a :: s') (b :: o'))) as Hn.
  destruct (disjointSweep (a :: s') (b :: o')).
  - rewrite (proj2 Hn (proj1 Hd eq_refl)). reflexivity.
  - destruct (normalizeIntervals (intersectionSweep (a :: s') (b :: o'))) eqn:E.
    + exfalso. assert (Hx : false = true) by (apply Hd, Hn; reflexivity).
      discriminate.
    + reflexivity.
Qed.

Lemma Contains_intervalSetFromBounds (lo up : versionBound V) (v : V) :
  Contains (intervalSetFromBounds lo up) (Some v) = true <->
  cutLe (lowerCut lo) (CutAt v false) /\ cutLt (CutAt v false) (upperCut up).
Proof.
  rewrite (Contains_insideSet _ _
             (proj1 (intervalSetFromBounds_disjointAscending lo up))).
  rewrite <- inside_newInterval. unfold intervalSetFromBounds.
  destruct (newInterval lo up) as [iv |]; [| reflexivity].
  unfold newVersionIntervalSet. apply insideSet_normalizeIntervals.
Qed.

Lemma lower_cut_version (lo v : V) (li : bool) :
  cutLe (lowerCut (BoundFinite lo li)) (CutAt v false) <->
  if li then 0 <= Sort v lo else 0 < Sort v lo.
Proof. cbn. sort_pair lo v. destruct li; cbn; lia. Qed.

Lemma upper_cut_version (up v : V) (ui : bool) :
  cutLt (CutAt v false) (upperCut (BoundFinite up ui)) <->
  if ui then Sort v up <= 0 else Sort v up < 0.
Proof. unfold cutLt. cbn. sort_pair up v. destruct ui; cbn; lia. Qed.

Lemma IsEmpty_intervalSetFromBounds (lo up : versionBound V) :
  IsEmpty (intervalSetFromBounds lo up) = isEmpty {| lower := lo; upper := up |}.
Proof.
  unfold intervalSetFromBounds, newInterval.
  destruct (isEmpty {| lower := lo; upper := up |}) eqn:E; [reflexivity |].
  unfold newVersionIntervalSet, normalizeIntervals. cbn [List.filter].
  rewrite E. reflexivity.
Qed.

(** A sequence in the normal form is left as it is by
    [normalizeIntervals]. *)
Lemma filter_nonEmpty_id (l : list (versionInterval V)) :
  Forall (fun iv => isEmpty iv = false) l ->
  List.filter (fun iv => negb (isEmpty iv)) l = l.
Proof.
  induction 1 as [| x l Hx _ IH]; [reflexivity |].
  cbn. rewrite Hx. cbn. rewrite IH. reflexivity.
Qed.

Lemma endsBefore_lowerLe a b :
  isEmpty a = false -> isEmpty b = false -> endsBefore a b -> lowerLe a b.
Proof.
  intros Ha Hb Hab. apply (endsBefore_iff _ _ Ha Hb) in Hab.
  apply compareLower_le. apply isEmpty_false_iff in Ha.
  eapply cutLe_trans; [apply cutLt_le; exact Ha | exact Hab].
Qed.

Lemma disjointAscending_lowerLe (l : list (versionInterval V)) :
  disjointAscending l -> StronglySorted lowerLe l.
Proof.
  intros [Hne Hs]. induction Hs as [| a l Hs IH Hall]; [constructor |].
  inversion Hne as [| ? ? Ha Hne']; subst.
  constructor; [apply IH; exact Hne' |].
  rewrite List.Forall_forall in Hall, Hne' |- *. intros b Hb.
  apply endsBefore_lowerLe; [exact Ha | apply Hne'; exact Hb | apply Hall; exact Hb].
Qed.

Lemma sortByLower_sorted_id (l : list (versionInterval V)) :
  StronglySorted lowerLe l -> sortByLower l = l.
Proof.
  induction 1 as [| a l Hs IH Hall]; [reflexivity |].
  unfold sortByLower in *. cbn [foldr]. rewrite IH.
  destruct l as [| b l']; [reflexivity |]. cbn [insertByLower].
  inversion Hall as [| ? ? Hab _]; subst. red in Hab.
  destruct (Z.leb_spec (compareLower (lower a) (lower b)) 0); [reflexivity | lia].
Qed.

Lemma mergeSweep_separated_id (rest : list (versionInterval V)) :
  forall last,
    StronglySorted endsBefore (last :: rest) ->
    mergeSweep last rest = last :: rest.
Proof.
  induction rest as [| current rest IH]; intros last Hs; [reflexivity |].
  inversion Hs as [| ? ? Hs' Hall]; subst.
  inversion Hall as [| ? ? Hlc _]; subst. red in Hlc.
  cbn [mergeSweep]. unfold touches. rewrite Hlc. cbn.
  rewrite (IH _ Hs'). reflexivity.
Qed.

Lemma normalizeIntervals_normal (l : list (versionInterval V)) :
  disjointAscending l -> normalizeIntervals l = l.
Proof.
  intros Hl. unfold normalizeIntervals.
  rewrite (filter_nonEmpty_id _ (proj1 Hl)).
  rewrite (sortByLower_sorted_id _ (disjointAscending_lowerLe _ Hl)).
  destruct l as [| first rest]; [reflexivity |].
  apply mergeSweep_separated_id. exact (proj2 Hl).
Qed.

Lemma intersectInterval_full_r a :
  isEmpty a = false ->
  intersectInterval a {| lower := negativeInfinityBound; upper := positiveInfinityBound |}
  = Some a.
Proof.
  intros Ha. unfold intersectInterval, newInterval, max, min. cbn [lower upper].
  assert (Hl : (if compareLower (lower a) negativeInfinityBound >=? 0
                then lower a else negativeInfinityBound) = lower a).
  { destruct (lower a); reflexivity. }
  assert (Hu : (if compareUpper (upper a) positiveInfinityBound <=? 0
                then upper a else positiveInfinityBound) = upper a).
  { destruct (upper a); reflexivity. }
  rewrite Hl, Hu. destruct a as [la ua]. cbn [lower upper] in *.
  rewrite Ha. reflexivity.
Qed.

Lemma intersectionSweep_full_r (s : list (versionInterval V)) :
  disjointAscending s ->
  intersectionSweep s [ {| lower := negativeInfinityBound;
                           upper := positiveInfinityBound |} ] = s.
Proof.
  induction s as [| a s IH]; intros Hs; [reflexivity |].
  rewrite intersectionSweep_cons.
  assert (Ha : isEmpty a = false).
  { destruct Hs as [Hne _]. inversion Hne; assumption. }
  rewrite (intersectInterval_full_r _ Ha). cbn [upper List.app].
  destruct (compareUpper (upper a) positiveInfinityBound <? 0) eqn:E.
  - rewrite (IH (disjointAscending_tail _ _ Hs)). reflexivity.
  - rewrite intersectionSweep_nil_r.
    destruct s as [| b s']; [reflexivity |]. exfalso.
    destruct Hs as [Hne Hss].
    inversion Hss as [| ? ? _ Hall]; subst.
    inversion Hall as [| ? ? Hab _]; subst. red in Hab.
    inversion Hne as [| ? ? _ Hne']; subst.
    inversion Hne' as [| ? ? Hb _]; subst.
    destruct (upper a) as [| v i |]; cbn in E; try discriminate.
    destruct (lower b); cbn in Hab; discriminate.
Qed.

Lemma intersectInterval_self a :
  isEmpty a = false -> intersectInterval a a = Some a.
Proof.
  intros Ha. unfold intersectInterval, newInterval, max, min.
  assert (Hl : (if compareLower (lower a) (lower a) >=? 0
                then lower a else lower a) = lower a)
    by (destruct (compareLower (lower a) (lower a) >=? 0); reflexivity).
  assert (Hu : (if compareUpper (upper a) (upper a) <=? 0
                then upper a else upper a) = upper a)
    by (destruct (compareUpper (upper a) (upper a) <=? 0); reflexivity).
  rewrite Hl, Hu. destruct a as [la ua]. cbn [lower upper] in *.
  rewrite Ha. reflexivity.
Qed.

Lemma compareUpper_refl (x : versionBound V) : compareUpper x x = 0.
Proof.
  destruct x as [| v i |]; cbn; try reflexivity.
  rewrite Sort_refl. cbn. destruct i; reflexivity.
Qed.

Lemma compareLower_refl (x : versionBound V) : compareLower x x = 0.
Proof.
  destruct x as [| v i |]; cbn; try reflexivity.
  rewrite Sort_refl. cbn. destruct i; reflexivity.
Qed.

Lemma endsBefore_upper_lt a b :
  isEmpty a = false -> isEmpty b = false -> endsBefore a b ->
  compareUpper (upper a) (upper b) < 0.
Proof.
  intros Ha Hb Hab. apply compareUpper_lt.
  apply (endsBefore_iff _ _ Ha Hb) in Hab. apply isEmpty_false_iff in Hb.
  eapply cutLe_lt_trans; eassumption.
Qed.

Lemma endsBefore_intersect_none a b :
  isEmpty a = false -> isEmpty b = false -> endsBefore a b ->
  intersectInterval a b = None.
Proof.
  intros Ha Hb Hab. apply (overlaps_intersectInterval _ _ Ha Hb).
  unfold overlaps. red in Hab. rewrite Hab. reflexivity.
Qed.

Lemma intersectionSweep_skip a s :
  disjointAscending (a :: s) -> intersectionSweep (a :: s) s = intersectionSweep s s.
Proof.
  intros [Hne Hs]. destruct s as [| b s']; [reflexivity |].
  inversion Hs as [| ? ? _ Hall]; subst.
  inversion Hall as [| ? ? Hab _]; subst.
  inversion Hne as [| ? ? Ha Hne']; subst.
  inversion Hne' as [| ? ? Hb _]; subst.
  rewrite intersectionSweep_cons.
  rewrite (endsBefore_intersect_none _ _ Ha Hb Hab). cbn [List.app].
  pose proof (endsBefore_upper_lt _ _ Ha Hb Hab) as Hlt.
  destruct (Z.ltb_spec (compareUpper (upper a) (upper b)) 0); [reflexivity | lia].
Qed.

Lemma intersectionSweep_self s :
  disjointAscending s -> intersectionSweep s s = s.
Proof.
  induction s as [| a s IH]; intros Hs; [reflexivity |].
  assert (Ha : isEmpty a = false).
  { destruct Hs as [Hne _]. inversion Hne; assumption. }
  rewrite intersectionSweep_cons, (intersectInterval_self _ Ha).
  rewrite compareUpper_refl. cbn [List.app Z.ltb Z.compare].
  rewrite (intersectionSweep_skip _ _ Hs).
  rewrite (IH (disjointAscending_tail _ _ Hs)). reflexivity.
Qed.

(** The sequence with every interval twice. *)
Lemma insertByLower_after (p : list (versionInterval V)) a r :
  Forall (fun x => compareLower (lower x) (lower a) < 0) p ->
  insertByLower a (p ++ a :: r) = p ++ a :: a :: r.
Proof.
  induction 1 as [| x p Hx _ IH]; cbn [List.app insertByLower].
  - rewrite compareLower_refl. reflexivity.
  - assert (Hgt : 0 < compareLower (lower a) (lower x)).
    { apply compareLower_lt in Hx. unfold cutLt in Hx.
      rewrite <- compareLower_le in Hx. lia. }
    destruct (Z.leb_spec (compareLower (lower a) (lower x)) 0); [lia |].
    rewrite IH. reflexivity.
Qed.

Lemma sortByLower_twice (q : list (versionInterval V)) :
  forall p,
    disjointAscending (p ++ q) ->
    foldr insertByLower (p ++ q) q = p ++ flat_map (fun a => [a; a]) q.
Proof.
  induction q as [| a q IH]; intros p Hpq; [reflexivity |].
  cbn [foldr flat_map List.app].
  replace (p ++ a :: q) with ((p ++ [a]) ++ q) in Hpq |- *
    by (rewrite <- List.app_assoc; reflexivity).
  rewrite (IH _ Hpq). rewrite <- List.app_assoc. cbn [List.app].
  apply insertByLower_after.
  apply disjointAscending_pairs in Hpq.
  rewrite <- List.app_assoc in Hpq. cbn [List.app] in Hpq.
  clear IH. induction p as [| x p IHp]; [constructor |].
  cbn [List.app] in Hpq. inversion Hpq as [| ? ? Hs Hall]; subst.
  constructor; [| apply IHp; exact Hs].
  rewrite List.Forall_forall in Hall.
  apply (Hall a). apply List.in_or_app. right. left. reflexivity.
Qed.

Lemma touches_self a : isEmpty a = false -> touches a a = true.
Proof.
  intros Ha. pose proof (proj2 (overlaps_cuts a a Ha Ha)) as Ho.
  apply isEmpty_false_iff in Ha. specialize (Ho (conj Ha Ha)).
  unfold overlaps in Ho. unfold touches.
  destruct (upperLessThanLower (upper a) (lower a)); [discriminate | reflexivity].
Qed.

Lemma merge_self a : merge a a = a.
Proof.
  unfold merge, min, max. destruct a as [la ua]. cbn [lower upper].
  destruct (compareLower la la <=? 0), (compareUpper ua ua >=? 0); reflexivity.
Qed.

Lemma mergeSweep_twice (s : list (versionInterval V)) :
  forall a,
    disjointAscending (a :: s) ->
    mergeSweep a (a :: flat_map (fun x => [x; x]) s) = a :: s.
Proof.
  induction s as [| b s IH]; intros a Has.
  - destruct Has as [Hne _]. inversion Hne as [| ? ? Ha _]; subst.
    cbn. rewrite (touches_self _ Ha), merge_self. reflexivity.
  - pose proof Has as [Hne Hs].
    inversion Hne as [| ? ? Ha _]; subst.
    inversion Hs as [| ? ? _ Hall]; subst.
    inversion Hall as [| ? ? Hab _]; subst. red in Hab.
    cbn [flat_map List.app mergeSweep].
    rewrite (touches_self _ Ha), merge_self.
    unfold touches at 1. rewrite Hab. cbn [negb andb].
    change (a :: mergeSweep b (b :: flat_map (fun x => [x; x]) s) = a :: b :: s).
    rewrite (IH _ (disjointAscending_tail _ _ Has)). reflexivity.
Qed.

Lemma Union_self (s : VersionIntervalSet V) :
  disjointAscending s -> Union s (Some s) = s.
Proof.
  intros Hs. unfold Union, newVersionIntervalSet, cloneIntervals, normalizeIntervals.
  cbn [asIntervalSet].
  rewrite filter_nonEmpty_id
    by (apply Forall_app; split; exact (proj1 Hs)).
  unfold sortByLower. rewrite foldr_app.
  fold (sortByLower s).
  rewrite (sortByLower_sorted_id _ (disjointAscending_lowerLe _ Hs)).
  pose proof (sortByLower_twice s [] Hs) as Ht. cbn [List.app] in Ht.
  rewrite Ht.
  destruct s as [| a s']; [reflexivity |].
  cbn [flat_map List.app]. apply mergeSweep_twice. exact Hs.
Qed.

Lemma Intersection_self (s : VersionIntervalSet V) :
  disjointAscending s -> Intersection s (Some s) = s.
Proof.
  intros Hs. unfold Intersection. cbn [asIntervalSet].
  destruct s as [| a s']; [reflexivity |].
  unfold newVersionIntervalSet. rewrite (intersectionSweep_self _ Hs).
  apply normalizeIntervals_normal. exact Hs.
Qed.

Lemma Union_empty_r (s : VersionIntervalSet V) :
  disjointAscending s -> Union s (Some Empty) = s.
Proof.
  intros Hs. unfold Union, newVersionIntervalSet, cloneIntervals.
  cbn [asIntervalSet Empty]. rewrite List.app_nil_r.
  apply normalizeIntervals_normal. exact Hs.
Qed.

Lemma Intersection_full_r (s : VersionIntervalSet V) :
  disjointAscending s -> Intersection s (Some Full) = s.
Proof.
  intros Hs. unfold Intersection, Full. cbn [asIntervalSet].
  destruct s as [| a s']; [reflexivity |].
  unfold newVersionIntervalSet. rewrite (intersectionSweep_full_r _ Hs).
  apply normalizeIntervals_normal. exact Hs.
Qed.

Lemma nonEmpty_has_cut (l : list (versionInterval V)) :
  Forall (fun iv => isEmpty iv = false) l -> l <> [] -> exists c, insideSet c l.
Proof.
  intros Hne Hl. destruct l as [| a l']; [contradiction |].
  inversion Hne as [| ? ? Ha _]; subst.
  exists (lowerCut (lower a)). apply insideSet_cons. left.
  split; [apply cutLe_refl | apply isEmpty_false_iff; exact Ha].
Qed.

Lemma IsDisjoint_cuts s o :
  disjointAscending s -> disjointAscending o ->
  IsDisjoint s (Some o) = true <->
  forall c, ~ (insideSet c s /\ insideSet c o).
Proof.
  intros Hs Ho.
  rewrite (IsDisjoint_IsEmpty_Intersection _ _ (proj1 Hs) (proj1 Ho)).
  pose proof (Intersection_disjointAscending s (Some o)) as [Hne _].
  split.
  - intros He c Hc. apply (insideSet_Intersection c _ _ Hs Ho) in Hc.
    destruct (Intersection s (Some o)); [| discriminate].
    apply insideSet_nil in Hc. exact Hc.
  - intros Hno. destruct (Intersection s (Some o)) as [| x l] eqn:E; [reflexivity |].
    exfalso. destruct (nonEmpty_has_cut (x :: l) Hne) as [c Hc]; [discriminate |].
    rewrite <- E in Hc. apply (insideSet_Intersection c _ _ Hs Ho) in Hc.
    exact (Hno c Hc).
Qed.

(** X2: on sets in the form the operations produce, [Union],
    [Intersection] and [Complement] contain the versions of the union,
    of the intersection and of the complement of their arguments; the
    nil version is in no set. *)
Theorem set_operations_members (A B : VersionIntervalSet V) (v : V) :
  disjointAscending A -> disjointAscending B ->
  Contains (Union A (Some B)) (Some v) = Contains A (Some v) || Contains B (Some v) /\
  Contains (Intersection A (Some B)) (Some v)
  = Contains A (Some v) && Contains B (Some v) /\
  Contains (Complement A) (Some v) = negb (Contains A (Some v)) /\
  Contains (Complement A) None = false.
Proof.
  intros HA HB. split; [| split; [| split]].
  - apply Contains_Union; assumption.
  - apply Contains_Intersection; assumption.
  - apply Contains_Complement; assumption.
  - apply Contains_nil_version.
Qed.

(** X4: a set in the form the operations produce is a fixed point of
    the normalisation, and on such a set the idempotence and identity
    laws hold between the produced sets themselves: [A ∪ A = A],
    [A ∩ A = A], [A ∪ ∅ = A], [A ∩ full = A]; the empty set absorbs
    in an intersection and the complements of the empty and of the full
    set are each other. *)
Theorem set_laws_between_produced_sets (A : VersionIntervalSet V) :
  disjointAscending A ->
  newVersionIntervalSet A = A /\
  Union A (Some A) = A /\
  Intersection A (Some A) = A /\
  Union A (Some Empty) = A /\
  Union A None = A /\
  Union Empty (Some A) = A /\
  Intersection A (Some Full) = A /\
  Intersection A (Some Empty) = Empty /\
  Intersection A None = Empty /\
  Intersection Empty (Some A) = Empty /\
  Complement (Empty (V:=V)) = Full /\
  Complement (Full (V:=V)) = Empty.
Proof.
  intros HA. repeat split.
  - apply normalizeIntervals_normal. exact HA.
  - apply Union_self. exact HA.
  - apply Intersection_self. exact HA.
  - apply Union_empty_r. exact HA.
  - apply (Union_empty_r A HA).
  - apply normalizeIntervals_normal. exact HA.
  - apply Intersection_full_r. exact HA.
  - destruct A; reflexivity.
  - destruct A; reflexivity.
Qed.

(** X5: [IsSubset] is sound: when it answers true every version of the
    receiver is in the other set.  A set in the form the operations
    produce is a subset of itself, the empty set is a subset of every
    set, and a non-empty set is a subset neither of the empty set nor
    of the nil set. *)
Theorem IsSubset_sound (s o : VersionIntervalSet V) :
  disjointAscending s ->
  (IsSubset s (Some o) = true ->
   forall v, Contains s v = true -> Contains o v = true) /\
  IsSubset s (Some s) = true /\
  IsSubset Empty (Some o) = true /\
  (IsEmpty s = false ->
   IsSubset s (Some Empty) = false /\ IsSubset s None = false).
Proof.
  intros Hs. split; [| split; [| split]].
  - intros Hsub v. apply IsSubset_members_gen; [exact (proj1 Hs) | exact Hsub].
  - apply IsSubset_refl. exact Hs.
  - reflexivity.
  - intros He. destruct s; [discriminate | split; reflexivity].
Qed.

(** X6: on sets in the form the operations produce, [IsDisjoint]
    answers exactly whether the intersection is empty; it is symmetric,
    and when it answers true no version is in both sets. *)
Theorem IsDisjoint_empty_Intersection (s o : VersionIntervalSet V) :
  disjointAscending s -> disjointAscending o ->
  IsDisjoint s (Some o) = IsEmpty (Intersection s (Some o)) /\
  IsDisjoint s (Some o) = IsDisjoint o (Some s) /\
  (IsDisjoint s (Some o) = true ->
   forall v, Contains s v = true -> Contains o v = false) /\
  IsDisjoint s (Some Empty) = true /\
  IsDisjoint s None = true.
Proof.
  intros Hs Ho. split; [| split; [| split; [| split]]].
  - apply IsDisjoint_IsEmpty_Intersection; [exact (proj1 Hs) | exact (proj1 Ho)].
  - apply eq_true_iff_eq.
    rewrite (IsDisjoint_cuts _ _ Hs Ho), (IsDisjoint_cuts _ _ Ho Hs).
    split; intros Hno c [H1 H2]; exact (Hno c (conj H2 H1)).
  - intros Hd v Hv.
    rewrite (IsDisjoint_IsEmpty_Intersection _ _ (proj1 Hs) (proj1 Ho)) in Hd.
    pose proof (Contains_Intersection s o v Hs Ho) as Hc.
    destruct (Intersection s (Some o)); [| discriminate].
    cbn in Hc. rewrite Hv in Hc. cbn in Hc. symmetry. exact Hc.
  - destruct s; reflexivity.
  - destruct s; reflexivity.
Qed.

(** X7: the versions of the sets the range constructors build.  A
    range contains the versions between its bounds, each bound counted
    when it is inclusive (so a range whose bounds are out of order is
    empty); a nil bound is no bound; a singleton contains the versions
    that compare equal to its version. *)
Theorem range_sets_members (lo up v : V) (li ui : bool) :
  (Contains (NewVersionRangeSet (Some lo) li (Some up) ui) (Some v) = true <->
     (if li then 0 <= Sort v lo else 0 < Sort v lo) /\
     (if ui then Sort v up <= 0 else Sort v up < 0)) /\
  (Contains (NewLowerBoundVersionSet (Some lo) li) (Some v) = true <->
     if li then 0 <= Sort v lo else 0 < Sort v lo) /\
  (Contains (NewUpperBoundVersionSet (Some up) ui) (Some v) = true <->
     if ui then Sort v up <= 0 else Sort v up < 0) /\
  (Contains (Singleton (Some lo)) (Some v) = true <-> Sort v lo = 0) /\
  Contains Full (Some v) = true /\
  Contains Empty (Some v) = false /\
  (IsEmpty (NewVersionRangeSet (Some lo) li (Some up) ui) = true <->
     0 < Sort lo up \/ (Sort lo up = 0 /\ (li = false \/ ui = false))) /\
  NewVersionRangeSet None li None ui = Full /\
  NewLowerBoundVersionSet None li = Full /\
  NewUpperBoundVersionSet None ui = Full /\
  Singleton (V:=V) None = Empty.
Proof.
  split; [| split; [| split; [| split; [| split; [| split; [| split]]]]]].
  - unfold NewVersionRangeSet. cbn [newLowerBound newUpperBound].
    rewrite Contains_intervalSetFromBounds, lower_cut_version, upper_cut_version.
    reflexivity.
  - unfold NewLowerBoundVersionSet. cbn [newLowerBound].
    rewrite Contains_intervalSetFromBounds, lower_cut_version.
    unfold cutLt. cbn. tauto.
  - unfold NewUpperBoundVersionSet. cbn [newUpperBound].
    rewrite Contains_intervalSetFromBounds, upper_cut_version.
    cbn. tauto.
  - unfold Singleton, newInterval. cbn [newLowerBound newUpperBound].
    assert (He : isEmpty {| lower := BoundFinite lo true;
                            upper := BoundFinite lo true |} = false).
    { cbn. rewrite Sort_refl. reflexivity. }
    rewrite He. cbn. sort_pair v lo.
    destruct (Z.ltb_spec (Sort v lo) 0); cbn; [split; [discriminate | lia] |].
    destruct (Z.eqb_spec (Sort v lo) 0); cbn.
    + destruct (Z.gtb_spec (Sort v lo) 0); cbn; [lia |].
      split; [intros _; assumption | reflexivity].
    + destruct (Z.gtb_spec (Sort v lo) 0); cbn; [| lia].
      split; [discriminate | lia].
  - reflexivity.
  - reflexivity.
  - unfold NewVersionRangeSet. cbn [newLowerBound newUpperBound].
    rewrite IsEmpty_intervalSetFromBounds. cbn.
    destruct (Z.ltb_spec (Sort lo up) 0); [split; [discriminate | lia] |].
    destruct (Z.gtb_spec (Sort lo up) 0); [split; [lia | reflexivity] |].
    destruct li, ui; cbn; split; intros Hx; try discriminate; try reflexivity;
      try lia;
      try (destruct Hx as [Hx | [_ [Hx | Hx]]]; first [lia | discriminate]);
      try (right; split; [lia | first [left; reflexivity | right; reflexivity]]).
  - repeat split.
Qed.

(** X8: [setsEqual] holds of a set in the form the operations produce
    and itself, it is symmetric, and two sets it declares equal contain
    the same versions; nil is equal to nil only. *)
Theorem setsEqual_sound (a b : VersionIntervalSet V) :
  disjointAscending a -> disjointAscending b ->
  setsEqual (Some a) (Some a) = true /\
  setsEqual (Some a) (Some b) = setsEqual (Some b) (Some a) /\
  (setsEqual (Some a) (Some b) = true ->
   forall v, Contains a v = Contains b v) /\
  setsEqual (V:=V) None None = true /\
  setsEqual None (Some a) = false /\
  setsEqual (Some a) None = false.
Proof.
  intros Ha Hb. cbn [setsEqual]. repeat split.
  - rewrite (IsSubset_refl _ Ha). reflexivity.
  - apply andb_comm.
  - intros Heq v. apply andb_true_iff in Heq. destruct Heq as [Hab Hba].
    apply eq_true_iff_eq. split.
    + apply IsSubset_members_gen; [exact (proj1 Ha) | exact Hab].
    + apply IsSubset_members_gen; [exact (proj1 Hb) | exact Hba].
Qed.

End SetRelations.

Section TermConversions.
Context {V : Type} `{Version V}.

Lemma singletonVersionFromSet_Some (s : VersionIntervalSet V) (version : V) :
  singletonVersionFromSet (Some s) = Some version ->
  exists vu,
    s = [ {| lower := BoundFinite version true; upper := BoundFinite vu true |} ] /\
    Sort version vu = 0.
Proof.
  unfold singletonVersionFromSet.
  destruct s as [| [lo up] [| ? ?]]; try discriminate. cbn [lower upper].
  destruct lo as [| vl il |], up as [| vu iu |]; try discriminate.
  destruct (Z.eqb_spec (Sort vl vu) 0) as [He | Hne]; cbn; [| discriminate].
  destruct il, iu; cbn; try discriminate.
  intros [= ->]. exists vu. split; [reflexivity | exact He].
Qed.

Lemma Singleton_Some (v : V) :
  Singleton (Some v)
  = [ {| lower := BoundFinite v true; upper := BoundFinite v true |} ].
Proof.
  unfold Singleton, newInterval. cbn. rewrite Sort_refl. reflexivity.
Qed.

Lemma contains_equal_ends (vl vu : V) (w : option V) :
  Sort vl vu = 0 ->
  contains {| lower := BoundFinite vl true; upper := BoundFinite vl true |} w
  = contains {| lower := BoundFinite vl true; upper := BoundFinite vu true |} w.
Proof.
  intros He. destruct w as [x |]; [| reflexivity]. cbn.
  sort_triple x vl vu.
  destruct (Z.ltb_spec (Sort x vl) 0); cbn; [reflexivity |].
  rewrite !andb_false_r. cbn.
  destruct (Z.gtb_spec (Sort x vl) 0), (Z.gtb_spec (Sort x vu) 0);
    try reflexivity; lia.
Qed.

Lemma termAllowedSet_termFromAllowedSet (n : Name) (s : VersionIntervalSet V) :
  exists s',
    termAllowedSet (termFromAllowedSet n (Some s)) = Some s' /\
    forall w, Contains s' w = Contains s w.
Proof.
  unfold termFromAllowedSet.
  destruct (singletonVersionFromSet (Some s)) as [version |] eqn:E.
  - apply singletonVersionFromSet_Some in E. destruct E as (vu & -> & He).
    eexists. split; [reflexivity |]. intros w.
    rewrite Singleton_Some. cbn [Contains existsb].
    rewrite (contains_equal_ends _ _ w He). reflexivity.
  - exists s. split; [reflexivity | reflexivity].
Qed.

(** X9: a term made from an allowed set converts back to a set with
    the same versions (to the set itself unless it is a single version,
    which becomes an equality condition), a term made from a forbidden
    set converts back to that set, and neither converts with the other
    polarity; nil stands for the full set, and the singleton of a
    version gives the equality term of that version. *)
Theorem term_set_round_trip (n : Name) (s : VersionIntervalSet V) (v : V) :
  (exists s',
      termAllowedSet (termFromAllowedSet n (Some s)) = Some s' /\
      forall w, Contains s' w = Contains s w) /\
  termForbiddenSet (termFromForbiddenSet n (Some s)) = Some s /\
  termAllowedSet (termFromForbiddenSet n (Some s)) = None /\
  termForbiddenSet (termFromAllowedSet n (Some s)) = None /\
  TermName (termFromAllowedSet n (Some s)) = n /\
  TermName (termFromForbiddenSet n (Some s)) = n /\
  termFromAllowedSet (V:=V) n None = termFromAllowedSet n (Some Full) /\
  termFromForbiddenSet (V:=V) n None = termFromForbiddenSet n (Some Full) /\
  singletonVersionFromSet (Some (Singleton (Some v))) = Some v /\
  termFromAllowedSet n (Some (Singleton (Some v)))
  = NewTerm n (Some (EqualsCondition (Some v))).
Proof.
  assert (Hsing : singletonVersionFromSet (Some (Singleton (Some v))) = Some v).
  { rewrite Singleton_Some. cbn. rewrite Sort_refl. reflexivity. }
  split; [| split; [| split; [| split; [| split; [| split; [| split;
    [| split; [| split]]]]]]]].
  - apply termAllowedSet_termFromAllowedSet.
  - reflexivity.
  - reflexivity.
  - unfold termFromAllowedSet.
    destruct (singletonVersionFromSet (Some s)); reflexivity.
  - unfold termFromAllowedSet.
    destruct (singletonVersionFromSet (Some s)); reflexivity.
  - reflexivity.
  - reflexivity.
  - reflexivity.
  - exact Hsing.
  - unfold termFromAllowedSet. rewrite Hsing. reflexivity.
Qed.

(** X10: negating a term twice gives the term back; the negation
    keeps the package and the condition, swaps the allowed and the
    forbidden set, and is satisfied by a version (nil included) exactly
    when the term is not. *)
Theorem Negate_flips (t : Term V) (ver : option V) :
  Negate (Negate t) = t /\
  TermName (Negate t) = TermName t /\
  TermCondition (Negate t) = TermCondition t /\
  termAllowedSet (Negate t) = termForbiddenSet t /\
  termForbiddenSet (Negate t) = termAllowedSet t /\
  SatisfiedBy (Negate t) ver = option_map negb (SatisfiedBy t ver).
Proof.
  destruct t as [n c p]. unfold Negate, termAllowedSet, termForbiddenSet, SatisfiedBy.
  cbn [TermName TermCondition Positive].
  rewrite negb_involutive. repeat split; try (destruct p; reflexivity).
  destruct ver as [v |]; [| destruct p; reflexivity].
  destruct c as [c |]; [| destruct p; reflexivity].
  destruct (Satisfies c v) as [b |]; [| destruct p; reflexivity].
  destruct p, b; reflexivity.
Qed.

(** X29: under a version type whose [String] agrees with its [Sort]
    (two versions print alike exactly when they compare equal), a term
    that converts to the set [S] is satisfied by exactly the versions of
    [S] when it is positive, and by exactly the others when it is
    negative. *)
Theorem SatisfiedBy_termSet (t : Term V) (S : VersionIntervalSet V) (v : V) (b : bool) :
  (forall x y : V, VersionString x = VersionString y <-> Sort x y = 0) ->
  termSet t = Some S ->
  SatisfiedBy t (Some v) = Some b ->
  b = if Positive t then Contains S (Some v) else negb (Contains S (Some v)).
Proof.
  intros Hstr HS. unfold termSet, termAllowedSet, termForbiddenSet in HS.
  assert (Hc : conditionSet (TermCondition t) = Some S)
    by (destruct (Positive t); exact HS).
  clear HS. unfold SatisfiedBy.
  assert (Heq : forall cv : V,
             String.eqb (VersionString cv) (VersionString v)
             = Contains (Singleton (Some cv)) (Some v)).
  { intros cv. rewrite Singleton_Some. cbn.
    pose proof (Hstr cv v) as Hs. pose proof (Sort_eq_flip v cv) as Hflip.
    destruct (String.eqb_spec (VersionString cv) (VersionString v)) as [He | Hne].
    - assert (Sort v cv = 0) by (apply Hflip, Hs, He).
      destruct (Z.ltb_spec (Sort v cv) 0); [lia |]. cbn.
      rewrite !andb_false_r. cbn.
      destruct (Z.gtb_spec (Sort v cv) 0); [lia | reflexivity].
    - assert (Sort v cv <> 0) by (intros H3; apply Hne, Hs, Hflip, H3).
      destruct (Z.ltb_spec (Sort v cv) 0); [reflexivity |]. cbn.
      rewrite !andb_false_r. cbn.
      destruct (Z.gtb_spec (Sort v cv) 0); [reflexivity | lia]. }
  destruct (TermCondition t) as [c |].
  - destruct c as [[cv |] | [[cv |] |] | [[set |] |] | str sat]; cbn in Hc |- *;
      try discriminate; injection Hc as <-; try discriminate;
      intros [= <-]; rewrite ?Heq; destruct (Positive t); reflexivity.
  - cbn in Hc. injection Hc as <-. intros [= <-].
    destruct (Positive t); reflexivity.
Qed.

End TermConversions.

Section TermMerging.
Context {V : Type} `{Version V}.

Lemma termFromAllowedSet_name (n : Name) (s : VersionSet V) :
  TermName (termFromAllowedSet n s) = n /\ Positive (termFromAllowedSet n s) = true.
Proof.
  unfold termFromAllowedSet.
  destruct (singletonVersionFromSet _); split; reflexivity.
Qed.

Lemma mergeTerms_name (a b m : Term V) :
  mergeTerms a b = Some m ->
  TermName a = TermName b /\ TermName m = TermName a /\
  Positive a = Positive b /\ Positive m = Positive a.
Proof.
  unfold mergeTerms.
  destruct (bool_decide_reflect (TermName a = TermName b)) as [Hn | Hn];
    cbn [negb]; [| discriminate].
  destruct (Positive a) eqn:Pa, (Positive b) eqn:Pb; cbn; try discriminate.
  - destruct (termAllowedSet a), (termAllowedSet b); try discriminate.
    intros [= <-]. pose proof (termFromAllowedSet_name (TermName a)
      (Some (Intersection v (Some v0)))) as [Hx Hy].
    rewrite Hx, Hy. repeat split; assumption.
  - destruct (termForbiddenSet a), (termForbiddenSet b); try discriminate.
    intros [= <-]. repeat split; assumption.
Qed.

(** X11: [mergeTerms] merges two terms of one package and one
    polarity that both convert to sets: the merged term has that
    package and polarity, and converts to a set with the versions of
    the intersection for positive terms, of the union for negative
    ones.  In every other case it reports failure. *)
Theorem mergeTerms_merges (a b : Term V) :
  match mergeTerms a b with
  | Some m =>
      TermName a = TermName b /\ Positive a = Positive b /\
      TermName m = TermName a /\ Positive m = Positive a /\
      exists sa sb sm,
        termSet a = Some sa /\ termSet b = Some sb /\ termSet m = Some sm /\
        (disjointAscending sa -> disjointAscending sb ->
         forall v : V,
           Contains sm (Some v)
           = if Positive a
             then Contains sa (Some v) && Contains sb (Some v)
             else Contains sa (Some v) || Contains sb (Some v))
  | None =>
      TermName a <> TermName b \/ Positive a <> Positive b \/
      termSet a = None \/ termSet b = None
  end.
Proof.
  destruct (mergeTerms a b) as [m |] eqn:E.
  - pose proof (mergeTerms_name _ _ _ E) as (Hn & Hm & Hp & Hpm).
    split; [exact Hn |]. split; [exact Hp |]. split; [exact Hm |].
    split; [exact Hpm |].
    unfold mergeTerms in E.
    rewrite (bool_decide_eq_true_2 _ Hn) in E. cbn [negb] in E.
    unfold termSet. rewrite <- Hp, Hpm.
    destruct (Positive a) eqn:Pa; rewrite <- Hp in E; cbn in E.
    + destruct (termAllowedSet a) as [sa |], (termAllowedSet b) as [sb |];
        try discriminate.
      injection E as <-.
      destruct (termAllowedSet_termFromAllowedSet (TermName a)
                  (Intersection sa (Some sb))) as (sm & Hsm & Hmem).
      exists sa, sb, sm. repeat split; [exact Hsm |].
      intros Ha Hb v. rewrite Hmem. apply Contains_Intersection; assumption.
    + destruct (termForbiddenSet a) as [sa |], (termForbiddenSet b) as [sb |];
        try discriminate.
      injection E as <-.
      exists sa, sb, (Union sa (Some sb)). repeat split.
      intros Ha Hb v. apply Contains_Union; assumption.
  - unfold mergeTerms in E. unfold termSet.
    destruct (bool_decide_reflect (TermName a = TermName b)) as [Hn | Hn];
      cbn [negb] in E; [| left; exact Hn].
    right.
    destruct (Positive a) eqn:Pa, (Positive b) eqn:Pb; cbn in E.
    + destruct (termAllowedSet a), (termAllowedSet b); try discriminate;
        right; tauto.
    + left. discriminate.
    + left. discriminate.
    + destruct (termForbiddenSet a), (termForbiddenSet b); try discriminate;
        right; tauto.
Qed.

(** X13: applying a term to an allowed set only narrows it: for a term
    that converts to the set [R] the result is in the normal form and
    contains the versions of the current set that are in [R] (positive
    term) or outside [R] (negative term); a term that does not convert
    is an error, and a nil current set stands for the full set. *)
Theorem applyTermToAllowed_narrows (current : VersionIntervalSet V) (t : Term V) :
  disjointAscending current ->
  match termSet t with
  | Some R =>
      exists r,
        applyTermToAllowed (Some current) t = ok r /\
        disjointAscending r /\
        (disjointAscending R ->
         forall v : V,
           Contains r (Some v)
           = Contains current (Some v) &&
             (if Positive t then Contains R (Some v) else negb (Contains R (Some v))))
  | None => exists e, applyTermToAllowed (Some current) t = err e
  end /\
  applyTermToAllowed None t = applyTermToAllowed (Some Full) t.
Proof.
  intros Hc. split; [| reflexivity].
  unfold termSet, applyTermToAllowed.
  destruct (Positive t).
  - destruct (termAllowedSet t) as [R |]; [| eexists; reflexivity].
    eexists. split; [reflexivity |].
    split; [apply Intersection_disjointAscending |].
    intros HR v. apply Contains_Intersection; assumption.
  - destruct (termForbiddenSet t) as [R |]; [| eexists; reflexivity].
    eexists. split; [reflexivity |].
    split; [apply Intersection_disjointAscending |].
    intros HR v.
    rewrite (Contains_Intersection _ _ _ Hc (Complement_disjointAscending R)).
    rewrite (Contains_Complement _ _ HR). reflexivity.
Qed.

End TermMerging.

Section Resolution.
Context {V : Type} `{Version V}.

Implicit Types (m : gmap Name (Term V)) (t : Term V) (n pkg : Name).

Lemma dedupTerms_distinct (l : list (Term V)) :
  forall seen : gmap Name (Term V),
    NoDup (List.map TermName l) ->
    (forall t, In t l -> seen !! TermName t = None) ->
    dedupTerms seen l = l.
Proof.
  induction l as [| t l IH]; intros seen Hnd Hseen; [reflexivity |].
  cbn [dedupTerms]. rewrite (Hseen t (or_introl eq_refl)).
  cbn [List.map] in Hnd. apply NoDup_cons in Hnd. destruct Hnd as [Hnot Hnd].
  f_equal. apply IH; [exact Hnd |].
  intros u Hu. rewrite lookup_insert_ne; [apply Hseen; right; exact Hu |].
  intros Heq. apply Hnot. rewrite Heq. apply list_elem_of_In.
  apply List.in_map. exact Hu.
Qed.

(** The two loops of [resolveIncompatibility] that fill the map: each
    step leaves the map alone for a term of [pkg] and otherwise writes
    a term of the same package under the package of the term. *)
Lemma resolve_fill (pkg : Name)
    (step : gmap Name (Term V) -> Term V -> gmap Name (Term V)) :
  (forall m t,
      (forall n u, m !! n = Some u -> TermName u = n /\ n <> pkg) ->
      (TermName t = pkg /\ step m t = m) \/
      (TermName t <> pkg /\
       exists u, TermName u = TermName t /\ step m t = <[TermName t := u]> m)) ->
  forall (l : list (Term V)) m,
    (forall n u, m !! n = Some u -> TermName u = n /\ n <> pkg) ->
    (forall n u, fold_left step l m !! n = Some u -> TermName u = n /\ n <> pkg) /\
    (forall n, is_Some (fold_left step l m !! n) <->
               is_Some (m !! n) \/ (n <> pkg /\ In n (List.map TermName l))) /\
    (forall n, ~ In n (List.map TermName l) -> fold_left step l m !! n = m !! n).
Proof.
  intros Hstep l. induction l as [| t l IH]; intros m Hk.
  - cbn. split; [exact Hk |]. split; [| reflexivity].
    intros n. split; [left; assumption | intros [Hs | [_ []]]; exact Hs].
  - cbn [fold_left List.map].
    destruct (Hstep m t Hk) as [[Ht ->] | [Ht (u & Hu & ->)]].
    + destruct (IH m Hk) as (IH1 & IH2 & IH3).
      split; [exact IH1 |]. split.
      * intros n. rewrite IH2. split.
        -- intros [Hs | [Hn Hin]]; [left; exact Hs | right; split; [exact Hn |]].
           right. exact Hin.
        -- intros [Hs | [Hn [Heq | Hin]]]; [left; exact Hs | | right; tauto].
           congruence.
      * intros n Hn. apply IH3. intros Hin. apply Hn. right. exact Hin.
    + assert (Hk' : forall n u0, <[TermName t := u]> m !! n = Some u0 ->
                                 TermName u0 = n /\ n <> pkg).
      { intros n u0. destruct (decide (TermName t = n)) as [<- | Hne].
        - rewrite lookup_insert_eq. intros [= <-]. split; assumption.
        - rewrite lookup_insert_ne by exact Hne. apply Hk. }
      destruct (IH _ Hk') as (IH1 & IH2 & IH3).
      split; [exact IH1 |]. split.
      * intros n. rewrite IH2. destruct (decide (TermName t = n)) as [<- | Hne].
        -- rewrite lookup_insert_eq. split; [| intros _; left; eexists; reflexivity].
           intros _. right. split; [exact Ht | left; reflexivity].
        -- rewrite lookup_insert_ne by exact Hne. split.
           ++ intros [Hs | [Hn Hin]]; [left; exact Hs | right; split; [exact Hn |]].
              right. exact Hin.
           ++ intros [Hs | [Hn [Heq | Hin]]]; [left; exact Hs | | right; tauto].
              contradiction.
      * intros n Hn. rewrite IH3 by (intros Hin; apply Hn; right; exact Hin).
        apply lookup_insert_ne. intros Heq. apply Hn. left. exact Heq.
Qed.

Lemma resolve_fill_conflict_step (pkg : Name) m t :
  (TermName t = pkg /\
   (if bool_decide (TermName t = pkg) then m else <[TermName t := t]> m) = m) \/
  (TermName t <> pkg /\
   exists u, TermName u = TermName t /\
             (if bool_decide (TermName t = pkg) then m else <[TermName t := t]> m)
             = <[TermName t := u]> m).
Proof.
  destruct (bool_decide_reflect (TermName t = pkg)) as [Ht | Ht].
  - left. split; [exact Ht | reflexivity].
  - right. split; [exact Ht |]. exists t. split; reflexivity.
Qed.

Lemma resolve_fill_cause_step (pkg : Name) m t :
  (forall n u, m !! n = Some u -> TermName u = n /\ n <> pkg) ->
  let step :=
    if bool_decide (TermName t = pkg) then m
    else match m !! TermName t with
         | Some existing =>
             match mergeTerms existing t with
             | Some merged => <[TermName t := merged]> m
             | None => <[TermName t := t]> m
             end
         | None => <[TermName t := t]> m
         end in
  (TermName t = pkg /\ step = m) \/
  (TermName t <> pkg /\
   exists u, TermName u = TermName t /\ step = <[TermName t := u]> m).
Proof.
  intros Hk. cbn zeta.
  destruct (bool_decide_reflect (TermName t = pkg)) as [Ht | Ht].
  - left. split; [exact Ht | reflexivity].
  - right. split; [exact Ht |].
    destruct (m !! TermName t) as [existing |] eqn:E.
    + destruct (mergeTerms existing t) as [merged |] eqn:Em.
      * exists merged. split; [| reflexivity].
        apply mergeTerms_name in Em. destruct Em as (_ & Hm & _).
        rewrite Hm. apply (Hk _ _ E).
      * exists t. split; reflexivity.
    + exists t. split; reflexivity.
Qed.

(** The first loop of [resolveIncompatibility] leaves, for a package,
    the last term of the list that names it. *)
Lemma resolve_fill_last_of_package (pkg : Name) (before after : list (Term V))
    (t : Term V) :
  forall m,
    ~ In (TermName t) (List.map TermName after) -> TermName t <> pkg ->
    fold_left
      (fun (m : gmap Name (Term V)) (t : Term V) =>
         if bool_decide (TermName t = pkg) then m else <[TermName t := t]> m)
      (before ++ t :: after) m !! TermName t = Some t.
Proof.
  intros m Hlast Ht. rewrite List.fold_left_app. cbn [fold_left].
  rewrite (bool_decide_eq_false_2 _ Ht).
  assert (Hun : forall (l : list (Term V)) m1,
             ~ In (TermName t) (List.map TermName l) ->
             fold_left
               (fun (m : gmap Name (Term V)) (t : Term V) =>
                  if bool_decide (TermName t = pkg) then m
                  else <[TermName t := t]> m) l m1 !! TermName t
             = m1 !! TermName t).
  { intros l. induction l as [| x l IHl]; intros m1 Hn; [reflexivity |].
    cbn [fold_left]. rewrite IHl by (intros Hin; apply Hn; right; exact Hin).
    destruct (bool_decide (TermName x = pkg)); [reflexivity |].
    apply lookup_insert_ne. intros Heq. apply Hn. left. exact Heq. }
  rewrite (Hun after _ Hlast). apply lookup_insert_eq.
Qed.

Lemma collectTerms_spec (pkg : Name) (order : list (Term V)) :
  forall m out m',
    (forall n u, m !! n = Some u -> TermName u = n /\ n <> pkg) ->
    collectTerms pkg m order = (out, m') ->
    (forall n u, m' !! n = Some u -> TermName u = n /\ n <> pkg) /\
    (forall n, In n (List.map TermName order) -> m' !! n = None) /\
    (forall n, ~ In n (List.map TermName order) -> m' !! n = m !! n) /\
    (forall u, In u out <->
               exists n, In n (List.map TermName order) /\ m !! n = Some u) /\
    NoDup (List.map TermName out).
Proof.
  induction order as [| t order IH]; intros m out m' Hk.
  - cbn. intros [= <- <-]. split; [exact Hk |]. split; [intros n [] |].
    split; [reflexivity |]. split; [| constructor].
    intros u. split; [intros [] | intros (n & [] & _)].
  - cbn [collectTerms List.map].
    destruct (bool_decide_reflect (TermName t = pkg)) as [Ht | Ht].
    + intros Hc. destruct (IH _ _ _ Hk Hc) as (I1 & I2 & I3 & I4 & I5).
      assert (Hpkg : m !! pkg = None).
      { destruct (m !! pkg) as [u |] eqn:E; [| reflexivity].
        destruct (Hk _ _ E) as [_ Hne]. contradiction. }
      split; [exact I1 |]. split; [| split; [| split; [| exact I5]]].
      * intros n [<- | Hin]; [| apply I2; exact Hin].
        rewrite Ht. destruct (m' !! pkg) as [u |] eqn:E; [| reflexivity].
        destruct (I1 _ _ E) as [_ Hne]. contradiction.
      * intros n Hn. apply I3. intros Hin. apply Hn. right. exact Hin.
      * intros u. rewrite I4. split.
        -- intros (n & Hin & Hl). exists n. split; [right; exact Hin | exact Hl].
        -- intros (n & [<- | Hin] & Hl); [| exists n; split; assumption].
           rewrite Ht, Hpkg in Hl. discriminate.
    + destruct (m !! TermName t) as [t0 |] eqn:E.
      * destruct (collectTerms pkg (delete (TermName t) m) order)
          as [out0 m0] eqn:Ec.
        intros [= <- <-].
        assert (Hk' : forall n u, delete (TermName t) m !! n = Some u ->
                                  TermName u = n /\ n <> pkg).
        { intros n u. destruct (decide (TermName t = n)) as [<- | Hne].
          - rewrite lookup_delete_eq. discriminate.
          - rewrite lookup_delete_ne by exact Hne. apply Hk. }
        destruct (IH _ _ _ Hk' Ec) as (I1 & I2 & I3 & I4 & I5).
        split; [exact I1 |]. split; [| split; [| split]].
        -- intros n [<- | Hin]; [| apply I2; exact Hin].
           destruct (List.in_dec (decide_rel (=)) (TermName t)
                       (List.map TermName order)) as [Hin | Hnin];
             [apply I2; exact Hin |].
           rewrite (I3 _ Hnin). apply lookup_delete_eq.
        -- intros n Hn. rewrite I3 by (intros Hin; apply Hn; right; exact Hin).
           apply lookup_delete_ne. intros Heq. apply Hn. left. exact Heq.
        -- intros u. cbn [In]. rewrite I4. split.
           ++ intros [<- | (n & Hin & Hl)].
              ** exists (TermName t). split; [left; reflexivity | exact E].
              ** destruct (decide (TermName t = n)) as [<- | Hne];
                   [rewrite lookup_delete_eq in Hl; discriminate |].
                 rewrite lookup_delete_ne in Hl by exact Hne.
                 exists n. split; [right; exact Hin | exact Hl].
           ++ intros (n & [<- | Hin] & Hl).
              ** left. congruence.
              ** destruct (decide (TermName t = n)) as [<- | Hne];
                   [left; congruence |].
                 right. exists n. split; [exact Hin |].
                 rewrite lookup_delete_ne by exact Hne. exact Hl.
        -- cbn [List.map]. apply NoDup_cons. split; [| exact I5].
           rewrite list_elem_of_In, List.in_map_iff.
           intros (u & Hu & Hin). apply I4 in Hin. destruct Hin as (n & _ & Hl).
           destruct (Hk' _ _ Hl) as [Hun _].
           destruct (Hk _ _ E) as [Ht0 _].
           rewrite Ht0 in Hu. rewrite Hun in Hu. subst n.
           rewrite lookup_delete_eq in Hl. discriminate.
      * intros Hc. destruct (IH _ _ _ Hk Hc) as (I1 & I2 & I3 & I4 & I5).
        split; [exact I1 |]. split; [| split; [| split; [| exact I5]]].
        -- intros n [<- | Hin]; [| apply I2; exact Hin].
           destruct (List.in_dec (decide_rel (=)) (TermName t)
                       (List.map TermName order)) as [Hin | Hnin];
             [apply I2; exact Hin |].
           rewrite (I3 _ Hnin). exact E.
        -- intros n Hn. apply I3. intros Hin. apply Hn. right. exact Hin.
        -- intros u. rewrite I4. split.
           ++ intros (n & Hin & Hl). exists n. split; [right; exact Hin | exact Hl].
           ++ intros (n & [<- | Hin] & Hl); [| exists n; split; assumption].
              rewrite E in Hl. discriminate.
Qed.

(** X12: the incompatibility [resolveIncompatibility] derives is a
    conflict that records its two parents; its terms have pairwise
    distinct packages, which are exactly the packages of the terms of
    the two parents other than the pivot [pkg]; and a term of the
    conflict that is the last one of the conflict for its package (the
    only one, when the conflict has one term for each package), and
    whose package is not the pivot and is not mentioned by the cause, is
    kept as it is. *)
Theorem resolveIncompatibility_terms (conflict cause : Incompatibility V) (pkg : Name) :
  let r := resolveIncompatibility conflict cause pkg in
  Kind r = KindConflict /\
  Cause1 r = Some conflict /\
  Cause2 r = Some cause /\
  NoDup (List.map TermName (Terms r)) /\
  (forall n, In n (List.map TermName (Terms r)) <->
             n <> pkg /\
             (In n (List.map TermName (Terms conflict)) \/
              In n (List.map TermName (Terms cause)))) /\
  (forall before t after,
      Terms conflict = before ++ t :: after ->
      ~ In (TermName t) (List.map TermName after) ->
      TermName t <> pkg ->
      ~ In (TermName t) (List.map TermName (Terms cause)) ->
      In t (Terms r)).
Proof.
  cbn zeta. unfold resolveIncompatibility.
  set (step1 := fun (m : gmap Name (Term V)) (t : Term V) =>
                  if bool_decide (TermName t = pkg) then m
                  else <[TermName t := t]> m).
  set (step2 := fun (m : gmap Name (Term V)) (t : Term V) =>
                  if bool_decide (TermName t = pkg) then m
                  else match m !! TermName t with
                       | Some existing =>
                           match mergeTerms existing t with
                           | Some merged => <[TermName t := merged]> m
                           | None => <[TermName t := t]> m
                           end
                       | None => <[TermName t := t]> m
                       end).
  set (m1 := fold_left step1 (Terms conflict) ∅).
  set (m2 := fold_left step2 (Terms cause) m1).
  assert (Hk0 : forall n (u : Term V),
             (∅ : gmap Name (Term V)) !! n = Some u -> TermName u = n /\ n <> pkg).
  { intros n u. rewrite lookup_empty. discriminate. }
  destruct (resolve_fill pkg step1
              (fun m t _ => resolve_fill_conflict_step pkg m t)
              (Terms conflict) ∅ Hk0) as (K1 & D1 & _).
  fold m1 in K1, D1.
  destruct (resolve_fill pkg step2
              (fun m t Hk => resolve_fill_cause_step pkg m t Hk)
              (Terms cause) m1 K1) as (K2 & D2 & U2).
  fold m2 in K2, D2, U2.
  destruct (collectTerms pkg m2 (Terms conflict)) as [fromConflict m3] eqn:E3.
  destruct (collectTerms pkg m3 (Terms cause)) as [fromCause m4] eqn:E4.
  destruct (collectTerms_spec _ _ _ _ _ K2 E3) as (K3 & N3 & U3 & O3 & ND3).
  destruct (collectTerms_spec _ _ _ _ _ K3 E4) as (_ & _ & _ & O4 & ND4).
  assert (Hnd : NoDup (List.map TermName (fromConflict ++ fromCause))).
  { rewrite List.map_app. apply NoDup_app. split; [exact ND3 |].
    split; [| exact ND4].
    intros n Hn1 Hn2. rewrite list_elem_of_In, List.in_map_iff in Hn1, Hn2.
    destruct Hn1 as (u1 & <- & Hu1). destruct Hn2 as (u2 & Heq & Hu2).
    apply O3 in Hu1. destruct Hu1 as (n1 & Hin1 & Hl1).
    apply O4 in Hu2. destruct Hu2 as (n2 & _ & Hl2).
    destruct (K2 _ _ Hl1) as [Hn1 _]. destruct (K3 _ _ Hl2) as [Hn2 _].
    assert (Hx : n2 = n1) by congruence. rewrite Hx in Hl2.
    rewrite (N3 _ Hin1) in Hl2. discriminate. }
  cbn [NewIncompatibilityConflict Terms Kind Cause1 Cause2].
  rewrite (dedupTerms_distinct _ ∅ Hnd (fun t _ => lookup_empty _)).
  split; [reflexivity |]. split; [reflexivity |]. split; [reflexivity |].
  split; [exact Hnd |].
  assert (Hdom : forall n, is_Some (m2 !! n) <->
                           n <> pkg /\
                           (In n (List.map TermName (Terms conflict)) \/
                            In n (List.map TermName (Terms cause)))).
  { intros n. rewrite D2, D1, lookup_empty. split.
    - intros [[[u Hu] | [Hn Hin]] | [Hn Hin]]; [discriminate | tauto | tauto].
    - intros [Hn [Hin | Hin]]; [left; right; tauto | right; tauto]. }
  split.
  - intros n. rewrite <- Hdom, List.map_app, List.in_app_iff, !List.in_map_iff.
    split.
    + intros [(u & <- & Hu) | (u & <- & Hu)].
      * apply O3 in Hu. destruct Hu as (n & _ & Hl).
        destruct (K2 _ _ Hl) as [-> _]. eexists. exact Hl.
      * apply O4 in Hu. destruct Hu as (n & Hin & Hl).
        destruct (K3 _ _ Hl) as [-> _].
        destruct (List.in_dec (decide_rel (=)) n
                    (List.map TermName (Terms conflict))) as [Hc | Hc].
        -- rewrite (N3 _ Hc) in Hl. discriminate.
        -- rewrite (U3 _ Hc) in Hl. eexists. exact Hl.
    + intros [u Hu]. pose proof (proj1 (K2 _ _ Hu)) as Hname.
      destruct (List.in_dec (decide_rel (=)) n
                  (List.map TermName (Terms conflict))) as [Hc | Hc].
      * left. exists u. split; [exact Hname |]. apply O3. exists n. tauto.
      * right. exists u. split; [exact Hname |]. apply O4. exists n.
        split; [| rewrite (U3 _ Hc); exact Hu].
        assert (Hs : is_Some (m2 !! n)) by (eexists; exact Hu).
        apply Hdom in Hs. tauto.
  - intros before t after Hterms Hlast Ht Hnc. apply List.in_or_app. left. apply O3.
    exists (TermName t). split.
    + rewrite Hterms, List.map_app. apply List.in_or_app. right. left. reflexivity.
    + rewrite (U2 _ Hnc). subst m1 step1. rewrite Hterms.
      apply resolve_fill_last_of_package; assumption.
Qed.

End Resolution.

Section Assignments.
Context {V : Type} `{Version V}.

Implicit Types (ps : partialSolution V) (a : assignment V) (n : Name).

Lemma stackOf_append_same ps a : stackOf (append ps a) (name a) = stackOf ps (name a) ++ [a].
Proof. unfold stackOf, append. cbn [perPackage]. rewrite lookup_insert_eq. reflexivity. Qed.

Lemma stackOf_append_other ps a n : n <> name a -> stackOf (append ps a) n = stackOf ps n.
Proof.
  intros Hn. unfold stackOf, append. cbn [perPackage].
  rewrite lookup_insert_ne by congruence. reflexivity.
Qed.

Lemma allowedSet_fold ps n : allowedSet ps n = fold_left allowedStep (stackOf ps n) Full.
Proof. unfold allowedSet. destruct (stackOf ps n); reflexivity. Qed.

Lemma allowedSet_append_same ps a :
  allowedSet (append ps a) (name a) = allowedStep (allowedSet ps (name a)) a.
Proof.
  rewrite !allowedSet_fold, stackOf_append_same, fold_left_app. reflexivity.
Qed.

Lemma allowedSet_append_other ps a n :
  n <> name a -> allowedSet (append ps a) n = allowedSet ps n.
Proof. intros Hn. rewrite !allowedSet_fold, stackOf_append_other by exact Hn. reflexivity. Qed.

Lemma latest_append ps a : latest (append ps a) (name a) = Some a.
Proof.
  unfold latest. rewrite stackOf_append_same, List.map_app. cbn.
  apply List.last_last.
Qed.

Lemma hasAssignments_append ps a : hasAssignments (append ps a) (name a) = true.
Proof.
  unfold hasAssignments. rewrite stackOf_append_same, List.length_app. cbn.
  destruct (Z.gtb_spec (Z.of_nat (length (stackOf ps (name a)) + 1)) 0); [reflexivity | lia].
Qed.

Lemma Contains_Singleton (v w : V) :
  Contains (Singleton (Some v)) (Some w) = (Sort w v =? 0).
Proof.
  rewrite Singleton_Some. cbn.
  destruct (Z.ltb_spec (Sort w v) 0); cbn.
  - destruct (Z.eqb_spec (Sort w v) 0); [lia | reflexivity].
  - rewrite !andb_false_r. cbn.
    destruct (Z.gtb_spec (Sort w v) 0), (Z.eqb_spec (Sort w v) 0);
      try reflexivity; lia.
Qed.

(** X20: [addDecision] opens the next decision level and appends one
    decision at that level with the next index; it becomes the latest
    assignment of its package, which from then on has a decision, and
    the allowed set of the package keeps of its versions those that
    compare equal to the decided one.  The other packages are left as
    they were. *)
Theorem addDecision_effects ps n (v : V) :
  let ps' := fst (addDecision ps n (Some v)) in
  let d := snd (addDecision ps n (Some v)) in
  assignments ps' = assignments ps ++ [d] /\
  decisionLvl ps' = decisionLvl ps + 1 /\
  nextIndex ps' = nextIndex ps + 1 /\
  name d = n /\ version d = Some v /\ isDecision d = true /\
  decisionLevel d = decisionLvl ps + 1 /\ index d = nextIndex ps /\
  latest ps' n = Some d /\
  hasDecision ps' n = true /\
  hasAssignments ps' n = true /\
  (forall w : V,
      Contains (allowedSet ps' n) (Some w)
      = Contains (allowedSet ps n) (Some w) && (Sort w v =? 0)) /\
  (forall n', n' <> n ->
              stackOf ps' n' = stackOf ps n' /\ allowedSet ps' n' = allowedSet ps n').
Proof.
  cbn zeta. unfold addDecision. cbn [fst snd].
  set (ps1 := {| assignments := assignments ps; perPackage := perPackage ps;
                 decisionLvl := decisionLvl ps + 1; nextIndex := nextIndex ps;
                 root := root ps |}).
  set (d := newDecisionAssignment ps1 n (Some v) (decisionLvl ps1)).
  assert (Hname : name d = n) by reflexivity.
  split; [reflexivity |]. split; [reflexivity |]. split; [reflexivity |].
  split; [reflexivity |]. split; [reflexivity |]. split; [reflexivity |].
  split; [reflexivity |]. split; [reflexivity |].
  split; [rewrite <- Hname; apply latest_append |].
  split.
  { unfold hasDecision. rewrite <- Hname. rewrite stackOf_append_same.
    rewrite existsb_app. cbn. apply orb_true_r. }
  split; [rewrite <- Hname; apply hasAssignments_append |].
  split.
  - intros w. rewrite <- Hname at 1 2. rewrite allowedSet_append_same.
    unfold allowedStep. cbn [d newDecisionAssignment term allowed NewTerm Positive].
    rewrite Hname.
    change (allowedSet ps1 n) with (allowedSet ps n).
    rewrite Contains_Intersection;
      [| apply allowedSet_disjointAscending | apply Singleton_disjointAscending].
    rewrite Contains_Singleton. reflexivity.
  - intros n' Hn'. rewrite <- Hname in Hn'.
    rewrite stackOf_append_other, allowedSet_append_other by exact Hn'.
    split; reflexivity.
Qed.

(** What [addDerivation] does for a term that converts to the set [R]
    when the narrowed set is not empty. *)
Lemma addDerivation_success ps (t : Term V) c (R : VersionIntervalSet V) :
  termSet t = Some R ->
  let cur := allowedSet ps (TermName t) in
  let newAllowed :=
    Intersection cur (Some (if Positive t then R else Complement R)) in
  IsEmpty newAllowed = false ->
  let changed := negb (setsEqual (Some cur) (Some newAllowed)) in
  let assign :=
    {| name := TermName t; term := t; kind := assignmentDerivation;
       allowed := if Positive t then Some newAllowed else None;
       forbidden := if Positive t then None else Some R;
       version := None; cause := c; decisionLevel := decisionLvl ps;
       index := nextIndex ps |} in
  let tightening :=
    {| name := TermName t;
       term := termFromAllowedSet (TermName t) (Some newAllowed);
       kind := assignmentDerivation;
       allowed := Some newAllowed; forbidden := None; version := None;
       cause := c; decisionLevel := decisionLvl ps;
       index := nextIndex ps + 1 |} in
  addDerivation ps t c
  = if changed && negb (Positive t)
    then (append (append ps assign) tightening, ok (tightening, true))
    else (append ps assign, ok (assign, changed)).
Proof.
  intros HR. cbn zeta. unfold termSet in HR. unfold addDerivation, applyTermToAllowed.
  destruct (Positive t) eqn:Hpos.
  - rewrite HR. intros ->. cbn beta iota zeta.
    destruct (negb (setsEqual _ _)); reflexivity.
  - rewrite HR. intros ->. cbn beta iota zeta.
    destruct (negb (setsEqual _ _)); reflexivity.
Qed.

Lemma Intersection_twice_nonEmpty (A B : VersionIntervalSet V) :
  disjointAscending A -> disjointAscending B ->
  IsEmpty (Intersection A (Some B)) = false ->
  IsEmpty (Intersection A (Some (Intersection A (Some B)))) = false /\
  IsEmpty (Intersection (Intersection A (Some B))
             (Some (Intersection A (Some B)))) = false.
Proof.
  intros HA HB Hne.
  pose proof (Intersection_disjointAscending A (Some B)) as HAB.
  destruct (nonEmpty_has_cut (Intersection A (Some B)) (proj1 HAB)) as [c Hc].
  { intros Heq. rewrite Heq in Hne. discriminate. }
  pose proof (proj1 (insideSet_Intersection c A B HA HB) Hc) as [HcA _].
  split.
  - destruct (Intersection A (Some (Intersection A (Some B)))) eqn:E; [| reflexivity].
    exfalso. apply (insideSet_nil c). rewrite <- E.
    apply insideSet_Intersection; [exact HA | exact HAB | split; assumption].
  - rewrite (Intersection_self _ HAB). exact Hne.
Qed.

(** X14: when [addDerivation] succeeds for a term that converts to the
    set [R], the allowed set of the package keeps its versions that are
    in [R] (positive term) or outside [R] (negative term) and is not
    empty; the returned assignment is a derivation of that package with
    the given cause at the current decision level and is the latest of
    the package; the flag tells whether the allowed set changed by
    [setsEqual]; the decision level and the other packages are left as
    they were. *)
Theorem addDerivation_narrows ps (t : Term V) c (R : VersionIntervalSet V)
    a (changed : bool) :
  termSet t = Some R -> disjointAscending R ->
  snd (addDerivation ps t c) = ok (a, changed) ->
  let ps' := fst (addDerivation ps t c) in
  let n := TermName t in
  (forall v : V,
      Contains (allowedSet ps' n) (Some v)
      = Contains (allowedSet ps n) (Some v) &&
        (if Positive t then Contains R (Some v) else negb (Contains R (Some v)))) /\
  IsEmpty (allowedSet ps' n) = false /\
  changed
  = negb (setsEqual (Some (allowedSet ps n))
            (Some (Intersection (allowedSet ps n)
                     (Some (if Positive t then R else Complement R))))) /\
  latest ps' n = Some a /\
  name a = n /\ cause a = c /\ isDecision a = false /\
  decisionLevel a = decisionLvl ps /\
  hasAssignments ps' n = true /\
  decisionLvl ps' = decisionLvl ps /\
  (forall n', n' <> n ->
              stackOf ps' n' = stackOf ps n' /\ allowedSet ps' n' = allowedSet ps n').
Proof.
  intros HR HRn Hok. cbn zeta.
  set (cur := allowedSet ps (TermName t)).
  set (X := if Positive t then R else Complement R).
  assert (HX : disjointAscending X).
  { subst X. destruct (Positive t); [exact HRn | apply Complement_disjointAscending]. }
  assert (Hcur : disjointAscending cur) by apply allowedSet_disjointAscending.
  assert (Hmem : forall v : V,
             Contains X (Some v)
             = if Positive t then Contains R (Some v) else negb (Contains R (Some v))).
  { intros v. subst X. destruct (Positive t); [reflexivity |].
    apply Contains_Complement. exact HRn. }
  destruct (IsEmpty (Intersection cur (Some X))) eqn:Hne.
  { exfalso. unfold addDerivation, applyTermToAllowed in Hok.
    unfold termSet in HR. fold cur in Hok. subst X.
    destruct (Positive t); rewrite HR in Hok; rewrite Hne in Hok; discriminate. }
  pose proof (addDerivation_success ps t c R HR Hne) as Heq. cbn zeta in Heq.
  fold cur in Heq. fold X in Heq.
  pose proof (Intersection_twice_nonEmpty cur X Hcur HX Hne) as [Hne1 Hne2].
  pose proof (Intersection_disjointAscending cur (Some X)) as HcX.
  rewrite Heq in Hok |- *. clear Heq.
  destruct (negb (setsEqual (Some cur) (Some (Intersection cur (Some X)))))
    eqn:Hch; destruct (Positive t) eqn:Hpos; cbn [andb negb fst snd] in Hok |- *;
    injection Hok as <- <-.
  - (* positive, changed *)
    match goal with |- context [append ps ?x] => set (assign := x) end.
    change (TermName t) with (name assign).
    rewrite allowedSet_append_same, latest_append, hasAssignments_append.
    unfold allowedStep. cbn [assign term allowed name]. rewrite Hpos. fold cur.
    split.
    { intros v. rewrite (Contains_Intersection _ _ _ Hcur HcX).
      rewrite (Contains_Intersection _ _ _ Hcur HX), Hmem.
      destruct (Contains cur (Some v)); reflexivity. }
    repeat split; try reflexivity; try exact Hne1.
    + apply stackOf_append_other. assumption.
    + apply allowedSet_append_other. assumption.
  - (* negative, changed: the tightening assignment follows *)
    match goal with |- context [append (append ps ?x) ?y] =>
      set (assign := x); set (tight := y) end.
    change (TermName t) with (name tight).
    rewrite allowedSet_append_same, latest_append, hasAssignments_append.
    change (name tight) with (name assign).
    rewrite allowedSet_append_same.
    unfold allowedStep.
    cbn [assign tight term allowed forbidden name].
    rewrite Hpos, (proj2 (termFromAllowedSet_name _ _)). fold cur.
    change (Complement R) with X.
    split.
    { intros v. rewrite (Contains_Intersection _ _ _ HcX HcX).
      rewrite (Contains_Intersection _ _ _ Hcur HX), Hmem.
      destruct (Contains cur (Some v)), (negb (Contains R (Some v))); reflexivity. }
    repeat split; try reflexivity; try exact Hne2.
    + rewrite !stackOf_append_other by assumption. reflexivity.
    + rewrite !allowedSet_append_other by assumption. reflexivity.
  - (* positive, unchanged *)
    match goal with |- context [append ps ?x] => set (assign := x) end.
    change (TermName t) with (name assign).
    rewrite allowedSet_append_same, latest_append, hasAssignments_append.
    unfold allowedStep. cbn [assign term allowed name]. rewrite Hpos. fold cur.
    split.
    { intros v. rewrite (Contains_Intersection _ _ _ Hcur HcX).
      rewrite (Contains_Intersection _ _ _ Hcur HX), Hmem.
      destruct (Contains cur (Some v)); reflexivity. }
    repeat split; try reflexivity; try exact Hne1.
    + apply stackOf_append_other. assumption.
    + apply allowedSet_append_other. assumption.
  - (* negative, unchanged *)
    match goal with |- context [append ps ?x] => set (assign := x) end.
    change (TermName t) with (name assign).
    rewrite allowedSet_append_same, latest_append, hasAssignments_append.
    unfold allowedStep. cbn [assign term forbidden name]. rewrite Hpos. fold cur.
    change (Complement R) with X.
    split.
    { intros v. rewrite (Contains_Intersection _ _ _ Hcur HX), Hmem. reflexivity. }
    repeat split; try reflexivity; try exact Hne.
    + apply stackOf_append_other. assumption.
    + apply allowedSet_append_other. assumption.
Qed.

End Assignments.

Section Candidates.
Context {V : Type} `{Version V}.

Implicit Types (ps : partialSolution V) (a : assignment V) (n : Name).

Lemma nextCandidateLoop_pending ps (log : list (assignment V)) :
  forall seen : gset Name,
    nextCandidateLoop ps seen log = List.hd_error (pendingLoop ps seen log).
Proof.
  induction log as [| a log IH]; intros seen; [reflexivity |].
  cbn [nextCandidateLoop pendingLoop].
  destruct (bool_decide (name a = root ps)); cbn [orb]; [apply IH |].
  destruct (bool_decide (name a ∈ seen)); [apply IH |].
  destruct (hasDecision ps (name a)); cbn [negb]; [apply IH | reflexivity].
Qed.

Lemma pendingLoop_spec ps (log : list (assignment V)) :
  forall seen : gset Name,
    NoDup (pendingLoop ps seen log) /\
    forall n, In n (pendingLoop ps seen log) <->
              (n ∉ seen) /\ n <> root ps /\
              In n (List.map name log) /\ hasDecision ps n = false.
Proof.
  induction log as [| a log IH]; intros seen.
  - cbn. split; [constructor |]. intros n. tauto.
  - cbn [pendingLoop List.map].
    destruct (bool_decide_reflect (name a = root ps)) as [Hr | Hr]; cbn [orb].
    { destruct (IH seen) as [I1 I2]. split; [exact I1 |].
      intros n. rewrite I2. cbn [In]. split; [tauto |].
      intros (H1 & H2 & [H3 | H3] & H4); [congruence | tauto]. }
    destruct (bool_decide_reflect (name a ∈ seen)) as [Hs | Hs].
    { destruct (IH seen) as [I1 I2]. split; [exact I1 |].
      intros n. rewrite I2. cbn [In]. split; [tauto |].
      intros (H1 & H2 & [H3 | H3] & H4); [subst; contradiction | tauto]. }
    destruct (IH ({[name a]} ∪ seen)) as [I1 I2].
    destruct (hasDecision ps (name a)) eqn:Hd; cbn [negb].
    + split; [exact I1 |]. intros n. rewrite I2, not_elem_of_union, not_elem_of_singleton.
      cbn [In]. split; [tauto |].
      intros (H1 & H2 & [H3 | H3] & H4); [subst; congruence |].
      repeat split; try assumption. intros ->. congruence.
    + split.
      * apply NoDup_cons. split; [| exact I1].
        rewrite list_elem_of_In, I2, not_elem_of_union, not_elem_of_singleton. tauto.
      * intros n. cbn [In]. rewrite I2, not_elem_of_union, not_elem_of_singleton.
        split.
        -- intros [<- | ((H1 & H2) & H3 & H4 & H5)]; [tauto | tauto].
        -- intros (H1 & H2 & [H3 | H3] & H4); [left; exact H3 |].
           destruct (decide (n = name a)) as [-> | Hne]; [left; reflexivity |].
           right. tauto.
Qed.

Lemma hasAssignments_log ps n :
  stacksInLockstep ps ->
  hasAssignments ps n = true <-> In n (List.map name (assignments ps)).
Proof.
  intros Hl. unfold hasAssignments. rewrite (stackOf_lockstep _ _ Hl).
  unfold logStack. rewrite List.in_map_iff. split.
  - destruct (List.filter _ (assignments ps)) as [| a l] eqn:E; [discriminate |].
    intros _. assert (Hin : In a (List.filter (fun a => bool_decide (name a = n))
                                   (assignments ps))) by (rewrite E; left; reflexivity).
    apply List.filter_In in Hin. destruct Hin as [Hin Hn].
    apply bool_decide_eq_true_1 in Hn. exists a. split; assumption.
  - intros (a & Hn & Hin).
    assert (Hf : In a (List.filter (fun a => bool_decide (name a = n)) (assignments ps))).
    { apply List.filter_In. split; [exact Hin | apply bool_decide_eq_true_2; exact Hn]. }
    destruct (List.filter _ (assignments ps)); [destruct Hf |]. cbn [length].
    destruct (Z.gtb_spec (Z.of_nat (S (length l))) 0); [reflexivity | lia].
Qed.

Lemma isComplete_iff ps :
  stacksInLockstep ps ->
  isComplete ps = true <->
  forall n, hasAssignments ps n = true -> n = root ps \/ hasDecision ps n = true.
Proof.
  intros Hl. unfold isComplete. rewrite forallb_forall. split.
  - intros Hall n Hn. destruct (decide (n = root ps)) as [-> | Hne]; [left; reflexivity |].
    right. unfold hasDecision, hasAssignments in *. unfold stackOf in *.
    destruct (perPackage ps !! n) as [stack |] eqn:E; [| cbn in Hn; discriminate].
    specialize (Hall (n, stack)). cbn in Hall.
    rewrite (bool_decide_eq_false_2 _ Hne) in Hall. apply Hall.
    apply list_elem_of_In. apply elem_of_map_to_list. exact E.
  - intros Hall [n stack] Hin. apply list_elem_of_In, elem_of_map_to_list in Hin.
    destruct (bool_decide_reflect (n = root ps)) as [Hr | Hr]; [reflexivity |].
    assert (Hn : hasAssignments ps n = true).
    { unfold hasAssignments, stackOf. rewrite Hin. cbn.
      pose proof (Hl n) as Hs. rewrite Hin in Hs.
      destruct stack as [| x stack']; [| reflexivity].
      destruct (logStack (assignments ps) n); discriminate. }
    destruct (Hall n Hn) as [-> | Hd]; [contradiction |].
    unfold hasDecision, stackOf in Hd. rewrite Hin in Hd. exact Hd.
Qed.

(** X15: [pendingPackages] lists, without repetition, the packages
    other than the root that have an assignment and no decision, and
    [nextDecisionCandidate] returns the first of them.  When the
    per-package stacks follow the log, [isComplete] holds exactly when
    no package is pending, which is exactly when there is no next
    candidate. *)
Theorem pending_packages_and_candidate ps :
  stacksInLockstep ps ->
  nextDecisionCandidate ps = List.hd_error (pendingPackages ps) /\
  NoDup (pendingPackages ps) /\
  (forall n, In n (pendingPackages ps) <->
             n <> root ps /\ hasAssignments ps n = true /\ hasDecision ps n = false) /\
  (isComplete ps = true <-> pendingPackages ps = []) /\
  (isComplete ps = true <-> nextDecisionCandidate ps = None).
Proof.
  intros Hl.
  pose proof (nextCandidateLoop_pending ps (assignments ps) ∅) as Hnext.
  fold (nextDecisionCandidate ps) in Hnext. fold (pendingPackages ps) in Hnext.
  destruct (pendingLoop_spec ps (assignments ps) ∅) as [Hnd Hin].
  fold (pendingPackages ps) in Hnd, Hin.
  assert (Hin' : forall n, In n (pendingPackages ps) <->
                           n <> root ps /\ hasAssignments ps n = true /\
                           hasDecision ps n = false).
  { intros n. rewrite Hin, (hasAssignments_log _ _ Hl).
    split; [tauto |]. intros (H1 & H2 & H3).
    split; [apply not_elem_of_empty | tauto]. }
  assert (Hc : isComplete ps = true <-> pendingPackages ps = []).
  { rewrite (isComplete_iff _ Hl). split.
    - intros Hall. destruct (pendingPackages ps) as [| n l] eqn:E; [reflexivity |].
      exfalso. assert (Hn : In n (n :: l)) by (left; reflexivity).
      apply Hin' in Hn. destruct Hn as (H1 & H2 & H3).
      destruct (Hall n H2) as [-> | Hd]; [contradiction | congruence].
    - intros Hnil n Hn. destruct (decide (n = root ps)) as [-> | Hne]; [left; reflexivity |].
      right. destruct (hasDecision ps n) eqn:Hd; [reflexivity |]. exfalso.
      assert (Hx : In n (pendingPackages ps)) by (apply Hin'; tauto).
      rewrite Hnil in Hx. destruct Hx. }
  split; [exact Hnext |]. split; [exact Hnd |]. split; [exact Hin' |].
  split; [exact Hc |].
  rewrite Hc, Hnext. destruct (pendingPackages ps); cbn; split; congruence.
Qed.

End Candidates.

Section Indexes.
Context {V : Type} `{Version V}.

Implicit Types (ps : partialSolution V) (a : assignment V) (n : Name).

Lemma addDerivation_indexes ps (t : Term V) c :
  let r := addDerivation ps t c in
  fst r = ps \/
  (exists a, fst r = append ps a /\ index a = nextIndex ps) \/
  (exists a b,
      fst r = append (append ps a) b /\
      index a = nextIndex ps /\ index b = nextIndex ps + 1).
Proof.
  unfold addDerivation.
  destruct (applyTermToAllowed _ t) as [newAllowed | e]; [| left; reflexivity].
  destruct (IsEmpty newAllowed); [left; reflexivity |].
  destruct (Positive t) eqn:Hpos.
  - cbn beta iota zeta.
    destruct (negb (setsEqual _ _)); cbn [andb negb];
      right; left; eexists; (split; [reflexivity |]); reflexivity.
  - destruct (termForbiddenSet t) as [f |]; [| left; reflexivity].
    cbn beta iota zeta.
    destruct (negb (setsEqual _ _)); cbn [andb negb].
    + right; right. eexists _, _. split; [reflexivity |]. split; reflexivity.
    + right; left. eexists. split; reflexivity.
Qed.

Lemma StronglySorted_snoc {A : Type} (R : A -> A -> Prop) (l : list A) (x : A) :
  StronglySorted R l -> Forall (fun y => R y x) l -> StronglySorted R (l ++ [x]).
Proof.
  induction 1 as [| y l Hs IH Hall]; intros Hx; cbn.
  - constructor; constructor.
  - inversion Hx as [| ? ? Hyx Hx']; subst.
    constructor; [apply IH; exact Hx' |].
    apply Forall_app. split; [exact Hall | constructor; [exact Hyx | constructor]].
Qed.

Lemma StronglySorted_filter {A : Type} (R : A -> A -> Prop) (f : A -> bool) (l : list A) :
  StronglySorted R l -> StronglySorted R (List.filter f l).
Proof.
  induction 1 as [| y l Hs IH Hall]; cbn; [constructor |].
  destruct (f y); [| exact IH]. constructor; [exact IH |].
  rewrite List.Forall_forall in Hall |- *. intros z Hz.
  apply List.filter_In in Hz. apply Hall. tauto.
Qed.

Lemma append_indexes ps a :
  StronglySorted (fun a b => index a < index b) (assignments ps) /\
  Forall (fun a => 0 <= index a < nextIndex ps) (assignments ps) /\
  0 <= nextIndex ps ->
  index a = nextIndex ps ->
  StronglySorted (fun a b => index a < index b) (assignments (append ps a)) /\
  Forall (fun a => 0 <= index a < nextIndex (append ps a))
         (assignments (append ps a)) /\
  0 <= nextIndex (append ps a).
Proof.
  intros (Hs & Hb & Hn) Ha. cbn [append assignments nextIndex].
  split; [| split; [| lia]].
  - apply StronglySorted_snoc; [exact Hs |].
    eapply Forall_impl; [exact Hb |]. cbn. intros b Hbb. lia.
  - apply Forall_app. split.
    + eapply Forall_impl; [exact Hb |]. cbn. intros b Hbb. lia.
    + constructor; [lia | constructor].
Qed.

Lemma reachable_indexes (rootName : Name) (rootVersion : option V) ps :
  reachable rootName rootVersion ps ->
  StronglySorted (fun a b => index a < index b) (assignments ps) /\
  Forall (fun a => 0 <= index a < nextIndex ps) (assignments ps) /\
  0 <= nextIndex ps.
Proof.
  induction 1 as [| ps n ver Hr IH Hroot Hdec | ps t c Hr IH | ps level Hr IH].
  - unfold seedRoot. cbn [fst]. apply append_indexes; [| reflexivity].
    cbn. split; [constructor |]. split; [constructor | lia].
  - unfold addDecision. cbn [fst]. apply append_indexes; [| reflexivity].
    exact IH.
  - destruct (addDerivation_indexes ps t c) as
      [-> | [(a & -> & Ha) | (a & b & -> & Ha & Hb)]].
    + exact IH.
    + apply append_indexes; assumption.
    + apply append_indexes; [apply append_indexes; assumption |].
      rewrite Hb. reflexivity.
  - destruct IH as (Hs & Hb & Hn).
    rewrite (backtrack_upToLevel ps level (reachable_wellFormed _ _ _ Hr)).
    assert (Hnext : nextIndex (backtrack ps level) = nextIndex ps).
    { unfold backtrack. destruct (backtrackLoop _ _ _). reflexivity. }
    rewrite Hnext. unfold upToLevel.
    split; [apply StronglySorted_filter; exact Hs |]. split; [| exact Hn].
    rewrite List.Forall_forall in Hb |- *. intros a Ha.
    apply List.filter_In in Ha. apply Hb. tauto.
Qed.

Lemma StronglySorted_lt_NoDup {A : Type} (f : A -> Z) (l : list A) :
  StronglySorted (fun x y => f x < f y) l -> NoDup (List.map f l).
Proof.
  induction 1 as [| y l Hs IH Hall]; cbn; [constructor |].
  apply NoDup_cons. split; [| exact IH].
  rewrite list_elem_of_In, List.in_map_iff. intros (z & Hz & Hin).
  rewrite List.Forall_forall in Hall. specialize (Hall z Hin). lia.
Qed.

Lemma NoDup_map_injective {A B : Type} (f : A -> B) (l : list A) :
  NoDup (List.map f l) ->
  forall y z, In y l -> In z l -> f y = f z -> y = z.
Proof.
  induction l as [| x l IH]; intros Hnd y z Hy Hz Hf; [destruct Hy |].
  cbn in Hnd. apply NoDup_cons in Hnd. destruct Hnd as [Hx Hnd].
  rewrite list_elem_of_In, List.in_map_iff in Hx.
  destruct Hy as [<- | Hy], Hz as [<- | Hz].
  - reflexivity.
  - exfalso. apply Hx. exists z. split; [symmetry; exact Hf | exact Hz].
  - exfalso. apply Hx. exists y. split; [exact Hf | exact Hy].
  - apply IH; assumption.
Qed.

(** X16: in every partial solution a solve goes through, the indexes
    of the assignments increase strictly along the log and lie between
    0 and the next index, so no two assignments of the log share an
    index: the index identifies the assignment, also after a
    backtrack. *)
Theorem assignment_indexes_identify (rootName : Name) (rootVersion : option V) ps :
  reachable rootName rootVersion ps ->
  StronglySorted (fun a b => index a < index b) (assignments ps) /\
  Forall (fun a => 0 <= index a < nextIndex ps) (assignments ps) /\
  NoDup (List.map index (assignments ps)) /\
  (forall a b, In a (assignments ps) -> In b (assignments ps) ->
               index a = index b -> a = b).
Proof.
  intros Hr. destruct (reachable_indexes _ _ _ Hr) as (Hs & Hb & _).
  pose proof (StronglySorted_lt_NoDup index _ Hs) as Hnd.
  split; [exact Hs |]. split; [exact Hb |]. split; [exact Hnd |].
  apply NoDup_map_injective. exact Hnd.
Qed.

End Indexes.

Section ConflictQueries.
Context {V : Type} `{Version V}.

Implicit Types (ps : partialSolution V) (a : assignment V) (n : Name).

Lemma topSatisfying_Some (t : Term V) (stack : list (assignment V)) a :
  topSatisfying t stack = Some a ->
  In a stack /\ termSatisfiedBy t a = true /\
  exists before after,
    stack = before ++ a :: after /\
    Forall (fun b => termSatisfiedBy t b = false) after.
Proof.
  unfold topSatisfying. intros Hf.
  destruct (find_rev_last _ _ _ Hf) as (l1 & l2 & -> & Hsat & Hafter).
  split; [apply List.in_or_app; right; left; reflexivity |].
  split; [exact Hsat |]. exists l1, l2. split; [reflexivity | exact Hafter].
Qed.

Lemma topSatisfying_None (t : Term V) (stack : list (assignment V)) :
  topSatisfying t stack = None <->
  Forall (fun b => termSatisfiedBy t b = false) stack.
Proof.
  unfold topSatisfying. rewrite List.Forall_forall. split.
  - intros Hf b Hb. apply List.in_rev in Hb.
    destruct (termSatisfiedBy t b) eqn:E; [| reflexivity].
    exfalso. pose proof (List.find_none _ _ Hf b Hb) as Hx. congruence.
  - intros Hall. destruct (List.find (termSatisfiedBy t) (rev stack)) as [b |] eqn:E;
      [| reflexivity].
    apply List.find_some in E. destruct E as [Hin Hb].
    apply List.in_rev in Hin. rewrite (Hall b Hin) in Hb. discriminate.
Qed.

Lemma satisfier_fold ps (terms : list (Term V)) :
  forall (sel : option (assignment V)) (mx : Z),
    (forall t a, In t terms ->
                 topSatisfying t (stackOf ps (TermName t)) = Some a -> 0 <= index a) ->
    match sel with
    | None => mx = -1
    | Some a => index a = mx /\ 0 <= mx
    end ->
    let r :=
      fold_left
        (fun '(selected, maxIndex) t =>
           match topSatisfying t (stackOf ps (TermName t)) with
           | Some assign =>
               if index assign >? maxIndex then (Some assign, index assign)
               else (selected, maxIndex)
           | None => (selected, maxIndex)
           end)
        terms (sel, mx) in
    match fst r with
    | None => snd r = -1
    | Some a => index a = snd r /\ 0 <= snd r
    end /\
    mx <= snd r /\
    (forall t a, In t terms ->
                 topSatisfying t (stackOf ps (TermName t)) = Some a ->
                 index a <= snd r) /\
    (fst r = sel \/
     exists t, In t terms /\ topSatisfying t (stackOf ps (TermName t)) = fst r).
Proof.
  induction terms as [| t terms IH]; intros sel mx Hpos Hinv.
  - cbn. split; [exact Hinv |]. split; [lia |]. split; [intros ? ? [] | left; reflexivity].
  - cbn [fold_left].
    assert (Hpos' : forall t0 a, In t0 terms ->
              topSatisfying t0 (stackOf ps (TermName t0)) = Some a -> 0 <= index a).
    { intros t0 a Hin. apply Hpos. right. exact Hin. }
    destruct (topSatisfying t (stackOf ps (TermName t))) as [assign |] eqn:E.
    + destruct (Z.gtb_spec (index assign) mx) as [Hgt | Hle].
      * assert (Hinv' : index assign = index assign /\ 0 <= index assign).
        { split; [reflexivity |]. apply (Hpos t assign); [left; reflexivity | exact E]. }
        destruct (IH (Some assign) (index assign) Hpos' Hinv') as (I1 & I2 & I3 & I4).
        cbn zeta. split; [exact I1 |]. split; [lia |]. split.
        -- intros t0 a [<- | Hin] Ht0; [| exact (I3 _ _ Hin Ht0)].
           rewrite E in Ht0. injection Ht0 as <-. exact I2.
        -- right. destruct I4 as [-> | (t0 & Hin & Ht0)].
           ++ exists t. split; [left; reflexivity | exact E].
           ++ exists t0. split; [right; exact Hin | exact Ht0].
      * destruct (IH sel mx Hpos' Hinv) as (I1 & I2 & I3 & I4).
        cbn zeta. split; [exact I1 |]. split; [exact I2 |]. split.
        -- intros t0 a [<- | Hin] Ht0; [| exact (I3 _ _ Hin Ht0)].
           rewrite E in Ht0. injection Ht0 as <-. lia.
        -- destruct I4 as [-> | (t0 & Hin & Ht0)]; [left; reflexivity |].
           right. exists t0. split; [right; exact Hin | exact Ht0].
    + destruct (IH sel mx Hpos' Hinv) as (I1 & I2 & I3 & I4).
      cbn zeta. split; [exact I1 |]. split; [exact I2 |]. split.
      * intros t0 a [<- | Hin] Ht0; [| exact (I3 _ _ Hin Ht0)].
        rewrite E in Ht0. discriminate.
      * destruct I4 as [-> | (t0 & Hin & Ht0)]; [left; reflexivity |].
        right. exists t0. split; [right; exact Hin | exact Ht0].
Qed.

(** X17: [satisfier] returns, among the terms of the incompatibility,
    the topmost assignment of a term's package that satisfies the term
    and has the greatest index among these; it returns nil exactly when
    no assignment satisfies its term.  (The indexes are not negative:
    see X16.) *)
Theorem satisfier_most_recent ps (inc : Incompatibility V) :
  (forall n, Forall (fun a => 0 <= index a) (stackOf ps n)) ->
  match satisfier ps inc with
  | Some a =>
      (exists t,
          In t (Terms inc) /\
          topSatisfying t (stackOf ps (TermName t)) = Some a /\
          In a (stackOf ps (TermName t)) /\ termSatisfiedBy t a = true) /\
      (forall t a',
          In t (Terms inc) ->
          topSatisfying t (stackOf ps (TermName t)) = Some a' ->
          index a' <= index a)
  | None =>
      forall t a',
        In t (Terms inc) -> In a' (stackOf ps (TermName t)) ->
        termSatisfiedBy t a' = false
  end.
Proof.
  intros Hidx. unfold satisfier.
  assert (Hpos : forall t a, In t (Terms inc) ->
             topSatisfying t (stackOf ps (TermName t)) = Some a -> 0 <= index a).
  { intros t a _ Ht. apply topSatisfying_Some in Ht. destruct Ht as (Hin & _).
    pose proof (Hidx (TermName t)) as Hall. rewrite List.Forall_forall in Hall.
    apply Hall. exact Hin. }
  destruct (satisfier_fold ps (Terms inc) None (-1) Hpos eq_refl) as (I1 & _ & I3 & I4).
  cbn zeta in I1, I3, I4.
  destruct (fst (fold_left _ (Terms inc) (None, -1))) as [a |] eqn:E.
  - destruct I1 as [Ha _]. split.
    + destruct I4 as [Hx | (t & Hin & Ht)]; [discriminate |].
      exists t. split; [exact Hin |]. split; [exact Ht |].
      apply topSatisfying_Some in Ht. tauto.
    + intros t a' Hin Ht. rewrite Ha. exact (I3 _ _ Hin Ht).
  - intros t a' Hin Ha'.
    destruct (topSatisfying t (stackOf ps (TermName t))) as [b |] eqn:Et.
    + pose proof (I3 _ _ Hin Et) as Hle. pose proof (Hpos _ _ Hin Et) as Hge. lia.
    + apply topSatisfying_None in Et. rewrite List.Forall_forall in Et.
      apply Et. exact Ha'.
Qed.

Lemma previousLevel_inner (t : Term V) (sat : assignment V) (l : list (assignment V)) :
  forall level,
    let r :=
      fold_left
        (fun level assign =>
           if index assign =? index sat then level
           else if termSatisfiedBy t assign && (decisionLevel assign >? level)
                then decisionLevel assign
                else level) l level in
    level <= r /\
    (forall a, In a l -> index a <> index sat -> termSatisfiedBy t a = true ->
               decisionLevel a <= r) /\
    (r = level \/
     exists a, In a l /\ index a <> index sat /\ termSatisfiedBy t a = true /\
               decisionLevel a = r).
Proof.
  induction l as [| b l IH]; intros level; cbn zeta.
  - cbn. split; [lia |]. split; [intros ? [] | left; reflexivity].
  - cbn [fold_left].
    destruct (Z.eqb_spec (index b) (index sat)) as [He | Hne].
    + destruct (IH level) as (I1 & I2 & I3). cbn zeta in I1, I2, I3.
      split; [exact I1 |]. split.
      * intros a [<- | Hin] Hi Hs; [contradiction | exact (I2 _ Hin Hi Hs)].
      * destruct I3 as [-> | (a & Hin & Hi & Hs & Hl)]; [left; reflexivity |].
        right. exists a. split; [right; exact Hin | tauto].
    + destruct (termSatisfiedBy t b) eqn:Hsb; cbn [andb].
      * destruct (Z.gtb_spec (decisionLevel b) level) as [Hgt | Hle].
        -- destruct (IH (decisionLevel b)) as (I1 & I2 & I3). cbn zeta in I1, I2, I3.
           split; [lia |]. split.
           ++ intros a [<- | Hin] Hi Hs; [exact I1 | exact (I2 _ Hin Hi Hs)].
           ++ right. destruct I3 as [-> | (a & Hin & Hi & Hs & Hl)].
              ** exists b. split; [left; reflexivity | tauto].
              ** exists a. split; [right; exact Hin | tauto].
        -- destruct (IH level) as (I1 & I2 & I3). cbn zeta in I1, I2, I3.
           split; [exact I1 |]. split.
           ++ intros a [<- | Hin] Hi Hs; [lia | exact (I2 _ Hin Hi Hs)].
           ++ destruct I3 as [-> | (a & Hin & Hi & Hs & Hl)]; [left; reflexivity |].
              right. exists a. split; [right; exact Hin | tauto].
      * destruct (IH level) as (I1 & I2 & I3). cbn zeta in I1, I2, I3.
        split; [exact I1 |]. split.
        -- intros a [<- | Hin] Hi Hs; [congruence | exact (I2 _ Hin Hi Hs)].
        -- destruct I3 as [-> | (a & Hin & Hi & Hs & Hl)]; [left; reflexivity |].
           right. exists a. split; [right; exact Hin | tauto].
Qed.

Lemma previousLevel_outer ps (sat : assignment V) (terms : list (Term V)) :
  forall level,
    let r :=
      fold_left
        (fun level t =>
           fold_left
             (fun level assign =>
                if index assign =? index sat then level
                else if termSatisfiedBy t assign && (decisionLevel assign >? level)
                     then decisionLevel assign
                     else level)
             (rev (stackOf ps (TermName t))) level)
        terms level in
    level <= r /\
    (forall t a, In t terms -> In a (stackOf ps (TermName t)) ->
                 index a <> index sat -> termSatisfiedBy t a = true ->
                 decisionLevel a <= r) /\
    (r = level \/
     exists t a, In t terms /\ In a (stackOf ps (TermName t)) /\
                 index a <> index sat /\ termSatisfiedBy t a = true /\
                 decisionLevel a = r).
Proof.
  induction terms as [| t terms IH]; intros level; cbn zeta.
  - cbn. split; [lia |]. split; [intros ? ? [] | left; reflexivity].
  - cbn [fold_left].
    destruct (previousLevel_inner t sat (rev (stackOf ps (TermName t))) level)
      as (J1 & J2 & J3). cbn zeta in J1, J2, J3.
    set (mid := fold_left _ (rev (stackOf ps (TermName t))) level) in *.
    destruct (IH mid) as (I1 & I2 & I3). cbn zeta in I1, I2, I3.
    split; [lia |]. split.
    + intros t0 a [<- | Hin] Ha Hi Hs; [| exact (I2 _ _ Hin Ha Hi Hs)].
      apply List.in_rev in Ha. specialize (J2 _ Ha Hi Hs). lia.
    + destruct I3 as [-> | (t0 & a & Hin & Ha & Hrest)].
      * destruct J3 as [-> | (a & Ha & Hrest)]; [left; reflexivity |].
        right. exists t, a. split; [left; reflexivity |].
        split; [apply List.in_rev; exact Ha | exact Hrest].
      * right. exists t0, a. split; [right; exact Hin | tauto].
Qed.

(** X18: [previousDecisionLevel] is the greatest decision level among
    the assignments, other than the satisfier, that satisfy a term of
    the incompatibility in the stack of the term's package, and 0 when
    there is none. *)
Theorem previousDecisionLevel_maximum ps (inc : Incompatibility V)
    (sat : assignment V) :
  let L := previousDecisionLevel ps inc sat in
  0 <= L /\
  (forall t a,
      In t (Terms inc) -> In a (stackOf ps (TermName t)) ->
      index a <> index sat -> termSatisfiedBy t a = true ->
      decisionLevel a <= L) /\
  (L = 0 \/
   exists t a,
     In t (Terms inc) /\ In a (stackOf ps (TermName t)) /\
     index a <> index sat /\ termSatisfiedBy t a = true /\
     decisionLevel a = L).
Proof.
  cbn zeta. unfold previousDecisionLevel.
  destruct (previousLevel_outer ps sat (Terms inc) 0) as (Hge & Hmax & Hwit).
  cbn zeta in Hge, Hmax, Hwit.
  split; [exact Hge |]. split; [exact Hmax | exact Hwit].
Qed.

End ConflictQueries.

Section BacktrackComposition.
Context {V : Type} `{Version V}.

Implicit Types (ps : partialSolution V) (a : assignment V) (n : Name).

Lemma partialSolution_eq ps1 ps2 :
  assignments ps1 = assignments ps2 -> perPackage ps1 = perPackage ps2 ->
  decisionLvl ps1 = decisionLvl ps2 -> nextIndex ps1 = nextIndex ps2 ->
  root ps1 = root ps2 -> ps1 = ps2.
Proof.
  destruct ps1, ps2. cbn. intros -> -> -> -> ->. reflexivity.
Qed.

Lemma lockstep_perPackage ps1 ps2 :
  stacksInLockstep ps1 -> stacksInLockstep ps2 ->
  assignments ps1 = assignments ps2 -> perPackage ps1 = perPackage ps2.
Proof.
  intros H1 H2 Heq. apply map_eq. intros n. rewrite (H1 n), (H2 n), Heq. reflexivity.
Qed.

Lemma upToLevel_upToLevel (L L' : Z) (log : list (assignment V)) :
  L' <= L -> upToLevel L' (upToLevel L log) = upToLevel L' log.
Proof.
  intros Hle. unfold upToLevel. induction log as [| a log IH]; [reflexivity |].
  cbn. destruct (Z.leb_spec (decisionLevel a) L) as [H1 | H1]; cbn.
  - rewrite IH. reflexivity.
  - destruct (Z.leb_spec (decisionLevel a) L'); [lia | exact IH].
Qed.

(** X19: on a well-formed partial solution, backtracking to a level
    and then to a lower one is backtracking to the lower one;
    backtracking twice to one level is backtracking once; and
    backtracking to a level that is not below the current decision
    level removes no assignment. *)
Theorem backtrack_composes ps (L L' : Z) :
  wellFormed ps -> 0 <= L' -> L' <= L ->
  backtrack (backtrack ps L) L' = backtrack ps L' /\
  backtrack (backtrack ps L) L = backtrack ps L /\
  (decisionLvl ps <= L ->
   assignments (backtrack ps L) = assignments ps /\
   perPackage (backtrack ps L) = perPackage ps /\
   forall n, allowedSet (backtrack ps L) n = allowedSet ps n).
Proof.
  intros Hwf HL' Hle.
  assert (HL : 0 <= L) by lia.
  pose proof (backtrack_wellFormed ps L Hwf) as HwfL.
  destruct (backtrack_log ps L Hwf HL) as (A1 & K1 & D1 & N1 & R1).
  assert (Hcomp : forall M, 0 <= M -> M <= L ->
                            backtrack (backtrack ps L) M = backtrack ps M).
  { intros M HM HML.
    destruct (backtrack_log ps M Hwf HM) as (A2 & K2 & D2 & N2 & R2).
    destruct (backtrack_log (backtrack ps L) M HwfL HM) as (A3 & K3 & D3 & N3 & R3).
    assert (Hlog : assignments (backtrack (backtrack ps L) M)
                   = assignments (backtrack ps M)).
    { rewrite A3, A1, A2. apply upToLevel_upToLevel. exact HML. }
    apply partialSolution_eq; [exact Hlog | | congruence | congruence | congruence].
    apply lockstep_perPackage; assumption. }
  split; [apply Hcomp; assumption |]. split; [apply Hcomp; lia |].
  intros Hlvl. destruct Hwf as (Hlock & _ & Hbound).
  assert (Hlog : assignments (backtrack ps L) = assignments ps).
  { rewrite A1. apply upToLevel_all.
    eapply Forall_impl; [exact Hbound |]. cbn. intros a Ha. lia. }
  split; [exact Hlog |]. split.
  - apply lockstep_perPackage; assumption.
  - intros n. apply allowedSet_lockstep; assumption.
Qed.

End BacktrackComposition.

Section QueueAndIndex.
Context {V : Type} `{Version V}.

Implicit Types (st : solverState V) (n : Name).

(** X21: the propagation queue is a first-in first-out queue without
    repetition: [enqueue] appends a name that is not queued and leaves
    the state alone otherwise, [dequeue] takes the first name, and both
    keep [queued] the set of the names in the queue; a new solver state
    starts with the empty queue. *)
Theorem queue_holds_each_name_once st n :
  queueConsistent st ->
  queueConsistent (enqueue st n) /\
  queueConsistent (fst (dequeue st)) /\
  (In n (queue st) -> enqueue st n = st) /\
  (~ In n (queue st) -> queue (enqueue st n) = queue st ++ [n]) /\
  enqueue (enqueue st n) n = enqueue st n /\
  snd (dequeue st) = List.hd_error (queue st) /\
  queue (fst (dequeue st)) = List.tl (queue st) /\
  (forall (src : Source V) (opts : SolverOptions) (rootName : Name),
      queueConsistent (newSolverState src opts rootName) /\
      snd (dequeue (newSolverState src opts rootName)) = None).
Proof.
  intros [Hnd Hq].
  assert (Hen : queueConsistent (enqueue st n)).
  { unfold enqueue. destruct (bool_decide_reflect (n ∈ queued st)) as [Hin | Hin];
      [exact (conj Hnd Hq) |].
    unfold queueConsistent. cbn [queue queued]. split.
    - apply NoDup_app. split; [exact Hnd |]. split; [| apply NoDup_singleton].
      intros m Hm Hm'. apply list_elem_of_singleton in Hm'. subst m.
      apply Hin, Hq, list_elem_of_In. exact Hm.
    - intros m. rewrite elem_of_union, elem_of_singleton, List.in_app_iff, Hq.
      cbn. intuition congruence. }
  split; [exact Hen |]. split.
  { unfold dequeue. destruct (queue st) as [| m rest] eqn:E;
      [cbn [fst]; split; [rewrite E; constructor | intros k; rewrite Hq, E; tauto] |].
    unfold queueConsistent. cbn [fst queue queued].
    apply NoDup_cons in Hnd. destruct Hnd as [Hm Hnd].
    split; [exact Hnd |].
    intros k. rewrite elem_of_difference, elem_of_singleton, Hq. cbn [In]. split.
    - intros [[-> | Hk] Hne]; [contradiction | exact Hk].
    - intros Hk. split; [right; exact Hk |]. intros ->.
      apply Hm, list_elem_of_In. exact Hk. }
  split.
  { intros Hin. unfold enqueue. rewrite bool_decide_eq_true_2; [reflexivity |].
    apply Hq. exact Hin. }
  split.
  { intros Hin. unfold enqueue. rewrite bool_decide_eq_false_2; [reflexivity |].
    intros Hx. apply Hin, Hq. exact Hx. }
  split.
  { unfold enqueue at 1.
    destruct (bool_decide_reflect (n ∈ queued (enqueue st n))) as [Hin | Hin];
      [reflexivity |].
    exfalso. apply Hin. unfold enqueue.
    destruct (bool_decide_reflect (n ∈ queued st)) as [Hin' | Hin']; [exact Hin' |].
    cbn [queued]. apply elem_of_union. left. apply elem_of_singleton. reflexivity. }
  split; [unfold dequeue; destruct (queue st); reflexivity |].
  split; [unfold dequeue; destruct (queue st) eqn:E; cbn; rewrite ?E; reflexivity |].
  intros src opts rootName. split; [| reflexivity].
  split; cbn; [constructor |]. intros m. rewrite elem_of_empty. tauto.
Qed.

(** X22: [addIncompatibility] appends the incompatibility to the list
    of the package of each of its terms, once for every term of that
    package, and leaves the lists of the other packages alone; it is
    added to the learned incompatibilities exactly when tracking is
    on.  The partial solution and the queue are not touched. *)
Theorem addIncompatibility_indexes_by_package st (incomp : Incompatibility V) n :
  let st' := addIncompatibility st incomp in
  default [] (incompatibilities st' !! n)
  = default [] (incompatibilities st !! n)
    ++ List.map (fun _ => incomp)
         (List.filter (fun t => bool_decide (TermName t = n)) (Terms incomp)) /\
  (In n (List.map TermName (Terms incomp)) ->
   In incomp (default [] (incompatibilities st' !! n))) /\
  (~ In n (List.map TermName (Terms incomp)) ->
   incompatibilities st' !! n = incompatibilities st !! n) /\
  learned st'
  = (if TrackIncompatibilities (options st) then learned st ++ [incomp]
     else learned st) /\
  partial st' = partial st /\ queue st' = queue st /\ queued st' = queued st.
Proof.
  cbn zeta. unfold addIncompatibility. cbn [incompatibilities learned partial queue queued].
  set (step := fun (m : gmap Name (list (Incompatibility V))) (t : Term V) =>
                 <[TermName t := default [] (m !! TermName t) ++ [incomp]]> m).
  assert (Hfold : forall (terms : list (Term V)) m,
             default [] (fold_left step terms m !! n)
             = default [] (m !! n)
               ++ List.map (fun _ => incomp)
                    (List.filter (fun t => bool_decide (TermName t = n)) terms) /\
             (~ In n (List.map TermName terms) -> fold_left step terms m !! n = m !! n)).
  { induction terms as [| t terms IH]; intros m.
    - cbn. rewrite List.app_nil_r. split; reflexivity.
    - cbn [fold_left List.filter List.map]. destruct (IH (step m t)) as [I1 I2].
      split.
      + rewrite I1. unfold step at 1.
        destruct (bool_decide_reflect (TermName t = n)) as [Ht | Ht].
        * rewrite Ht, lookup_insert_eq. cbn [default from_option id List.map].
          rewrite <- List.app_assoc. reflexivity.
        * rewrite lookup_insert_ne by exact Ht. reflexivity.
      + intros Hn. rewrite I2 by (intros Hin; apply Hn; right; exact Hin).
        unfold step. apply lookup_insert_ne. intros Heq. apply Hn. left. exact Heq. }
  destruct (Hfold (Terms incomp) (incompatibilities st)) as [F1 F2].
  split; [exact F1 |]. split.
  - intros Hin. rewrite F1. apply List.in_or_app. right.
    apply List.in_map_iff in Hin. destruct Hin as (t & Ht & Hin).
    apply List.in_map_iff. exists t. split; [reflexivity |].
    apply List.filter_In. split; [exact Hin | apply bool_decide_eq_true_2; exact Ht].
  - split; [exact F2 |]. repeat split.
Qed.

End QueueAndIndex.

Section Evaluation.
Context {V : Type} `{Version V}.

Implicit Types (ps : partialSolution V) (t u : Term V).

Lemma termRelation_cases ps t :
  termRelation ps t = relationSatisfied \/
  termRelation ps t = relationContradicted \/
  termRelation ps t = relationInconclusive.
Proof.
  unfold termRelation, relationForTerm.
  destruct (Positive t).
  - destruct (termAllowedSet t); [| tauto].
    destruct (IsSubset _ _); [destruct (hasAssignments _ _); tauto |].
    destruct (IsDisjoint _ _); tauto.
  - destruct (termForbiddenSet t); [| tauto].
    destruct (IsDisjoint _ _); [tauto |].
    destruct (IsSubset _ _); [destruct (hasAssignments _ _); tauto | tauto].
Qed.

Lemma evaluateTerms_cons ps (unsatisfied : option (Term V)) t (rest : list (Term V)) :
  evaluateTerms ps unsatisfied (t :: rest)
  = match termRelation ps t with
    | relationContradicted => (relationContradicted, None)
    | relationSatisfied => evaluateTerms ps unsatisfied rest
    | relationInconclusive =>
        match unsatisfied with
        | Some _ => (relationInconclusive, None)
        | None => evaluateTerms ps (Some t) rest
        end
    | relationAlmostSatisfied => evaluateTerms ps unsatisfied rest
    end.
Proof. reflexivity. Qed.

Lemma evaluateTerms_satisfied ps (terms : list (Term V)) :
  forall unsatisfied,
    evaluateTerms ps unsatisfied terms = (relationSatisfied, None) <->
    unsatisfied = None /\
    Forall (fun t => termRelation ps t = relationSatisfied) terms.
Proof.
  induction terms as [| t terms IH]; intros unsatisfied.
  - cbn. destruct unsatisfied; split.
    + discriminate.
    + intros [Hx _]; discriminate.
    + intros _. split; [reflexivity | constructor].
    + reflexivity.
  - rewrite evaluateTerms_cons, Forall_cons.
    destruct (termRelation_cases ps t) as [E | [E | E]]; rewrite E.
    + rewrite IH. tauto.
    + split; [discriminate | intros (_ & Hx & _); discriminate].
    + destruct unsatisfied.
      * split; [discriminate | intros (Hx & _); discriminate].
      * rewrite IH. split; [intros (Hx & _); discriminate |].
        intros (_ & Hx & _); discriminate.
Qed.

Lemma evaluateTerms_almost ps (terms : list (Term V)) :
  forall unsatisfied u,
    evaluateTerms ps unsatisfied terms = (relationAlmostSatisfied, Some u) <->
    (unsatisfied = Some u /\
     Forall (fun t => termRelation ps t = relationSatisfied) terms) \/
    (unsatisfied = None /\
     exists before after,
       terms = before ++ u :: after /\
       termRelation ps u = relationInconclusive /\
       Forall (fun t => termRelation ps t = relationSatisfied) before /\
       Forall (fun t => termRelation ps t = relationSatisfied) after).
Proof.
  induction terms as [| t terms IH]; intros unsatisfied u.
  - cbn. destruct unsatisfied as [w |]; split.
    + intros [= ->]. left. split; [reflexivity | constructor].
    + intros [[[= ->] _] | [Hx _]]; [reflexivity | discriminate].
    + discriminate.
    + intros [[Hx _] | (_ & before & after & Hx & _)]; [discriminate |].
      destruct before; discriminate.
  - rewrite evaluateTerms_cons.
    destruct (termRelation_cases ps t) as [E | [E | E]]; rewrite E.
    + rewrite IH. split.
      * intros [[Hu Hall] | (Hu & before & after & -> & Hi & Hb & Ha)].
        -- left. split; [exact Hu | constructor; assumption].
        -- right. split; [exact Hu |]. exists (t :: before), after.
           split; [reflexivity |]. split; [exact Hi |].
           split; [constructor; assumption | exact Ha].
      * intros [[Hu Hall] | (Hu & before & after & Heq & Hi & Hb & Ha)].
        -- left. split; [exact Hu |]. inversion Hall; assumption.
        -- right. split; [exact Hu |]. destruct before as [| b before].
           ++ cbn in Heq. injection Heq as -> ->. congruence.
           ++ cbn in Heq. injection Heq as -> ->. exists before, after.
              split; [reflexivity |]. split; [exact Hi |].
              split; [inversion Hb; assumption | exact Ha].
    + split; [discriminate |].
      intros [[_ Hall] | (_ & before & after & Heq & Hi & Hb & _)].
      * inversion Hall; congruence.
      * destruct before as [| b before]; cbn in Heq; injection Heq as -> ->;
          [congruence | inversion Hb; congruence].
    + destruct unsatisfied as [w |].
      * split; [discriminate |].
        intros [[_ Hall] | (Hx & _)]; [inversion Hall; congruence | discriminate].
      * rewrite IH. split.
        -- intros [[[= ->] Hall] | (Hx & _)]; [| discriminate].
           right. split; [reflexivity |]. exists [], terms.
           split; [reflexivity |]. split; [exact E |]. split; [constructor | exact Hall].
        -- intros [[Hx _] | (_ & before & after & Heq & Hi & Hb & Ha)];
             [discriminate |].
           destruct before as [| b before]; cbn in Heq; injection Heq as -> ->.
           ++ left. split; [reflexivity | exact Ha].
           ++ inversion Hb; congruence.
Qed.

Lemma evaluateTerms_other ps (terms : list (Term V)) :
  forall unsatisfied,
    let r := evaluateTerms ps unsatisfied terms in
    (fst r = relationContradicted ->
     snd r = None /\
     exists t, In t terms /\ termRelation ps t = relationContradicted) /\
    (fst r = relationInconclusive ->
     snd r = None /\
     exists t, In t terms /\ termRelation ps t = relationInconclusive /\
               (unsatisfied <> None \/
                exists l1 t1 l2 l3,
                  terms = l1 ++ t1 :: l2 ++ t :: l3 /\
                  termRelation ps t1 = relationInconclusive)) /\
    (fst r = relationSatisfied -> snd r = None) /\
    (fst r = relationAlmostSatisfied -> exists u, snd r = Some u).
Proof.
  induction terms as [| t terms IH]; intros unsatisfied; cbn zeta.
  - cbn. destruct unsatisfied; cbn; repeat split; try discriminate; eauto.
  - rewrite evaluateTerms_cons.
    destruct (termRelation_cases ps t) as [E | [E | E]]; rewrite E.
    + destruct (IH unsatisfied) as (I1 & I2 & I3 & I4). cbn zeta in I1, I2, I3, I4.
      split; [| split; [| split; [exact I3 | exact I4]]].
      * intros Hc. destruct (I1 Hc) as (Hs & u & Hin & Hu).
        split; [exact Hs |]. exists u. split; [right; exact Hin | exact Hu].
      * intros Hc. destruct (I2 Hc) as (Hs & u & Hin & Hu & Hrest).
        split; [exact Hs |]. exists u. split; [right; exact Hin |].
        split; [exact Hu |].
        destruct Hrest as [Hx | (l1 & t1 & l2 & l3 & -> & Ht1)]; [left; exact Hx |].
        right. exists (t :: l1), t1, l2, l3. split; [reflexivity | exact Ht1].
    + cbn. repeat split; try discriminate.
      exists t. split; [left; reflexivity | exact E].
    + destruct unsatisfied as [w |].
      * cbn. repeat split; try discriminate.
        exists t. split; [left; reflexivity |]. split; [exact E |].
        left. discriminate.
      * destruct (IH (Some t)) as (I1 & I2 & I3 & I4). cbn zeta in I1, I2, I3, I4.
        split; [| split; [| split; [exact I3 | exact I4]]].
        -- intros Hc. destruct (I1 Hc) as (Hs & u & Hin & Hu).
           split; [exact Hs |]. exists u. split; [right; exact Hin | exact Hu].
        -- intros Hc. destruct (I2 Hc) as (Hs & u & Hin & Hu & Hrest).
           split; [exact Hs |]. exists u. split; [right; exact Hin |].
           split; [exact Hu |]. right.
           destruct Hrest as [_ | (l1 & t1 & l2 & l3 & -> & Ht1)].
           ++ apply List.in_split in Hin. destruct Hin as (l2 & l3 & ->).
              exists [], t, l2, l3. split; [reflexivity | exact E].
           ++ exists (t :: l1), t1, l2, l3. split; [reflexivity | exact Ht1].
Qed.

(** X23: [evaluateIncompatibility] reads the terms in order.  It
    answers satisfied exactly when every term is satisfied, and almost
    satisfied with the term [u] exactly when [u] is the one term that
    is inconclusive and all the others are satisfied; it answers
    contradicted only when a term is contradicted and inconclusive only
    when two terms are inconclusive, and it returns a term only with
    the answer almost satisfied. *)
Theorem evaluateIncompatibility_classifies (st : solverState V)
    (inc : Incompatibility V) :
  let r := evaluateIncompatibility st inc in
  let rel := termRelation (partial st) in
  (r = (relationSatisfied, None) <->
   Forall (fun t => rel t = relationSatisfied) (Terms inc)) /\
  (forall u,
      r = (relationAlmostSatisfied, Some u) <->
      exists before after,
        Terms inc = before ++ u :: after /\
        rel u = relationInconclusive /\
        Forall (fun t => rel t = relationSatisfied) before /\
        Forall (fun t => rel t = relationSatisfied) after) /\
  (fst r = relationContradicted ->
   snd r = None /\ exists t, In t (Terms inc) /\ rel t = relationContradicted) /\
  (fst r = relationInconclusive ->
   snd r = None /\
   exists l1 t1 l2 t2 l3,
     Terms inc = l1 ++ t1 :: l2 ++ t2 :: l3 /\
     rel t1 = relationInconclusive /\ rel t2 = relationInconclusive) /\
  (fst r = relationSatisfied -> snd r = None) /\
  (fst r = relationAlmostSatisfied -> exists u, snd r = Some u).
Proof.
  cbn zeta. unfold evaluateIncompatibility.
  destruct (evaluateTerms_other (partial st) (Terms inc) None) as (O1 & O2 & O3 & O4).
  cbn zeta in O1, O2, O3, O4.
  split; [| split; [| split; [exact O1 | split; [| split; [exact O3 | exact O4]]]]].
  - rewrite evaluateTerms_satisfied. tauto.
  - intros u. rewrite evaluateTerms_almost. split.
    + intros [[Hx _] | [_ Hex]]; [discriminate | exact Hex].
    + intros Hex. right. split; [reflexivity | exact Hex].
  - intros Hc. destruct (O2 Hc) as (Hs & t2 & _ & Ht2 & Hrest).
    split; [exact Hs |].
    destruct Hrest as [Hx | (l1 & t1 & l2 & l3 & Heq & Ht1)]; [congruence |].
    exists l1, t1, l2, t2, l3. split; [exact Heq |]. split; assumption.
Qed.

End Evaluation.

Section SolveResults.
Context {V : Type} `{Version V}.

Implicit Types (ps : partialSolution V) (n : Name).

(** X24: [Solve] checks the root term before anything else.  The root
    version is extracted exactly from a positive term whose condition
    is an equality (by value, or by a non-nil pointer); any other root
    term makes [Solve] return a [VersionError] for the root package,
    whatever the source, the options and the number of steps allowed,
    and an error of the source for the dependencies of the root comes
    back wrapped in a [DependencyError] of the root. *)
Theorem Solve_validates_root (fuel : nat) (s : Solver V) (rootTerm : Term V) :
  ((exists ver, extractDecisionVersion rootTerm = ok ver) <->
   Positive rootTerm = true /\
   exists ver,
     TermCondition rootTerm = Some (EqualsCondition ver) \/
     TermCondition rootTerm = Some (EqualsConditionPtr (Some ver))) /\
  (forall e,
      extractDecisionVersion rootTerm = err e ->
      Solve fuel s rootTerm = Some (err e) /\
      exists msg, e = VersionError (TermName rootTerm) msg) /\
  (Positive rootTerm = false ->
   Solve fuel s rootTerm
   = Some (err (VersionError (TermName rootTerm) "root term must be positive"))) /\
  (forall ver e,
      extractDecisionVersion rootTerm = ok ver ->
      GetDependencies (SolverSource s) (TermName rootTerm) ver = err e ->
      Solve fuel s rootTerm
      = Some (err (DependencyError (TermName rootTerm) ver e))).
Proof.
  split; [| split; [| split]].
  - unfold extractDecisionVersion. destruct (Positive rootTerm); cbn [negb].
    + destruct (TermCondition rootTerm) as [[ver | [ver |] | c | str sat] |]; split;
        try (intros [ver' Hx]; discriminate);
        try (intros [_ [ver' [Hx | Hx]]]; discriminate).
      * intros _. split; [reflexivity |]. exists ver. left. reflexivity.
      * intros _. exists ver. reflexivity.
      * intros _. split; [reflexivity |]. exists ver. right. reflexivity.
      * intros _. exists ver. reflexivity.
    + split; [intros [ver Hx]; discriminate | intros [Hx _]; discriminate].
  - intros e He. split; [unfold Solve; rewrite He; reflexivity |].
    unfold extractDecisionVersion in He.
    destruct (Positive rootTerm); cbn [negb] in He.
    + destruct (TermCondition rootTerm) as [[ver | [ver |] | c | str sat] |];
        try discriminate; injection He as <-; eexists; reflexivity.
    + injection He as <-. eexists. reflexivity.
  - intros Hneg. unfold Solve, extractDecisionVersion. rewrite Hneg. reflexivity.
  - intros ver e Hver Hdeps. unfold Solve. rewrite Hver.
    destruct (seedRoot _ (TermName rootTerm) ver) as [ps a].
    rewrite Hdeps. reflexivity.
Qed.

Lemma GetVersion_In (sol : Solution V) :
  NoDup (List.map NVName sol) ->
  forall n v,
    GetVersion sol n = Some v <-> In {| NVName := n; NVVersion := v |} sol.
Proof.
  induction sol as [| nv sol IH]; intros Hnd n v; cbn [GetVersion In].
  - split; [discriminate | intros []].
  - cbn [List.map] in Hnd. apply NoDup_cons in Hnd. destruct Hnd as [Hnot Hnd].
    destruct (bool_decide_reflect (NVName nv = n)) as [Hn | Hn].
    + split.
      * intros [= <-]. left. destruct nv. cbn in Hn. subst. reflexivity.
      * intros [-> | Hin]; [reflexivity |]. exfalso. apply Hnot.
        apply list_elem_of_In, List.in_map_iff.
        eexists. split; [| exact Hin]. symmetry. exact Hn.
    + rewrite (IH Hnd). split; [intros Hin; right; exact Hin |].
      intros [-> | Hin]; [cbn in Hn; contradiction | exact Hin].
Qed.

Lemma GetVersion_None (sol : Solution V) n :
  GetVersion sol n = None <-> ~ In n (List.map NVName sol).
Proof.
  induction sol as [| nv sol IH]; cbn [GetVersion List.map In]; [tauto |].
  destruct (bool_decide_reflect (NVName nv = n)) as [Hn | Hn].
  - split; [discriminate | intros Hx; exfalso; apply Hx; left; exact Hn].
  - rewrite IH. tauto.
Qed.

Lemma complete_decided ps :
  stacksInLockstep ps ->
  isComplete ps = true \/ nextDecisionCandidate ps = None ->
  pendingPackages ps = [] /\
  forall n, hasAssignments ps n = true -> n = root ps \/ hasDecision ps n = true.
Proof.
  intros Hl Hc.
  destruct (pendingLoop_spec ps (assignments ps) ∅) as [_ Hin].
  fold (pendingPackages ps) in Hin.
  assert (Hiff : pendingPackages ps = [] <->
                 forall n, hasAssignments ps n = true ->
                           n = root ps \/ hasDecision ps n = true).
  { split.
    - intros Hnil n Hn. destruct (decide (n = root ps)) as [-> | Hne]; [left; reflexivity |].
      right. destruct (hasDecision ps n) eqn:Hd; [reflexivity |]. exfalso.
      assert (Hx : In n (pendingPackages ps)).
      { apply Hin. split; [apply not_elem_of_empty |]. split; [exact Hne |].
        split; [apply (hasAssignments_log _ _ Hl); exact Hn | exact Hd]. }
      rewrite Hnil in Hx. destruct Hx.
    - intros Hall. destruct (pendingPackages ps) as [| n l] eqn:E; [reflexivity |].
      exfalso. assert (Hn : In n (n :: l)) by (left; reflexivity).
      apply Hin in Hn. destruct Hn as (_ & H1 & H2 & H3).
      apply (hasAssignments_log _ _ Hl) in H2.
      destruct (Hall n H2) as [-> | Hd]; [contradiction | congruence]. }
  assert (Hnil : pendingPackages ps = []).
  { destruct Hc as [Hc | Hc].
    - apply Hiff. apply (isComplete_iff _ Hl). exact Hc.
    - pose proof (nextCandidateLoop_pending ps (assignments ps) ∅) as Hnext.
      fold (nextDecisionCandidate ps) in Hnext. fold (pendingPackages ps) in Hnext.
      rewrite Hc in Hnext. destruct (pendingPackages ps); [reflexivity | discriminate]. }
  split; [exact Hnil | apply Hiff; exact Hnil].
Qed.

Lemma decisionStep_no_solution (s : Solver V) (st : solverState V) n sol :
  decisionStep s st n <> stepReturn (ok sol).
Proof.
  unfold decisionStep.
  destruct (pickVersion st n) as [[ver |] | e]; [| discriminate | discriminate].
  destruct (addDecision _ n ver) as [ps1 a].
  destruct (GetDependencies _ n ver); [| discriminate].
  destruct (registerDependencies _ n ver _) as [st3 [[conflict |] | e]]; discriminate.
Qed.

(** Where the main loop returns a solution: after a propagation
    without conflict, when the partial solution is complete or has no
    candidate left. *)
Lemma solveStep_solution (fuel : nat) (s : Solver V) (st : solverState V)
    conflict seed sol :
  solveStep fuel s st conflict seed = Some (stepReturn (ok sol)) ->
  exists st',
    conflict = None /\
    propagate fuel st seed = Some (st', ok None) /\
    sol = buildSolution (partial st') /\
    (isComplete (partial st') = true \/ nextDecisionCandidate (partial st') = None).
Proof.
  unfold solveStep. destruct conflict as [c |].
  - destruct (resolveConflict fuel st c) as [[st' [pivot | e]] |]; try discriminate.
    destruct e; discriminate.
  - destruct (propagate fuel st seed) as [[st' [[propConflict |] | e]] |];
      try discriminate.
    destruct (isComplete (partial st')) eqn:Hc.
    + intros [= <-]. exists st'. repeat split. left. exact Hc.
    + destruct (nextDecisionCandidate (partial st')) as [nextPkg |] eqn:Hn.
      * intros [= Hd]. exfalso. exact (decisionStep_no_solution _ _ _ _ Hd).
      * intros [= <-]. exists st'. repeat split. right. exact Hn.
Qed.

Section SolveFinal.
Variable P : partialSolution V -> Prop.
Hypothesis P_derivation : forall ps t c, P ps -> P (fst (addDerivation ps t c)).
Hypothesis P_backtrack : forall ps level, P ps -> P (backtrack ps level).
Hypothesis P_decision :
  forall ps n ver,
    P ps -> n <> root ps -> hasDecision ps n = false ->
    P (fst (addDecision ps n ver)).

Lemma solveLoop_final (s : Solver V) :
  forall fuel steps st conflict seed sol,
    P (partial st) ->
    solveLoop fuel s steps st conflict seed = Some (ok sol) ->
    exists ps,
      P ps /\ sol = buildSolution ps /\
      (isComplete ps = true \/ nextDecisionCandidate ps = None).
Proof.
  induction fuel as [| fuel IH]; intros steps st conflict seed sol HP; [discriminate |].
  cbn [solveLoop]. destruct (_ && _); [discriminate |].
  pose proof (solveStep_invariant P P_derivation P_backtrack P_decision
                fuel s st conflict seed HP) as Hstep.
  destruct (solveStep fuel s st conflict seed) as [[[sol' | e] | st' c' seed'] |] eqn:E;
    [| discriminate | | discriminate].
  - intros [= <-]. apply solveStep_solution in E.
    destruct E as (st' & _ & Hprop & -> & Hfin).
    exists (partial st'). split; [| split; [reflexivity | exact Hfin]].
    exact (propagate_invariant P P_derivation _ _ _ _ _ HP Hprop).
  - apply IH. exact Hstep.
Qed.

Lemma Solve_final fuel (s : Solver V) (rootTerm : Term V) sol :
  (forall ver, extractDecisionVersion rootTerm = ok ver ->
               P (fst (seedRoot (newPartialSolution (TermName rootTerm))
                                (TermName rootTerm) ver))) ->
  Solve fuel s rootTerm = Some (ok sol) ->
  exists ps,
    P ps /\ sol = buildSolution ps /\
    (isComplete ps = true \/ nextDecisionCandidate ps = None).
Proof.
  intros Hseed. unfold Solve.
  destruct (extractDecisionVersion rootTerm) as [ver | e]; [| discriminate].
  specialize (Hseed ver eq_refl). cbn [partial newSolverState].
  destruct (seedRoot _ (TermName rootTerm) ver) as [ps a]. cbn [fst] in Hseed.
  destruct (GetDependencies _ (TermName rootTerm) ver) as [deps | e]; [| discriminate].
  pose proof (registerDependencies_invariant P P_derivation deps
                (withPartial (newSolverState (SolverSource s) (solverOptions s)
                                (TermName rootTerm)) ps)
                (TermName rootTerm) ver Hseed) as Hreg.
  destruct (registerDependencies _ (TermName rootTerm) ver deps)
    as [st [conflict | e]]; cbn [fst] in Hreg; [| discriminate].
  apply solveLoop_final. rewrite partial_enqueue. exact Hreg.
Qed.

End SolveFinal.

(** X25: the solution of a successful solve has a version for every
    package that has an assignment in the final partial solution (no
    package is left pending), [GetVersion] finds the pinned version of
    the root, and [GetVersion] returns a version for a package exactly
    when the pair is in the solution, nothing for a package the
    solution does not name. *)
Theorem Solve_solution_is_complete (fuel : nat) (s : Solver V) (rootTerm : Term V)
    (sol : Solution V) :
  Solve fuel s rootTerm = Some (ok sol) ->
  exists ver ps,
    extractDecisionVersion rootTerm = ok ver /\
    reachable (TermName rootTerm) ver ps /\
    sol = buildSolution ps /\
    pendingPackages ps = [] /\
    (forall n, hasAssignments ps n = true -> exists v, GetVersion sol n = Some v) /\
    GetVersion sol (TermName rootTerm) = Some ver /\
    (forall n v, GetVersion sol n = Some v <->
                 In {| NVName := n; NVVersion := v |} sol) /\
    (forall n, GetVersion sol n = None <-> ~ In n (List.map NVName sol)).
Proof.
  intros Hsolve.
  destruct (extractDecisionVersion rootTerm) as [ver | e] eqn:Hver;
    [| unfold Solve in Hsolve; rewrite Hver in Hsolve; discriminate].
  destruct (Solve_final (reachable (TermName rootTerm) ver)) with
    (fuel := fuel) (s := s) (rootTerm := rootTerm) (sol := sol)
    as (ps & Hreach & Hsol & Hfin).
  - intros ps t c. apply reachable_derivation.
  - intros ps level. apply reachable_backtrack.
  - intros ps n v Hr Hroot Hdec. apply reachable_decision; [exact Hr | | exact Hdec].
    rewrite <- (reachable_root _ _ _ Hr). exact Hroot.
  - intros v Hv. rewrite Hver in Hv. injection Hv as <-. apply reachable_seed.
  - exact Hsolve.
  - exists ver, ps. split; [reflexivity |]. split; [exact Hreach |].
    split; [exact Hsol |].
    destruct (reachable_decisions _ _ _ Hreach) as [(later & Hlog) Hnd].
    assert (Hbuild : sol = List.map decisionPair
                             (List.filter isDecision (assignments ps))).
    { rewrite Hsol. unfold buildSolution. apply buildSolutionLoop_decisions.
      - exact Hnd.
      - intros a _. apply not_elem_of_empty. }
    assert (Hnames : NoDup (List.map NVName sol)).
    { rewrite Hbuild, List.map_map. exact Hnd. }
    pose proof (reachable_wellFormed _ _ _ Hreach) as (Hlock & _).
    destruct (complete_decided ps Hlock Hfin) as [Hpend Hdec].
    assert (Hroot : GetVersion sol (TermName rootTerm) = Some ver).
    { rewrite Hbuild, Hlog. cbn.
      rewrite bool_decide_eq_true_2 by reflexivity. reflexivity. }
    split; [exact Hpend |]. split; [| split; [exact Hroot | split]].
    + intros n Hn. destruct (Hdec n Hn) as [-> | Hd].
      * rewrite (reachable_root _ _ _ Hreach). exists ver. exact Hroot.
      * unfold hasDecision in Hd. rewrite (stackOf_lockstep _ _ Hlock) in Hd.
        apply existsb_exists in Hd. destruct Hd as (a & Hin & Ha).
        unfold logStack in Hin. apply List.filter_In in Hin. destruct Hin as [Hin Hna].
        apply bool_decide_eq_true_1 in Hna.
        destruct (GetVersion sol n) as [v |] eqn:E; [exists v; reflexivity |].
        exfalso. apply GetVersion_None in E. apply E.
        rewrite Hbuild, List.map_map. apply List.in_map_iff.
        exists a. split; [exact Hna |]. apply List.filter_In. split; assumption.
    + apply GetVersion_In. exact Hnames.
    + apply GetVersion_None.
Qed.

End SolveResults.

Section SortedVersions.
Context {V : Type} `{Version V}.

Lemma insertVersion_In (x : V) (l : list V) (y : V) :
  In y (insertVersion x l) <-> y = x \/ In y l.
Proof.
  induction l as [| z l IH]; cbn; [intuition congruence |].
  destruct (Sort x z <=? 0); cbn; [intuition congruence |].
  rewrite IH. intuition congruence.
Qed.

Lemma sortVersions_In (l : list V) (y : V) : In y (sortVersions l) <-> In y l.
Proof.
  unfold sortVersions. induction l as [| x l IH]; cbn; [tauto |].
  rewrite insertVersion_In, IH. intuition congruence.
Qed.

Lemma sortVersions_length (l : list V) : length (sortVersions l) = length l.
Proof.
  unfold sortVersions. induction l as [| x l IH]; [reflexivity |].
  cbn [foldr length]. rewrite <- IH. clear IH.
  generalize (foldr insertVersion [] l). intros k.
  induction k as [| y k IHk]; cbn; [reflexivity |].
  destruct (Sort x y <=? 0); cbn; [reflexivity | rewrite IHk; reflexivity].
Qed.

Lemma insertVersion_sorted (x : V) (l : list V) :
  StronglySorted (fun a b => Sort a b <= 0) l ->
  StronglySorted (fun a b => Sort a b <= 0) (insertVersion x l).
Proof.
  induction 1 as [| z l Hs IH Hall]; cbn; [repeat constructor |].
  destruct (Z.leb_spec (Sort x z) 0) as [Hle | Hgt].
  - constructor; [constructor; assumption |].
    constructor; [exact Hle |].
    eapply Forall_impl; [exact Hall |]. cbn. intros w Hw.
    exact (Sort_trans _ _ _ Hle Hw).
  - constructor; [exact IH |].
    rewrite List.Forall_forall in Hall |- *. intros w Hw.
    apply insertVersion_In in Hw. destruct Hw as [-> | Hw]; [| apply Hall; exact Hw].
    sort_pair x z. lia.
Qed.

Lemma sortVersions_sorted (l : list V) :
  StronglySorted (fun a b => Sort a b <= 0) (sortVersions l).
Proof.
  unfold sortVersions. induction l as [| x l IH]; cbn; [constructor |].
  apply insertVersion_sorted. exact IH.
Qed.

Lemma insertVersion_NoDup (x : V) (l : list V) :
  ~ In x l -> NoDup l -> NoDup (insertVersion x l).
Proof.
  induction l as [| z l IH]; intros Hx Hnd; cbn.
  - apply NoDup_singleton.
  - destruct (Sort x z <=? 0).
    + apply NoDup_cons. split; [rewrite list_elem_of_In; exact Hx | exact Hnd].
    + apply NoDup_cons in Hnd. destruct Hnd as [Hz Hnd]. apply NoDup_cons. split.
      * rewrite list_elem_of_In, insertVersion_In. rewrite list_elem_of_In in Hz.
        intros [-> | Hin]; [apply Hx; left; reflexivity | contradiction].
      * apply IH; [| exact Hnd]. intros Hin. apply Hx. right. exact Hin.
Qed.

Lemma sortVersions_NoDup (l : list V) : NoDup l -> NoDup (sortVersions l).
Proof.
  unfold sortVersions. induction 1 as [| x l Hx Hnd IH]; cbn; [constructor |].
  apply insertVersion_NoDup; [| exact IH].
  rewrite list_elem_of_In in Hx. fold (sortVersions l). rewrite sortVersions_In. exact Hx.
Qed.

Lemma ascendingVersions_Some (l : list V) :
  StronglySorted (fun a b => Sort a b <= 0) l ->
  ascendingVersions (List.map Some l).
Proof.
  unfold ascendingVersions. induction 1 as [| x l Hs IH Hall]; cbn; [constructor |].
  constructor; [exact IH |]. apply List.Forall_map.
  eapply Forall_impl; [exact Hall |]. cbn. intros y Hy. exact Hy.
Qed.

End SortedVersions.

Section InMemory.
Context {V : Type} `{Version V} `{Countable V}.

Implicit Types (s : InMemorySource (V:=V)) (n : Name).

Lemma map_keys_spec (versions : gmap V (list (Term V))) :
  NoDup (List.map fst (map_to_list versions)) /\
  forall v, In v (List.map fst (map_to_list versions)) <-> is_Some (versions !! v).
Proof.
  split; [apply NoDup_fst_map_to_list |].
  intros v. rewrite List.in_map_iff. split.
  - intros ([v' deps] & Hv & Hin). cbn in Hv. subst v'.
    apply list_elem_of_In, elem_of_map_to_list in Hin. eexists. exact Hin.
  - intros [deps Hd]. exists (v, deps). split; [reflexivity |].
    apply list_elem_of_In, elem_of_map_to_list. exact Hd.
Qed.

(** X26: what an [InMemorySource] lists is what it holds.
    [GetVersions] of a known package returns its versions sorted
    ascending, each once, and these are exactly the versions for which
    [GetDependencies] answers; an unknown package is a
    [PackageNotFoundError] of both functions.  After [AddPackage] the
    version is listed and its dependencies are the ones given; the other
    versions and the other packages answer as before. *)
Theorem InMemorySource_lists_what_it_holds s n (v : V) (deps : list (Term V)) :
  match InMemorySource_GetVersions s n with
  | ok versions =>
      ascendingVersions versions /\ NoDup versions /\
      forall version,
        In version versions <->
        exists d, InMemorySource_GetDependencies s n version = ok d
  | err e =>
      e = PackageNotFoundError n /\
      forall version,
        InMemorySource_GetDependencies s n version = err (PackageNotFoundError n)
  end /\
  InMemorySource_GetVersions (∅ : InMemorySource) n = err (PackageNotFoundError n) /\
  let s' := InMemorySource_AddPackage s n v deps in
  InMemorySource_GetDependencies s' n (Some v) = ok deps /\
  (exists versions,
      InMemorySource_GetVersions s' n = ok versions /\ In (Some v) versions) /\
  (forall v',
      v' <> Some v ->
      InMemorySource_GetDependencies s' n v'
      = match InMemorySource_GetDependencies s n v' with
        | ok d => ok d
        | err _ => err (PackageVersionNotFoundError n v')
        end) /\
  (forall n' v',
      n' <> n ->
      InMemorySource_GetDependencies s' n' v' = InMemorySource_GetDependencies s n' v' /\
      InMemorySource_GetVersions s' n' = InMemorySource_GetVersions s n').
Proof.
  split; [| split; [reflexivity |]].
  - unfold InMemorySource_GetVersions, InMemorySource_GetDependencies.
    destruct (s !! n) as [versions |]; [| split; reflexivity].
    destruct (map_keys_spec versions) as [Hnd Hkeys].
    split; [apply ascendingVersions_Some, sortVersions_sorted |].
    split.
    + apply (NoDup_fmap_2 Some). apply sortVersions_NoDup. exact Hnd.
    + intros [w |].
      * rewrite List.in_map_iff. split.
        -- intros (w' & [= ->] & Hin). apply sortVersions_In, Hkeys in Hin.
           destruct Hin as [d Hd]. rewrite Hd. exists d. reflexivity.
        -- intros [d Hd]. destruct (versions !! w) as [d' |] eqn:E; [| discriminate].
           exists w. split; [reflexivity |]. apply sortVersions_In, Hkeys.
           eexists. exact E.
      * split; [| intros [d Hd]; discriminate].
        rewrite List.in_map_iff. intros (w' & Hx & _). discriminate.
  - cbn zeta. unfold InMemorySource_AddPackage, InMemorySource_GetDependencies,
      InMemorySource_GetVersions.
    unfold InMemorySource in *. cbn zeta. rewrite !lookup_insert_eq.
    cbn beta iota.
    split; [reflexivity |]. split; [| split].
    + eexists. split; [reflexivity |]. apply List.in_map.
      apply sortVersions_In, map_keys_spec. rewrite lookup_insert_eq. eexists. reflexivity.
    + intros [w |] Hne.
      * rewrite lookup_insert_ne by congruence.
        destruct (s !! n) as [versions |]; cbn [default from_option id].
        -- destruct (versions !! w); reflexivity.
        -- rewrite lookup_empty. reflexivity.
      * destruct (s !! n); reflexivity.
    + intros n' v' Hn. rewrite !lookup_insert_ne by congruence. split; reflexivity.
Qed.

End InMemory.

Section ErrorKinds.
Context {V : Type} `{Version V}.

Implicit Types (e : error V).

(** [errors.As] finds a [PackageNotFoundError] (a
    [PackageVersionNotFoundError]) exactly in the errors that are, or
    wrap, one. *)
Lemma errorsAsPackageNotFound_iff e :
  errorsAsPackageNotFound e = true <-> isPackageNotFound e.
Proof.
  split.
  - induction e; cbn; intros Hk; try discriminate; constructor; auto.
  - induction 1; cbn; auto.
Qed.

Lemma errorsAsPackageVersionNotFound_iff e :
  errorsAsPackageVersionNotFound e = true <-> isPackageVersionNotFound e.
Proof.
  split.
  - induction e; cbn; intros Hk; try discriminate; constructor; auto.
  - induction 1; cbn; auto.
Qed.

Lemma notFoundKind_iff e :
  errorsAsPackageNotFound e || errorsAsPackageVersionNotFound e = true <->
  notFoundKind e.
Proof.
  unfold notFoundKind.
  rewrite orb_true_iff, errorsAsPackageNotFound_iff, errorsAsPackageVersionNotFound_iff.
  reflexivity.
Qed.

Lemma notFoundKind_dec e : notFoundKind e \/ ~ notFoundKind e.
Proof.
  rewrite <- notFoundKind_iff.
  destruct (errorsAsPackageNotFound e || errorsAsPackageVersionNotFound e);
    [left; reflexivity | right; discriminate].
Qed.

End ErrorKinds.

Section Combined.
Context {V : Type} `{Version V}.

Implicit Types (s : CombinedSource (V:=V)) (n : Name).

Lemma nonNilVersions_Some (l : list (option V)) (vs : list V) :
  nonNilVersions l = Some vs <-> l = List.map Some vs.
Proof.
  revert vs. induction l as [| [v |] l IH]; intros vs; cbn.
  - split; [intros [= <-]; reflexivity | destruct vs; [reflexivity | discriminate]].
  - destruct (nonNilVersions l) as [ws |] eqn:E; cbn.
    + split.
      * intros [= <-]. cbn. f_equal. apply IH. reflexivity.
      * destruct vs as [| w vs]; [discriminate |]. cbn. intros [= -> Hl].
        apply IH in Hl. injection Hl as ->. reflexivity.
    + split; [discriminate |].
      destruct vs as [| w vs]; [discriminate |]. cbn. intros [= -> Hl].
      apply IH in Hl. discriminate.
  - split; [discriminate | destruct vs; discriminate].
Qed.

Lemma nonNilVersions_None (l : list (option V)) :
  nonNilVersions l = None <-> In None l.
Proof.
  induction l as [| [v |] l IH]; cbn.
  - split; [discriminate | intros []].
  - destruct (nonNilVersions l); cbn.
    + split; [discriminate |]. intros [Hx | Hin]; [discriminate |].
      apply IH in Hin. discriminate.
    + split; [intros _; right; apply IH; reflexivity | reflexivity].
  - split; [intros _; left; reflexivity | reflexivity].
Qed.

Lemma ascendingVersions_short (l : list (option V)) :
  (length l < 2)%nat -> ascendingVersions l.
Proof.
  destruct l as [| x [| y l]]; cbn; intros Hl; [constructor | | lia].
  constructor; constructor.
Qed.

(** The loop of [CombinedSource.GetVersions] collects the lists of the
    sources in order, skips the sources that answer with an error that
    is or wraps [PackageNotFoundError], and stops at the first source
    that answers with another error. *)
Lemma combinedVersions_first s n :
  forall ret,
    match combinedVersions s n ret with
    | ok r =>
        r = ret ++ flat_map (fun src => match GetVersions src n with
                                        | ok l => l
                                        | err _ => []
                                        end) s /\
        Forall (fun src => (exists l, GetVersions src n = ok l) \/
                           (exists e, GetVersions src n = err e /\ isPackageNotFound e))
               s
    | err e =>
        exists before src after,
          s = before ++ src :: after /\
          Forall (fun src => (exists l, GetVersions src n = ok l) \/
                             (exists e, GetVersions src n = err e /\
                                        isPackageNotFound e))
                 before /\
          GetVersions src n = err e /\ ~ isPackageNotFound e
    end.
Proof.
  induction s as [| src s IH]; intros ret; cbn [combinedVersions flat_map].
  - rewrite List.app_nil_r. split; [reflexivity | constructor].
  - destruct (GetVersions src n) as [l | e] eqn:E.
    + specialize (IH (ret ++ l)).
      assert (Hsrc : (exists l, GetVersions src n = ok l) \/
                     (exists e, GetVersions src n = err e /\ isPackageNotFound e))
        by (left; exists l; exact E).
      destruct (combinedVersions s n (ret ++ l)) as [r | e'].
      * destruct IH as [-> Hall]. rewrite <- List.app_assoc.
        split; [reflexivity | constructor; assumption].
      * destruct IH as (before & src' & after & -> & Hb & Hrest).
        exists (src :: before), src', after.
        split; [reflexivity |]. split; [constructor; assumption | exact Hrest].
    + destruct (errorsAsPackageNotFound e) eqn:En.
      * apply errorsAsPackageNotFound_iff in En.
        assert (Hsrc : (exists l, GetVersions src n = ok l) \/
                       (exists e, GetVersions src n = err e /\ isPackageNotFound e))
          by (right; exists e; split; [exact E | exact En]).
        specialize (IH ret). cbn [List.app].
        destruct (combinedVersions s n ret) as [r | e'].
        -- destruct IH as [-> Hall]. split; [reflexivity | constructor; assumption].
        -- destruct IH as (before & src' & after & -> & Hb & Hrest).
           exists (src :: before), src', after.
           split; [reflexivity |]. split; [constructor; assumption | exact Hrest].
      * exists [], src, s. split; [reflexivity |]. split; [constructor |].
        split; [exact E |]. intros Hk. apply errorsAsPackageNotFound_iff in Hk.
        congruence.
Qed.

(** X27: [CombinedSource.GetVersions] asks its sources in order; a
    source that answers with an error that is, or wraps, a
    [PackageNotFoundError] is skipped, and the first source that answers
    with any other error ends the call with that error.  When no source
    does, the call returns, sorted ascending, the versions all the
    sources list for the package, or a [PackageNotFoundError] of the
    package when none is listed; the sort panics only on a nil version
    among two or more.  [CombinedSource.GetDependencies] returns the
    answer of the first source that has one; the sources before it
    answered with an error that is, or wraps, a [PackageNotFoundError]
    or a [PackageVersionNotFoundError] and are skipped; the first source
    that answers with any other error ends the call with that error,
    and the call reports a [PackageVersionNotFoundError] of the package
    and version when every source was skipped. *)
Theorem CombinedSource_merges_sources s n (version : option V) :
  let listed :=
    flat_map (fun src => match GetVersions src n with
                         | ok l => l
                         | err _ => []
                         end) s in
  let usable := fun src : Source V =>
    (exists l, GetVersions src n = ok l) \/
    (exists e, GetVersions src n = err e /\ isPackageNotFound e) in
  let skipped := fun src : Source V =>
    exists e, GetDependencies src n version = err e /\ notFoundKind e in
  match CombinedSource_GetVersions s n with
  | Some (ok versions) =>
      Forall usable s /\
      ascendingVersions versions /\ versions <> [] /\
      length versions = length listed /\
      forall v, In v versions <-> In v listed
  | Some (err e) =>
      (e = PackageNotFoundError n /\ listed = [] /\ Forall usable s) \/
      (exists before src after,
          s = before ++ src :: after /\
          Forall usable before /\
          GetVersions src n = err e /\ ~ isPackageNotFound e)
  | None => Forall usable s /\ In None listed /\ (2 <= length listed)%nat
  end /\
  match CombinedSource_GetDependencies s n version with
  | ok deps =>
      exists before src after,
        s = before ++ src :: after /\
        Forall skipped before /\
        GetDependencies src n version = ok deps
  | err e =>
      (e = PackageVersionNotFoundError n version /\ Forall skipped s) \/
      (exists before src after,
          s = before ++ src :: after /\
          Forall skipped before /\
          GetDependencies src n version = err e /\ ~ notFoundKind e)
  end.
Proof.
  cbn zeta. split.
  - unfold CombinedSource_GetVersions.
    pose proof (combinedVersions_first s n []) as Hspec.
    destruct (combinedVersions s n []) as [ret | e]; [| right; exact Hspec].
    destruct Hspec as [Hspec Hall].
    cbn [List.app] in Hspec. rewrite <- Hspec. clear Hspec.
    destruct (Z.eqb_spec (Z.of_nat (length ret)) 0) as [Hz | Hnz].
    { left. split; [reflexivity |]. split; [| exact Hall].
      destruct ret; [reflexivity | cbn in Hz; lia]. }
    unfold sortVersionList.
    destruct (Z.ltb_spec (Z.of_nat (length ret)) 2) as [Hlt | Hge]; cbn [option_map].
    + split; [exact Hall |]. split; [apply ascendingVersions_short; lia |].
      split; [intros ->; cbn in Hnz; lia |]. split; [reflexivity | reflexivity].
    + destruct (nonNilVersions ret) as [vs |] eqn:E; cbn [option_map].
      * apply nonNilVersions_Some in E. rewrite E in Hnz |- *. clear E.
        split; [exact Hall |].
        split; [apply ascendingVersions_Some, sortVersions_sorted |].
        split.
        { intros Hx. apply Hnz. apply (f_equal (@length _)) in Hx.
          rewrite List.length_map, sortVersions_length in Hx.
          rewrite List.length_map, Hx. reflexivity. }
        split; [rewrite !List.length_map; apply sortVersions_length |].
        intros v. rewrite !List.in_map_iff. split.
        -- intros (w & <- & Hw). exists w. split; [reflexivity |].
           apply sortVersions_In. exact Hw.
        -- intros (w & <- & Hw). exists w. split; [reflexivity |].
           apply sortVersions_In. exact Hw.
      * apply nonNilVersions_None in E. split; [exact Hall |]. split; [exact E | lia].
  - induction s as [| src s IH]; cbn [CombinedSource_GetDependencies].
    + left. split; [reflexivity | constructor].
    + destruct (GetDependencies src n version) as [deps | e] eqn:E.
      * exists [], src, s. split; [reflexivity |]. split; [constructor | exact E].
      * destruct (notFoundKind_dec e) as [Hk | Hk].
        -- assert (Hsrc : exists e', GetDependencies src n version = err e' /\
                                     notFoundKind e')
             by (exists e; split; [exact E | exact Hk]).
           assert (Hgo : (if errorsAsPackageNotFound e
                          then CombinedSource_GetDependencies s n version
                          else if errorsAsPackageVersionNotFound e
                               then CombinedSource_GetDependencies s n version
                               else err e)
                         = CombinedSource_GetDependencies s n version).
           { apply notFoundKind_iff in Hk.
             destruct (errorsAsPackageNotFound e); [reflexivity |].
             destruct (errorsAsPackageVersionNotFound e); [reflexivity | discriminate]. }
           rewrite Hgo.
           destruct (CombinedSource_GetDependencies s n version) as [deps | e'].
           ++ destruct IH as (before & src' & after & -> & Hb & Hd).
              exists (src :: before), src', after. split; [reflexivity |].
              split; [constructor; assumption | exact Hd].
           ++ destruct IH as [[-> Hall] | (before & src' & after & -> & Hb & Hd & Hn)].
              ** left. split; [reflexivity | constructor; assumption].
              ** right. exists (src :: before), src', after. split; [reflexivity |].
                 split; [constructor; assumption |]. split; [exact Hd | exact Hn].
        -- assert (Hstop : (if errorsAsPackageNotFound e
                            then CombinedSource_GetDependencies s n version
                            else if errorsAsPackageVersionNotFound e
                                 then CombinedSource_GetDependencies s n version
                                 else err e)
                           = err e).
           { destruct (errorsAsPackageNotFound e) eqn:E1;
               [exfalso; apply Hk, notFoundKind_iff; rewrite E1; reflexivity |].
             destruct (errorsAsPackageVersionNotFound e) eqn:E2;
               [exfalso; apply Hk, notFoundKind_iff; rewrite E1, E2; reflexivity |].
             reflexivity. }
           rewrite Hstop. right. exists [], src, s. split; [reflexivity |].
           split; [constructor |]. split; [exact E | exact Hk].
Qed.

End Combined.

Section Root.

(** X28: the root source is the catalog of the virtual package
    [$$root]: the term it gives pins the version 1, which [Solve]
    accepts as a root; the root package has that one version, whose
    dependencies are the requirements added, in the order they were
    added; every other package or version is reported as not found, so
    that a combined source that starts with the root source answers for
    the root with the requirements.  With no requirement the solve
    succeeds with the root alone. *)
Theorem RootSource_is_the_root_catalog (s : RootSource) (n : Name)
    (condition : option (Condition SimpleVersion)) (version : option SimpleVersion)
    (others : CombinedSource (V:=SimpleVersion)) (fuel : nat) :
  extractDecisionVersion (RootSource_Term s) = ok (Some "1") /\
  RootSource_GetVersions s (TermName (RootSource_Term s)) = ok [Some "1"] /\
  RootSource_GetDependencies s (TermName (RootSource_Term s)) (Some "1") = ok s /\
  RootSource_GetDependencies (RootSource_AddPackage s n condition)
    (MakeName "$$root") (Some "1")
  = ok (s ++ [NewTerm n condition]) /\
  (n <> MakeName "$$root" ->
   RootSource_GetVersions s n = err (PackageNotFoundError n) /\
   RootSource_GetDependencies s n version = err (PackageNotFoundError n)) /\
  (version <> Some "1" ->
   RootSource_GetDependencies s (MakeName "$$root") version
   = err (PackageVersionNotFoundError (MakeName "$$root") version)) /\
  CombinedSource_GetDependencies (RootSource_Source s :: others)
    (MakeName "$$root") (Some "1") = ok s /\
  Solve (4 + fuel)
    {| SolverSource := RootSource_Source NewRootSource;
       solverOptions := defaultSolverOptions;
       solverLearned := [] |}
    (RootSource_Term NewRootSource)
  = Some (ok [ {| NVName := MakeName "$$root"; NVVersion := Some "1" |} ]).
Proof.
  split; [reflexivity |]. split; [reflexivity |]. split; [reflexivity |].
  split; [reflexivity |]. split; [| split; [| split; [reflexivity |]]].
  - intros Hn. unfold RootSource_GetVersions, RootSource_GetDependencies. cbn zeta.
    rewrite (bool_decide_eq_true_2 _ Hn). split; reflexivity.
  - intros Hv. unfold RootSource_GetDependencies. cbn zeta.
    rewrite bool_decide_eq_false_2 by (intros Hx; apply Hx; reflexivity).
    rewrite (bool_decide_eq_true_2 _ Hv). reflexivity.
  - vm_compute. reflexivity.
Qed.

End Root.

Section SemanticVersions.

Lemma strings_Compare_antisym (a b : string) :
  Z.sgn (strings_Compare b a) = - Z.sgn (strings_Compare a b).
Proof. exact (Sort_antisym (V:=SimpleVersion) a b). Qed.

Lemma strings_Compare_trans (a b c : string) :
  strings_Compare a b <= 0 -> strings_Compare b c <= 0 -> strings_Compare a c <= 0.
Proof. exact (Sort_trans (V:=SimpleVersion) a b c). Qed.

Lemma comparePrereleasePart_antisym (a b : string) :
  Z.sgn (comparePrereleasePart b a) = - Z.sgn (comparePrereleasePart a b).
Proof.
  unfold comparePrereleasePart.
  destruct (strconv_Atoi a) as [x |], (strconv_Atoi b) as [y |]; try reflexivity.
  - destruct (Z.eqb_spec x y), (Z.eqb_spec y x); try lia; cbn [negb]; [reflexivity |].
    destruct (Z.ltb_spec x y), (Z.ltb_spec y x); try lia; reflexivity.
  - apply strings_Compare_antisym.
Qed.

Lemma comparePrereleasePart_trans (a b c : string) :
  comparePrereleasePart a b <= 0 -> comparePrereleasePart b c <= 0 ->
  comparePrereleasePart a c <= 0.
Proof.
  unfold comparePrereleasePart.
  destruct (strconv_Atoi a) as [x |], (strconv_Atoi b) as [y |],
    (strconv_Atoi c) as [z |]; try lia.
  - destruct (Z.eqb_spec x y), (Z.eqb_spec y z), (Z.eqb_spec x z); cbn [negb];
      try lia;
      destruct (Z.ltb_spec x y), (Z.ltb_spec y z), (Z.ltb_spec x z); lia.
  - apply strings_Compare_trans.
Qed.

Lemma sgn_flip_lt (x y : Z) : Z.sgn y = - Z.sgn x -> (x < 0 <-> 0 < y).
Proof. destruct x, y; cbn; intros Hs; try discriminate; lia. Qed.

Lemma sgn_flip_eq (x y : Z) : Z.sgn y = - Z.sgn x -> (x = 0 <-> y = 0).
Proof. destruct x, y; cbn; intros Hs; try discriminate; lia. Qed.

Lemma comparePrereleaseParts_antisym (a : list string) :
  forall b,
    Z.sgn (comparePrereleaseParts b a) = - Z.sgn (comparePrereleaseParts a b).
Proof.
  induction a as [| x a IH]; intros [| y b]; cbn [comparePrereleaseParts];
    try reflexivity.
  pose proof (comparePrereleasePart_antisym x y) as Hs.
  pose proof (sgn_flip_eq _ _ Hs) as He.
  destruct (Z.eqb_spec (comparePrereleasePart x y) 0) as [E | E],
    (Z.eqb_spec (comparePrereleasePart y x) 0) as [E' | E']; cbn [negb];
    [apply IH | tauto | tauto | exact Hs].
Qed.

Lemma comparePrereleaseParts_trans (a : list string) :
  forall b c,
    comparePrereleaseParts a b <= 0 -> comparePrereleaseParts b c <= 0 ->
    comparePrereleaseParts a c <= 0.
Proof.
  induction a as [| x a IH]; intros [| y b] [| z c]; cbn [comparePrereleaseParts];
    try lia.
  pose proof (sgn_flip_lt _ _ (comparePrereleasePart_antisym x y)).
  pose proof (sgn_flip_lt _ _ (comparePrereleasePart_antisym y x)).
  pose proof (sgn_flip_lt _ _ (comparePrereleasePart_antisym y z)).
  pose proof (sgn_flip_lt _ _ (comparePrereleasePart_antisym z y)).
  pose proof (sgn_flip_lt _ _ (comparePrereleasePart_antisym x z)).
  pose proof (sgn_flip_lt _ _ (comparePrereleasePart_antisym z x)).
  pose proof (comparePrereleasePart_trans x y z).
  pose proof (comparePrereleasePart_trans x z y).
  pose proof (comparePrereleasePart_trans y x z).
  pose proof (comparePrereleasePart_trans y z x).
  pose proof (comparePrereleasePart_trans z x y).
  pose proof (comparePrereleasePart_trans z y x).
  destruct (Z.eqb_spec (comparePrereleasePart x y) 0),
    (Z.eqb_spec (comparePrereleasePart y z) 0),
    (Z.eqb_spec (comparePrereleasePart x z) 0); cbn [negb]; try lia.
  apply IH.
Qed.

Lemma String_eqb_empty (s : string) :
  String.eqb s EmptyString = true <-> s = EmptyString.
Proof. apply String.eqb_eq. Qed.

Lemma SemanticVersion_Sort_antisym (a b : SemanticVersion) :
  Z.sgn (SemanticVersion_Sort b a) = - Z.sgn (SemanticVersion_Sort a b).
Proof.
  unfold SemanticVersion_Sort.
  destruct (Z.eqb_spec (Major a) (Major b)), (Z.eqb_spec (Major b) (Major a));
    try lia; cbn [negb];
    [| destruct (Z.ltb_spec (Major a) (Major b)), (Z.ltb_spec (Major b) (Major a));
       try lia; reflexivity].
  destruct (Z.eqb_spec (Minor a) (Minor b)), (Z.eqb_spec (Minor b) (Minor a));
    try lia; cbn [negb];
    [| destruct (Z.ltb_spec (Minor a) (Minor b)), (Z.ltb_spec (Minor b) (Minor a));
       try lia; reflexivity].
  destruct (Z.eqb_spec (Patch a) (Patch b)), (Z.eqb_spec (Patch b) (Patch a));
    try lia; cbn [negb];
    [| destruct (Z.ltb_spec (Patch a) (Patch b)), (Z.ltb_spec (Patch b) (Patch a));
       try lia; reflexivity].
  destruct (String.eqb (Prerelease a) EmptyString),
    (String.eqb (Prerelease b) EmptyString); cbn [andb negb]; try reflexivity.
  apply comparePrereleaseParts_antisym.
Qed.

Lemma SemanticVersion_Sort_trans (a b c : SemanticVersion) :
  SemanticVersion_Sort a b <= 0 -> SemanticVersion_Sort b c <= 0 ->
  SemanticVersion_Sort a c <= 0.
Proof.
  unfold SemanticVersion_Sort.
  destruct (Z.eqb_spec (Major a) (Major b)), (Z.eqb_spec (Major b) (Major c)),
    (Z.eqb_spec (Major a) (Major c)); cbn [negb]; try lia;
    try (destruct (Z.ltb_spec (Major a) (Major b)), (Z.ltb_spec (Major b) (Major c)),
           (Z.ltb_spec (Major a) (Major c)); lia);
    try (destruct (Z.ltb_spec (Major a) (Major b)); lia);
    try (destruct (Z.ltb_spec (Major b) (Major c)); lia);
    try (destruct (Z.ltb_spec (Major a) (Major c)); lia).
  destruct (Z.eqb_spec (Minor a) (Minor b)), (Z.eqb_spec (Minor b) (Minor c)),
    (Z.eqb_spec (Minor a) (Minor c)); cbn [negb]; try lia;
    try (destruct (Z.ltb_spec (Minor a) (Minor b)), (Z.ltb_spec (Minor b) (Minor c)),
           (Z.ltb_spec (Minor a) (Minor c)); lia);
    try (destruct (Z.ltb_spec (Minor a) (Minor b)); lia);
    try (destruct (Z.ltb_spec (Minor b) (Minor c)); lia);
    try (destruct (Z.ltb_spec (Minor a) (Minor c)); lia).
  destruct (Z.eqb_spec (Patch a) (Patch b)), (Z.eqb_spec (Patch b) (Patch c)),
    (Z.eqb_spec (Patch a) (Patch c)); cbn [negb]; try lia;
    try (destruct (Z.ltb_spec (Patch a) (Patch b)), (Z.ltb_spec (Patch b) (Patch c)),
           (Z.ltb_spec (Patch a) (Patch c)); lia);
    try (destruct (Z.ltb_spec (Patch a) (Patch b)); lia);
    try (destruct (Z.ltb_spec (Patch b) (Patch c)); lia);
    try (destruct (Z.ltb_spec (Patch a) (Patch c)); lia).
  destruct (String.eqb (Prerelease a) EmptyString),
    (String.eqb (Prerelease b) EmptyString),
    (String.eqb (Prerelease c) EmptyString); cbn [andb negb]; try lia.
  apply comparePrereleaseParts_trans.
Qed.

(** X30 (semantic_version.go, [SemanticVersion.Sort]): the comparison of
    two semantic versions is a total preorder that ignores the build
    metadata: swapping the arguments flips the sign of the result, "not
    above" is transitive, a version compares equal to itself, replacing
    the build metadata of either argument changes nothing, a smaller
    major number decides alone, and a release is above every prerelease
    of the same major, minor and patch numbers. *)
Theorem SemanticVersion_Sort_orders (a b c : SemanticVersion) :
  Z.sgn (SemanticVersion_Sort b a) = - Z.sgn (SemanticVersion_Sort a b) /\
  (SemanticVersion_Sort a b <= 0 -> SemanticVersion_Sort b c <= 0 ->
   SemanticVersion_Sort a c <= 0) /\
  SemanticVersion_Sort a a = 0 /\
  (forall build build',
     SemanticVersion_Sort
       (mkSemanticVersion (Major a) (Minor a) (Patch a) (Prerelease a) build)
       (mkSemanticVersion (Major b) (Minor b) (Patch b) (Prerelease b) build') =
     SemanticVersion_Sort a b) /\
  (Major a < Major b -> SemanticVersion_Sort a b = -1) /\
  (Major a = Major b -> Minor a = Minor b -> Patch a = Patch b ->
   Prerelease a = EmptyString -> Prerelease b <> EmptyString ->
   SemanticVersion_Sort a b = 1).
Proof.
  split; [apply SemanticVersion_Sort_antisym |].
  split; [apply SemanticVersion_Sort_trans |].
  split.
  { pose proof (SemanticVersion_Sort_antisym a a) as Hs.
    destruct (SemanticVersion_Sort a a); cbn in Hs; [reflexivity | |];
      discriminate. }
  split; [intros build build'; reflexivity |].
  split.
  - intros Hlt. unfold SemanticVersion_Sort.
    destruct (Z.eqb_spec (Major a) (Major b)) as [E | E]; [lia |].
    cbn [negb]. destruct (Z.ltb_spec (Major a) (Major b)); [reflexivity | lia].
  - intros Hma Hmi Hpa Ha Hb. unfold SemanticVersion_Sort.
    rewrite Hma, Hmi, Hpa, !Z.eqb_refl, Ha. cbn [negb String.eqb andb].
    destruct (String.eqb_spec (Prerelease b) EmptyString) as [E | E];
      [contradiction | reflexivity].
Qed.

End SemanticVersions.

(** ** The statements at concrete inputs *)

Lemma lowerRange_disjointAscending : disjointAscending lowerRange.
Proof. apply intervalSetFromBounds_disjointAscending. Qed.

Lemma upperRange_disjointAscending : disjointAscending upperRange.
Proof. apply intervalSetFromBounds_disjointAscending. Qed.

Lemma adjacentUnion_disjointAscending : disjointAscending adjacentUnion.
Proof. apply Union_disjointAscending. Qed.

Lemma SimpleVersion_String_Sort (x y : SimpleVersion) :
  VersionString x = VersionString y <-> Sort x y = 0.
Proof.
  cbn. unfold strings_Compare.
  assert (Hrefl : String.compare y y = Eq).
  { pose proof (String.compare_antisym y y) as Ha.
    destruct (String.compare y y); [reflexivity | discriminate | discriminate]. }
  destruct (String.compare x y) eqn:E.
  - apply String.compare_eq_iff in E. tauto.
  - split; [intros -> | discriminate]. congruence.
  - split; [intros -> | discriminate]. congruence.
Qed.

Lemma twoDecisions_reachable :
  reachable (MakeName "$$root") (Some "1") twoDecisions.
Proof.
  apply (reachable_decision (MakeName "$$root") (Some "1") _ (MakeName "B") (Some "2.0.0")).
  - apply (reachable_decision (MakeName "$$root") (Some "1") _ (MakeName "A") (Some "1.1.0")).
    + apply reachable_seed.
    + discriminate.
    + vm_compute. reflexivity.
  - discriminate.
  - vm_compute. reflexivity.
Qed.

Lemma twoDecisions_indexes (n : Name) :
  Forall (fun a => 0 <= index a) (stackOf twoDecisions n).
Proof.
  rewrite (stackOf_lockstep _ _ (proj1 twoDecisions_wellFormed)).
  unfold logStack. apply List.Forall_forall. intros a Ha.
  apply List.filter_In in Ha. destruct Ha as [Ha _].
  destruct (reachable_indexes _ _ _ twoDecisions_reachable) as (_ & Hall & _).
  rewrite List.Forall_forall in Hall. exact (proj1 (Hall a Ha)).
Qed.

Lemma seededState_queueConsistent : queueConsistent seededState.
Proof.
  split; [constructor |].
  intros n. change (queued seededState) with (∅ : gset Name).
  change (queue seededState) with (@nil Name).
  split; [intros Hin; exact (False_ind _ (not_elem_of_empty n Hin)) | intros []].
Qed.

Lemma set_algebra_laws_on_members_witness :
  disjointAscending lowerRange /\ disjointAscending upperRange /\
  Contains (Complement (Union lowerRange (Some upperRange))) (Some "2.0.0")
  = Contains (Intersection (Complement lowerRange) (Some (Complement upperRange)))
      (Some "2.0.0") /\
  Contains (Complement (Complement lowerRange)) (Some "2.0.0")
  = Contains lowerRange (Some "2.0.0").
Proof.
  pose proof (set_algebra_laws_on_members lowerRange upperRange "2.0.0"
                lowerRange_disjointAscending upperRange_disjointAscending) as Hthm.
  split; [exact lowerRange_disjointAscending |].
  split; [exact upperRange_disjointAscending |].
  destruct Hthm as (Hmorgan & _ & _ & Hinv & _).
  split; [exact Hmorgan | exact Hinv].
Defined.

Lemma set_operations_members_witness :
  disjointAscending lowerRange /\ disjointAscending upperRange /\
  Contains (Union lowerRange (Some upperRange)) (Some "2.0.0")
  = Contains lowerRange (Some "2.0.0") || Contains upperRange (Some "2.0.0") /\
  Contains (Intersection lowerRange (Some upperRange)) (Some "2.0.0")
  = Contains lowerRange (Some "2.0.0") && Contains upperRange (Some "2.0.0") /\
  Contains (Complement lowerRange) (Some "2.0.0")
  = negb (Contains lowerRange (Some "2.0.0")).
Proof.
  pose proof (set_operations_members lowerRange upperRange "2.0.0"
                lowerRange_disjointAscending upperRange_disjointAscending) as Hthm.
  split; [exact lowerRange_disjointAscending |].
  split; [exact upperRange_disjointAscending |].
  destruct Hthm as (Hu & Hi & Hc & _).
  split; [exact Hu |]. split; [exact Hi | exact Hc].
Defined.

Lemma set_laws_between_produced_sets_witness :
  disjointAscending adjacentUnion /\
  newVersionIntervalSet adjacentUnion = adjacentUnion /\
  Union adjacentUnion (Some adjacentUnion) = adjacentUnion /\
  Intersection adjacentUnion (Some adjacentUnion) = adjacentUnion /\
  Intersection adjacentUnion (Some Full) = adjacentUnion.
Proof.
  pose proof (set_laws_between_produced_sets adjacentUnion
                adjacentUnion_disjointAscending) as Hthm.
  split; [exact adjacentUnion_disjointAscending |].
  destruct Hthm as (Hn & Hu & Hi & _ & _ & _ & Hf & _).
  split; [exact Hn |]. split; [exact Hu |]. split; [exact Hi | exact Hf].
Defined.

Lemma IsSubset_sound_witness :
  disjointAscending lowerRange /\
  IsSubset lowerRange (Some adjacentUnion) = true /\
  (forall v, Contains lowerRange v = true -> Contains adjacentUnion v = true) /\
  IsSubset lowerRange (Some lowerRange) = true.
Proof.
  assert (Hsub : IsSubset lowerRange (Some adjacentUnion) = true)
    by (vm_compute; reflexivity).
  pose proof (IsSubset_sound lowerRange adjacentUnion lowerRange_disjointAscending)
    as Hthm.
  split; [exact lowerRange_disjointAscending |]. split; [exact Hsub |].
  destruct Hthm as (Hsound & Hrefl & _).
  split; [exact (Hsound Hsub) | exact Hrefl].
Defined.

Lemma IsDisjoint_empty_Intersection_witness :
  disjointAscending lowerRange /\ disjointAscending upperRange /\
  IsDisjoint lowerRange (Some upperRange)
  = IsEmpty (Intersection lowerRange (Some upperRange)) /\
  IsDisjoint lowerRange (Some upperRange) = IsDisjoint upperRange (Some lowerRange).
Proof.
  pose proof (IsDisjoint_empty_Intersection lowerRange upperRange
                lowerRange_disjointAscending upperRange_disjointAscending) as Hthm.
  split; [exact lowerRange_disjointAscending |].
  split; [exact upperRange_disjointAscending |].
  destruct Hthm as (He & Hs & _).
  split; [exact He | exact Hs].
Defined.

Lemma setsEqual_sound_witness :
  disjointAscending adjacentUnion /\ disjointAscending lowerRange /\
  setsEqual (Some adjacentUnion) (Some adjacentUnion) = true /\
  setsEqual (Some adjacentUnion) (Some lowerRange)
  = setsEqual (Some lowerRange) (Some adjacentUnion).
Proof.
  pose proof (setsEqual_sound adjacentUnion lowerRange
                adjacentUnion_disjointAscending lowerRange_disjointAscending) as Hthm.
  split; [exact adjacentUnion_disjointAscending |].
  split; [exact lowerRange_disjointAscending |].
  destruct Hthm as (Hr & Hs & _).
  split; [exact Hr | exact Hs].
Defined.

Lemma SatisfiedBy_termSet_witness :
  (forall x y : SimpleVersion, VersionString x = VersionString y <-> Sort x y = 0) /\
  termSet (Negate (exactly "B" "2.0.0")) = Some (Singleton (Some "2.0.0")) /\
  SatisfiedBy (Negate (exactly "B" "2.0.0")) (Some "1.0.0") = Some true /\
  true = negb (Contains (Singleton (Some "2.0.0")) (Some "1.0.0")).
Proof.
  assert (Hset : termSet (Negate (exactly "B" "2.0.0"))
                 = Some (Singleton (Some "2.0.0"))) by reflexivity.
  assert (Hsat : SatisfiedBy (Negate (exactly "B" "2.0.0")) (Some "1.0.0") = Some true)
    by reflexivity.
  split; [exact SimpleVersion_String_Sort |].
  split; [exact Hset |]. split; [exact Hsat |].
  exact (SatisfiedBy_termSet (Negate (exactly "B" "2.0.0")) _ "1.0.0" true
           SimpleVersion_String_Sort Hset Hsat).
Defined.

Lemma applyTermToAllowed_narrows_witness :
  disjointAscending lowerRange /\
  termSet (Negate (exactly "B" "1.5.0")) = Some (Singleton (Some "1.5.0")) /\
  exists r,
    applyTermToAllowed (Some lowerRange) (Negate (exactly "B" "1.5.0")) = ok r /\
    disjointAscending r /\
    forall v : SimpleVersion,
      Contains r (Some v)
      = Contains lowerRange (Some v) && negb (Contains (Singleton (Some "1.5.0")) (Some v)).
Proof.
  pose proof (applyTermToAllowed_narrows lowerRange (Negate (exactly "B" "1.5.0"))
                lowerRange_disjointAscending) as Hthm.
  split; [exact lowerRange_disjointAscending |]. split; [reflexivity |].
  destruct Hthm as [Hthm _].
  change (termSet (Negate (exactly "B" "1.5.0")))
    with (Some (Singleton (Some ("1.5.0" : SimpleVersion)))) in Hthm.
  destruct Hthm as (r & Hr & Hnormal & Hmem).
  exists r. split; [exact Hr |]. split; [exact Hnormal |].
  exact (Hmem (Singleton_disjointAscending _)).
Defined.

Lemma addDerivation_narrows_witness :
  termSet (Negate (exactly "A" "2.0.0")) = Some (Singleton (Some "2.0.0")) /\
  disjointAscending (Singleton (Some ("2.0.0" : SimpleVersion))) /\
  exists a changed,
    snd (addDerivation twoDecisions (Negate (exactly "A" "2.0.0")) None)
    = ok (a, changed) /\
    latest (fst (addDerivation twoDecisions (Negate (exactly "A" "2.0.0")) None))
      (MakeName "A") = Some a /\
    forall v : SimpleVersion,
      Contains (allowedSet
                  (fst (addDerivation twoDecisions (Negate (exactly "A" "2.0.0")) None))
                  (MakeName "A")) (Some v)
      = Contains (allowedSet twoDecisions (MakeName "A")) (Some v) &&
        negb (Contains (Singleton (Some "2.0.0")) (Some v)).
Proof.
  assert (Hset : termSet (Negate (exactly "A" "2.0.0"))
                 = Some (Singleton (Some "2.0.0"))) by reflexivity.
  split; [exact Hset |]. split; [apply Singleton_disjointAscending |].
  destruct (snd (addDerivation twoDecisions (Negate (exactly "A" "2.0.0")) None))
    as [[a changed] | e] eqn:Hrun; [| vm_compute in Hrun; discriminate].
  exists a, changed. split; [reflexivity |].
  pose proof (addDerivation_narrows twoDecisions (Negate (exactly "A" "2.0.0")) None
                _ a changed Hset (Singleton_disjointAscending _) Hrun) as Hthm.
  cbv zeta in Hthm. destruct Hthm as (Hmem & _ & _ & Hlatest & _).
  split; [exact Hlatest | exact Hmem].
Defined.

Lemma pending_packages_and_candidate_witness :
  stacksInLockstep twoDecisions /\
  nextDecisionCandidate twoDecisions = List.hd_error (pendingPackages twoDecisions) /\
  (isComplete twoDecisions = true <-> pendingPackages twoDecisions = []).
Proof.
  pose proof (pending_packages_and_candidate twoDecisions
                (proj1 twoDecisions_wellFormed)) as Hthm.
  split; [exact (proj1 twoDecisions_wellFormed) |].
  destruct Hthm as (Hnext & _ & _ & Hcomplete & _).
  split; [exact Hnext | exact Hcomplete].
Defined.

Lemma assignment_indexes_identify_witness :
  reachable (MakeName "$$root") (Some "1") twoDecisions /\
  NoDup (List.map index (assignments twoDecisions)) /\
  (forall a b, In a (assignments twoDecisions) -> In b (assignments twoDecisions) ->
               index a = index b -> a = b).
Proof.
  pose proof (assignment_indexes_identify _ _ _ twoDecisions_reachable) as Hthm.
  split; [exact twoDecisions_reachable |].
  destruct Hthm as (_ & _ & Hnodup & Hid).
  split; [exact Hnodup | exact Hid].
Defined.

Lemma satisfier_most_recent_witness :
  (forall n, Forall (fun a => 0 <= index a) (stackOf twoDecisions n)) /\
  match satisfier twoDecisions
          (NewIncompatibilityNoVersions (exactly "B" "2.0.0")) with
  | Some a =>
      (exists t,
          In t (Terms (NewIncompatibilityNoVersions (exactly "B" "2.0.0"))) /\
          topSatisfying t (stackOf twoDecisions (TermName t)) = Some a /\
          In a (stackOf twoDecisions (TermName t)) /\ termSatisfiedBy t a = true) /\
      (forall t a',
          In t (Terms (NewIncompatibilityNoVersions (exactly "B" "2.0.0"))) ->
          topSatisfying t (stackOf twoDecisions (TermName t)) = Some a' ->
          index a' <= index a)
  | None =>
      forall t a',
        In t (Terms (NewIncompatibilityNoVersions (exactly "B" "2.0.0"))) ->
        In a' (stackOf twoDecisions (TermName t)) ->
        termSatisfiedBy t a' = false
  end.
Proof.
  split; [exact twoDecisions_indexes |].
  exact (satisfier_most_recent twoDecisions
           (NewIncompatibilityNoVersions (exactly "B" "2.0.0")) twoDecisions_indexes).
Defined.

Lemma backtrack_composes_witness :
  wellFormed twoDecisions /\ 0 <= 1 /\ 1 <= 2 /\
  backtrack (backtrack twoDecisions 2) 1 = backtrack twoDecisions 1 /\
  backtrack (backtrack twoDecisions 2) 2 = backtrack twoDecisions 2.
Proof.
  assert (Hlow : 0 <= 1) by lia.
  assert (Hle : 1 <= 2) by lia.
  pose proof (backtrack_composes twoDecisions 2 1 twoDecisions_wellFormed Hlow Hle)
    as Hthm.
  split; [exact twoDecisions_wellFormed |]. split; [exact Hlow |].
  split; [exact Hle |].
  destruct Hthm as (Hcomp & Hidem & _).
  split; [exact Hcomp | exact Hidem].
Defined.

Lemma queue_holds_each_name_once_witness :
  queueConsistent seededState /\
  queueConsistent (enqueue seededState (MakeName "A")) /\
  queue (enqueue seededState (MakeName "A")) = queue seededState ++ [MakeName "A"] /\
  enqueue (enqueue seededState (MakeName "A")) (MakeName "A")
  = enqueue seededState (MakeName "A").
Proof.
  pose proof (queue_holds_each_name_once seededState (MakeName "A")
                seededState_queueConsistent) as Hthm.
  split; [exact seededState_queueConsistent |].
  destruct Hthm as (Henq & _ & _ & Hnew & Htwice & _).
  split; [exact Henq |].
  split; [apply Hnew; intros [] | exact Htwice].
Defined.

Lemma Solve_solution_is_complete_witness :
  Solve 100 backtrackingSolver pinnedRoot
  = Some (ok [ {| NVName := MakeName "$$root"; NVVersion := Some "1" |};
               {| NVName := MakeName "A"; NVVersion := Some "1.1.0" |};
               {| NVName := MakeName "B"; NVVersion := Some "1.0.0" |} ]) /\
  GetVersion [ {| NVName := MakeName "$$root"; NVVersion := Some "1" |};
               {| NVName := MakeName "A"; NVVersion := Some "1.1.0" |};
               {| NVName := MakeName "B"; NVVersion := Some "1.0.0" |} ]
    (TermName pinnedRoot) = Some (Some "1") /\
  exists ps,
    reachable (TermName pinnedRoot) (Some "1") ps /\
    pendingPackages ps = [].
Proof.
  assert (Hsolve :
    Solve 100 backtrackingSolver pinnedRoot
    = Some (ok [ {| NVName := MakeName "$$root"; NVVersion := Some "1" |};
                 {| NVName := MakeName "A"; NVVersion := Some "1.1.0" |};
                 {| NVName := MakeName "B"; NVVersion := Some "1.0.0" |} ]))
    by (vm_compute; reflexivity).
  split; [exact Hsolve |].
  destruct (Solve_solution_is_complete 100 backtrackingSolver pinnedRoot _ Hsolve)
    as (ver & ps & Hver & Hreach & _ & Hpending & _ & Hroot & _).
  assert (Hv : ver = Some ("1" : SimpleVersion)).
  { assert (Hx : extractDecisionVersion pinnedRoot = ok (Some ("1" : SimpleVersion)))
      by reflexivity.
    rewrite Hx in Hver. injection Hver as Hv. symmetry. exact Hv. }
  subst ver. split; [exact Hroot |].
  exists ps. split; [exact Hreach | exact Hpending].
Defined.

(** * Term classification, catalog errors and the solution of a solve *)

(** ** The classification of a term at the adjacent ranges *)

Lemma Contains_closed_range (lo up v : SimpleVersion) (li ui : bool) :
  Contains (NewVersionRangeSet (Some lo) li (Some up) ui) (Some v) = true <->
  (if li then 0 <= Sort v lo else 0 < Sort v lo) /\
  (if ui then Sort v up <= 0 else Sort v up < 0).
Proof.
  unfold NewVersionRangeSet. rewrite Contains_intervalSetFromBounds.
  unfold newLowerBound, newUpperBound.
  rewrite lower_cut_version, upper_cut_version. reflexivity.
Qed.

Lemma wholeRange_within_adjacentUnion (v : option SimpleVersion) :
  Contains wholeRange v = true -> Contains adjacentUnion v = true.
Proof.
  destruct v as [v |]; [| vm_compute; discriminate].
  unfold adjacentUnion.
  rewrite (Contains_Union _ _ _ lowerRange_disjointAscending
             upperRange_disjointAscending).
  unfold wholeRange, lowerRange, upperRange. intros Hin.
  apply Contains_closed_range in Hin. destruct Hin as [Hlo Hup].
  apply orb_true_iff.
  destruct (Z_lt_ge_dec (Sort v ("2.0.0" : SimpleVersion)) 0) as [Hlt | Hge].
  - left. apply Contains_closed_range. split; [exact Hlo | exact Hlt].
  - right. apply Contains_closed_range. split; [lia | exact Hup].
Qed.

(** C2, at the whole range [[1.0.0, 3.0.0]] against the union of
    [[1.0.0, 2.0.0)] and [[2.0.0, 3.0.0]]: package [B] has an
    assignment and its allowed set [A] is the whole range; every version
    of [A] is in the set [R] of the term (and 2.0.0 is in both), so the
    positive term is to be satisfied and the negative one contradicted.
    [IsSubset] answers false, because no single interval of [R] covers
    the interval of [A], and [relationForTerm] answers inconclusive for
    both terms.  Against the whole range itself, and against the
    versions from 4.0.0 on, which share no version with [A], the answers
    are the ones to expect. *)
Theorem relationForTerm_misses_inclusion :
  allowedSet rangeDerived (MakeName "B") = wholeRange /\
  hasAssignments rangeDerived (MakeName "B") = true /\
  termSet withinAdjacentUnion = Some adjacentUnion /\
  termSet (Negate withinAdjacentUnion) = Some adjacentUnion /\
  (forall v, Contains wholeRange v = true -> Contains adjacentUnion v = true) /\
  Contains wholeRange (Some "2.0.0") = true /\
  IsSubset wholeRange (Some adjacentUnion) = false /\
  IsDisjoint wholeRange (Some adjacentUnion) = false /\
  relationForTerm withinAdjacentUnion
    (Some (allowedSet rangeDerived (MakeName "B")))
    (hasAssignments rangeDerived (MakeName "B"))
  = relationInconclusive /\
  relationForTerm (Negate withinAdjacentUnion)
    (Some (allowedSet rangeDerived (MakeName "B")))
    (hasAssignments rangeDerived (MakeName "B"))
  = relationInconclusive /\
  relationForTerm
    (NewTerm (MakeName "B") (Some (NewVersionSetCondition (Some wholeRange))))
    (Some (allowedSet rangeDerived (MakeName "B")))
    (hasAssignments rangeDerived (MakeName "B"))
  = relationSatisfied /\
  relationForTerm
    (NewNegativeTerm (MakeName "B") (Some (NewVersionSetCondition (Some wholeRange))))
    (Some (allowedSet rangeDerived (MakeName "B")))
    (hasAssignments rangeDerived (MakeName "B"))
  = relationContradicted /\
  relationForTerm
    (NewTerm (MakeName "B")
       (Some (NewVersionSetCondition (Some (NewLowerBoundVersionSet (Some "4.0.0") true)))))
    (Some (allowedSet rangeDerived (MakeName "B")))
    (hasAssignments rangeDerived (MakeName "B"))
  = relationContradicted /\
  relationForTerm
    (NewNegativeTerm (MakeName "B")
       (Some (NewVersionSetCondition (Some (NewLowerBoundVersionSet (Some "4.0.0") true)))))
    (Some (allowedSet rangeDerived (MakeName "B")))
    (hasAssignments rangeDerived (MakeName "B"))
  = relationSatisfied.
Proof.
  split; [vm_compute; reflexivity |].
  split; [vm_compute; reflexivity |].
  split; [reflexivity |].
  split; [reflexivity |].
  split; [exact wholeRange_within_adjacentUnion |].
  split; [vm_compute; reflexivity |].
  split; [vm_compute; reflexivity |].
  split; [vm_compute; reflexivity |].
  split; [vm_compute; reflexivity |].
  split; [vm_compute; reflexivity |].
  split; [vm_compute; reflexivity |].
  split; [vm_compute; reflexivity |].
  split; vm_compute; reflexivity.
Qed.

(** ** Catalog errors in the decision step *)

Section CatalogErrors.
Context {V : Type} `{Version V}.

Implicit Types (st : solverState V) (n : Name) (e : error V).

(** [addIncompatibility] lists the incompatibility under the package
    of each of its terms. *)
Lemma addIncompatibility_registers st (incomp : Incompatibility V) (t : Term V) :
  In t (Terms incomp) ->
  In incomp (default [] (incompatibilities (addIncompatibility st incomp) !! TermName t)).
Proof.
  unfold addIncompatibility. cbn [incompatibilities].
  set (step := fun (m : gmap Name (list (Incompatibility V))) (u : Term V) =>
                 <[TermName u := default [] (m !! TermName u) ++ [incomp]]> m).
  assert (Hkeep : forall (terms : list (Term V)) m k,
             In incomp (default [] (m !! k)) ->
             In incomp (default [] (fold_left step terms m !! k))).
  { induction terms as [| u terms IH]; intros m k Hin; [exact Hin |].
    cbn [fold_left]. apply IH. unfold step.
    destruct (decide (TermName u = k)) as [<- | Hne].
    - rewrite lookup_insert_eq. cbn. apply List.in_or_app. left. exact Hin.
    - rewrite lookup_insert_ne by exact Hne. exact Hin. }
  generalize (incompatibilities st).
  induction (Terms incomp) as [| u terms IH]; intros m Hin; [destruct Hin |].
  cbn [fold_left]. destruct Hin as [-> | Hin].
  - apply Hkeep. unfold step. rewrite lookup_insert_eq. cbn.
    apply List.in_or_app. right. left. reflexivity.
  - apply IH. exact Hin.
Qed.

(** The incompatibility [resolveIncompatibility] derives is a conflict
    that records its two parents. *)
Lemma resolveIncompatibility_parents (conflict cause : Incompatibility V) (pkg : Name) :
  Kind (resolveIncompatibility conflict cause pkg) = KindConflict /\
  Cause1 (resolveIncompatibility conflict cause pkg) = Some conflict /\
  Cause2 (resolveIncompatibility conflict cause pkg) = Some cause.
Proof.
  unfold resolveIncompatibility. cbn zeta.
  destruct (collectTerms pkg _ (Terms conflict)) as [fromConflict m3].
  destruct (collectTerms pkg m3 (Terms cause)) as [fromCause m4].
  repeat split.
Qed.


End CatalogErrors.

(** ** The run of the solver and the solution it returns *)

Section SolverRun.
Context {V : Type} `{Version V}.

Implicit Types (st : solverState V) (ps : partialSolution V) (n : Name).

(** A successful solve enters the loop. *)
Lemma Solve_enters_loop fuel (s : Solver V) (rootTerm : Term V) sol :
  Solve fuel s rootTerm = Some (ok sol) ->
  exists ver st conflict,
    extractDecisionVersion rootTerm = ok ver /\
    loopHead s rootTerm st conflict None /\
    solveLoop fuel s 0 st conflict None = Some (ok sol).
Proof.
  unfold Solve.
  destruct (extractDecisionVersion rootTerm) as [ver | e] eqn:Hver; [| discriminate].
  cbn [partial newSolverState].
  pose proof (loopHead_first s rootTerm ver) as Hfirst.
  destruct (seedRoot (newPartialSolution (TermName rootTerm)) (TermName rootTerm) ver)
    as [ps a] eqn:Hseed.
  cbn [fst snd] in Hfirst.
  destruct (GetDependencies (SolverSource s) (TermName rootTerm) ver)
    as [deps | e] eqn:Hdeps; [| discriminate].
  specialize (Hfirst deps).
  destruct (registerDependencies _ (TermName rootTerm) ver deps)
    as [st [conflict | e]] eqn:Hreg; [| discriminate].
  intros Hloop. exists ver, (enqueue st (name a)), conflict.
  split; [reflexivity |]. split; [| exact Hloop].
  exact (Hfirst st conflict Hver eq_refl eq_refl).
Qed.

(** The loop returns a solution from an iteration at one of its
    heads. *)
Lemma solveLoop_run (s : Solver V) (rootTerm : Term V) :
  forall fuel steps st conflict seed sol,
    loopHead s rootTerm st conflict seed ->
    solveLoop fuel s steps st conflict seed = Some (ok sol) ->
    exists fuel' st' conflict' seed',
      loopHead s rootTerm st' conflict' seed' /\
      solveStep fuel' s st' conflict' seed' = Some (stepReturn (ok sol)).
Proof.
  induction fuel as [| fuel IH]; intros steps st conflict seed sol Hhead;
    [discriminate |].
  cbn [solveLoop]. destruct (_ && _); [discriminate |].
  destruct (solveStep fuel s st conflict seed) as [[[sol' | e] | st' c' seed'] |] eqn:E;
    [| discriminate | | discriminate].
  - intros [= <-]. exists fuel, st, conflict, seed. split; [exact Hhead | exact E].
  - apply IH. exact (loopHead_next s rootTerm fuel st conflict seed st' c' seed' Hhead E).
Qed.

(** The partial solution at a head of the loop is one the solve goes
    through. *)
Lemma loopHead_reachable (s : Solver V) (rootTerm : Term V) (ver : option V)
    st conflict seed :
  extractDecisionVersion rootTerm = ok ver ->
  loopHead s rootTerm st conflict seed ->
  reachable (TermName rootTerm) ver (partial st).
Proof.
  intros Hver Hhead.
  assert (Hder : forall ps t c,
             reachable (TermName rootTerm) ver ps ->
             reachable (TermName rootTerm) ver (fst (addDerivation ps t c)))
    by (intros ps t c; apply reachable_derivation).
  assert (Hback : forall ps level,
             reachable (TermName rootTerm) ver ps ->
             reachable (TermName rootTerm) ver (backtrack ps level))
    by (intros ps level; apply reachable_backtrack).
  assert (Hdec : forall ps n v,
             reachable (TermName rootTerm) ver ps ->
             n <> root ps -> hasDecision ps n = false ->
             reachable (TermName rootTerm) ver (fst (addDecision ps n v))).
  { intros ps n v Hr Hroot Hd. apply reachable_decision; [exact Hr | | exact Hd].
    rewrite <- (reachable_root _ _ _ Hr). exact Hroot. }
  induction Hhead as [ver' deps state conflict Hver' Hdeps Hreg
                     | fuel st conflict seed st' conflict' seed' Hhead IH Hstep].
  - rewrite Hver in Hver'. injection Hver' as <-.
    rewrite partial_enqueue.
    pose proof (registerDependencies_invariant
                  (reachable (TermName rootTerm) ver) Hder deps
                  (withPartial
                     (newSolverState (SolverSource s) (solverOptions s)
                        (TermName rootTerm))
                     (fst (seedRoot (newPartialSolution (TermName rootTerm))
                                    (TermName rootTerm) ver)))
                  (TermName rootTerm) ver) as Hinv.
    rewrite Hreg in Hinv. cbn [fst] in Hinv. apply Hinv. apply reachable_seed.
  - pose proof (solveStep_invariant (reachable (TermName rootTerm) ver)
                  Hder Hback Hdec fuel s st conflict seed IH) as Hinv.
    rewrite Hstep in Hinv. exact Hinv.
Qed.

(** With the stacks in lockstep, the packages that have a decision are
    the packages of the decisions of the log. *)
Lemma hasDecision_log ps n :
  stacksInLockstep ps ->
  hasDecision ps n = true <->
  In n (List.map name (List.filter isDecision (assignments ps))).
Proof.
  intros Hlock. unfold hasDecision. rewrite (stackOf_lockstep _ _ Hlock).
  unfold logStack. rewrite existsb_exists, List.in_map_iff. split.
  - intros (a & Hin & Hd). apply List.filter_In in Hin. destruct Hin as [Hin Hn].
    apply bool_decide_eq_true_1 in Hn. exists a. split; [exact Hn |].
    apply List.filter_In. split; assumption.
  - intros (a & Hn & Hin). apply List.filter_In in Hin. destruct Hin as [Hin Hd].
    exists a. split; [| exact Hd]. apply List.filter_In.
    split; [exact Hin | apply bool_decide_eq_true_2; exact Hn].
Qed.

(** The source of the solver state stays the one it was created
    with. *)
Lemma source_enqueue st n : source (enqueue st n) = source st.
Proof. unfold enqueue. destruct (bool_decide _); reflexivity. Qed.

Lemma source_dequeue st : source (fst (dequeue st)) = source st.
Proof. unfold dequeue. destruct (queue st); reflexivity. Qed.

Lemma source_applyConstraint st (t : Term V) c :
  source (fst (applyConstraint st t c)) = source st.
Proof.
  unfold applyConstraint.
  destruct (addDerivation (partial st) t c) as [ps [[a changed] | e]]; cbn [fst].
  - rewrite source_enqueue. reflexivity.
  - destruct (errorsIsNoAllowedVersions e); [destruct c |]; reflexivity.
Qed.

Lemma source_registerDependencies (deps : list (Term V)) :
  forall st pkg ver,
    source (fst (registerDependencies st pkg ver deps)) = source st.
Proof.
  induction deps as [| dep rest IH]; intros st pkg ver; [reflexivity |].
  cbn [registerDependencies].
  pose proof (source_applyConstraint
                (addIncompatibility st (NewIncompatibilityFromDependency pkg ver dep))
                dep (Some (NewIncompatibilityFromDependency pkg ver dep))) as Hs.
  destruct (applyConstraint _ dep _) as [st1 [[conflict |] | e]]; cbn [fst] in Hs |- *.
  - exact Hs.
  - rewrite IH. exact Hs.
  - exact Hs.
Qed.

Lemma source_propagateIncompatibilities (incs : list (Incompatibility V)) :
  forall st, source (fst (propagateIncompatibilities st incs)) = source st.
Proof.
  induction incs as [| inc rest IH]; intros st; [reflexivity |].
  cbn [propagateIncompatibilities].
  destruct (evaluateIncompatibility st inc) as [[| | |] [unsatisfied |]];
    try apply IH; try reflexivity.
  destruct (addDerivation (partial st) (Negate unsatisfied) (Some inc))
    as [ps [[a changed] | e]]; cbn [fst].
  - rewrite IH. destruct changed; [rewrite source_enqueue |]; reflexivity.
  - destruct (errorsIsNoAllowedVersions e); reflexivity.
Qed.

Lemma source_propagateLoop :
  forall fuel st st' r,
    propagateLoop fuel st = Some (st', r) -> source st' = source st.
Proof.
  induction fuel as [| fuel IH]; intros st st' r; [discriminate |].
  cbn [propagateLoop].
  pose proof (source_dequeue st) as Hdq.
  destruct (dequeue st) as [st1 [pkg |]]; cbn [fst] in Hdq.
  - pose proof (source_propagateIncompatibilities
                  (default [] (incompatibilities st1 !! pkg)) st1) as Hinc.
    destruct (propagateIncompatibilities st1 _) as [st2 [| r2]]; cbn [fst] in Hinc.
    + intros Hloop. rewrite (IH _ _ _ Hloop). congruence.
    + intros [= <- <-]. congruence.
  - intros [= <- <-]. exact Hdq.
Qed.

Lemma source_propagate fuel st start st' r :
  propagate fuel st start = Some (st', r) -> source st' = source st.
Proof.
  unfold propagate. intros Hloop. rewrite (source_propagateLoop _ _ _ _ Hloop).
  destruct (bool_decide _); [apply source_enqueue | reflexivity].
Qed.

Lemma source_resolveConflict :
  forall fuel st conflict st' r,
    resolveConflict fuel st conflict = Some (st', r) -> source st' = source st.
Proof.
  induction fuel as [| fuel IH]; intros st conflict st' r; [discriminate |].
  cbn [resolveConflict].
  destruct (satisfier (partial st) conflict) as [sat |];
    [| intros [= <- <-]; reflexivity].
  destruct ((decisionLevel sat =? 0) && isDecision sat);
    [intros [= <- <-]; reflexivity |].
  destruct (isDecision sat && _).
  - intros [= <- <-]. reflexivity.
  - destruct (cause sat) as [c |]; [| intros [= <- <-]; reflexivity].
    apply IH.
Qed.

(** The version [pickVersion] finds is one the catalog lists for the
    package, and the allowed set of the package contains it. *)
Lemma pickVersion_listed st n (ver : option V) :
  pickVersion st n = ok (Some ver) ->
  exists versions,
    GetVersions (source st) n = ok versions /\ In ver versions /\
    Contains (allowedSet (partial st) n) ver = true.
Proof.
  unfold pickVersion.
  destruct (IsEmpty (allowedSet (partial st) n)); [discriminate |].
  destruct (GetVersions (source st) n) as [versions | e].
  - intros [= Hfind]. apply List.find_some in Hfind. destruct Hfind as [Hin Hc].
    exists versions. split; [reflexivity |]. split; [| exact Hc].
    apply List.in_rev. exact Hin.
  - destruct (_ || _); discriminate.
Qed.

(** Along the run, every decision other than the one of the root has
    a version the catalog lists for its package. *)
Section CatalogOfTheRun.
Variable s : Solver V.
Variable rootTerm : Term V.
Variable ver : option V.
Hypothesis Hver : extractDecisionVersion rootTerm = ok ver.

Lemma listedDecisions_derivation ps (t : Term V) c :
  (listedDecisions s rootTerm ver) ps -> (listedDecisions s rootTerm ver) (fst (addDerivation ps t c)).
Proof.
  intros [Hr Hl]. split; [apply reachable_derivation; exact Hr |].
  destruct (addDerivation_log ps t c) as (later & -> & Hlater & _).
  intros a Hin Hd. apply List.in_app_or in Hin. destruct Hin as [Hin | Hin].
  - exact (Hl a Hin Hd).
  - rewrite List.Forall_forall in Hlater. rewrite (Hlater a Hin) in Hd. discriminate.
Qed.

Lemma listedDecisions_backtrack ps level :
  (listedDecisions s rootTerm ver) ps -> (listedDecisions s rootTerm ver) (backtrack ps level).
Proof.
  intros [Hr Hl]. split; [apply reachable_backtrack; exact Hr |].
  rewrite (backtrack_upToLevel ps level (reachable_wellFormed _ _ _ Hr)).
  intros a Hin. apply List.filter_In in Hin. destruct Hin as [Hin _].
  exact (Hl a Hin).
Qed.

Lemma loopHead_listed st conflict seed :
  loopHead s rootTerm st conflict seed ->
  source st = SolverSource s /\ (listedDecisions s rootTerm ver) (partial st).
Proof.
  induction 1 as [ver' deps state conflict Hver' Hdeps Hreg
                 | fuel st conflict seed st' conflict' seed' Hhead IH Hstep].
  - rewrite Hver in Hver'. injection Hver' as <-.
    rewrite source_enqueue, partial_enqueue.
    pose proof (source_registerDependencies deps
                  (withPartial
                     (newSolverState (SolverSource s) (solverOptions s)
                        (TermName rootTerm))
                     (fst (seedRoot (newPartialSolution (TermName rootTerm))
                                    (TermName rootTerm) ver)))
                  (TermName rootTerm) ver) as Hsrc.
    pose proof (registerDependencies_invariant (listedDecisions s rootTerm ver)
                  listedDecisions_derivation deps
                  (withPartial
                     (newSolverState (SolverSource s) (solverOptions s)
                        (TermName rootTerm))
                     (fst (seedRoot (newPartialSolution (TermName rootTerm))
                                    (TermName rootTerm) ver)))
                  (TermName rootTerm) ver) as Hinv.
    rewrite Hreg in Hsrc, Hinv. cbn [fst] in Hsrc, Hinv.
    split; [exact Hsrc |]. apply Hinv.
    split; [apply reachable_seed |].
    intros a [<- | []] _ Hname. exfalso. apply Hname. reflexivity.
  - destruct IH as [Hsrc Hlisted]. revert Hstep. unfold solveStep.
    destruct conflict as [c |].
    + destruct (resolveConflict fuel st c) as [[st1 [pivot | e]] |] eqn:Hres;
        [| destruct e; discriminate | discriminate].
      intros [= <- _ _].
      split; [rewrite (source_resolveConflict _ _ _ _ _ Hres); exact Hsrc |].
      exact (resolveConflict_invariant (listedDecisions s rootTerm ver) listedDecisions_backtrack
               _ _ _ _ _ Hlisted Hres).
    + destruct (propagate fuel st seed) as [[st1 [[propConflict |] | e]] |] eqn:Hprop;
        [| | discriminate | discriminate].
      * intros [= <- _ _].
        split; [rewrite (source_propagate _ _ _ _ _ Hprop); exact Hsrc |].
        exact (propagate_invariant (listedDecisions s rootTerm ver) listedDecisions_derivation
                 _ _ _ _ _ Hlisted Hprop).
      * pose proof (source_propagate _ _ _ _ _ Hprop) as Hsrc1.
        rewrite Hsrc in Hsrc1.
        pose proof (propagate_invariant (listedDecisions s rootTerm ver) listedDecisions_derivation
                      _ _ _ _ _ Hlisted Hprop) as Hl1.
        destruct (isComplete (partial st1)); [discriminate |].
        destruct (nextDecisionCandidate (partial st1)) as [nextPkg |] eqn:Hnext;
          [| discriminate].
        apply nextDecisionCandidate_Some in Hnext. destruct Hnext as [Hroot Hnodec].
        unfold decisionStep.
        destruct (pickVersion st1 nextPkg) as [[v |] | e] eqn:Hpick; [| | discriminate].
        -- destruct (pickVersion_listed _ _ _ Hpick) as (versions & Hget & Hin & _).
           rewrite Hsrc1 in Hget.
           assert (Hl2 : (listedDecisions s rootTerm ver) (fst (addDecision (partial st1) nextPkg v))).
           { destruct Hl1 as [Hr Hl]. split.
             - apply reachable_decision; [exact Hr | | exact Hnodec].
               rewrite <- (reachable_root _ _ _ Hr). exact Hroot.
             - cbn [fst addDecision append assignments]. intros a Hina Hd Hname.
               apply List.in_app_or in Hina. destruct Hina as [Hina | [<- | []]].
               + exact (Hl a Hina Hd Hname).
               + exists versions. split; [exact Hget | exact Hin]. }
           destruct (addDecision (partial st1) nextPkg v) as [ps1 a]. cbn [fst] in Hl2.
           destruct (GetDependencies _ nextPkg v) as [deps | e]; [| discriminate].
           pose proof (source_registerDependencies deps (withPartial st1 ps1)
                         nextPkg v) as Hsrc2.
           pose proof (registerDependencies_invariant (listedDecisions s rootTerm ver)
                         listedDecisions_derivation deps (withPartial st1 ps1)
                         nextPkg v Hl2) as Hl3.
           destruct (registerDependencies _ nextPkg v deps)
             as [st2 [[depConflict |] | e]]; cbn [fst] in Hsrc2, Hl3;
             [| | discriminate].
           ++ intros [= <- _ _]. split; [rewrite Hsrc2; exact Hsrc1 | exact Hl3].
           ++ intros [= <- _ _]. rewrite source_enqueue, partial_enqueue.
              split; [rewrite Hsrc2; exact Hsrc1 | exact Hl3].
        -- intros [= <- _ _]. split; [exact Hsrc1 | exact Hl1].
Qed.

End CatalogOfTheRun.

(** C5, as the code has it: a successful solve returns from an
    iteration of its loop in which the propagation ends without
    conflict, and the solution is the list of the decision pairs of the
    partial solution of that moment, in the order of the log, which is
    the order the decisions were made in: one pair for each package that
    has a decision, no package twice, the pair of the root
    pseudo-package first.  No package is left pending, and every pair
    other than the one of the root has a version the catalog lists for
    its package. *)
Theorem Solve_solution_lists_decisions fuel (s : Solver V) (rootTerm : Term V) sol :
  Solve fuel s rootTerm = Some (ok sol) ->
  exists ver fuel' st seed final,
    extractDecisionVersion rootTerm = ok ver /\
    loopHead s rootTerm st None seed /\
    solveStep fuel' s st None seed = Some (stepReturn (ok sol)) /\
    propagate fuel' st seed = Some (final, ok None) /\
    reachable (TermName rootTerm) ver (partial final) /\
    pendingPackages (partial final) = [] /\
    sol = List.map decisionPair (List.filter isDecision (assignments (partial final))) /\
    NoDup (List.map NVName sol) /\
    (forall n, In n (List.map NVName sol) <-> hasDecision (partial final) n = true) /\
    List.hd_error sol = Some {| NVName := TermName rootTerm; NVVersion := ver |} /\
    (forall p, In p sol -> NVName p <> TermName rootTerm ->
               exists versions,
                 GetVersions (SolverSource s) (NVName p) = ok versions /\
                 In (NVVersion p) versions).
Proof.
  intros Hsolve.
  destruct (Solve_enters_loop _ _ _ _ Hsolve) as (ver & st0 & c0 & Hver & Hhead0 & Hloop).
  destruct (solveLoop_run s rootTerm _ _ _ _ _ _ Hhead0 Hloop)
    as (fuel' & st & conflict & seed & Hhead & Hstep).
  destruct (solveStep_solution _ _ _ _ _ _ Hstep) as (final & -> & Hprop & Hsol & Hfin).
  exists ver, fuel', st, seed, final.
  split; [exact Hver |]. split; [exact Hhead |]. split; [exact Hstep |].
  split; [exact Hprop |].
  destruct (loopHead_listed s rootTerm ver Hver _ _ _ Hhead) as [_ Hlisted].
  pose proof (propagate_invariant (listedDecisions s rootTerm ver)
                (listedDecisions_derivation s rootTerm ver)
                _ _ _ _ _ Hlisted Hprop) as [Hreach Hcatalog].
  split; [exact Hreach |].
  pose proof (reachable_wellFormed _ _ _ Hreach) as (Hlock & _).
  split; [exact (proj1 (complete_decided _ Hlock Hfin)) |].
  destruct (reachable_decisions _ _ _ Hreach) as [(later & Hlog) Hnd].
  assert (Hbuild : sol = List.map decisionPair
                           (List.filter isDecision (assignments (partial final)))).
  { rewrite Hsol. unfold buildSolution. apply buildSolutionLoop_decisions.
    - exact Hnd.
    - intros a _. apply not_elem_of_empty. }
  split; [exact Hbuild |]. split; [| split; [| split]].
  - rewrite Hbuild, List.map_map. exact Hnd.
  - intros n. rewrite (hasDecision_log _ _ Hlock), Hbuild, List.map_map. reflexivity.
  - rewrite Hbuild, Hlog. reflexivity.
  - intros p Hp Hname. rewrite Hbuild in Hp. apply List.in_map_iff in Hp.
    destruct Hp as (a & <- & Ha). apply List.filter_In in Ha. destruct Ha as [Ha Hd].
    exact (Hcatalog a Ha Hd Hname).
Qed.

End SolverRun.

(** ** The statements at concrete inputs *)

Lemma Solve_solution_lists_decisions_witness :
  Solve 100 backtrackingSolver pinnedRoot
  = Some (ok [ {| NVName := MakeName "$$root"; NVVersion := Some "1" |};
               {| NVName := MakeName "A"; NVVersion := Some "1.1.0" |};
               {| NVName := MakeName "B"; NVVersion := Some "1.0.0" |} ]) /\
  exists fuel' st seed final,
    loopHead backtrackingSolver pinnedRoot st None seed /\
    propagate fuel' st seed = Some (final, ok None) /\
    pendingPackages (partial final) = [] /\
    [ {| NVName := MakeName "$$root"; NVVersion := Some "1" |};
      {| NVName := MakeName "A"; NVVersion := Some "1.1.0" |};
      {| NVName := MakeName "B"; NVVersion := Some "1.0.0" |} ]
    = List.map decisionPair (List.filter isDecision (assignments (partial final))) /\
    (forall n, In n [MakeName "$$root"; MakeName "A"; MakeName "B"] <->
               hasDecision (partial final) n = true).
Proof.
  assert (Hsolve :
    Solve 100 backtrackingSolver pinnedRoot
    = Some (ok [ {| NVName := MakeName "$$root"; NVVersion := Some "1" |};
                 {| NVName := MakeName "A"; NVVersion := Some "1.1.0" |};
                 {| NVName := MakeName "B"; NVVersion := Some "1.0.0" |} ]))
    by (vm_compute; reflexivity).
  split; [exact Hsolve |].
  destruct (Solve_solution_lists_decisions 100 backtrackingSolver pinnedRoot _ Hsolve)
    as (ver & fuel' & st & seed & final & _ & Hhead & _ & Hprop & _ & Hpending
        & Hsol & _ & Hnames & _).
  exists fuel', st, seed, final.
  split; [exact Hhead |]. split; [exact Hprop |]. split; [exact Hpending |].
  split; [exact Hsol | exact Hnames].
Defined.

